(** * Segmented concurrent containers: a shallow embedding and its properties

    The development follows the three engines of the library:
    - [Combinable]: the per-thread accumulator of [header/combinable.hpp];
    - [Vector]: the segmented growable array [concurrent_vector];
    - [Queue]: the segmented FIFO [concurrent_queue].

    Raw storage is modelled by explicit stores (finite maps from allocation
    identifiers to nodes or cells); a pointer is an optional identifier
    ([None] is [nullptr]).  Each operation is a function from the state of
    the container to an [outcome] that carries the new state.  Every public
    operation of the vector and of the queue runs under the container's
    mutex, so one call is one atomic step of the model. *)

From Stdlib Require Import ZArith Lia.
From stdpp Require Import base tactics option list gmap fin_maps.

Local Open Scope Z_scope.

(** ** Outcomes of a call *)

Inductive exn := out_of_range | length_error.

(** A call returns normally, leaves by a C++ exception, has undefined
    behaviour (null or dangling dereference, access outside a block), or
    runs forever (the loop budget of the model is exhausted). *)
Inductive outcome (A : Type) :=
  | Ok (a : A)
  | Throw (e : exn)
  | Undefined
  | Diverge.
Arguments Ok {A} a.
Arguments Throw {A} e.
Arguments Undefined {A}.
Arguments Diverge {A}.

#[export] Instance outcome_ret : MRet outcome := fun A a => Ok a.
#[export] Instance outcome_bind : MBind outcome := fun A B f m =>
  match m with
  | Ok a => f a
  | Throw e => Throw e
  | Undefined => Undefined
  | Diverge => Diverge
  end.
#[export] Instance outcome_fmap : FMap outcome := fun A B f m =>
  match m with
  | Ok a => Ok (f a)
  | Throw e => Throw e
  | Undefined => Undefined
  | Diverge => Diverge
  end.

(** Dereferencing the result of a store lookup: a missing node is a
    dangling or null pointer. *)
Definition deref {A} (o : option A) : outcome A :=
  match o with
  | Some a => Ok a
  | None => Undefined
  end.

(** ** Unsigned 64-bit sizes *)

Definition size_limit : Z := 2 ^ 64 - 1.
Definition wrap (z : Z) : Z := z mod 2 ^ 64.

(** [impl::Min_segment_size_eval]: the minimum block length by size class. *)
Definition Min_segment_size_eval (sizeof_EvalType : Z) : Z :=
  if 32 <=? sizeof_EvalType then 8
  else if 16 <=? sizeof_EvalType then 16
  else 32.

(** ** Element storage

    What [std::allocator< Type >] hands out: blocks of cells.  A pointer to
    an element is a block identifier and an offset; [None] is [nullptr]. *)

Definition address : Type := nat * Z.
Definition pointer : Type := option address.

Section memory.
Context {Type_ : Type}.

(** [blocks] maps every live block to its length, [cells] holds the
    constructed elements. *)
Record memory := {
  cells : gmap address Type_;
  blocks : gmap nat Z;
  next_block : nat
}.

Definition no_memory : memory :=
  {| cells := ∅; blocks := ∅; next_block := 0 |}.

(** [allocate(n)]: a new block of [n] cells, none of them constructed. *)
Definition allocate (n : Z) (m : memory) : pointer * memory :=
  (Some (next_block m, 0),
   {| cells := cells m;
      blocks := <[next_block m := n]> (blocks m);
      next_block := S (next_block m) |}).

Definition in_block (m : memory) (a : address) : bool :=
  match blocks m !! a.1 with
  | Some n => (0 <=? a.2) && (a.2 <? n)
  | None => false
  end.

(** [construct(p, x)] and assignment through [p]. *)
Definition construct (p : pointer) (x : Type_) (m : memory) : outcome memory :=
  match p with
  | Some a =>
      if in_block m a
      then Ok {| cells := <[a := x]> (cells m); blocks := blocks m;
                 next_block := next_block m |}
      else Undefined
  | None => Undefined
  end.

(** [destroy(p)]. *)
Definition destroy (p : pointer) (m : memory) : outcome memory :=
  match p with
  | Some a =>
      if in_block m a
      then Ok {| cells := delete a (cells m); blocks := blocks m;
                 next_block := next_block m |}
      else Undefined
  | None => Undefined
  end.

(** Reading [*p]: the cell must hold a constructed element. *)
Definition load (p : pointer) (m : memory) : outcome Type_ :=
  match p with
  | Some a => if in_block m a then deref (cells m !! a) else Undefined
  | None => Undefined
  end.

(** [deallocate(p, n)]: [p] must be the start of a live block. *)
Definition deallocate (p : pointer) (m : memory) : outcome memory :=
  match p with
  | Some (b, o) =>
      if decide (o = 0 /\ is_Some (blocks m !! b))
      then Ok {| cells := filter (fun kv => kv.1.1 <> b) (cells m);
                 blocks := delete b (blocks m);
                 next_block := next_block m |}
      else Undefined
  | None => Ok m
  end.

End memory.
Arguments memory : clear implicits.

(** Pointer arithmetic stays inside one block. *)
Definition ptr_add (p : pointer) (k : Z) : outcome pointer :=
  match p with
  | Some (b, o) => Ok (Some (b, o + k))
  | None => if decide (k = 0) then Ok None else Undefined
  end.

Definition ptr_diff (p q : pointer) : outcome Z :=
  match p, q with
  | Some (b, o), Some (b', o') => if decide (b = b') then Ok (o - o') else Undefined
  | None, None => Ok 0
  | _, _ => Undefined
  end.

(** ** The combinable engine *)

Module Combinable.

Definition thread_id := nat.

Section combinable.
Context {value_type : Type}.
(** [value_type {}], the template parameter [ThreadCount] and
    [std::hash< std::thread::id >]. *)
Context (value_init : value_type) (ThreadCount : Z) (hash : thread_id -> Z).

Record Storage := {
  mThreadID : thread_id;
  mValue : value_type;
  nextStorage : option nat
}.

Definition Bucket_size_eval (Count : Z) : Z :=
  if 8 >? Count / 8 then 8 else Count / 8.

Definition Min_size : Z := Bucket_size_eval ThreadCount.

(** [mBuckets] is the array of bucket heads; [storage] holds the nodes
    obtained from [std::allocator< Storage >] and not yet given back. *)
Record combinable := {
  mBuckets : list (option nat);
  storage : gmap nat Storage;
  next_storage : nat
}.

(** [combinable()]: every bucket is [nullptr]. *)
Definition create : combinable :=
  {| mBuckets := replicate (Z.to_nat Min_size) None;
     storage := ∅;
     next_storage := 0 |}.

(** The [while (storage_unit)] loop of [Delete_storage_units_in_bucket_ptr]:
    read the link of the unit, then give the unit back. *)
Fixpoint Delete_loop (fuel : nat) (storage_unit : option nat)
    (st : gmap nat Storage) : outcome (gmap nat Storage) :=
  match storage_unit with
  | None => Ok st
  | Some delete_unit =>
      s ← deref (st !! delete_unit);
      match fuel with
      | O => Diverge
      | S fuel' => Delete_loop fuel' (nextStorage s) (delete delete_unit st)
      end
  end.

(** [Delete_storage_units_in_bucket_ptr(Storage* bucket)]: the parameter
    is a copy of the array element, so [bucket = nullptr] assigns the
    copy; the function can only change the store of nodes. *)
Definition Delete_storage_units_in_bucket_ptr (bucket : option nat)
    (st : gmap nat Storage) : outcome (gmap nat Storage) :=
  let storage_unit := bucket in
  let bucket : option nat := None in
  Delete_loop (size st) storage_unit st.

(** [Finalise]: one call per element of [mBuckets], in array order. *)
Fixpoint Finalise_loop (buckets : list (option nat))
    (st : gmap nat Storage) : outcome (gmap nat Storage) :=
  match buckets with
  | [] => Ok st
  | bucket :: rest =>
      st' ← Delete_storage_units_in_bucket_ptr bucket st;
      Finalise_loop rest st'
  end.

Definition Finalise (c : combinable) : outcome combinable :=
  st ← Finalise_loop (mBuckets c) (storage c);
  Ok {| mBuckets := mBuckets c; storage := st;
        next_storage := next_storage c |}.

Definition clear (c : combinable) : outcome combinable := Finalise c.

(** The [while (current_unit)] loop of [Get_local_storage_unit]; its body
    returns on a match and otherwise leaves [current_unit] as it is. *)
Fixpoint Get_local_loop (fuel : nat) (c : combinable) (id : thread_id)
    (current_unit : option nat) (bucket_index : nat)
    : outcome (option nat * nat) :=
  match current_unit with
  | None => Ok (None, bucket_index)
  | Some p =>
      s ← deref (storage c !! p);
      if decide (mThreadID s = id) then Ok (Some p, bucket_index)
      else match fuel with
           | O => Diverge
           | S fuel' => Get_local_loop fuel' c id current_unit bucket_index
           end
  end.

Definition Get_local_storage_unit (fuel : nat) (id : thread_id)
    (c : combinable) : outcome (option nat * nat) :=
  let bucket_index := Z.to_nat (wrap (hash id) mod Min_size) in
  current_unit ← deref (mBuckets c !! bucket_index);
  Get_local_loop fuel c id current_unit bucket_index.

Definition Add_local_storage_unit (id : thread_id) (bucket_index : nat)
    (c : combinable) : outcome (nat * combinable) :=
  bucket ← deref (mBuckets c !! bucket_index);
  let new_storage := next_storage c in
  Ok (new_storage,
      {| mBuckets := <[bucket_index := Some new_storage]> (mBuckets c);
         storage := <[new_storage :=
                        {| mThreadID := id; mValue := value_init;
                           nextStorage := bucket |}]> (storage c);
         next_storage := S new_storage |}).

(** [local(bool& exists)] for the calling thread [id]: the unit whose
    [mValue] is returned, the flag, and the new state. *)
Definition local_exists (fuel : nat) (id : thread_id) (c : combinable)
    : outcome (nat * bool * combinable) :=
  '(storage_unit, bucket_index) ← Get_local_storage_unit fuel id c;
  match storage_unit with
  | None =>
      '(unit, c') ← Add_local_storage_unit id bucket_index c;
      Ok (unit, false, c')
  | Some unit => Ok (unit, true, c)
  end.

(** [local()]. *)
Definition local (fuel : nat) (id : thread_id) (c : combinable)
    : outcome (nat * combinable) :=
  '(storage_unit, bucket_index) ← Get_local_storage_unit fuel id c;
  match storage_unit with
  | None => Add_local_storage_unit id bucket_index c
  | Some unit => Ok (unit, c)
  end.

(** The loop [while (unit) { ... func(..., unit->mValue) ...;
    unit = unit->nextStorage; }] that [combine] (twice) and [combine_each]
    run over the chain of a bucket; [acc] is what the functor has built so
    far. *)
Fixpoint for_each_unit {A : Type} (fuel : nat) (func : A -> value_type -> A)
    (st : gmap nat Storage) (storage_unit : option nat) (acc : A)
    : outcome A :=
  match storage_unit with
  | None => Ok acc
  | Some p =>
      s ← deref (st !! p);
      match fuel with
      | O => Diverge
      | S fuel' => for_each_unit fuel' func st (nextStorage s) (func acc (mValue s))
      end
  end.

(** The first range-for of [combine]: look for the first initialised
    bucket, counting the buckets visited. *)
Fixpoint combine_first (buckets : list (option nat)) (starting_index : Z)
    : option nat * Z :=
  match buckets with
  | [] => (None, starting_index)
  | bucket :: rest =>
      let starting_index := wrap (starting_index + 1) in
      match bucket with
      | Some _ => (bucket, starting_index)
      | None => combine_first rest starting_index
      end
  end.

(** [for (; starting_index < Min_size; ++starting_index)] of [combine]. *)
Fixpoint combine_rest (count : nat)
    (func : value_type -> value_type -> value_type) (c : combinable)
    (starting_index : Z) (result : value_type) : outcome value_type :=
  match count with
  | O => Ok result
  | S count' =>
      starting_storage ← deref (mBuckets c !! Z.to_nat starting_index);
      result ← for_each_unit (size (storage c)) func (storage c)
                 starting_storage result;
      combine_rest count' func c (wrap (starting_index + 1)) result
  end.

(** [combine(func)]. *)
Definition combine (func : value_type -> value_type -> value_type)
    (c : combinable) : outcome value_type :=
  let '(starting_storage, starting_index) := combine_first (mBuckets c) 0 in
  match starting_storage with
  | None => Ok value_init
  | Some p =>
      s ← deref (storage c !! p);
      let result := mValue s in
      result ← for_each_unit (size (storage c)) func (storage c)
                 (nextStorage s) result;
      combine_rest (Z.to_nat (Min_size - starting_index)) func c
        starting_index result
  end.

(** [combine_each(func)]: the functor returns nothing; [acc] is the state
    it acts on. *)
Fixpoint combine_each_loop {A : Type} (buckets : list (option nat))
    (func : A -> value_type -> A) (st : gmap nat Storage) (acc : A)
    : outcome A :=
  match buckets with
  | [] => Ok acc
  | bucket :: rest =>
      acc ← for_each_unit (size st) func st bucket acc;
      combine_each_loop rest func st acc
  end.

Definition combine_each {A : Type} (func : A -> value_type -> A) (acc : A)
    (c : combinable) : outcome A :=
  combine_each_loop (mBuckets c) func (storage c) acc.

(** [local()] called by each thread of a list, in turn. *)
Fixpoint local_each (fuel : nat) (ids : list thread_id) (c : combinable)
    : outcome combinable :=
  match ids with
  | [] => Ok c
  | id :: rest =>
      '(_, c') ← local fuel id c;
      local_each fuel rest c'
  end.

End combinable.
End Combinable.

(** ** The segmented vector *)

Module Vector.

(** A [Data_Segment*]: the address of the member [mSegment], or a node
    obtained from [mSegmentAllocator]. *)
Inductive seg_ref := Head | Node (n : nat).

#[export] Instance seg_ref_eq_dec : EqDecision seg_ref.
Proof. solve_decision. Defined.

Module Data_Segment.
Record t := {
  mBegin : pointer;
  mCurrent : pointer;
  mEnd : pointer;
  mSegBefore : option seg_ref;
  mSegAfter : option seg_ref
}.

Definition null : t :=
  {| mBegin := None; mCurrent := None; mEnd := None;
     mSegBefore := None; mSegAfter := None |}.

Definition set_mCurrent (p : pointer) (s : t) : t :=
  {| mBegin := mBegin s; mCurrent := p; mEnd := mEnd s;
     mSegBefore := mSegBefore s; mSegAfter := mSegAfter s |}.

Definition set_mSegAfter (r : option seg_ref) (s : t) : t :=
  {| mBegin := mBegin s; mCurrent := mCurrent s; mEnd := mEnd s;
     mSegBefore := mSegBefore s; mSegAfter := r |}.
End Data_Segment.

Section vector.
Context {Type_ : Type}.
(** [sizeof(Type)]. *)
Context (sizeof_Type : Z).

Definition Min_segment_size : Z := Min_segment_size_eval sizeof_Type.

(** The members of [concurrent_vector]; [mAllocator] and
    [mSegmentAllocator] stand for the storage obtained from them. *)
Record concurrent_vector := {
  mSegment : Data_Segment.t;
  mCurrent : option seg_ref;
  mEnd : option seg_ref;
  mAllocator : memory Type_;
  mSegmentAllocator : gmap nat Data_Segment.t;
  next_segment : nat
}.

(** [concurrent_vector()]. *)
Definition create : concurrent_vector :=
  {| mSegment := Data_Segment.null;
     mCurrent := Some Head;
     mEnd := Some Head;
     mAllocator := no_memory;
     mSegmentAllocator := ∅;
     next_segment := 0 |}.

Definition with_mCurrent (r : option seg_ref) (v : concurrent_vector) :=
  {| mSegment := mSegment v; mCurrent := r; mEnd := mEnd v;
     mAllocator := mAllocator v; mSegmentAllocator := mSegmentAllocator v;
     next_segment := next_segment v |}.

Definition with_mEnd (r : option seg_ref) (v : concurrent_vector) :=
  {| mSegment := mSegment v; mCurrent := mCurrent v; mEnd := r;
     mAllocator := mAllocator v; mSegmentAllocator := mSegmentAllocator v;
     next_segment := next_segment v |}.

Definition with_mAllocator (m : memory Type_) (v : concurrent_vector) :=
  {| mSegment := mSegment v; mCurrent := mCurrent v; mEnd := mEnd v;
     mAllocator := m; mSegmentAllocator := mSegmentAllocator v;
     next_segment := next_segment v |}.

(** Reading and writing through a [Data_Segment*]. *)
Definition get_segment (r : seg_ref) (v : concurrent_vector)
    : outcome Data_Segment.t :=
  match r with
  | Head => Ok (mSegment v)
  | Node n => deref (mSegmentAllocator v !! n)
  end.

Definition set_segment (r : seg_ref) (s : Data_Segment.t)
    (v : concurrent_vector) : concurrent_vector :=
  match r with
  | Head =>
      {| mSegment := s; mCurrent := mCurrent v; mEnd := mEnd v;
         mAllocator := mAllocator v;
         mSegmentAllocator := mSegmentAllocator v;
         next_segment := next_segment v |}
  | Node n =>
      {| mSegment := mSegment v; mCurrent := mCurrent v; mEnd := mEnd v;
         mAllocator := mAllocator v;
         mSegmentAllocator := <[n := s]> (mSegmentAllocator v);
         next_segment := next_segment v |}
  end.

Definition segment_at (p : option seg_ref) (v : concurrent_vector)
    : outcome Data_Segment.t :=
  r ← deref p; get_segment r v.

(** [static_cast< size_type >(s.mCurrent - s.mBegin)] and
    [static_cast< size_type >(s.mEnd - s.mBegin)]. *)
Definition used_of (s : Data_Segment.t) : outcome Z :=
  d ← ptr_diff (Data_Segment.mCurrent s) (Data_Segment.mBegin s); Ok (wrap d).

Definition length_of (s : Data_Segment.t) : outcome Z :=
  d ← ptr_diff (Data_Segment.mEnd s) (Data_Segment.mBegin s); Ok (wrap d).

(** A walk along [mSegAfter] that has entered a loop body more often than
    there are segments is on a cycle and never ends. *)
Definition budget (v : concurrent_vector) : nat :=
  S (S (size (mSegmentAllocator v))).

(** [Get_size]: the [do ... while (iter && iter != mCurrent)] loop and the
    [if (iter)] after it. *)
Fixpoint Get_size_loop (fuel : nat) (v : concurrent_vector) (result : Z)
    (iter : seg_ref) : outcome Z :=
  match fuel with
  | O => Diverge
  | S fuel' =>
      s ← get_segment iter v;
      n ← used_of s;
      let result := wrap (result + n) in
      match Data_Segment.mSegAfter s with
      | None => Ok result
      | Some iter' =>
          if decide (Some iter' = mCurrent v)
          then s' ← get_segment iter' v;
               n' ← used_of s';
               Ok (wrap (result + n'))
          else Get_size_loop fuel' v result iter'
      end
  end.

Definition Get_size (v : concurrent_vector) : outcome Z :=
  Get_size_loop (budget v) v 0 Head.

(** [Get_capacity]: [do ... while (iter)]. *)
Fixpoint Get_capacity_loop (fuel : nat) (v : concurrent_vector) (result : Z)
    (iter : seg_ref) : outcome Z :=
  match fuel with
  | O => Diverge
  | S fuel' =>
      s ← get_segment iter v;
      n ← length_of s;
      let result := wrap (result + n) in
      match Data_Segment.mSegAfter s with
      | None => Ok result
      | Some iter' => Get_capacity_loop fuel' v result iter'
      end
  end.

Definition Get_capacity (v : concurrent_vector) : outcome Z :=
  Get_capacity_loop (budget v) v 0 Head.

(** [Get_value_at]: the [for (;;)] walk; it dereferences
    [target_segment] without a null test. *)
Fixpoint Get_value_at_loop (fuel : nat) (v : concurrent_vector) (index : Z)
    (target_segment : option seg_ref) : outcome address :=
  match fuel with
  | O => Diverge
  | S fuel' =>
      s ← segment_at target_segment v;
      segment_size ← length_of s;
      if index <? segment_size
      then p ← ptr_add (Data_Segment.mBegin s) index; deref p
      else Get_value_at_loop fuel' v (index - segment_size)
             (Data_Segment.mSegAfter s)
  end.

Definition Get_value_at (index : Z) (v : concurrent_vector) : outcome address :=
  Get_value_at_loop (budget v) v index (Some Head).

(** [Adjust_segments_and_get_last_address_for]: the [while (target_segment)]
    walk, then the [for] loop over the segments behind the target. *)
Fixpoint Adjust_walk (fuel : nat) (v : concurrent_vector) (index : Z)
    (target_segment : option seg_ref)
    : outcome (option seg_ref * concurrent_vector) :=
  match fuel with
  | O => Diverge
  | S fuel' =>
      match target_segment with
      | None => Ok (None, v)
      | Some r =>
          s ← get_segment r v;
          segment_size ← length_of s;
          if index <? segment_size
          then p ← ptr_add (Data_Segment.mBegin s) index;
               Ok (Some r, set_segment r (Data_Segment.set_mCurrent p s) v)
          else
            Adjust_walk fuel'
              (set_segment r
                 (Data_Segment.set_mCurrent (Data_Segment.mEnd s) s) v)
              (index - segment_size) (Data_Segment.mSegAfter s)
      end
  end.

Fixpoint Adjust_reset (fuel : nat) (v : concurrent_vector)
    (reseted_segments : option seg_ref) : outcome concurrent_vector :=
  match fuel with
  | O => Diverge
  | S fuel' =>
      match reseted_segments with
      | None => Ok v
      | Some r =>
          s ← get_segment r v;
          Adjust_reset fuel'
            (set_segment r
               (Data_Segment.set_mCurrent (Data_Segment.mBegin s) s) v)
            (Data_Segment.mSegAfter s)
      end
  end.

Definition Adjust_segments_and_get_last_address_for (index : Z)
    (v : concurrent_vector) : outcome (option seg_ref * concurrent_vector) :=
  '(target_segment, v1) ← Adjust_walk (budget v) v index (Some Head);
  match target_segment with
  | Some r =>
      s ← get_segment r v1;
      v2 ← Adjust_reset (budget v) v1 (Data_Segment.mSegAfter s);
      Ok (target_segment, v2)
  | None => Ok (None, v1)
  end.

(** [Append_new_segment]: storage for the member segment when it has none
    and is the current one; otherwise a new node linked behind [mCurrent]. *)
Definition Append_new_segment (seg_size : Z) (v : concurrent_vector)
    : outcome concurrent_vector :=
  if decide (mCurrent v = Some Head /\ Data_Segment.mBegin (mSegment v) = None)
  then
    let '(newBegin, mem) := allocate seg_size (mAllocator v) in
    newEnd ← ptr_add newBegin seg_size;
    Ok {| mSegment :=
            {| Data_Segment.mBegin := newBegin;
               Data_Segment.mCurrent := newBegin;
               Data_Segment.mEnd := newEnd;
               Data_Segment.mSegBefore := None;
               Data_Segment.mSegAfter := None |};
          mCurrent := mCurrent v; mEnd := mEnd v;
          mAllocator := mem;
          mSegmentAllocator := mSegmentAllocator v;
          next_segment := next_segment v |}
  else
    let newSegment := next_segment v in
    let '(newBegin, mem) := allocate seg_size (mAllocator v) in
    newEnd ← ptr_add newBegin seg_size;
    let v1 :=
      {| mSegment := mSegment v; mCurrent := mCurrent v; mEnd := mEnd v;
         mAllocator := mem;
         mSegmentAllocator :=
           <[newSegment :=
               {| Data_Segment.mBegin := newBegin;
                  Data_Segment.mCurrent := newBegin;
                  Data_Segment.mEnd := newEnd;
                  Data_Segment.mSegBefore := mCurrent v;
                  Data_Segment.mSegAfter := None |}]> (mSegmentAllocator v);
         next_segment := S newSegment |} in
    current ← deref (mCurrent v1);
    s ← get_segment current v1;
    let v2 :=
      set_segment current
        (Data_Segment.set_mSegAfter (Some (Node newSegment)) s) v1 in
    Ok (with_mEnd (Some (Node newSegment)) v2).

Definition max_size : Z := size_limit.

(** [Check_size< size_type >]: [std::size_t] and [size_type] have the same
    width, the test is kept as written. *)
Definition Check_size (size : Z) : outcome Z :=
  if size >? size_limit then Throw length_error else Ok size.

(** [Calculate_new_capacity]: the pair (new capacity, current capacity). *)
Definition Calculate_new_capacity (new_size : Z) (v : concurrent_vector)
    : outcome (Z * Z) :=
  current_capacity ← Get_capacity v;
  let size_limit := max_size in
  if current_capacity >? size_limit - current_capacity / 2
  then Ok (size_limit, current_capacity)
  else
    let Size := wrap (current_capacity + current_capacity / 2) in
    if Size <? new_size
    then Ok (new_size, current_capacity)
    else Ok (Size, current_capacity).

Definition Calculate_new_segment_size (new_capacity : Z)
    (v : concurrent_vector) : outcome Z :=
  '(new_capacity_, current_capacity) ← Calculate_new_capacity new_capacity v;
  Ok (Z.max Min_segment_size (wrap (new_capacity_ - current_capacity))).

(** [Move_backward_n(target, first, last)] on iterators, which are
    indices: while [first != last], both [target] and [last] step back
    and the element at [last] is moved to [target].  The indices are
    [size_type]s, so the loop runs [wrap (last - first)] times. *)
Fixpoint Move_backward_loop (count : nat) (target last : Z)
    (v : concurrent_vector) : outcome concurrent_vector :=
  match count with
  | O => Ok v
  | S count' =>
      let target := wrap (target - 1) in
      let last := wrap (last - 1) in
      src ← Get_value_at last v;
      x ← load (Some src) (mAllocator v);
      dst ← Get_value_at target v;
      mem ← construct (Some dst) x (mAllocator v);
      Move_backward_loop count' target last (with_mAllocator mem v)
  end.

Definition Move_backward_n (target first last : Z) (v : concurrent_vector)
    : outcome concurrent_vector :=
  Move_backward_loop (Z.to_nat (wrap (last - first))) target last v.

(** [Emplace_at_without_reallocation(location, args...)]; an iterator is
    turned into an address by [Get_value_at]. *)
Definition Emplace_at_without_reallocation (location : Z) (x : Type_)
    (v : concurrent_vector) : outcome (address * concurrent_vector) :=
  end_index ← Get_size v;
  v' ← (if decide (location = end_index)
        then
          p ← Get_value_at location v;
          mem ← construct (Some p) x (mAllocator v);
          Ok (with_mAllocator mem v)
        else
          let before_end := wrap (end_index - 1) in
          src ← Get_value_at before_end v;
          y ← load (Some src) (mAllocator v);
          dst ← Get_value_at end_index v;
          mem ← construct (Some dst) y (mAllocator v);
          v1 ← Move_backward_n end_index location before_end
                 (with_mAllocator mem v);
          p ← Get_value_at location v1;
          mem' ← construct (Some p) x (mAllocator v1);
          Ok (with_mAllocator mem' v1));
  result ← Get_value_at location v';
  Ok (result, v').

(** [mCurrent->mCurrent++]. *)
Definition advance_current (v : concurrent_vector) : outcome concurrent_vector :=
  r ← deref (mCurrent v);
  s ← get_segment r v;
  p ← ptr_add (Data_Segment.mCurrent s) 1;
  Ok (set_segment r (Data_Segment.set_mCurrent p s) v).

(** [Emplace_back_with_reallocation]. *)
Definition Emplace_back_with_reallocation (x : Type_) (v : concurrent_vector)
    : outcome (address * concurrent_vector) :=
  current_size ← Get_size v;
  if decide (current_size = max_size) then Throw length_error
  else
    let new_size := wrap (current_size + 1) in
    new_segment_size ← Calculate_new_segment_size new_size v;
    v1 ← Append_new_segment new_segment_size v;
    v2 ← (if decide (current_size <> 0)
          then s ← segment_at (mCurrent v1) v1;
               Ok (with_mCurrent (Data_Segment.mSegAfter s) v1)
          else Ok v1);
    s ← segment_at (mCurrent v2) v2;
    mem ← construct (Data_Segment.mCurrent s) x (mAllocator v2);
    v3 ← advance_current (with_mAllocator mem v2);
    size' ← Get_size v3;
    result ← Get_value_at (wrap (size' - 1)) v3;
    Ok (result, v3).

(** [emplace_back]: the element's address and the new state. *)
Definition emplace_back (x : Type_) (v : concurrent_vector)
    : outcome (address * concurrent_vector) :=
  room ← (if decide (mCurrent v <> mEnd v) then Ok true
          else s ← segment_at (mCurrent v) v;
               Ok (bool_decide (Data_Segment.mCurrent s <> Data_Segment.mEnd s)));
  if room : bool then
    location ← Get_size v;
    '(result, v1) ← Emplace_at_without_reallocation location x v;
    v2 ← advance_current v1;
    Ok (result, v2)
  else Emplace_back_with_reallocation x v.

Definition push_back (x : Type_) (v : concurrent_vector)
    : outcome concurrent_vector :=
  '(_, v') ← emplace_back x v; Ok v'.

(** A sequence of [push_back] calls, in list order. *)
Fixpoint push_back_all (xs : list Type_) (v : concurrent_vector)
    : outcome concurrent_vector :=
  match xs with
  | [] => Ok v
  | x :: xs' => v' ← push_back x v; push_back_all xs' v'
  end.

(** [Fill_n(target, count, val)] with an iterator as target. *)
Fixpoint Fill_n (target : Z) (count : nat) (val : Type_)
    (v : concurrent_vector) : outcome concurrent_vector :=
  match count with
  | O => Ok v
  | S count' =>
      p ← Get_value_at target v;
      mem ← construct (Some p) val (mAllocator v);
      Fill_n (wrap (target + 1)) count' val (with_mAllocator mem v)
  end.

(** [grow_by(count, value)]. *)
Definition grow_by (count : Z) (value : Type_) (v : concurrent_vector)
    : outcome concurrent_vector :=
  current_size ← Get_size v;
  let new_size := wrap (current_size + count) in
  _ ← Check_size new_size;
  current_capacity ← Get_capacity v;
  v1 ← (if new_size >? current_capacity
        then seg_size ← Calculate_new_segment_size new_size v;
             Append_new_segment seg_size v
        else Ok v);
  let newCurrent := new_size in
  end_index ← Get_size v1;
  v2 ← Fill_n end_index (Z.to_nat count) value v1;
  '(target, v3) ← Adjust_segments_and_get_last_address_for newCurrent v2;
  Ok (with_mCurrent target v3).

(** [at(pos)]: the address of the element, or [std::out_of_range]; the
    state is returned as the call leaves it. *)
Definition at_ (pos : Z) (v : concurrent_vector)
    : outcome (address * concurrent_vector) :=
  size ← Get_size v;
  if size <=? pos then Throw out_of_range
  else r ← Get_value_at pos v; Ok (r, v).

(** [operator[](pos)]. *)
Definition subscript (pos : Z) (v : concurrent_vector)
    : outcome (address * concurrent_vector) :=
  r ← Get_value_at pos v; Ok (r, v).

(** [operator=(concurrent_vector &&rhs)] and
    [operator=(std::initializer_list< Type >)]: both bodies are
    [return *this;].  The results are the target and, for the first, the
    source after the call. *)
Definition assign_move (this rhs : concurrent_vector)
    : outcome (concurrent_vector * concurrent_vector) :=
  Ok (this, rhs).

Definition assign_initializer_list (this : concurrent_vector)
    (iList : list Type_) : outcome concurrent_vector :=
  Ok this.

(** The number of segment nodes obtained from [mSegmentAllocator] and of
    storage blocks obtained from [mAllocator] that the vector holds. *)
Definition segment_nodes (v : concurrent_vector) : nat :=
  size (mSegmentAllocator v).

Definition storage_blocks (v : concurrent_vector) : nat :=
  size (blocks (mAllocator v)).

(** [size()] and reading an element through [operator[]]. *)
Definition size_ (v : concurrent_vector) : outcome Z := Get_size v.

Definition read (pos : Z) (v : concurrent_vector) : outcome Type_ :=
  a ← Get_value_at pos v; load (Some a) (mAllocator v).

(** [reserve(new_cap)]. *)
Definition reserve (new_cap : Z) (v : concurrent_vector)
    : outcome concurrent_vector :=
  current_capacity ← Get_capacity v;
  if new_cap >? current_capacity then Append_new_segment new_cap v
  else Ok v.

(** [Destruct(first, last)] on iterators: [destroy] at every index from
    [first] up to [last].  The indices are [size_type]s and the loop tests
    [first != last], so it runs [wrap (last - first)] times. *)
Fixpoint Destruct_loop (count : nat) (first : Z) (v : concurrent_vector)
    : outcome concurrent_vector :=
  match count with
  | O => Ok v
  | S count' =>
      p ← Get_value_at first v;
      mem ← destroy (Some p) (mAllocator v);
      Destruct_loop count' (wrap (first + 1)) (with_mAllocator mem v)
  end.

Definition Destruct (first last : Z) (v : concurrent_vector)
    : outcome concurrent_vector :=
  Destruct_loop (Z.to_nat (wrap (last - first))) first v.

(** [clear()]: [Destruct(begin(), End())], then the cursors are set for
    size 0. *)
Definition clear (v : concurrent_vector) : outcome concurrent_vector :=
  end_index ← Get_size v;
  v1 ← Destruct 0 end_index v;
  '(target, v2) ← Adjust_segments_and_get_last_address_for 0 v1;
  Ok (with_mCurrent target v2).

(** [Allocate_new_n(new_cap)]: one block for the member segment, which
    becomes the only segment. *)
Definition Allocate_new_n (new_cap : Z) (v : concurrent_vector)
    : outcome concurrent_vector :=
  _ ← Check_size new_cap;
  let '(new_vec, mem) := allocate new_cap (mAllocator v) in
  newEnd ← ptr_add new_vec new_cap;
  Ok {| mSegment :=
          {| Data_Segment.mBegin := new_vec;
             Data_Segment.mCurrent := new_vec;
             Data_Segment.mEnd := newEnd;
             Data_Segment.mSegBefore := None;
             Data_Segment.mSegAfter := None |};
        mCurrent := Some Head; mEnd := Some Head;
        mAllocator := mem;
        mSegmentAllocator := mSegmentAllocator v;
        next_segment := next_segment v |}.

(** [Fill_n(target, count, val)] and [Copy_n(target, first, last)] with a
    pointer as target; the source range of [Copy_n] is given as the list
    of its values. *)
Fixpoint Fill_n_pointer (target : pointer) (count : nat) (val : Type_)
    (m : memory Type_) : outcome (memory Type_) :=
  match count with
  | O => Ok m
  | S count' =>
      m' ← construct target val m;
      target' ← ptr_add target 1;
      Fill_n_pointer target' count' val m'
  end.

Fixpoint Copy_n_pointer (target : pointer) (range : list Type_)
    (m : memory Type_) : outcome (memory Type_) :=
  match range with
  | [] => Ok m
  | x :: range' =>
      m' ← construct target x m;
      target' ← ptr_add target 1;
      Copy_n_pointer target' range' m'
  end.

(** [mCurrent->mCurrent += count]. *)
Definition advance_current_by (count : Z) (v : concurrent_vector)
    : outcome concurrent_vector :=
  r ← deref (mCurrent v);
  s ← get_segment r v;
  p ← ptr_add (Data_Segment.mCurrent s) count;
  Ok (set_segment r (Data_Segment.set_mCurrent p s) v).

(** [Construct_in_place_n(count, val)]. *)
Definition Construct_in_place_n (count : Z) (val : Type_)
    (v : concurrent_vector) : outcome concurrent_vector :=
  if decide (count <> 0) then
    v1 ← Allocate_new_n count v;
    s ← segment_at (mCurrent v1) v1;
    mem ← Fill_n_pointer (Data_Segment.mCurrent s) (Z.to_nat count) val
            (mAllocator v1);
    advance_current_by count (with_mAllocator mem v1)
  else Ok v.

(** [Do_in_place_n< copy_in_place >(count, first, last)]. *)
Definition Do_in_place_n (count : Z) (range : list Type_)
    (v : concurrent_vector) : outcome concurrent_vector :=
  if decide (count <> 0) then
    v1 ← Allocate_new_n count v;
    s ← segment_at (mCurrent v1) v1;
    mem ← Copy_n_pointer (Data_Segment.mCurrent s) range (mAllocator v1);
    advance_current_by count (with_mAllocator mem v1)
  else Ok v.

(** [Construct_range(first, last, std::forward_iterator_tag)]. *)
Definition Construct_range (range : list Type_) (v : concurrent_vector)
    : outcome concurrent_vector :=
  count ← Check_size (Z.of_nat (length range));
  Do_in_place_n count range v.

(** [concurrent_vector(size_type count, const Type &value)] and
    [concurrent_vector(std::initializer_list< Type > init)]. *)
Definition create_n (count : Z) (value : Type_) : outcome concurrent_vector :=
  Construct_in_place_n count value create.

Definition create_from (init : list Type_) : outcome concurrent_vector :=
  Construct_range init create.

(** [Destruct_contiguous(first, last)]: the loop
    [for (; begin_ != current_; ++begin_)] over two pointers into one
    block; it ends only when [first] is not behind [last]. *)
Fixpoint Destruct_contiguous_loop (count : nat) (begin_ : pointer)
    (m : memory Type_) : outcome (memory Type_) :=
  match count with
  | O => Ok m
  | S count' =>
      m' ← destroy begin_ m;
      p ← ptr_add begin_ 1;
      Destruct_contiguous_loop count' p m'
  end.

Definition Destruct_contiguous (first last : pointer) (m : memory Type_)
    : outcome (memory Type_) :=
  d ← ptr_diff last first;
  if d <? 0 then Undefined
  else Destruct_contiguous_loop (Z.to_nat d) first m.

(** [Finalise_no_lock]: the [while (segment_tracker)] walk from [mEnd]
    back along [mSegBefore]; a segment that has a predecessor is given
    back to [mSegmentAllocator], which must not happen to the member
    [mSegment]. *)
Fixpoint Finalise_loop (fuel : nat) (segment_tracker : option seg_ref)
    (v : concurrent_vector) : outcome concurrent_vector :=
  match segment_tracker with
  | None => Ok v
  | Some r =>
      match fuel with
      | O => Diverge
      | S fuel' =>
          s ← get_segment r v;
          mem ← Destruct_contiguous (Data_Segment.mBegin s)
                  (Data_Segment.mCurrent s) (mAllocator v);
          _ ← length_of s;
          mem ← deallocate (Data_Segment.mBegin s) mem;
          let v1 :=
            set_segment r
              {| Data_Segment.mBegin := None;
                 Data_Segment.mCurrent := None;
                 Data_Segment.mEnd := None;
                 Data_Segment.mSegBefore := Data_Segment.mSegBefore s;
                 Data_Segment.mSegAfter := None |}
              (with_mAllocator mem v) in
          let delete_segment :=
            match Data_Segment.mSegBefore s with
            | Some _ => Some r
            | None => None
            end in
          let segment_tracker := Data_Segment.mSegBefore s in
          v2 ← match delete_segment with
               | Some (Node n) =>
                   Ok {| mSegment := mSegment v1; mCurrent := mCurrent v1;
                         mEnd := mEnd v1; mAllocator := mAllocator v1;
                         mSegmentAllocator := delete n (mSegmentAllocator v1);
                         next_segment := next_segment v1 |}
               | Some Head => Undefined
               | None => Ok v1
               end;
          Finalise_loop fuel' segment_tracker v2
      end
  end.

Definition Finalise_no_lock (v : concurrent_vector)
    : outcome concurrent_vector :=
  v' ← Finalise_loop (budget v) (mEnd v) v;
  Ok (with_mCurrent (Some Head) (with_mEnd (Some Head) v')).

(** [Finalise], the body of the destructor. *)
Definition Finalise (v : concurrent_vector) : outcome concurrent_vector :=
  Finalise_no_lock v.

(** [front()]: the address of [mSegment.mBegin[0]]. *)
Definition front (v : concurrent_vector)
    : outcome (address * concurrent_vector) :=
  p ← ptr_add (Data_Segment.mBegin (mSegment v)) 0;
  r ← deref p; Ok (r, v).

(** [back() const]: the address of [mCurrent->mCurrent[-1]]; with
    [mCurrent] null the function returns a reference to a temporary, which
    no longer exists when the caller gets it. *)
Definition back (v : concurrent_vector)
    : outcome (address * concurrent_vector) :=
  match mCurrent v with
  | None => Undefined
  | Some c =>
      s ← get_segment c v;
      p ← ptr_add (Data_Segment.mCurrent s) (-1);
      r ← deref p; Ok (r, v)
  end.

(** [empty()]. *)
Definition empty (v : concurrent_vector) : bool :=
  bool_decide (Data_Segment.mBegin (mSegment v)
               = Data_Segment.mCurrent (mSegment v)).

(** *** Iterators

    A [concurrent_vector_iterator]: an index into the vector and the
    address that the last [operator*] has cached. *)
Record iterator := { mIndex : Z; mValue : pointer }.

Definition Return_iterator (offset : Z) : iterator :=
  {| mIndex := offset; mValue := None |}.

(** [begin()], [End()] and [end()]. *)
Definition begin_ : iterator := Return_iterator 0.

Definition End_iterator (v : concurrent_vector) : outcome iterator :=
  size ← Get_size v; Ok (Return_iterator size).

Definition end_ (v : concurrent_vector) : outcome iterator :=
  size ← size_ v; Ok (Return_iterator size).

(** [operator*]: the address of the element, and the iterator with its
    cache. *)
Definition iterator_deref (it : iterator) (v : concurrent_vector)
    : outcome (address * iterator) :=
  match mValue it with
  | Some a => Ok (a, it)
  | None =>
      a ← Get_value_at (mIndex it) v;
      Ok (a, {| mIndex := mIndex it; mValue := Some a |})
  end.

(** [operator++] and [operator==]. *)
Definition iterator_next (it : iterator) : iterator :=
  {| mIndex := wrap (mIndex it + 1); mValue := None |}.

Definition iterator_eqb (lhs rhs : iterator) : bool :=
  bool_decide (mIndex lhs = mIndex rhs).

(** [for (auto element : v)]: [begin()] and [end()] are taken once, then
    the loop tests [!=], reads [*it] and steps with [++]; the result is
    the list of the values read. *)
Fixpoint range_for_loop (fuel : nat) (it end_it : iterator)
    (v : concurrent_vector) : outcome (list Type_) :=
  if iterator_eqb it end_it then Ok []
  else
    match fuel with
    | O => Diverge
    | S fuel' =>
        '(a, it) ← iterator_deref it v;
        element ← load (Some a) (mAllocator v);
        rest ← range_for_loop fuel' (iterator_next it) end_it v;
        Ok (element :: rest)
    end.

Definition range_for (v : concurrent_vector) : outcome (list Type_) :=
  end_it ← end_ v;
  range_for_loop (Z.to_nat (mIndex end_it)) begin_ end_it v.

(** [operator--], [operator+(offset)] and [operator[](offset)] of the
    iterator.  The sums are converted to [size_type]; [operator[]] stores
    the address of the element it returns in the cache, and leaves the
    index as it is. *)
Definition iterator_prev (it : iterator) : iterator :=
  {| mIndex := wrap (mIndex it - 1); mValue := None |}.

Definition iterator_plus (offset : Z) (it : iterator) : iterator :=
  Return_iterator (wrap (mIndex it + offset)).

Definition iterator_subscript (offset : Z) (it : iterator)
    (v : concurrent_vector) : outcome (address * iterator) :=
  a ← Get_value_at (wrap (mIndex it + offset)) v;
  Ok (a, {| mIndex := mIndex it; mValue := Some a |}).

(** [rbegin()] and [rend()]: the [std::reverse_iterator]s that hold
    [end()] and [begin()]. *)
Definition rbegin (v : concurrent_vector) : outcome iterator := end_ v.

Definition rend : iterator := begin_.

(** [for (auto it = v.rbegin(); it != v.rend(); ++it)] with a body that
    reads [*it]: for a reverse iterator [*it] is [*--tmp] on a copy [tmp]
    of the iterator it holds, and [++it] is [--] on that iterator. *)
Fixpoint reverse_for_loop (fuel : nat) (current rend_it : iterator)
    (v : concurrent_vector) : outcome (list Type_) :=
  if iterator_eqb current rend_it then Ok []
  else
    match fuel with
    | O => Diverge
    | S fuel' =>
        let tmp := iterator_prev current in
        '(a, _) ← iterator_deref tmp v;
        element ← load (Some a) (mAllocator v);
        rest ← reverse_for_loop fuel' (iterator_prev current) rend_it v;
        Ok (element :: rest)
    end.

Definition reverse_for (v : concurrent_vector) : outcome (list Type_) :=
  rbegin_it ← rbegin v;
  reverse_for_loop (Z.to_nat (mIndex rbegin_it)) rbegin_it rend v.

(** *** [assign] *)

(** [Copy_n(target, first, last)] with an iterator as target. *)
Fixpoint Copy_n (target : Z) (range : list Type_) (v : concurrent_vector)
    : outcome concurrent_vector :=
  match range with
  | [] => Ok v
  | x :: range' =>
      p ← Get_value_at target v;
      mem ← construct (Some p) x (mAllocator v);
      Copy_n (wrap (target + 1)) range' (with_mAllocator mem v)
  end.

Definition Deallocate_then_allocate (new_size : Z) (v : concurrent_vector)
    : outcome concurrent_vector :=
  if new_size >? max_size then Throw length_error
  else
    '(new_cap, _) ← Calculate_new_capacity new_size v;
    v1 ← Finalise_no_lock v;
    Allocate_new_n new_cap v1.

(** [Assign_range(first, last, std::forward_iterator_tag)]. *)
Definition Assign_range (range : list Type_) (v : concurrent_vector)
    : outcome concurrent_vector :=
  current_size ← Get_size v;
  new_size ← Check_size (Z.of_nat (length range));
  if new_size >? current_size then
    current_capacity ← Get_capacity v;
    v1 ← (if new_size >? current_capacity
          then Deallocate_then_allocate new_size v
          else Ok v);
    v2 ← Copy_n (mIndex begin_) range v1;
    '(target, v3) ← Adjust_segments_and_get_last_address_for new_size v2;
    Ok (with_mCurrent target v3)
  else
    let begin_it := begin_ in
    let new_current_it := Return_iterator (wrap (mIndex begin_it + new_size)) in
    v1 ← Copy_n (mIndex begin_it) range v;
    end_it ← End_iterator v1;
    v2 ← Destruct (mIndex new_current_it) (mIndex end_it) v1;
    '(target, v3) ←
      Adjust_segments_and_get_last_address_for (mIndex new_current_it) v2;
    Ok (with_mCurrent target v3).

(** [assign(std::initializer_list< Type >)]. *)
Definition assign (iList : list Type_) (v : concurrent_vector)
    : outcome concurrent_vector :=
  Assign_range iList v.

(** [Assign_range(first, last, std::input_iterator_tag)]; the list is
    what the single-pass range delivers.  The first loop assigns through
    [*target] while both the range and the vector have an element left;
    its results are the rest of the range, the index [target] has
    reached, and the state. *)
Fixpoint Assign_over (range : list Type_) (target current : Z)
    (v : concurrent_vector)
    : outcome (list Type_ * Z * concurrent_vector) :=
  match range with
  | [] => Ok ([], target, v)
  | x :: range' =>
      if decide (target = current) then Ok (range, target, v)
      else
        p ← Get_value_at target v;
        mem ← construct (Some p) x (mAllocator v);
        Assign_over range' (wrap (target + 1)) current (with_mAllocator mem v)
  end.

Definition Assign_range_input (range : list Type_) (v : concurrent_vector)
    : outcome concurrent_vector :=
  let target := begin_ in
  current ← End_iterator v;
  '(rest, target, v1) ←
    Assign_over range (mIndex target) (mIndex current) v;
  v2 ← Destruct target (mIndex current) v1;
  '(segment, v3) ← Adjust_segments_and_get_last_address_for target v2;
  push_back_all rest (with_mCurrent segment v3).

(** [assign(first, last)] for input iterators. *)
Definition assign_input (range : list Type_) (v : concurrent_vector)
    : outcome concurrent_vector :=
  Assign_range_input range v.

(** *** [shrink_to_fit] *)

(** [Move_or_copy_n(target, first, last)] with a pointer as target and
    iterators as source: the loop [for (; first < last; ++first)]. *)
Fixpoint Move_or_copy_n_loop (count : nat) (target : pointer) (first : Z)
    (v : concurrent_vector) : outcome concurrent_vector :=
  match count with
  | O => Ok v
  | S count' =>
      src ← Get_value_at first v;
      x ← load (Some src) (mAllocator v);
      mem ← construct target x (mAllocator v);
      target' ← ptr_add target 1;
      Move_or_copy_n_loop count' target' (wrap (first + 1))
        (with_mAllocator mem v)
  end.

Definition Move_or_copy_n (target : pointer) (first last : iterator)
    (v : concurrent_vector) : outcome concurrent_vector :=
  Move_or_copy_n_loop (Z.to_nat (mIndex last - mIndex first)) target
    (mIndex first) v.

Definition Exchange_data (newBegin : pointer) (dataSize dataCapacity : Z)
    (v : concurrent_vector) : outcome concurrent_vector :=
  v1 ← Finalise_no_lock v;
  newCurrent ← ptr_add newBegin dataSize;
  newEnd ← ptr_add newBegin dataCapacity;
  Ok {| mSegment :=
          {| Data_Segment.mBegin := newBegin;
             Data_Segment.mCurrent := newCurrent;
             Data_Segment.mEnd := newEnd;
             Data_Segment.mSegBefore := Data_Segment.mSegBefore (mSegment v1);
             Data_Segment.mSegAfter := Data_Segment.mSegAfter (mSegment v1) |};
        mCurrent := mCurrent v1; mEnd := mEnd v1;
        mAllocator := mAllocator v1;
        mSegmentAllocator := mSegmentAllocator v1;
        next_segment := next_segment v1 |}.

Definition Reallocate_to_fit_n (new_cap : Z) (v : concurrent_vector)
    : outcome concurrent_vector :=
  _ ← Check_size new_cap;
  data_size ← Get_size v;
  let '(newBegin, mem) := allocate new_cap (mAllocator v) in
  let v1 := with_mAllocator mem v in
  end_it ← End_iterator v1;
  v2 ← Move_or_copy_n newBegin begin_ end_it v1;
  Exchange_data newBegin data_size new_cap v2.

(** [shrink_to_fit()]. *)
Definition shrink_to_fit (v : concurrent_vector)
    : outcome concurrent_vector :=
  unfit ← (if decide (mCurrent v <> mEnd v) then Ok true
           else s ← segment_at (mCurrent v) v;
                Ok (bool_decide (Data_Segment.mCurrent s
                                 <> Data_Segment.mEnd s)));
  if unfit : bool then
    if decide (Some Head = mCurrent v /\
               Data_Segment.mBegin (mSegment v)
               = Data_Segment.mCurrent (mSegment v))
    then Finalise_no_lock v
    else
      size ← Get_size v;
      Reallocate_to_fit_n size v
  else Ok v.

End vector.
End Vector.

(** ** The segmented queue *)

Module Queue.

Module MiniQueue.
Record t := {
  mElements : pointer;
  mBegin : pointer;
  mUsedBegin : pointer;
  mCurrent : pointer;
  mEnd : pointer;
  mNextQueue : option nat
}.

Definition set_mUsedBegin (p : pointer) (s : t) : t :=
  {| mElements := mElements s; mBegin := mBegin s; mUsedBegin := p;
     mCurrent := mCurrent s; mEnd := mEnd s; mNextQueue := mNextQueue s |}.

Definition set_mCurrent (p : pointer) (s : t) : t :=
  {| mElements := mElements s; mBegin := mBegin s;
     mUsedBegin := mUsedBegin s; mCurrent := p; mEnd := mEnd s;
     mNextQueue := mNextQueue s |}.

Definition set_mNextQueue (n : option nat) (s : t) : t :=
  {| mElements := mElements s; mBegin := mBegin s;
     mUsedBegin := mUsedBegin s; mCurrent := mCurrent s; mEnd := mEnd s;
     mNextQueue := n |}.
End MiniQueue.

Section queue.
Context {Type_ : Type}.
(** [sizeof(Type)] and [Type {}]. *)
Context (sizeof_Type : Z) (value_init : Type_).

Definition Min_queue_size : Z := Min_segment_size_eval sizeof_Type.

(** The members of [concurrent_queue]; [mini_queues] holds the nodes
    obtained from [mini_queue_allocator] and not yet given back. *)
Record concurrent_queue := {
  mQueue : option nat;
  mQueueCurrent : option nat;
  mQueueEnd : option nat;
  mAllocator : memory Type_;
  mini_queues : gmap nat MiniQueue.t;
  next_mini_queue : nat
}.

(** [concurrent_queue()]. *)
Definition create : concurrent_queue :=
  {| mQueue := None; mQueueCurrent := None; mQueueEnd := None;
     mAllocator := no_memory; mini_queues := ∅; next_mini_queue := 0 |}.

Definition with_mQueue (p : option nat) (q : concurrent_queue) :=
  {| mQueue := p; mQueueCurrent := mQueueCurrent q; mQueueEnd := mQueueEnd q;
     mAllocator := mAllocator q; mini_queues := mini_queues q;
     next_mini_queue := next_mini_queue q |}.

Definition with_mQueueCurrent (p : option nat) (q : concurrent_queue) :=
  {| mQueue := mQueue q; mQueueCurrent := p; mQueueEnd := mQueueEnd q;
     mAllocator := mAllocator q; mini_queues := mini_queues q;
     next_mini_queue := next_mini_queue q |}.

Definition with_mQueueEnd (p : option nat) (q : concurrent_queue) :=
  {| mQueue := mQueue q; mQueueCurrent := mQueueCurrent q; mQueueEnd := p;
     mAllocator := mAllocator q; mini_queues := mini_queues q;
     next_mini_queue := next_mini_queue q |}.

Definition with_mAllocator (m : memory Type_) (q : concurrent_queue) :=
  {| mQueue := mQueue q; mQueueCurrent := mQueueCurrent q;
     mQueueEnd := mQueueEnd q; mAllocator := m;
     mini_queues := mini_queues q; next_mini_queue := next_mini_queue q |}.

(** Reading and writing through a [MiniQueue*]. *)
Definition get_mini_queue (p : option nat) (q : concurrent_queue)
    : outcome MiniQueue.t :=
  n ← deref p; deref (mini_queues q !! n).

Definition set_mini_queue (n : nat) (s : MiniQueue.t) (q : concurrent_queue)
    : concurrent_queue :=
  {| mQueue := mQueue q; mQueueCurrent := mQueueCurrent q;
     mQueueEnd := mQueueEnd q; mAllocator := mAllocator q;
     mini_queues := <[n := s]> (mini_queues q);
     next_mini_queue := next_mini_queue q |}.

(** [empty()]. *)
Definition empty (q : concurrent_queue) : outcome bool :=
  match mQueue q with
  | None => Ok true
  | Some n =>
      s ← deref (mini_queues q !! n);
      Ok (bool_decide (MiniQueue.mCurrent s = MiniQueue.mUsedBegin s))
  end.

(** [Get_mini_queue_used_size]. *)
Definition Get_mini_queue_used_size (s : MiniQueue.t) : outcome Z :=
  d ← ptr_diff (MiniQueue.mCurrent s) (MiniQueue.mUsedBegin s); Ok (wrap d).

(** [Get_mini_queue_capacity]. *)
Definition Get_mini_queue_capacity (s : MiniQueue.t) : outcome Z :=
  d ← ptr_diff (MiniQueue.mEnd s) (MiniQueue.mBegin s); Ok (wrap d).

(** A walk along [mNextQueue] that has entered the loop body more often
    than there are nodes is on a cycle. *)
Definition budget (q : concurrent_queue) : nat := S (size (mini_queues q)).

(** [unsafe_size]: the [while (queue)] loop. *)
Fixpoint unsafe_size_loop (fuel : nat) (q : concurrent_queue) (size : Z)
    (queue : option nat) : outcome Z :=
  match queue with
  | None => Ok size
  | Some n =>
      match fuel with
      | O => Diverge
      | S fuel' =>
          s ← deref (mini_queues q !! n);
          used ← Get_mini_queue_used_size s;
          unsafe_size_loop fuel' q (wrap (size + used)) (MiniQueue.mNextQueue s)
      end
  end.

Definition unsafe_size (q : concurrent_queue) : outcome Z :=
  unsafe_size_loop (budget q) q 0 (mQueue q).

Definition max_size : Z := size_limit.

(** [Calculate_new_capacity] of the queue. *)
Definition Calculate_new_capacity (new_size : Z) : Z :=
  let size_limit := max_size in
  let current_capacity := wrap (new_size - 1) in
  if current_capacity >? size_limit - current_capacity / 2
  then Z.max Min_queue_size size_limit
  else
    let Size := wrap (current_capacity + current_capacity / 2) in
    if Size <? new_size
    then Z.max Min_queue_size new_size
    else Z.max Min_queue_size Size.

(** [Allocate_mini_queue]: the new node and the state that holds it. *)
Definition Allocate_mini_queue (requested_new_size current_size : Z)
    (q : concurrent_queue) : outcome (nat * concurrent_queue) :=
  let new_capacity := Calculate_new_capacity requested_new_size in
  let new_size := Z.max Min_queue_size (wrap (new_capacity - current_size)) in
  let queue := next_mini_queue q in
  let '(mElements, mem) := allocate new_size (mAllocator q) in
  mEnd ← ptr_add mElements new_size;
  Ok (queue,
      {| mQueue := mQueue q; mQueueCurrent := mQueueCurrent q;
         mQueueEnd := mQueueEnd q; mAllocator := mem;
         mini_queues :=
           <[queue := {| MiniQueue.mElements := mElements;
                         MiniQueue.mBegin := mElements;
                         MiniQueue.mUsedBegin := mElements;
                         MiniQueue.mCurrent := mElements;
                         MiniQueue.mEnd := mEnd;
                         MiniQueue.mNextQueue := None |}]> (mini_queues q);
         next_mini_queue := S queue |}).

(** [Emplace_back_mini_queue]. *)
Definition Emplace_back_mini_queue (queue : nat) (q : concurrent_queue)
    : outcome concurrent_queue :=
  match mQueue q with
  | None =>
      Ok {| mQueue := Some queue; mQueueCurrent := Some queue;
            mQueueEnd := Some queue; mAllocator := mAllocator q;
            mini_queues := mini_queues q;
            next_mini_queue := next_mini_queue q |}
  | Some _ =>
      e ← deref (mQueueEnd q);
      se ← deref (mini_queues q !! e);
      let q1 :=
        with_mQueueEnd (Some queue)
          (set_mini_queue e (MiniQueue.set_mNextQueue (Some queue) se) q) in
      sc ← get_mini_queue (mQueueCurrent q1) q1;
      if decide (MiniQueue.mCurrent sc = MiniQueue.mEnd sc)
      then Ok (with_mQueueCurrent (MiniQueue.mNextQueue sc) q1)
      else Ok q1
  end.

(** [Internal_push]. *)
Definition Internal_push (x : Type_) (q : concurrent_queue)
    : outcome concurrent_queue :=
  q1 ← (if decide (mQueueEnd q = mQueueCurrent q)
        then
          match mQueue q with
          | None =>
              '(queue, q') ← Allocate_mini_queue 1 0 q;
              Emplace_back_mini_queue queue q'
          | Some _ =>
              sc ← get_mini_queue (mQueueCurrent q) q;
              if decide (MiniQueue.mCurrent sc = MiniQueue.mEnd sc)
              then
                size ← unsafe_size q;
                '(queue, q') ← Allocate_mini_queue (wrap (size + 1)) size q;
                Emplace_back_mini_queue queue q'
              else Ok q
          end
        else Ok q);
  c ← deref (mQueueCurrent q1);
  sc ← deref (mini_queues q1 !! c);
  mem ← construct (MiniQueue.mCurrent sc) x (mAllocator q1);
  p ← ptr_add (MiniQueue.mCurrent sc) 1;
  let sc := MiniQueue.set_mCurrent p sc in
  let q2 := set_mini_queue c sc (with_mAllocator mem q1) in
  if decide (MiniQueue.mCurrent sc = MiniQueue.mEnd sc /\
             mQueueCurrent q2 <> mQueueEnd q2)
  then
    next ← get_mini_queue (MiniQueue.mNextQueue sc) q2;
    let q3 :=
      set_mini_queue c (MiniQueue.set_mCurrent (MiniQueue.mBegin next) sc) q2 in
    Ok (with_mQueueCurrent (MiniQueue.mNextQueue sc) q3)
  else Ok q2.

(** [push]. *)
Definition push (x : Type_) (q : concurrent_queue) : outcome concurrent_queue :=
  Internal_push x q.

(** [Internal_Pop]: the value moved into [dest] and the new state. *)
Definition Internal_Pop (q : concurrent_queue)
    : outcome (bool * Type_ * concurrent_queue) :=
  h ← deref (mQueue q);
  s ← deref (mini_queues q !! h);
  dest ← load (MiniQueue.mUsedBegin s) (mAllocator q);
  mem ← destroy (MiniQueue.mUsedBegin s) (mAllocator q);
  p ← ptr_add (MiniQueue.mUsedBegin s) 1;
  let s := MiniQueue.set_mUsedBegin p s in
  let q1 := set_mini_queue h s (with_mAllocator mem q) in
  if decide (MiniQueue.mUsedBegin s = MiniQueue.mEnd s)
  then
    let s := MiniQueue.set_mCurrent (MiniQueue.mBegin s)
               (MiniQueue.set_mUsedBegin (MiniQueue.mBegin s) s) in
    let q2 := set_mini_queue h s q1 in
    if decide (mQueue q2 <> mQueueEnd q2)
    then
      e ← deref (mQueueEnd q2);
      se ← deref (mini_queues q2 !! e);
      let q3 :=
        with_mQueueEnd (mQueue q2)
          (set_mini_queue e (MiniQueue.set_mNextQueue (mQueue q2) se) q2) in
      sh ← deref (mini_queues q3 !! h);
      Ok (true, dest,
          with_mQueue (MiniQueue.mNextQueue sh)
            (set_mini_queue h (MiniQueue.set_mNextQueue None sh) q3))
    else Ok (true, dest, q2)
  else Ok (true, dest, q1).

(** [try_pop(dest)]: the result, the value left in [dest], the new state. *)
Definition try_pop (q : concurrent_queue)
    : outcome (bool * Type_ * concurrent_queue) :=
  match mQueue q with
  | None => Ok (false, value_init, q)
  | Some h =>
      s ← deref (mini_queues q !! h);
      if decide (MiniQueue.mCurrent s = MiniQueue.mUsedBegin s)
      then Ok (false, value_init, q)
      else Internal_Pop q
  end.

(** [Destroy_all_element_in_mini_queue]: [destroy] from [mUsedBegin] up
    to [mCurrent]. *)
Fixpoint Destroy_loop (count : nat) (i : pointer) (m : memory Type_)
    : outcome (memory Type_) :=
  match count with
  | O => Ok m
  | S count' =>
      m' ← destroy i m;
      i' ← ptr_add i 1;
      Destroy_loop count' i' m'
  end.

Definition Destroy_all_element_in_mini_queue (s : MiniQueue.t)
    (m : memory Type_) : outcome (memory Type_) :=
  d ← ptr_diff (MiniQueue.mCurrent s) (MiniQueue.mUsedBegin s);
  Destroy_loop (Z.to_nat d) (MiniQueue.mUsedBegin s) m.

(** [Deallocate_mini_queue]: the block of elements and the node. *)
Definition Deallocate_mini_queue (n : nat) (q : concurrent_queue)
    : outcome concurrent_queue :=
  s ← deref (mini_queues q !! n);
  queue_size ← Get_mini_queue_capacity s;
  mem ← deallocate (MiniQueue.mBegin s) (mAllocator q);
  Ok {| mQueue := mQueue q; mQueueCurrent := mQueueCurrent q;
        mQueueEnd := mQueueEnd q; mAllocator := mem;
        mini_queues := delete n (mini_queues q);
        next_mini_queue := next_mini_queue q |}.

(** [Finalise], the body of the destructor. *)
Fixpoint Finalise_loop (fuel : nat) (queue : option nat) (q : concurrent_queue)
    : outcome concurrent_queue :=
  match queue with
  | None => Ok q
  | Some to_delete =>
      match fuel with
      | O => Diverge
      | S fuel' =>
          s ← deref (mini_queues q !! to_delete);
          mem ← Destroy_all_element_in_mini_queue s (mAllocator q);
          q' ← Deallocate_mini_queue to_delete (with_mAllocator mem q);
          Finalise_loop fuel' (MiniQueue.mNextQueue s) q'
      end
  end.

Definition Finalise (q : concurrent_queue) : outcome concurrent_queue :=
  Finalise_loop (budget q) (mQueue q) q.

(** The number of blocks the queue holds. *)
Definition allocated_blocks (q : concurrent_queue) : nat :=
  size (blocks (mAllocator q)).

(** Sequences of calls. *)
Fixpoint push_all (xs : list Type_) (q : concurrent_queue)
    : outcome concurrent_queue :=
  match xs with
  | [] => Ok q
  | x :: xs' => q' ← push x q; push_all xs' q'
  end.

Fixpoint try_pop_n (n : nat) (q : concurrent_queue)
    : outcome (list (bool * Type_) * concurrent_queue) :=
  match n with
  | O => Ok ([], q)
  | S n' =>
      '(r, dest, q1) ← try_pop q;
      '(rs, q2) ← try_pop_n n' q1;
      Ok ((r, dest) :: rs, q2)
  end.

Inductive call := call_push (x : Type_) | call_try_pop.

Fixpoint run (calls : list call) (q : concurrent_queue)
    : outcome concurrent_queue :=
  match calls with
  | [] => Ok q
  | call_push x :: rest => q' ← push x q; run rest q'
  | call_try_pop :: rest => '(_, _, q') ← try_pop q; run rest q'
  end.

(** One [push] and one [try_pop] for every value, in list order. *)
Fixpoint push_try_pop_each (xs : list Type_) (q : concurrent_queue)
    : outcome (list (bool * Type_) * concurrent_queue) :=
  match xs with
  | [] => Ok ([], q)
  | x :: xs' =>
      q1 ← push x q;
      '(r, dest, q2) ← try_pop q1;
      '(rs, q3) ← push_try_pop_each xs' q2;
      Ok ((r, dest) :: rs, q3)
  end.

(** *** Iterators

    A [concurrent_queue_iterator]: the node, the index in the block of the
    node, and the validity flag. *)
Record iterator := {
  mMiniQueue : option nat;
  mElementIdxInMiniQueue : Z;
  isValid : bool
}.

(** [End_iterator_value], which is [static_cast< size_type >(-1)]. *)
Definition End_iterator_value : Z := wrap (-1).

(** [Invalidate()]. *)
Definition Invalidate (it : iterator) : iterator :=
  {| mMiniQueue := None; mElementIdxInMiniQueue := End_iterator_value;
     isValid := false |}.

(** [unsafe_end()], from the constructor [iterator(queue)]. *)
Definition unsafe_end : iterator :=
  {| mMiniQueue := None; mElementIdxInMiniQueue := End_iterator_value;
     isValid := false |}.

(** [unsafe_begin()], from the constructor
    [iterator(queue, node_location, idx_in_node)] with [mQueue] and 0. *)
Definition unsafe_begin (q : concurrent_queue) : outcome iterator :=
  let it := {| mMiniQueue := mQueue q; mElementIdxInMiniQueue := 0;
               isValid := true |} in
  size ← unsafe_size q;
  if size =? 0 then Ok (Invalidate it) else Ok it.

(** [operator==]. *)
Definition iterator_eqb (lhs rhs : iterator) : bool :=
  bool_decide (isValid lhs = isValid rhs) &&
  bool_decide (mMiniQueue lhs = mMiniQueue rhs) &&
  bool_decide (mElementIdxInMiniQueue lhs = mElementIdxInMiniQueue rhs).

(** [operator*]: the address of [mMiniQueue->mBegin[mElementIdxInMiniQueue]]. *)
Definition iterator_deref (it : iterator) (q : concurrent_queue)
    : outcome address :=
  s ← get_mini_queue (mMiniQueue it) q;
  p ← ptr_add (MiniQueue.mBegin s) (mElementIdxInMiniQueue it);
  deref p.

(** [Get_mini_queue_size]. *)
Definition Get_mini_queue_size (s : MiniQueue.t) : outcome Z :=
  d ← ptr_diff (MiniQueue.mCurrent s) (MiniQueue.mBegin s); Ok (wrap d).

(** [Advance(output_queue, element_idx)]; the length read for
    [next_queue_size] is that of [output_queue]. *)
Definition Advance (output_queue : option nat) (element_idx : Z)
    (q : concurrent_queue) : outcome (option nat * Z) :=
  s ← get_mini_queue output_queue q;
  current_queue_size ← Get_mini_queue_size s;
  current_queue_capacity ← Get_mini_queue_capacity s;
  if (current_queue_size =? 0) &&
     negb (element_idx =? wrap (current_queue_capacity - 1))
  then Ok (None, 0)
  else if element_idx <? wrap (current_queue_size - 1)
  then Ok (output_queue, wrap (element_idx + 1))
  else
    let last_queue_element := element_idx =? wrap (current_queue_size - 1) in
    if last_queue_element && (current_queue_size <? current_queue_capacity)
    then Ok (None, 0)
    else if last_queue_element &&
            bool_decide (MiniQueue.mNextQueue s = None)
    then Ok (None, 0)
    else
      let next_queue := MiniQueue.mNextQueue s in
      next_queue_size ← Get_mini_queue_size s;
      if next_queue_size =? 0 then Ok (None, 0) else Ok (next_queue, 0).

(** [Next()], the body of [operator++].  An iterator that is not valid has
    a null [mMiniQueue], which [Advance] dereferences. *)
Definition Next (it : iterator) (q : concurrent_queue) : outcome iterator :=
  '(next_queue, next_idx) ←
    Advance (mMiniQueue it) (mElementIdxInMiniQueue it) q;
  let it := {| mMiniQueue := next_queue; mElementIdxInMiniQueue := next_idx;
               isValid := isValid it |} in
  match next_queue with
  | None => Ok (Invalidate it)
  | Some _ => Ok it
  end.

(** [for (auto it = q.unsafe_begin(); it != q.unsafe_end(); ++it)] with a
    body that reads [*it]; the result is the list of the values read.
    [fuel] bounds the number of rounds. *)
Fixpoint unsafe_for_loop (fuel : nat) (it : iterator) (q : concurrent_queue)
    : outcome (list Type_) :=
  if iterator_eqb it unsafe_end then Ok []
  else
    match fuel with
    | O => Diverge
    | S fuel' =>
        a ← iterator_deref it q;
        element ← load (Some a) (mAllocator q);
        it ← Next it q;
        rest ← unsafe_for_loop fuel' it q;
        Ok (element :: rest)
    end.

Definition unsafe_for (fuel : nat) (q : concurrent_queue)
    : outcome (list Type_) :=
  it ← unsafe_begin q;
  unsafe_for_loop fuel it q.

End queue.
End Queue.

(** ** Basic facts *)

(** Let [lia] see through division and remainder by constants. *)
Ltac Zify.zify_post_hook ::= Z.to_euclidean_division_equations.

Lemma bind_Ok {A B} (f : A -> outcome B) (m : outcome A) (b : B) :
  m ≫= f = Ok b -> exists a, m = Ok a /\ f a = Ok b.
Proof. destruct m; simpl; try discriminate. eauto. Qed.

Lemma wrap_small z : 0 <= z <= size_limit -> wrap z = z.
Proof. unfold wrap, size_limit. intros. apply Z.mod_small. lia. Qed.

Lemma wrap_range z : 0 <= wrap z <= size_limit.
Proof.
  unfold wrap, size_limit.
  pose proof (Z.mod_pos_bound z (2 ^ 64) ltac:(lia)). lia.
Qed.

Lemma Min_segment_size_eval_cases s :
  Min_segment_size_eval s = 8 \/ Min_segment_size_eval s = 16 \/
  Min_segment_size_eval s = 32.
Proof. unfold Min_segment_size_eval. repeat case_match; auto. Qed.

(** ** Properties of the combinable engine *)

Module CombinableFacts.
Import Combinable.

Section facts.
Context {value_type : Type}.
Context (value_init : value_type) (ThreadCount : Z) (hash : thread_id -> Z).

Local Abbreviation Min_size := (Min_size ThreadCount).
Local Abbreviation bucket_of id := (Z.to_nat (wrap (hash id) mod Min_size)).

Lemma Min_size_ge_8 : 8 <= Min_size.
Proof.
  unfold Combinable.Min_size, Bucket_size_eval.
  destruct (8 >? ThreadCount / 8) eqn:E; lia.
Qed.

Lemma bucket_of_lt id : (bucket_of id < Z.to_nat Min_size)%nat.
Proof.
  pose proof Min_size_ge_8.
  pose proof (Z.mod_pos_bound (wrap (hash id)) Min_size ltac:(lia)). lia.
Qed.

(** A populated bucket whose head belongs to another thread: the scan
    never leaves the loop, whatever the budget. *)
Lemma Get_local_loop_stuck fuel (c : @combinable value_type) id p s i :
  storage c !! p = Some s -> mThreadID s <> id ->
  Get_local_loop fuel c id (Some p) i = Diverge.
Proof.
  intros Hp Hne. induction fuel as [|fuel IH]; simpl; rewrite Hp; simpl;
    destruct (decide (mThreadID s = id)); try contradiction; auto.
Qed.

(** The first [local()] of a thread on a new container. *)
Lemma local_create fuel id :
  local value_init ThreadCount hash fuel id (create ThreadCount) =
  Ok (0%nat,
      {| mBuckets := <[bucket_of id := Some 0%nat]>
                       (replicate (Z.to_nat Min_size) None);
         storage := {[ 0%nat := {| mThreadID := id; mValue := value_init;
                                   nextStorage := None |} ]};
         next_storage := 1 |}).
Proof.
  pose proof (bucket_of_lt id) as Hlt.
  unfold local, Get_local_storage_unit, create; simpl.
  rewrite lookup_replicate_2 by exact Hlt. simpl.
  destruct fuel; simpl; unfold Add_local_storage_unit; simpl;
    rewrite lookup_replicate_2 by exact Hlt; simpl; reflexivity.
Qed.

Lemma Finalise_loop_app (l1 l2 : list (option nat))
    (st : gmap nat (@Storage value_type)) :
  Finalise_loop (l1 ++ l2) st = Finalise_loop l1 st ≫= Finalise_loop l2.
Proof.
  revert st. induction l1 as [|b l1 IH]; intros st; simpl; [reflexivity|].
  destruct (Delete_storage_units_in_bucket_ptr b st); simpl; auto.
Qed.

Lemma Finalise_loop_nulls n (st : gmap nat (@Storage value_type)) :
  Finalise_loop (replicate n None) st = Ok st.
Proof.
  induction n as [|n IH]; simpl; [reflexivity|].
  unfold Delete_storage_units_in_bucket_ptr.
  destruct (size st); simpl; exact IH.
Qed.

(** The state after the first [local()] of thread [id]. *)
Definition after_first_local (id : thread_id) : @combinable value_type :=
  {| mBuckets := <[bucket_of id := Some 0%nat]>
                   (replicate (Z.to_nat Min_size) None);
     storage := {[ 0%nat := {| mThreadID := id; mValue := value_init;
                               nextStorage := None |} ]};
     next_storage := 1 |}.

Lemma clear_after_first_local id :
  clear (after_first_local id) =
  Ok {| mBuckets := mBuckets (after_first_local id); storage := ∅;
        next_storage := 1 |}.
Proof.
  pose proof (bucket_of_lt id) as Hlt.
  unfold clear, Finalise, after_first_local; simpl.
  rewrite insert_take_drop by (rewrite length_replicate; exact Hlt).
  rewrite take_replicate, drop_replicate.
  rewrite Finalise_loop_app, Finalise_loop_nulls. simpl.
  unfold Delete_storage_units_in_bucket_ptr.
  rewrite map_size_singleton. simpl.
  rewrite lookup_singleton_eq. simpl.
  rewrite delete_singleton_eq.
  rewrite Finalise_loop_nulls. reflexivity.
Qed.

(** C3 (the code departs from the claim): thread [id] calls [local()] on a
    new container and then [clear()].  The node is given back, but the
    bucket still holds its address, so the table is not empty; the next
    [local(bool&)] of the same thread reads the released node instead of
    inserting a fresh default-constructed entry. *)
Theorem clear_leaves_dangling_bucket (fuel : nat) (id : thread_id) :
  exists c1 c2,
    local value_init ThreadCount hash fuel id (create ThreadCount) = Ok (0%nat, c1) /\
    clear c1 = Ok c2 /\
    mBuckets c2 !! bucket_of id = Some (Some 0%nat) /\
    storage c2 = ∅ /\
    local_exists value_init ThreadCount hash fuel id c2 = Undefined.
Proof.
  pose proof (bucket_of_lt id) as Hlt.
  eexists _, _. split; [apply local_create|].
  split; [apply clear_after_first_local|].
  assert (Hb : <[bucket_of id := Some 0%nat]>
                 (replicate (Z.to_nat Min_size) (@None nat)) !! bucket_of id
               = Some (Some 0%nat)).
  { apply list_lookup_insert_eq. rewrite length_replicate. exact Hlt. }
  simpl. split; [exact Hb|]. split; [reflexivity|].
  unfold local_exists, Get_local_storage_unit; simpl.
  rewrite Hb. simpl. destruct fuel; reflexivity.
Qed.

(** A second thread whose identity hashes to the bucket of the first one
    never returns from the scan. *)
Lemma Get_local_storage_unit_collision fuel id1 id2 :
  id1 <> id2 -> bucket_of id1 = bucket_of id2 ->
  Get_local_storage_unit ThreadCount hash fuel id2 (after_first_local id1)
  = Diverge.
Proof.
  intros Hne Hb. pose proof (bucket_of_lt id1) as Hlt.
  unfold Get_local_storage_unit, after_first_local; simpl.
  rewrite <- Hb.
  rewrite list_lookup_insert_eq by (rewrite length_replicate; exact Hlt).
  simpl. eapply Get_local_loop_stuck; simpl.
  - apply lookup_singleton_eq.
  - exact Hne.
Qed.

End facts.

(** C4 (the code departs from the claim): with eight buckets and the
    identity as hash, thread 1 inserts its entry and thread 9 (same bucket)
    calls [local()]: the scan does not advance its cursor and does not
    terminate, for any loop budget; it neither finds an entry further down
    the chain nor reports not-found. *)
Theorem bucket_scan_does_not_advance (fuel : nat) :
  exists c1,
    local 0 8 Z.of_nat fuel 1%nat (create 8) = Ok (0%nat, c1) /\
    Get_local_storage_unit 8 Z.of_nat fuel 9%nat c1 = Diverge /\
    local 0 8 Z.of_nat fuel 9%nat c1 = Diverge.
Proof.
  eexists. split; [apply local_create|].
  assert (H : Get_local_storage_unit 8 Z.of_nat fuel 9%nat
                (after_first_local 0 8 Z.of_nat 1%nat) = Diverge).
  { apply Get_local_storage_unit_collision; [lia | reflexivity]. }
  split; [exact H|].
  unfold local. fold (after_first_local 0 8 Z.of_nat 1%nat). rewrite H.
  reflexivity.
Qed.

End CombinableFacts.

(** ** The combinable engine on well-formed tables *)

Module CombinableMore.
Import Combinable CombinableFacts.

Section more.
Context {value_type : Type}.
Context (value_init : value_type) (ThreadCount : Z) (hash : thread_id -> Z).

Local Abbreviation Min_size := (Min_size ThreadCount).
Local Abbreviation bucket_of id := (Z.to_nat (wrap (hash id) mod Min_size)).
Local Abbreviation table := (@combinable value_type).
Local Abbreviation local_exists := (local_exists value_init ThreadCount hash).
Local Abbreviation local := (local value_init ThreadCount hash).
Local Abbreviation local_each := (local_each value_init ThreadCount hash).
Local Abbreviation create := (@create value_type ThreadCount).

(** The tables that [local()] builds: every bucket is null or points to
    one live node, which ends its chain and belongs to a thread of that
    bucket; every live node is the head of its thread's bucket. *)
Record tidy (c : table) : Prop := {
  tidy_length : length (mBuckets c) = Z.to_nat Min_size;
  tidy_bucket : forall i p, mBuckets c !! i = Some (Some p) ->
    exists s, storage c !! p = Some s /\ nextStorage s = None /\
              bucket_of (mThreadID s) = i;
  tidy_storage : forall p s, storage c !! p = Some s ->
    (p < next_storage c)%nat /\
    mBuckets c !! bucket_of (mThreadID s) = Some (Some p)
}.

(** Thread [id] has an entry. *)
Definition owner (c : table) (id : thread_id) : Prop :=
  exists p s, storage c !! p = Some s /\ mThreadID s = id.

(** The values of the entries, in bucket order. *)
Definition values_of (st : gmap nat (@Storage value_type))
    (buckets : list (option nat)) : list value_type :=
  omap (fun bucket : option nat =>
          match bucket with
          | Some p => mValue <$> st !! p
          | None => None
          end) buckets.

Definition values (c : table) : list value_type :=
  values_of (storage c) (mBuckets c).

(** No two distinct threads among the owners [P] and the list [ids] have
    the same bucket. *)
Definition collision_free (P : thread_id -> Prop) (ids : list thread_id)
    : Prop :=
  forall id1 id2, P id1 \/ id1 ∈ ids -> P id2 \/ id2 ∈ ids ->
    bucket_of id1 = bucket_of id2 -> id1 = id2.

Lemma tidy_create : tidy create.
Proof.
  constructor; simpl.
  - apply length_replicate.
  - intros i p H. apply lookup_replicate in H as [H _]. discriminate.
  - intros p s H. rewrite lookup_empty in H. discriminate.
Qed.

Lemma owner_create id : ~ owner create id.
Proof. intros (p & s & H & _). simpl in H. rewrite lookup_empty in H. discriminate. Qed.

Lemma tidy_owner_bucket c id p :
  tidy c -> owner c id -> mBuckets c !! bucket_of id = Some (Some p) ->
  exists s, storage c !! p = Some s /\ mThreadID s = id.
Proof.
  intros T (p' & s' & Hs' & <-) Hb.
  destruct (tidy_storage c T p' s' Hs') as [_ Hb'].
  rewrite Hb' in Hb. injection Hb as <-. eauto.
Qed.

Lemma tidy_owners_apart c id1 id2 :
  tidy c -> owner c id1 -> owner c id2 -> bucket_of id1 = bucket_of id2 ->
  id1 = id2.
Proof.
  intros T (p1 & s1 & Hs1 & <-) H2 Hb.
  destruct (tidy_storage c T p1 s1 Hs1) as [_ Hb1]. rewrite Hb in Hb1.
  destruct (tidy_owner_bucket c _ p1 T H2 Hb1) as (s & Hs & <-).
  congruence.
Qed.

(** The three ways the scan of [Get_local_storage_unit] can go. *)
Lemma Get_local_storage_unit_cases fuel id (c : table) :
  tidy c ->
  (mBuckets c !! bucket_of id = Some None /\
   Get_local_storage_unit ThreadCount hash fuel id c = Ok (None, bucket_of id)) \/
  (exists p s, mBuckets c !! bucket_of id = Some (Some p) /\
     storage c !! p = Some s /\ mThreadID s = id /\
     Get_local_storage_unit ThreadCount hash fuel id c
     = Ok (Some p, bucket_of id)) \/
  (exists p s, mBuckets c !! bucket_of id = Some (Some p) /\
     storage c !! p = Some s /\ mThreadID s <> id /\
     Get_local_storage_unit ThreadCount hash fuel id c = Diverge).
Proof.
  intros T. pose proof (bucket_of_lt ThreadCount hash id) as Hlt.
  rewrite <- (tidy_length c T) in Hlt.
  apply lookup_lt_is_Some in Hlt as [b Hb].
  unfold Get_local_storage_unit. rewrite Hb. cbn [deref mbind outcome_bind].
  destruct b as [p|].
  - destruct (tidy_bucket c T _ p Hb) as (s & Hs & _ & _).
    destruct (decide (mThreadID s = id)) as [He|Hne].
    + right. left. exists p, s. repeat split; auto.
      destruct fuel; simpl; rewrite Hs; simpl; rewrite decide_True by exact He;
        reflexivity.
    + right. right. exists p, s. repeat split; auto.
      eapply Get_local_loop_stuck; eauto.
  - left. split; [reflexivity|]. destruct fuel; reflexivity.
Qed.

(** The table after [Add_local_storage_unit] on an empty bucket. *)
Definition with_entry (id : thread_id) (c : table) : table :=
  {| mBuckets := <[bucket_of id := Some (next_storage c)]> (mBuckets c);
     storage := <[next_storage c :=
                    {| mThreadID := id; mValue := value_init;
                       nextStorage := None |}]> (storage c);
     next_storage := S (next_storage c) |}.

Lemma tidy_with_entry id c :
  tidy c -> mBuckets c !! bucket_of id = Some None -> tidy (with_entry id c).
Proof.
  intros T Hb. pose proof (lookup_lt_Some _ _ _ Hb) as Hlt.
  constructor; simpl.
  - rewrite length_insert. apply (tidy_length c T).
  - intros i p Hi. destruct (decide (i = bucket_of id)) as [->|Hne].
    + rewrite list_lookup_insert_eq in Hi by exact Hlt.
      injection Hi as <-. eexists. split; [apply lookup_insert_eq|].
      split; reflexivity.
    + rewrite list_lookup_insert_ne in Hi by congruence.
      destruct (tidy_bucket c T i p Hi) as (s & Hs & Hn & Hbk).
      destruct (tidy_storage c T p s Hs) as [Hp _].
      exists s. rewrite lookup_insert_ne by lia. auto.
  - intros p s Hs. destruct (decide (p = next_storage c)) as [->|Hne].
    + rewrite lookup_insert_eq in Hs. injection Hs as <-. simpl.
      split; [lia|]. apply list_lookup_insert_eq. exact Hlt.
    + rewrite lookup_insert_ne in Hs by congruence.
      destruct (tidy_storage c T p s Hs) as [Hp Hbk]. split; [lia|].
      rewrite list_lookup_insert_ne; [exact Hbk|].
      intros E. rewrite <- E in Hbk. congruence.
Qed.

Lemma owner_with_entry id c id' :
  tidy c -> owner (with_entry id c) id' <-> owner c id' \/ id' = id.
Proof.
  intros T. split.
  - intros (p & s & Hs & <-). simpl in Hs.
    destruct (decide (p = next_storage c)) as [->|Hne].
    + rewrite lookup_insert_eq in Hs. injection Hs as <-. right. reflexivity.
    + rewrite lookup_insert_ne in Hs by congruence. left. exists p, s. auto.
  - intros [(p & s & Hs & <-)| ->].
    + destruct (tidy_storage c T p s Hs) as [Hp _].
      exists p, s. simpl. rewrite lookup_insert_ne by lia. auto.
    + eexists _, _. simpl. split; [apply lookup_insert_eq|reflexivity].
Qed.

Lemma Add_local_storage_unit_empty id c :
  mBuckets c !! bucket_of id = Some None ->
  Add_local_storage_unit value_init id (bucket_of id) c
  = Ok (next_storage c, with_entry id c).
Proof. intros Hb. unfold Add_local_storage_unit. rewrite Hb. reflexivity. Qed.

(** X12.  [local(bool& exists)] on a well-formed table, for a thread
    [id]: if the thread's bucket is empty, a new entry holding
    [value_type{}] is inserted, [exists] is false, the other entries are
    untouched, and a second call finds that entry with [exists] true and
    changes nothing; if the bucket holds the thread's entry, it is
    returned with [exists] true and nothing changes; if the bucket holds
    the entry of another thread, the call does not return. *)
Theorem local_exists_on_tidy (fuel : nat) (id : thread_id) (c : table) :
  tidy c ->
  (mBuckets c !! bucket_of id = Some None /\
   exists c',
     local_exists fuel id c = Ok (next_storage c, false, c') /\
     tidy c' /\
     storage c' !! next_storage c
     = Some {| mThreadID := id; mValue := value_init; nextStorage := None |} /\
     (forall p, p <> next_storage c -> storage c' !! p = storage c !! p) /\
     local_exists fuel id c' = Ok (next_storage c, true, c')) \/
  (exists p s,
     mBuckets c !! bucket_of id = Some (Some p) /\
     storage c !! p = Some s /\ mThreadID s = id /\
     local_exists fuel id c = Ok (p, true, c)) \/
  (exists p s,
     mBuckets c !! bucket_of id = Some (Some p) /\
     storage c !! p = Some s /\ mThreadID s <> id /\
     local_exists fuel id c = Diverge).
Proof.
  intros T.
  destruct (Get_local_storage_unit_cases fuel id c T)
    as [[Hb Hg]|[(p & s & Hb & Hs & Hid & Hg)|(p & s & Hb & Hs & Hid & Hg)]].
  - left. split; [exact Hb|]. exists (with_entry id c).
    pose proof (tidy_with_entry id c T Hb) as T'.
    split.
    { unfold Combinable.local_exists. rewrite Hg. cbn [mbind outcome_bind].
      rewrite (Add_local_storage_unit_empty id c Hb). reflexivity. }
    split; [exact T'|]. split; [apply lookup_insert_eq|].
    split; [intros p Hp; simpl; apply lookup_insert_ne; congruence|].
    destruct (Get_local_storage_unit_cases fuel id _ T')
      as [[Hb' _]|[(p & s & Hb' & Hs & Hid & Hg')|(p & s & Hb' & Hs & Hid & _)]];
      simpl in Hb';
      rewrite list_lookup_insert_eq in Hb' by (eapply lookup_lt_Some; eauto).
    + discriminate.
    + injection Hb' as <-.
      unfold Combinable.local_exists. rewrite Hg'. reflexivity.
    + injection Hb' as <-. simpl in Hs. rewrite lookup_insert_eq in Hs.
      injection Hs as <-. simpl in Hid. contradiction.
  - right. left. exists p, s. repeat split; auto.
    unfold Combinable.local_exists. rewrite Hg. reflexivity.
  - right. right. exists p, s. repeat split; auto.
    unfold Combinable.local_exists. rewrite Hg. reflexivity.
Qed.

Lemma local_step fuel id c :
  tidy c ->
  (forall id', owner c id' -> bucket_of id' = bucket_of id -> id' = id) ->
  exists p c', local fuel id c = Ok (p, c') /\ tidy c' /\
    forall id', owner c' id' <-> owner c id' \/ id' = id.
Proof.
  intros T Hfree.
  destruct (Get_local_storage_unit_cases fuel id c T)
    as [[Hb Hg]|[(p & s & Hb & Hs & Hid & Hg)|(p & s & Hb & Hs & Hid & Hg)]].
  - exists (next_storage c), (with_entry id c). split.
    { unfold Combinable.local. rewrite Hg. cbn [mbind outcome_bind].
      apply Add_local_storage_unit_empty. exact Hb. }
    split; [apply tidy_with_entry; assumption|].
    intros id'. apply owner_with_entry. exact T.
  - exists p, c. split.
    { unfold Combinable.local. rewrite Hg. reflexivity. }
    split; [exact T|]. intros id'. split; [auto|].
    intros [H| ->]; [exact H|]. exists p, s. auto.
  - exfalso. apply Hid. apply Hfree.
    + exists p, s. auto.
    + destruct (tidy_bucket c T _ p Hb) as (s' & Hs' & _ & Hbk). congruence.
Qed.

Lemma local_step_inv fuel id c p c' :
  tidy c -> local fuel id c = Ok (p, c') ->
  forall id', owner c id' -> bucket_of id' = bucket_of id -> id' = id.
Proof.
  intros T Hrun id' Ho Hbk.
  destruct (Get_local_storage_unit_cases fuel id c T)
    as [[Hb Hg]|[(q & s & Hb & Hs & Hid & Hg)|(q & s & Hb & Hs & Hid & Hg)]].
  - destruct Ho as (p' & s' & Hs' & <-).
    destruct (tidy_storage c T p' s' Hs') as [_ Hb']. congruence.
  - rewrite <- Hbk in Hb.
    destruct (tidy_owner_bucket c id' q T Ho Hb) as (s' & Hs' & <-).
    congruence.
  - unfold Combinable.local in Hrun. rewrite Hg in Hrun. discriminate.
Qed.

Lemma local_each_returns fuel ids : forall c,
  tidy c -> collision_free (owner c) ids ->
  exists c', local_each fuel ids c = Ok c' /\ tidy c' /\
    forall id, owner c' id <-> owner c id \/ id ∈ ids.
Proof.
  induction ids as [|id ids IH]; intros c T Hfree.
  - exists c. split; [reflexivity|]. split; [exact T|].
    intros id. split; [auto|]. intros [H|H]; [exact H|]. inversion H.
  - destruct (local_step fuel id c T) as (p & c1 & Hrun & T1 & Ho1).
    { intros id' Ho Hbk. apply Hfree; auto. right. left. }
    destruct (IH c1 T1) as (c' & Hrest & T' & Ho').
    { intros id1 id2 H1 H2. apply Hfree.
      - destruct H1 as [H1|H1]; [apply Ho1 in H1 as [H1| ->]|];
          [left; exact H1|right; left|right; right; exact H1].
      - destruct H2 as [H2|H2]; [apply Ho1 in H2 as [H2| ->]|];
          [left; exact H2|right; left|right; right; exact H2]. }
    exists c'. split.
    { cbn [Combinable.local_each]. rewrite Hrun. exact Hrest. }
    split; [exact T'|]. intros id'. rewrite Ho', Ho1, elem_of_cons. tauto.
Qed.

Lemma local_each_returned fuel ids : forall c c',
  tidy c -> local_each fuel ids c = Ok c' -> collision_free (owner c) ids.
Proof.
  induction ids as [|id ids IH]; intros c c' T Hrun.
  - intros id1 id2 [H1|H1] [H2|H2]; try (inversion H1; fail);
      try (inversion H2; fail).
    apply tidy_owners_apart with c; assumption.
  - cbn [Combinable.local_each] in Hrun.
    destruct (local fuel id c) as [[p c1]| | |] eqn:Hstep; try discriminate.
    cbn [mbind outcome_bind] in Hrun.
    pose proof (local_step_inv fuel id c p c1 T Hstep) as Hid.
    destruct (local_step fuel id c T Hid) as (p' & c1' & Hstep' & T1 & Ho1).
    rewrite Hstep in Hstep'. injection Hstep' as <- <-.
    pose proof (IH c1 c' T1 Hrun) as Hfree.
    intros id1 id2 H1 H2. apply Hfree.
    + rewrite Ho1. rewrite elem_of_cons in H1. tauto.
    + rewrite Ho1. rewrite elem_of_cons in H2. tauto.
Qed.

(** X13.  [local()] called in turn by the threads of a list, on a new
    table: all the calls return exactly when no two distinct threads of
    the list share a bucket (so at most one thread per bucket is ever
    served); the table is then well formed and holds an entry for
    exactly the threads of the list. *)
Theorem local_each_returns_iff (fuel : nat) (ids : list thread_id) :
  ((exists c, local_each fuel ids create = Ok c) <->
   (forall id1 id2, id1 ∈ ids -> id2 ∈ ids ->
      bucket_of id1 = bucket_of id2 -> id1 = id2)) /\
  (forall c, local_each fuel ids create = Ok c ->
     tidy c /\ forall id, owner c id <-> id ∈ ids).
Proof.
  assert (Hiff : collision_free (owner create) ids <->
                 (forall id1 id2, id1 ∈ ids -> id2 ∈ ids ->
                    bucket_of id1 = bucket_of id2 -> id1 = id2)).
  { split.
    - intros H id1 id2 H1 H2. apply H; right; assumption.
    - intros H id1 id2 [H1|H1] [H2|H2];
        try (exfalso; eapply owner_create; eassumption).
      apply H; assumption. }
  split.
  - rewrite <- Hiff. split.
    + intros [c Hrun]. eapply local_each_returned; [apply tidy_create|exact Hrun].
    + intros Hfree.
      destruct (local_each_returns fuel ids create tidy_create Hfree)
        as (c & Hrun & _). eauto.
  - intros c Hrun.
    pose proof (local_each_returned fuel ids create c tidy_create Hrun) as Hfree.
    destruct (local_each_returns fuel ids create tidy_create Hfree)
      as (c' & Hrun' & T' & Ho).
    rewrite Hrun in Hrun'. injection Hrun' as <-. split; [exact T'|].
    intros id. rewrite Ho. split; [|auto].
    intros [H|H]; [exfalso; eapply owner_create; eassumption|exact H].
Qed.

(** *** [combine] and [combine_each] *)

Lemma for_each_unit_single {A : Type} (func : A -> value_type -> A)
    (st : gmap nat (@Storage value_type)) p s acc :
  st !! p = Some s -> nextStorage s = None ->
  for_each_unit (size st) func st (Some p) acc = Ok (func acc (mValue s)).
Proof.
  intros Hs Hn. destruct (size st) as [|n] eqn:E.
  - apply map_size_empty_inv in E. subst st. rewrite lookup_empty in Hs.
    discriminate.
  - simpl. rewrite Hs. simpl. rewrite Hn. destruct n; reflexivity.
Qed.

Lemma values_of_nulls st n : values_of st (replicate n None) = [].
Proof. induction n as [|n IH]; simpl; auto. Qed.

Lemma values_of_cons_live st p s B :
  st !! p = Some s -> values_of st (Some p :: B) = mValue s :: values_of st B.
Proof. intros Hs. unfold values_of. simpl. rewrite Hs. reflexivity. Qed.

Lemma combine_first_spec (B : list (option nat)) : forall k,
  0 <= k -> k + Z.of_nat (length B) <= size_limit ->
  match combine_first B k with
  | (None, _) => B = replicate (length B) None
  | (Some p, i) => exists j : nat,
      B !! j = Some (Some p) /\ take j B = replicate j None /\
      i = k + Z.of_nat j + 1
  end.
Proof.
  induction B as [|b B IH]; intros k Hk Hlen; simpl; [reflexivity|].
  simpl length in Hlen.
  assert (Hw : wrap (k + 1) = k + 1).
  { unfold wrap. apply Z.mod_small. unfold size_limit in Hlen. lia. }
  rewrite Hw. destruct b as [p|].
  - exists 0%nat. split; [reflexivity|]. split; [reflexivity|lia].
  - specialize (IH (k + 1) ltac:(lia) ltac:(lia)).
    destruct (combine_first B (k + 1)) as [[p|] i].
    + destruct IH as (j & Hj & Ht & ->). exists (S j).
      split; [exact Hj|]. split; [simpl; rewrite Ht; reflexivity|lia].
    + simpl. f_equal. exact IH.
Qed.

Lemma combine_rest_spec (func : value_type -> value_type -> value_type)
    (c : table) :
  tidy c -> ThreadCount <= size_limit ->
  forall count i result, (i + count = length (mBuckets c))%nat ->
    combine_rest count func c (Z.of_nat i) result
    = Ok (fold_left func (values_of (storage c) (drop i (mBuckets c))) result).
Proof.
  intros T HT.
  assert (Hmin : Min_size <= size_limit).
  { unfold Combinable.Min_size, Bucket_size_eval.
    destruct (8 >? ThreadCount / 8); unfold size_limit in *; lia. }
  induction count as [|count IH]; intros i result Hi.
  - rewrite drop_ge by lia. reflexivity.
  - assert (Hlt : (i < length (mBuckets c))%nat) by lia.
    apply lookup_lt_is_Some in Hlt as [b Hb].
    cbn [combine_rest]. rewrite Nat2Z.id, Hb. cbn [deref mbind outcome_bind].
    assert (Hw : wrap (Z.of_nat i + 1) = Z.of_nat (S i)).
    { unfold wrap. rewrite Z.mod_small; [lia|].
      pose proof (tidy_length c T). unfold size_limit in *. lia. }
    rewrite Hw. rewrite (drop_S _ _ _ Hb).
    destruct b as [p|].
    + destruct (tidy_bucket c T i p Hb) as (s & Hs & Hn & _).
      rewrite (for_each_unit_single func _ p s result Hs Hn).
      cbn [mbind outcome_bind]. rewrite IH by lia.
      rewrite (values_of_cons_live _ p s _ Hs). reflexivity.
    + destruct (size (storage c)); simpl; rewrite IH by lia; reflexivity.
Qed.

(** X14.  [combine(func)] on a well-formed table: the functor is folded,
    left to right, over the values of the entries in bucket order, with
    the first value as the seed; a table without entries gives
    [value_type{}]. *)
Theorem combine_folds_in_bucket_order
    (func : value_type -> value_type -> value_type) (c : table) :
  tidy c -> ThreadCount <= size_limit ->
  combine value_init ThreadCount func c
  = Ok match values c with
       | [] => value_init
       | v :: vs => fold_left func vs v
       end.
Proof.
  intros T HT. pose proof (Min_size_ge_8 ThreadCount) as H8.
  assert (Hmin : Min_size <= size_limit).
  { unfold Combinable.Min_size, Bucket_size_eval.
    destruct (8 >? ThreadCount / 8); unfold size_limit in *; lia. }
  pose proof (tidy_length c T) as Hlen.
  pose proof (combine_first_spec (mBuckets c) 0 ltac:(lia) ltac:(lia)) as Hf.
  unfold combine, values.
  destruct (combine_first (mBuckets c) 0) as [[p|] i].
  - destruct Hf as (j & Hj & Ht & ->).
    destruct (tidy_bucket c T j p Hj) as (s & Hs & Hn & _).
    rewrite Hs. cbn [deref mbind outcome_bind]. rewrite Hn.
    assert (Hfe : for_each_unit (size (storage c)) func (storage c) None (mValue s)
                  = Ok (mValue s)) by (destruct (size (storage c)); reflexivity).
    rewrite Hfe. cbn [mbind outcome_bind].
    pose proof (lookup_lt_Some _ _ _ Hj) as Hjlt.
    replace (0 + Z.of_nat j + 1) with (Z.of_nat (S j)) by lia.
    rewrite (combine_rest_spec func c T HT _ (S j)) by lia.
    rewrite <- (take_drop j (mBuckets c)) at 2.
    rewrite Ht, (drop_S _ _ _ Hj). unfold values_of at 2.
    rewrite omap_app. fold (values_of (storage c) (replicate j None)).
    rewrite values_of_nulls. simpl. rewrite Hs. reflexivity.
  - rewrite Hf, values_of_nulls. reflexivity.
Qed.

Lemma combine_each_loop_spec {A : Type} (func : A -> value_type -> A)
    (st : gmap nat (@Storage value_type)) (B : list (option nat)) :
  (forall p, Some p ∈ B -> exists s, st !! p = Some s /\ nextStorage s = None) ->
  forall acc,
    combine_each_loop B func st acc = Ok (fold_left func (values_of st B) acc).
Proof.
  induction B as [|b B IH]; intros HB acc; [reflexivity|].
  cbn [combine_each_loop].
  assert (HB' : forall p, Some p ∈ B ->
                  exists s, st !! p = Some s /\ nextStorage s = None)
    by (intros p Hp; apply HB; right; exact Hp).
  destruct b as [p|].
  - destruct (HB p ltac:(left)) as (s & Hs & Hn).
    rewrite (for_each_unit_single func st p s acc Hs Hn).
    cbn [mbind outcome_bind]. rewrite (IH HB').
    rewrite (values_of_cons_live st p s B Hs). reflexivity.
  - assert (Hfe : for_each_unit (size st) func st None acc = Ok acc)
      by (destruct (size st); reflexivity).
    rewrite Hfe. cbn [mbind outcome_bind]. rewrite (IH HB'). reflexivity.
Qed.

(** The live nodes reached from the buckets, in bucket order. *)
Definition entries_of (st : gmap nat (@Storage value_type))
    (buckets : list (option nat)) : list (nat * @Storage value_type) :=
  omap (fun bucket : option nat =>
          match bucket with
          | Some p => pair p <$> st !! p
          | None => None
          end) buckets.

Lemma values_of_entries st B :
  values_of st B = (fun e => mValue e.2) <$> entries_of st B.
Proof.
  induction B as [|[p|] B IH]; simpl; auto.
  unfold values_of, entries_of in *. simpl.
  destruct (st !! p); simpl; [f_equal|]; exact IH.
Qed.

Lemma elem_of_entries st B p s :
  (p, s) ∈ entries_of st B <-> Some p ∈ B /\ st !! p = Some s.
Proof.
  unfold entries_of. rewrite list_elem_of_omap. split.
  - intros ([q|] & Hin & Hq); [|discriminate].
    destruct (st !! q) eqn:E; [|discriminate]. simpl in Hq.
    injection Hq as -> ->. auto.
  - intros [Hin Hs]. exists (Some p). split; [exact Hin|].
    rewrite Hs. reflexivity.
Qed.

Lemma NoDup_entries st B :
  (forall i j p, B !! i = Some (Some p) -> B !! j = Some (Some p) -> i = j) ->
  NoDup (entries_of st B).
Proof.
  induction B as [|b B IH]; intros Hinj; [constructor|].
  assert (HB : NoDup (entries_of st B)).
  { apply IH. intros i j p Hi Hj.
    specialize (Hinj (S i) (S j) p Hi Hj). lia. }
  destruct b as [p|]; [|exact HB].
  unfold entries_of. simpl. destruct (st !! p) as [s|] eqn:E; [|exact HB].
  simpl. constructor; [|exact HB].
  change ((p, s) ∉ entries_of st B). rewrite elem_of_entries. intros [Hin _].
  apply list_elem_of_lookup in Hin as [j Hj].
  specialize (Hinj 0%nat (S j) p eq_refl Hj). lia.
Qed.

Lemma tidy_buckets_apart c i j p :
  tidy c -> mBuckets c !! i = Some (Some p) -> mBuckets c !! j = Some (Some p) ->
  i = j.
Proof.
  intros T Hi Hj.
  destruct (tidy_bucket c T i p Hi) as (s & Hs & _ & <-).
  destruct (tidy_bucket c T j p Hj) as (s' & Hs' & _ & <-).
  congruence.
Qed.

Lemma tidy_entries c :
  tidy c -> entries_of (storage c) (mBuckets c) ≡ₚ map_to_list (storage c).
Proof.
  intros T. apply NoDup_Permutation.
  - apply NoDup_entries. intros i j p. apply tidy_buckets_apart. exact T.
  - apply NoDup_map_to_list.
  - intros [p s]. rewrite elem_of_entries, elem_of_map_to_list. split.
    + tauto.
    + intros Hs. split; [|exact Hs].
      destruct (tidy_storage c T p s Hs) as [_ Hb].
      eapply list_elem_of_lookup_2; eauto.
Qed.

(** X15.  [combine_each(func)] on a well-formed table: the functor is
    called on the values of the entries in bucket order, once for every
    live entry of the table and for nothing else. *)
Theorem combine_each_visits_every_entry {A : Type}
    (func : A -> value_type -> A) (acc : A) (c : table) :
  tidy c ->
  combine_each func acc c = Ok (fold_left func (values c) acc) /\
  values c ≡ₚ (fun e => mValue e.2) <$> map_to_list (storage c).
Proof.
  intros T. split.
  - apply combine_each_loop_spec. intros p Hp.
    apply list_elem_of_lookup in Hp as [i Hi].
    destruct (tidy_bucket c T i p Hi) as (s & Hs & Hn & _). eauto.
  - unfold values. rewrite values_of_entries.
    apply fmap_Permutation, tidy_entries. exact T.
Qed.

(** *** [Finalise] *)

Lemma Delete_single (st : gmap nat (@Storage value_type)) p s :
  st !! p = Some s -> nextStorage s = None ->
  Delete_storage_units_in_bucket_ptr (Some p) st = Ok (delete p st).
Proof.
  intros Hs Hn. unfold Delete_storage_units_in_bucket_ptr.
  destruct (size st) as [|n] eqn:E.
  - apply map_size_empty_inv in E. subst st. rewrite lookup_empty in Hs.
    discriminate.
  - simpl. rewrite Hs. simpl. rewrite Hn. destruct n; reflexivity.
Qed.

Lemma Delete_null (st : gmap nat (@Storage value_type)) :
  Delete_storage_units_in_bucket_ptr None st = Ok st.
Proof.
  unfold Delete_storage_units_in_bucket_ptr. destruct (size st); reflexivity.
Qed.

Lemma Finalise_loop_tidy (B : list (option nat)) :
  forall st : gmap nat (@Storage value_type),
    (forall i p, B !! i = Some (Some p) ->
       exists s, st !! p = Some s /\ nextStorage s = None) ->
    (forall i j p, B !! i = Some (Some p) -> B !! j = Some (Some p) -> i = j) ->
    exists st', Finalise_loop B st = Ok st' /\
      forall q, st' !! q = if decide (Some q ∈ B) then None else st !! q.
Proof.
  induction B as [|b B IH]; intros st Hlive Hinj.
  - exists st. split; [reflexivity|]. intros q.
    rewrite decide_False; [reflexivity|]. intros H. inversion H.
  - assert (Hinj' : forall i j p, B !! i = Some (Some p) ->
                      B !! j = Some (Some p) -> i = j).
    { intros i j p Hi Hj. specialize (Hinj (S i) (S j) p Hi Hj). lia. }
    cbn [Finalise_loop]. destruct b as [p|].
    + destruct (Hlive 0%nat p eq_refl) as (s & Hs & Hn).
      rewrite (Delete_single st p s Hs Hn). cbn [mbind outcome_bind].
      destruct (IH (delete p st)) as (st' & Hrun & Hst'); [|exact Hinj'|].
      { intros i q Hi. destruct (Hlive (S i) q Hi) as (s' & Hs' & Hn').
        exists s'. split; [|exact Hn'].
        rewrite lookup_delete_ne; [exact Hs'|]. intros ->.
        specialize (Hinj 0%nat (S i) q eq_refl Hi). lia. }
      exists st'. split; [exact Hrun|]. intros q. rewrite Hst'.
      destruct (decide (q = p)) as [->|Hne].
      * rewrite (decide_True (P := Some p ∈ Some p :: B)) by left.
        destruct (decide (Some p ∈ B)); [reflexivity|apply lookup_delete_eq].
      * rewrite lookup_delete_ne by congruence.
        destruct (decide (Some q ∈ B)) as [Hin|Hout].
        -- rewrite decide_True by (right; exact Hin). reflexivity.
        -- rewrite decide_False; [reflexivity|].
           rewrite elem_of_cons. intros [E|E]; [congruence|contradiction].
    + rewrite Delete_null. cbn [mbind outcome_bind].
      destruct (IH st) as (st' & Hrun & Hst'); [|exact Hinj'|].
      { intros i q Hi. exact (Hlive (S i) q Hi). }
      exists st'. split; [exact Hrun|]. intros q. rewrite Hst'.
      destruct (decide (Some q ∈ B)) as [Hin|Hout].
      * rewrite decide_True by (right; exact Hin). reflexivity.
      * rewrite decide_False; [reflexivity|].
        rewrite elem_of_cons. intros [E|E]; [discriminate|contradiction].
Qed.

(** X16.  [Finalise] (the destructor and [clear()]) on a well-formed
    table: every node is given back to the allocator, and the bucket
    array is left as it was, so every bucket that had an entry still
    holds the address of a released node. *)
Theorem Finalise_releases_every_node (c : table) :
  tidy c ->
  exists c', Finalise c = Ok c' /\ clear c = Ok c' /\
    storage c' = ∅ /\ mBuckets c' = mBuckets c /\
    (forall i p, mBuckets c !! i = Some (Some p) ->
       mBuckets c' !! i = Some (Some p) /\ storage c' !! p = None).
Proof.
  intros T.
  destruct (Finalise_loop_tidy (mBuckets c) (storage c)) as (st' & Hrun & Hst').
  { intros i p Hi. destruct (tidy_bucket c T i p Hi) as (s & Hs & Hn & _). eauto. }
  { intros i j p. apply tidy_buckets_apart. exact T. }
  assert (Hempty : st' = ∅).
  { apply map_eq. intros q. rewrite lookup_empty, Hst'.
    destruct (decide (Some q ∈ mBuckets c)) as [Hin|Hout]; [reflexivity|].
    destruct (storage c !! q) as [s|] eqn:Hs; [|reflexivity].
    exfalso. apply Hout. destruct (tidy_storage c T q s Hs) as [_ Hb].
    eapply list_elem_of_lookup_2; eauto. }
  exists {| mBuckets := mBuckets c; storage := st';
            next_storage := next_storage c |}.
  unfold clear, Finalise. rewrite Hrun. cbn [mbind outcome_bind].
  split; [reflexivity|]. split; [reflexivity|]. simpl.
  split; [exact Hempty|]. split; [reflexivity|].
  intros i p Hi. split; [exact Hi|]. rewrite Hempty. apply lookup_empty.
Qed.

End more.

(** A table of eight buckets with the entries of threads 1 and 2, which
    hold 10 and 20. *)
Definition two_entries : @combinable Z :=
  {| mBuckets := [None; Some 0%nat; Some 1%nat; None; None; None; None; None];
     storage := {[ 0%nat := {| mThreadID := 1%nat; mValue := 10;
                               nextStorage := None |};
                   1%nat := {| mThreadID := 2%nat; mValue := 20;
                               nextStorage := None |} ]};
     next_storage := 2 |}.

Lemma tidy_two_entries : tidy 8 Z.of_nat two_entries.
Proof.
  constructor.
  - reflexivity.
  - intros i p Hi.
    destruct i as [|[|[|[|[|[|[|[|i]]]]]]]]; try discriminate;
      injection Hi as <-; eexists; (split; [reflexivity|split; reflexivity]).
  - intros p s Hs. simpl in Hs.
    apply lookup_insert_Some in Hs as [[<- <-]|[_ Hs]].
    + split; [simpl; lia|reflexivity].
    + apply lookup_singleton_Some in Hs as [<- <-].
      split; [simpl; lia|reflexivity].
Qed.

Lemma local_exists_on_tidy_witness :
  tidy 8 Z.of_nat two_entries /\
  ((mBuckets two_entries !! Z.to_nat (wrap (Z.of_nat 3) mod Min_size 8) = Some None /\
    exists c',
      local_exists 0 8 Z.of_nat 0 3%nat two_entries
      = Ok (next_storage two_entries, false, c') /\
      tidy 8 Z.of_nat c' /\
      storage c' !! next_storage two_entries
      = Some {| mThreadID := 3%nat; mValue := 0; nextStorage := None |} /\
      (forall p, p <> next_storage two_entries ->
         storage c' !! p = storage two_entries !! p) /\
      local_exists 0 8 Z.of_nat 0 3%nat c'
      = Ok (next_storage two_entries, true, c')) \/
   (exists p s,
      mBuckets two_entries !! Z.to_nat (wrap (Z.of_nat 3) mod Min_size 8)
      = Some (Some p) /\
      storage two_entries !! p = Some s /\ mThreadID s = 3%nat /\
      local_exists 0 8 Z.of_nat 0 3%nat two_entries = Ok (p, true, two_entries)) \/
   (exists p s,
      mBuckets two_entries !! Z.to_nat (wrap (Z.of_nat 3) mod Min_size 8)
      = Some (Some p) /\
      storage two_entries !! p = Some s /\ mThreadID s <> 3%nat /\
      local_exists 0 8 Z.of_nat 0 3%nat two_entries = Diverge)).
Proof.
  split; [exact tidy_two_entries|].
  apply (local_exists_on_tidy 0 8 Z.of_nat 0 3%nat two_entries).
  exact tidy_two_entries.
Defined.

Lemma combine_folds_in_bucket_order_witness :
  tidy 8 Z.of_nat two_entries /\ 8 <= size_limit /\
  combine 0 8 Z.add two_entries = Ok 30.
Proof.
  split; [exact tidy_two_entries|]. split; [unfold size_limit; lia|].
  apply (combine_folds_in_bucket_order 0 8 Z.of_nat Z.add two_entries).
  - exact tidy_two_entries.
  - unfold size_limit. lia.
Defined.

Lemma combine_each_visits_every_entry_witness :
  tidy 8 Z.of_nat two_entries /\
  combine_each (fun acc v => v :: acc) [] two_entries
  = Ok (fold_left (fun acc v => v :: acc) (values two_entries) []) /\
  values two_entries
  ≡ₚ (fun e => mValue e.2) <$> map_to_list (storage two_entries).
Proof.
  split; [exact tidy_two_entries|].
  apply (combine_each_visits_every_entry 8 Z.of_nat
           (fun acc v => v :: acc) [] two_entries).
  exact tidy_two_entries.
Defined.

Lemma Finalise_releases_every_node_witness :
  tidy 8 Z.of_nat two_entries /\
  exists c', Finalise two_entries = Ok c' /\ clear two_entries = Ok c' /\
    storage c' = ∅ /\ mBuckets c' = mBuckets two_entries /\
    (forall i p, mBuckets two_entries !! i = Some (Some p) ->
       mBuckets c' !! i = Some (Some p) /\ storage c' !! p = None).
Proof.
  split; [exact tidy_two_entries|].
  apply (Finalise_releases_every_node 8 Z.of_nat two_entries).
  exact tidy_two_entries.
Defined.

End CombinableMore.
(** ** Properties of the segmented vector *)

Module VectorFacts.
Import Vector.

(** *** The chain of segments, described as a list

    A descriptor gives, for one segment of the chain, the pointer that
    designates it, its storage block ([None] while it has none), the length
    of the block and the number of cells in use. *)
Record desc := {
  d_ref : seg_ref;
  d_base : option nat;
  d_cap : Z;
  d_used : Z
}.

Definition base_ptr (d : desc) (o : Z) : pointer :=
  match d_base d with
  | Some b => Some (b, o)
  | None => None
  end.

Definition with_used (u : Z) (d : desc) : desc :=
  {| d_ref := d_ref d; d_base := d_base d; d_cap := d_cap d; d_used := u |}.

Definition sum_cap (L : list desc) : Z := foldr (fun d acc => d_cap d + acc) 0 L.
Definition sum_used (L : list desc) : Z := foldr (fun d acc => d_used d + acc) 0 L.

(** The cell of logical offset [i], counted along the blocks of the chain. *)
Fixpoint locate (L : list desc) (i : Z) : outcome address :=
  match L with
  | [] => Undefined
  | d :: L' =>
      if i <? d_cap d
      then match d_base d with
           | Some b => Ok (b, i)
           | None => Undefined
           end
      else locate L' (i - d_cap d)
  end.

#[local] Arguments construct : simpl never.
#[local] Arguments budget : simpl never.
#[local] Arguments load : simpl never.

(** The cell of the element of logical index [i], counted along the
    constructed elements of the chain. *)
Fixpoint element_slot (L : list desc) (i : Z) : option address :=
  match L with
  | [] => None
  | d :: L' =>
      if i <? d_used d
      then match d_base d with
           | Some b => Some (b, i)
           | None => None
           end
      else element_slot L' (i - d_used d)
  end.

(** What [Adjust_segments_and_get_last_address_for index] does to the
    descriptors: [adjust_split] gives the segments up to the target, with
    their new cursors, and the segments behind it; [adjust_target] the
    pointer returned. *)
Fixpoint adjust_split (L : list desc) (index : Z) : list desc * list desc :=
  match L with
  | [] => ([], [])
  | d :: L' =>
      if index <? d_cap d then ([with_used index d], L')
      else let '(A, R) := adjust_split L' (index - d_cap d) in
           (with_used (d_cap d) d :: A, R)
  end.

Fixpoint adjust_target (L : list desc) (index : Z) : option seg_ref :=
  match L with
  | [] => None
  | d :: L' =>
      if index <? d_cap d then Some (d_ref d)
      else adjust_target L' (index - d_cap d)
  end.

Definition adjust (L : list desc) (index : Z) : list desc :=
  (adjust_split L index).1 ++ (with_used 0 <$> (adjust_split L index).2).

Section facts.
Context {Type_ : Type}.
Context (sizeof_Type : Z).

Local Abbreviation vector := (@concurrent_vector Type_).

Definition seg_matches (v : vector) (d : desc) (nxt : option seg_ref) : Prop :=
  exists s,
    get_segment (d_ref d) v = Ok s /\
    Data_Segment.mBegin s = base_ptr d 0 /\
    Data_Segment.mCurrent s = base_ptr d (d_used d) /\
    Data_Segment.mEnd s = base_ptr d (d_cap d) /\
    Data_Segment.mSegAfter s = nxt.

Definition desc_ok (m : memory Type_) (d : desc) : Prop :=
  0 <= d_used d <= d_cap d /\
  match d_base d with
  | Some b => blocks m !! b = Some (d_cap d) /\ 0 < d_cap d
  | None => d_cap d = 0
  end.

(** [shape v L]: the chain that starts at [mSegment] is [L]; its segments
    own distinct blocks; identifiers not yet handed out are unused. *)
Record shape (v : vector) (L : list desc) : Prop := {
  shape_head : d_ref <$> L !! 0%nat = Some Head;
  shape_linked : forall j d, L !! j = Some d ->
                   seg_matches v d (d_ref <$> L !! S j);
  shape_refs : NoDup (d_ref <$> L);
  shape_blocks : NoDup (omap d_base L);
  shape_ok : Forall (desc_ok (mAllocator v)) L;
  shape_storage : forall j d, L !! S j = Some d -> is_Some (d_base d);
  shape_cap : sum_cap L <= size_limit;
  shape_nodes : forall n s, mSegmentAllocator v !! n = Some s ->
                  (n < next_segment v)%nat;
  shape_fresh : forall b n, blocks (mAllocator v) !! b = Some n ->
                  (b < next_block (mAllocator v))%nat
}.

(** The segments behind the one [mCurrent] designates are unused. *)
Definition cursor_ok (v : vector) (L : list desc) : Prop :=
  forall j d, L !! S j = Some d -> Some (d_ref d) = mCurrent v ->
    Forall (fun d' => d_used d' = 0) (drop (S (S j)) L).

(** [normal v L]: the state constructors and appends leave behind:
    [mCurrent] and [mEnd] designate the last segment and every segment
    before it is full. *)
Record normal (v : vector) (L : list desc) : Prop := {
  normal_shape : shape v L;
  normal_current : mCurrent v = d_ref <$> last L;
  normal_end : mEnd v = mCurrent v;
  normal_full : forall j d, L !! j = Some d -> (S j < length L)%nat ->
                  d_used d = d_cap d
}.

(** *** Sums *)

Lemma sum_cap_app L1 L2 : sum_cap (L1 ++ L2) = sum_cap L1 + sum_cap L2.
Proof. induction L1; simpl; lia. Qed.

Lemma sum_used_app L1 L2 : sum_used (L1 ++ L2) = sum_used L1 + sum_used L2.
Proof. induction L1; simpl; lia. Qed.

Lemma sum_used_bounds (m : memory Type_) L :
  Forall (desc_ok m) L -> 0 <= sum_used L <= sum_cap L.
Proof.
  induction 1 as [|d L [Hd _] _ IH]; simpl; lia.
Qed.

Lemma sum_cap_nonneg (m : memory Type_) L :
  Forall (desc_ok m) L -> 0 <= sum_cap L.
Proof. intros H. pose proof (sum_used_bounds m L H). lia. Qed.

Lemma sum_used_zero L :
  Forall (fun d => d_used d = 0) L -> sum_used L = 0.
Proof. induction 1; simpl; lia. Qed.

Lemma sum_cap_drop_le (m : memory Type_) L j :
  Forall (desc_ok m) L -> 0 <= sum_cap (drop j L) <= sum_cap L.
Proof.
  intros H. rewrite <- (take_drop j L) at 3. rewrite sum_cap_app.
  pose proof (sum_cap_nonneg m (take j L) (Forall_take _ j _ H)).
  pose proof (sum_cap_nonneg m (drop j L) (Forall_drop _ j _ H)). lia.
Qed.

(** *** Reading a described segment *)

Lemma length_of_matches (v : vector) d nxt s :
  get_segment (d_ref d) v = Ok s -> seg_matches v d nxt ->
  desc_ok (mAllocator v) d -> d_cap d <= size_limit ->
  length_of s = Ok (d_cap d).
Proof.
  intros Hs (s' & Hs' & Hb & _ & He & _) [Hu Hd] Hc.
  rewrite Hs in Hs'. injection Hs' as <-.
  unfold length_of, base_ptr in *. rewrite He, Hb.
  destruct (d_base d) as [b|]; simpl.
  - rewrite decide_True by reflexivity. simpl.
    rewrite Z.sub_0_r, wrap_small by lia. reflexivity.
  - rewrite Hd. reflexivity.
Qed.

Lemma used_of_matches (v : vector) d nxt s :
  get_segment (d_ref d) v = Ok s -> seg_matches v d nxt ->
  desc_ok (mAllocator v) d -> d_cap d <= size_limit ->
  used_of s = Ok (d_used d).
Proof.
  intros Hs (s' & Hs' & Hb & Hcur & _ & _) [Hu Hd] Hc.
  rewrite Hs in Hs'. injection Hs' as <-.
  unfold used_of, base_ptr in *. rewrite Hcur, Hb.
  destruct (d_base d) as [b|]; simpl.
  - rewrite decide_True by reflexivity. simpl.
    rewrite Z.sub_0_r, wrap_small by lia. reflexivity.
  - assert (d_used d = 0) as -> by lia. reflexivity.
Qed.

Lemma shape_cap_each (v : vector) L j d :
  shape v L -> L !! j = Some d -> 0 <= d_cap d <= size_limit.
Proof.
  intros H Hj. pose proof (shape_cap _ _ H) as Hc.
  pose proof (shape_ok _ _ H) as Hok.
  rewrite <- (take_drop j L), (drop_S _ _ _ Hj) in Hc, Hok.
  rewrite sum_cap_app in Hc. simpl in Hc.
  apply Forall_app in Hok as [Hok1 Hok2].
  apply Forall_cons in Hok2 as [[Hd _] Hok2].
  pose proof (sum_cap_nonneg _ _ Hok1). pose proof (sum_cap_nonneg _ _ Hok2).
  lia.
Qed.

Lemma shape_desc_ok (v : vector) L j d :
  shape v L -> L !! j = Some d -> desc_ok (mAllocator v) d.
Proof.
  intros H Hj. pose proof (shape_ok _ _ H) as Hok.
  rewrite Forall_lookup in Hok. eauto.
Qed.

Definition node_of (d : desc) : option nat :=
  match d_ref d with
  | Node n => Some n
  | Head => None
  end.

Lemma nodes_length L :
  Head ∉ d_ref <$> L -> length (omap node_of L) = length L.
Proof.
  induction L as [|d L IH]; [reflexivity|].
  rewrite fmap_cons, not_elem_of_cons. intros [Hd HL]. simpl.
  unfold node_of at 1. destruct (d_ref d); [congruence|].
  simpl. f_equal. apply IH, HL.
Qed.

Lemma nodes_NoDup L : NoDup (d_ref <$> L) -> NoDup (omap node_of L).
Proof.
  induction L as [|d L IH]; [constructor|].
  rewrite fmap_cons, NoDup_cons. intros [Hd Hnd]. simpl.
  unfold node_of at 1. destruct (d_ref d) eqn:E; [auto|].
  constructor; [|auto].
  intros Hin. apply Hd. apply list_elem_of_omap in Hin as (d' & Hd' & Hr).
  unfold node_of in Hr. destruct (d_ref d') eqn:E'; [discriminate|].
  injection Hr as ->.
  apply list_elem_of_fmap. exists d'. split; [congruence|exact Hd'].
Qed.

(** The chain is never longer than the walk budget allows. *)
Lemma shape_length (v : vector) L :
  shape v L -> (S (length L) <= budget v)%nat.
Proof.
  intros H. unfold budget.
  destruct L as [|d0 L]; [simpl; lia|]. simpl.
  pose proof (shape_head _ _ H) as Hh. simpl in Hh. injection Hh as Hh.
  pose proof (shape_refs _ _ H) as Hnd. rewrite fmap_cons, Hh in Hnd.
  apply NoDup_cons in Hnd as [Hnotin Hnd].
  assert (Hsub : forall n, n ∈ omap node_of L ->
                   n ∈ elements (dom (mSegmentAllocator v))).
  { intros n Hin.
    apply list_elem_of_omap in Hin as (d' & Hd' & Hr).
    unfold node_of in Hr. destruct (d_ref d') eqn:E'; [discriminate|].
    injection Hr as ->.
    apply list_elem_of_lookup in Hd' as [j Hj].
    destruct (shape_linked _ _ H (S j) d' Hj) as (s & Hs & _).
    rewrite E' in Hs. simpl in Hs.
    apply elem_of_elements, elem_of_dom.
    destruct (mSegmentAllocator v !! n); [eauto|discriminate]. }
  pose proof (submseteq_length _ _
                (NoDup_submseteq _ _ (nodes_NoDup L Hnd) Hsub)) as Hle.
  rewrite (nodes_length L Hnotin) in Hle.
  rewrite <- size_dom. unfold size at 1, set_size. simpl. lia.
Qed.

(** *** The three walks in closed form *)

Lemma Get_capacity_loop_spec (v : vector) L :
  shape v L ->
  forall fuel j acc d,
    L !! j = Some d -> (length L - j <= fuel)%nat ->
    0 <= acc -> acc + sum_cap (drop j L) <= size_limit ->
    Get_capacity_loop fuel v acc (d_ref d) = Ok (acc + sum_cap (drop j L)).
Proof.
  intros H. induction fuel as [|fuel IH]; intros j acc d Hj Hfuel Hacc Hsum.
  { apply lookup_lt_Some in Hj. lia. }
  pose proof (shape_cap_each _ _ _ _ H Hj) as Hc.
  pose proof (shape_desc_ok _ _ _ _ H Hj) as Hok.
  pose proof (shape_linked _ _ H j d Hj) as Hm.
  pose proof Hm as (s & Hs & Hrest).
  rewrite (drop_S _ _ _ Hj) in Hsum |- *. simpl in Hsum |- *.
  rewrite Hs. simpl.
  rewrite (length_of_matches v d _ s Hs Hm Hok) by lia. simpl.
  destruct Hrest as (_ & _ & _ & ->).
  pose proof (sum_cap_drop_le (mAllocator v) L (S j) (shape_ok _ _ H)).
  rewrite wrap_small by lia.
  destruct (L !! S j) as [d'|] eqn:Hj'; simpl.
  - rewrite (IH (S j) _ d' Hj') by lia. f_equal. lia.
  - apply lookup_ge_None in Hj'. rewrite drop_ge by lia. simpl.
    f_equal. lia.
Qed.

Lemma Get_capacity_spec (v : vector) L :
  shape v L -> Get_capacity v = Ok (sum_cap L).
Proof.
  intros H. pose proof (shape_head _ _ H) as Hh.
  destruct (L !! 0%nat) as [d|] eqn:H0; [|discriminate].
  simpl in Hh. injection Hh as Hh.
  unfold Get_capacity. rewrite <- Hh.
  pose proof (shape_length _ _ H).
  rewrite (Get_capacity_loop_spec v L H _ 0%nat 0 d H0); rewrite ?drop_0.
  - reflexivity.
  - lia.
  - lia.
  - pose proof (shape_cap _ _ H). lia.
Qed.

Lemma Get_value_at_loop_spec (v : vector) L :
  shape v L ->
  forall fuel j i,
    (length L - j < fuel)%nat -> 0 <= i ->
    Get_value_at_loop fuel v i (d_ref <$> L !! j) = locate (drop j L) i.
Proof.
  intros H. induction fuel as [|fuel IH]; intros j i Hfuel Hi; [lia|].
  simpl. destruct (L !! j) as [d|] eqn:Hj; simpl.
  - pose proof (shape_cap_each _ _ _ _ H Hj) as Hc.
    pose proof (shape_desc_ok _ _ _ _ H Hj) as Hok.
    pose proof (shape_linked _ _ H j d Hj) as Hm.
    pose proof Hm as (s & Hs & Hrest).
    rewrite (drop_S _ _ _ Hj). simpl.
    unfold segment_at. simpl. rewrite Hs. simpl.
    rewrite (length_of_matches v d _ s Hs Hm Hok) by lia. simpl.
    destruct Hrest as (Hb & _ & _ & ->).
    destruct (i <? d_cap d) eqn:Elt.
    + rewrite Hb. unfold base_ptr. destruct Hok as [_ Hok].
      destruct (d_base d); simpl; [rewrite Z.add_0_l; reflexivity|].
      apply Z.ltb_lt in Elt. lia.
    + apply Z.ltb_ge in Elt. apply IH; [|lia].
      apply lookup_lt_Some in Hj. lia.
  - apply lookup_ge_None in Hj. rewrite drop_ge by lia. reflexivity.
Qed.

Lemma Get_value_at_spec (v : vector) L i :
  shape v L -> 0 <= i -> Get_value_at i v = locate L i.
Proof.
  intros H Hi. unfold Get_value_at. rewrite <- (shape_head _ _ H).
  pose proof (shape_length _ _ H).
  rewrite (Get_value_at_loop_spec v L H); rewrite ?drop_0; [reflexivity|lia|lia].
Qed.

Lemma Get_size_loop_spec (v : vector) L :
  shape v L -> cursor_ok v L ->
  forall fuel j acc d,
    L !! j = Some d -> (length L - j <= fuel)%nat ->
    0 <= acc -> acc + sum_used (drop j L) <= size_limit ->
    Get_size_loop fuel v acc (d_ref d) = Ok (acc + sum_used (drop j L)).
Proof.
  intros H Hcur. induction fuel as [|fuel IH]; intros j acc d Hj Hfuel Hacc Hsum.
  { apply lookup_lt_Some in Hj. lia. }
  pose proof (shape_cap_each _ _ _ _ H Hj) as Hc.
  pose proof (shape_desc_ok _ _ _ _ H Hj) as Hok.
  pose proof (shape_linked _ _ H j d Hj) as Hm.
  pose proof Hm as (s & Hs & Hrest).
  rewrite (drop_S _ _ _ Hj) in Hsum |- *. simpl in Hsum |- *.
  rewrite Hs. simpl.
  rewrite (used_of_matches v d _ s Hs Hm Hok) by lia. simpl.
  destruct Hrest as (_ & _ & _ & ->).
  pose proof (sum_used_bounds (mAllocator v) (drop (S j) L)
                (Forall_drop _ (S j) _ (shape_ok _ _ H))) as Hub.
  destruct Hok as [Hu _].
  rewrite wrap_small by lia.
  destruct (L !! S j) as [d'|] eqn:Hj'; simpl.
  - pose proof (shape_cap_each _ _ _ _ H Hj') as Hc'.
    pose proof (shape_desc_ok _ _ _ _ H Hj') as Hok'.
    rewrite (drop_S _ _ _ Hj') in Hsum, Hub |- *. simpl in Hsum, Hub |- *.
    pose proof (sum_used_bounds (mAllocator v) (drop (S (S j)) L)
                  (Forall_drop _ (S (S j)) _ (shape_ok _ _ H))) as Hub'.
    destruct (decide (Some (d_ref d') = mCurrent v)) as [Heq|Hne].
    + pose proof (shape_linked _ _ H (S j) d' Hj') as Hm'.
      pose proof Hm' as (s' & Hs' & Hrest').
      rewrite Hs'. simpl.
      rewrite (used_of_matches v d' _ s' Hs' Hm' Hok') by lia. simpl.
      rewrite (sum_used_zero _ (Hcur j d' Hj' Heq)) in *.
      destruct Hok' as [Hu' _].
      rewrite wrap_small by lia. f_equal. lia.
    + rewrite (IH (S j) _ d' Hj'); rewrite ?(drop_S _ _ _ Hj'); simpl; try lia.
      f_equal. lia.
  - apply lookup_ge_None in Hj'. rewrite drop_ge by lia. simpl.
    f_equal. lia.
Qed.

Lemma Get_size_spec (v : vector) L :
  shape v L -> cursor_ok v L -> Get_size v = Ok (sum_used L).
Proof.
  intros H Hcur. pose proof (shape_head _ _ H) as Hh.
  destruct (L !! 0%nat) as [d|] eqn:H0; [|discriminate].
  simpl in Hh. injection Hh as Hh.
  unfold Get_size. rewrite <- Hh.
  pose proof (shape_length _ _ H).
  pose proof (sum_used_bounds _ _ (shape_ok _ _ H)).
  pose proof (shape_cap _ _ H).
  rewrite (Get_size_loop_spec v L H Hcur _ 0%nat 0 d H0); rewrite ?drop_0;
    first [reflexivity | lia].
Qed.

(** *** Locating cells *)

Lemma locate_ge (m : memory Type_) L i :
  Forall (desc_ok m) L -> sum_cap L <= i -> locate L i = Undefined.
Proof.
  intros H. revert i. induction H as [|d L [Hd _] HL IH]; intros i Hi;
    simpl in *; [reflexivity|].
  pose proof (sum_cap_nonneg m L HL).
  destruct (i <? d_cap d) eqn:E; [apply Z.ltb_lt in E; lia|].
  apply IH. lia.
Qed.

Lemma locate_lt (m : memory Type_) L i :
  Forall (desc_ok m) L -> 0 <= i < sum_cap L ->
  exists a, locate L i = Ok a /\ in_block m a = true.
Proof.
  intros H. revert i. induction H as [|d L [Hd Hb] HL IH]; intros i Hi;
    simpl in *; [lia|].
  destruct (i <? d_cap d) eqn:E.
  - apply Z.ltb_lt in E. destruct (d_base d) as [b|]; [|lia].
    exists (b, i). split; [reflexivity|].
    unfold in_block. simpl. destruct Hb as [-> _].
    apply andb_true_intro. split; [apply Z.leb_le|apply Z.ltb_lt]; lia.
  - apply Z.ltb_ge in E. apply IH. lia.
Qed.

Lemma locate_block (m : memory Type_) L i b o :
  locate L i = Ok (b, o) -> b ∈ omap d_base L.
Proof.
  revert i. induction L as [|d L IH]; intros i; simpl; [discriminate|].
  destruct (i <? d_cap d).
  - destruct (d_base d) as [b'|]; [|discriminate].
    intros [= -> _]. left.
  - intros Hl. apply IH in Hl. destruct (d_base d); [right|]; exact Hl.
Qed.

Lemma locate_inj (m : memory Type_) L i i' a :
  Forall (desc_ok m) L -> NoDup (omap d_base L) ->
  0 <= i -> 0 <= i' ->
  locate L i = Ok a -> locate L i' = Ok a -> i = i'.
Proof.
  intros H. revert i i'.
  induction H as [|d L [Hd Hb] HL IH]; intros i i' Hnd Hi Hi'; simpl;
    [discriminate|].
  simpl in Hnd.
  destruct (i <? d_cap d) eqn:E, (i' <? d_cap d) eqn:E';
    destruct (d_base d) as [b|] eqn:Eb; try discriminate.
  - intros [= <-] [= ->]. reflexivity.
  - intros [= <-] Hl. apply (locate_block m) in Hl.
    apply NoDup_cons in Hnd as [Hnot _]. contradiction.
  - intros Hl [= <-]. apply (locate_block m) in Hl.
    apply NoDup_cons in Hnd as [Hnot _]. contradiction.
  - apply NoDup_cons in Hnd as [_ Hnd].
    apply Z.ltb_ge in E, E'. intros H1 H2.
    assert (i - d_cap d = i' - d_cap d) by (eapply IH; eauto; lia). lia.
  - apply Z.ltb_ge in E, E'. intros H1 H2.
    assert (i - d_cap d = i' - d_cap d) by (eapply IH; eauto; lia). lia.
Qed.

Lemma locate_app_l (m : memory Type_) L1 L2 i :
  Forall (desc_ok m) L1 -> 0 <= i < sum_cap L1 ->
  locate (L1 ++ L2) i = locate L1 i.
Proof.
  intros H. revert i. induction H as [|d L [Hd Hb] HL IH]; intros i Hi;
    simpl in *; [lia|].
  destruct (i <? d_cap d) eqn:E; [reflexivity|].
  apply Z.ltb_ge in E. apply IH. lia.
Qed.

Lemma locate_app_r (m : memory Type_) L1 L2 i :
  Forall (desc_ok m) L1 -> sum_cap L1 <= i ->
  locate (L1 ++ L2) i = locate L2 (i - sum_cap L1).
Proof.
  intros H. revert i. induction H as [|d L [Hd Hb] HL IH]; intros i Hi;
    simpl in *; [f_equal; lia|].
  pose proof (sum_cap_nonneg m L HL).
  destruct (i <? d_cap d) eqn:E; [apply Z.ltb_lt in E; lia|].
  rewrite IH by lia. f_equal. lia.
Qed.

(** Only the blocks and their lengths matter for [locate]. *)
Lemma locate_ext (L L' : list desc) i :
  (fun d => (d_base d, d_cap d)) <$> L = (fun d => (d_base d, d_cap d)) <$> L' ->
  locate L i = locate L' i.
Proof.
  revert L' i. induction L as [|d L IH]; intros [|d' L'] i; simpl;
    try discriminate; [reflexivity|].
  intros [= Hb Hc HL]. rewrite Hb, Hc. rewrite (IH L' _ HL). reflexivity.
Qed.

(** *** Updates of the state *)

Lemma get_set_segment_eq r s (v : vector) :
  get_segment r (set_segment r s v) = Ok s.
Proof. destruct r; simpl; [reflexivity|]. rewrite lookup_insert_eq. reflexivity. Qed.

Lemma get_set_segment_ne r r' s (v : vector) :
  r <> r' -> get_segment r' (set_segment r s v) = get_segment r' v.
Proof.
  intros Hne. destruct r, r'; simpl; try reflexivity; try congruence.
  rewrite lookup_insert_ne by congruence. reflexivity.
Qed.

Lemma budget_set_segment r s s0 (v : vector) :
  get_segment r v = Ok s0 -> budget (set_segment r s v) = budget v.
Proof.
  destruct r; simpl; [reflexivity|]. unfold budget. simpl. intros Hs.
  rewrite map_size_insert.
  destruct (mSegmentAllocator v !! n); [reflexivity|discriminate].
Qed.

Lemma get_segment_with_mAllocator r m (v : vector) :
  get_segment r (with_mAllocator m v) = get_segment r v.
Proof. destruct r; reflexivity. Qed.

Lemma segment_at_Some r (v : vector) :
  segment_at (Some r) v = get_segment r v.
Proof. reflexivity. Qed.

Lemma construct_ok (m : memory Type_) a x :
  in_block m a = true ->
  construct (Some a) x m =
  Ok {| cells := <[a := x]> (cells m); blocks := blocks m;
        next_block := next_block m |}.
Proof. intros H. unfold construct. rewrite H. reflexivity. Qed.

(** A change of the cells alone keeps the chain as it is. *)
Lemma shape_mem (v : vector) L m' :
  shape v L -> blocks m' = blocks (mAllocator v) ->
  next_block m' = next_block (mAllocator v) ->
  shape (with_mAllocator m' v) L.
Proof.
  intros H Hb Hn. destruct H. constructor; simpl; auto.
  - eapply Forall_impl; [eassumption|]. intros d [Hu Hd]. split; [exact Hu|].
    destruct (d_base d); [rewrite Hb|]; exact Hd.
  - rewrite Hb, Hn. auto.
Qed.

Lemma refs_insert_used (L : list desc) (j : nat) d u :
  L !! j = Some d -> d_ref <$> <[j := with_used u d]> L = d_ref <$> L.
Proof.
  intros Hj. rewrite list_fmap_insert. simpl.
  apply list_insert_id. rewrite list_lookup_fmap, Hj. reflexivity.
Qed.

Lemma bases_insert_used (L : list desc) (j : nat) d u :
  L !! j = Some d ->
  (fun d => (d_base d, d_cap d)) <$> <[j := with_used u d]> L =
  (fun d => (d_base d, d_cap d)) <$> L.
Proof.
  intros Hj. rewrite list_fmap_insert. simpl.
  apply list_insert_id. rewrite list_lookup_fmap, Hj. reflexivity.
Qed.

Lemma omap_base_ext (L L' : list desc) :
  (fun d => (d_base d, d_cap d)) <$> L = (fun d => (d_base d, d_cap d)) <$> L' ->
  omap d_base L = omap d_base L'.
Proof.
  revert L'. induction L as [|d L IH]; intros [|d' L']; simpl;
    try discriminate; [reflexivity|].
  intros [= Hb Hc HL]. rewrite Hb. specialize (IH L' HL).
  destruct (d_base d'); [f_equal|]; exact IH.
Qed.

Lemma sum_cap_ext (L L' : list desc) :
  (fun d => (d_base d, d_cap d)) <$> L = (fun d => (d_base d, d_cap d)) <$> L' ->
  sum_cap L = sum_cap L'.
Proof.
  revert L'. induction L as [|d L IH]; intros [|d' L']; simpl;
    try discriminate; [reflexivity|].
  intros [= Hb Hc HL]. rewrite Hc. rewrite (IH L' HL). reflexivity.
Qed.

(** Moving the [mCurrent] cursor of one segment of the chain. *)
Lemma shape_set_used (v : vector) L j d s u :
  shape v L -> L !! j = Some d -> get_segment (d_ref d) v = Ok s ->
  0 <= u <= d_cap d ->
  shape (set_segment (d_ref d) (Data_Segment.set_mCurrent (base_ptr d u) s) v)
        (<[j := with_used u d]> L).
Proof.
  intros H Hj Hs Hu.
  pose proof (refs_insert_used L j d u Hj) as Hrefs.
  pose proof (bases_insert_used L j d u Hj) as Hbases.
  assert (Hmem : forall r s', mAllocator (set_segment r s' v) = mAllocator v)
    by (intros [|?] ?; reflexivity).
  constructor.
  - rewrite <- list_lookup_fmap, Hrefs, list_lookup_fmap. apply (shape_head _ _ H).
  - intros j' d' Hj'.
    rewrite <- (list_lookup_fmap d_ref (<[j:=_]> L)), Hrefs, list_lookup_fmap.
    destruct (decide (j' = j)) as [->|Hne].
    + rewrite list_lookup_insert_eq in Hj' by (eapply lookup_lt_Some; eauto).
      injection Hj' as <-.
      destruct (shape_linked _ _ H j d Hj) as (s0 & Hs0 & Hb & _ & He & Hn).
      rewrite Hs in Hs0. injection Hs0 as <-.
      exists (Data_Segment.set_mCurrent (base_ptr d u) s). simpl.
      rewrite get_set_segment_eq. auto.
    + rewrite list_lookup_insert_ne in Hj' by congruence.
      destruct (shape_linked _ _ H j' d' Hj') as (s0 & Hs0 & Hrest).
      exists s0. split; [|exact Hrest].
      rewrite get_set_segment_ne; [exact Hs0|].
      intros Heq. apply Hne.
      apply (NoDup_lookup _ j' j (d_ref d') (shape_refs _ _ H));
        rewrite list_lookup_fmap; [rewrite Hj'|rewrite Hj]; simpl; congruence.
  - rewrite Hrefs. apply (shape_refs _ _ H).
  - rewrite (omap_base_ext _ _ Hbases). apply (shape_blocks _ _ H).
  - rewrite Hmem. apply Forall_insert; [apply (shape_ok _ _ H)|].
    pose proof (shape_desc_ok _ _ _ _ H Hj) as [_ Hd].
    split; [exact Hu|exact Hd].
  - intros j' d' Hj'. destruct (decide (S j' = j)) as [<-|Hne].
    + rewrite list_lookup_insert_eq in Hj' by (eapply lookup_lt_Some; eauto).
      injection Hj' as <-. simpl. eapply (shape_storage _ _ H); eauto.
    + rewrite list_lookup_insert_ne in Hj' by congruence.
      eapply (shape_storage _ _ H); eauto.
  - rewrite (sum_cap_ext _ _ Hbases). apply (shape_cap _ _ H).
  - intros n s'. destruct (d_ref d) as [|n0] eqn:E; simpl.
    + apply (shape_nodes _ _ H).
    + simpl in Hs.
      destruct (mSegmentAllocator v !! n0) as [s0|] eqn:E0; [|discriminate].
      destruct (decide (n0 = n)) as [->|Hne].
      * intros _. eapply (shape_nodes _ _ H); eauto.
      * rewrite lookup_insert_ne by exact Hne. apply (shape_nodes _ _ H).
  - rewrite Hmem. apply (shape_fresh _ _ H).
Qed.

(** *** Normal states *)

Lemma normal_last (v : vector) L :
  normal v L -> exists P d, L = P ++ [d] /\ mCurrent v = Some (d_ref d) /\
    mEnd v = Some (d_ref d) /\ sum_used L = sum_cap P + d_used d /\
    sum_cap L = sum_cap P + d_cap d /\
    Forall (desc_ok (mAllocator v)) P /\ desc_ok (mAllocator v) d.
Proof.
  intros H. pose proof (normal_shape _ _ H) as Hs.
  destruct (last L) as [d|] eqn:El.
  - apply last_Some in El as [P ->]. exists P, d.
    pose proof (normal_current _ _ H) as Hc. rewrite last_snoc in Hc. simpl in Hc.
    pose proof (normal_end _ _ H) as He. rewrite Hc in He.
    pose proof (shape_ok _ _ Hs) as Hok. apply Forall_app in Hok as [HP Hd].
    apply Forall_cons in Hd as [Hd _].
    split; [reflexivity|]. split; [exact Hc|]. split; [exact He|].
    split; [|split; [|split; assumption]].
    + rewrite sum_used_app.
      assert (sum_used P = sum_cap P) as ->.
      { pose proof (normal_full _ _ H) as Hf. clear -Hf.
        induction P as [|p P IH]; simpl; [reflexivity|].
        rewrite (Hf 0%nat p eq_refl) by (simpl; rewrite length_app; simpl; lia).
        f_equal. apply IH. intros j d' Hj Hlen.
        apply (Hf (S j) d' Hj). simpl. lia. }
      simpl. lia.
    + rewrite sum_cap_app. simpl. lia.
  - apply last_None in El. subst L.
    pose proof (shape_head _ _ Hs). discriminate.
Qed.

Lemma normal_cursor_ok (v : vector) L : normal v L -> cursor_ok v L.
Proof.
  intros H j d Hj Hc.
  destruct (normal_last v L H) as (P & dl & -> & Hcur & _).
  pose proof (shape_refs _ _ (normal_shape _ _ H)) as Hnd.
  assert (S j = length P) as Hlen.
  { apply (NoDup_lookup _ (S j) (length P) (d_ref d) Hnd).
    - rewrite list_lookup_fmap, Hj. reflexivity.
    - rewrite list_lookup_fmap, lookup_app_r, Nat.sub_diag by lia. simpl.
      congruence. }
  rewrite drop_ge by (rewrite length_app; simpl; lia). constructor.
Qed.

Lemma normal_size (v : vector) L : normal v L -> Get_size v = Ok (sum_used L).
Proof.
  intros H. apply Get_size_spec; [apply H|apply normal_cursor_ok, H].
Qed.

Lemma desc_ok_base (m : memory Type_) d :
  desc_ok m d -> 0 < d_cap d ->
  exists b, d_base d = Some b /\ blocks m !! b = Some (d_cap d).
Proof.
  intros [_ Hd] Hc. destruct (d_base d) as [b|]; [|lia].
  exists b. split; [reflexivity|apply Hd].
Qed.

Lemma desc_ok_null (m : memory Type_) d :
  desc_ok m d -> d_base d = None -> d_cap d = 0 /\ d_used d = 0.
Proof. intros [Hu Hd] Hb. rewrite Hb in Hd. lia. Qed.

Lemma desc_ok_range (m : memory Type_) d :
  desc_ok m d -> 0 <= d_used d <= d_cap d.
Proof. intros [Hu _]. exact Hu. Qed.

Lemma locate_current (v : vector) P d b :
  normal v (P ++ [d]) -> d_base d = Some b -> d_used d < d_cap d ->
  locate (P ++ [d]) (sum_used (P ++ [d])) = Ok (b, d_used d).
Proof.
  intros H Hb Hlt.
  destruct (normal_last _ _ H) as (P' & d' & Heq & _ & _ & Hsz & _ & HP & Hd).
  apply app_inj_tail in Heq as [<- <-].
  pose proof (desc_ok_range _ _ Hd).
  rewrite Hsz, (locate_app_r (mAllocator v)) by (auto; lia).
  simpl. replace (sum_cap P + d_used d - sum_cap P) with (d_used d) by lia.
  rewrite (proj2 (Z.ltb_lt _ _) Hlt), Hb. reflexivity.
Qed.

(** [emplace_back] while the last segment has a free cell. *)
(** *** The links back along the chain *)

(** [r->mSegBefore], when [r] designates a segment. *)
Definition before_of (v : vector) (r : seg_ref) : option (option seg_ref) :=
  match get_segment r v with
  | Ok s => Some (Data_Segment.mSegBefore s)
  | _ => None
  end.

(** Every segment of the chain points back to the one before it, and the
    member segment to none. *)
Definition back_linked (v : vector) (L : list desc) : Prop :=
  forall j d, L !! j = Some d ->
    before_of v (d_ref d)
    = Some (match j with O => None | S j' => d_ref <$> L !! j' end).

Lemma before_of_set_segment (v : vector) r0 s s' :
  get_segment r0 v = Ok s ->
  Data_Segment.mSegBefore s' = Data_Segment.mSegBefore s ->
  forall r, before_of (set_segment r0 s' v) r = before_of v r.
Proof.
  intros Hs Hb r. unfold before_of.
  destruct r0 as [|n0], r as [|n]; simpl in *; try reflexivity.
  - injection Hs as <-. rewrite Hb. reflexivity.
  - destruct (decide (n = n0)) as [->|Hne].
    + rewrite lookup_insert_eq. simpl.
      destruct (mSegmentAllocator v !! n0); [|discriminate].
      simpl in Hs. injection Hs as <-. simpl. rewrite Hb. reflexivity.
    + rewrite lookup_insert_ne by congruence. reflexivity.
Qed.

Lemma advance_current_before (v v3 : vector) :
  advance_current v = Ok v3 -> forall r, before_of v3 r = before_of v r.
Proof.
  unfold advance_current. intros H r.
  apply bind_Ok in H as (r0 & _ & H).
  apply bind_Ok in H as (s & Hs & H).
  apply bind_Ok in H as (p & _ & H). injection H as <-.
  apply (before_of_set_segment v r0 s); [exact Hs|reflexivity].
Qed.

Lemma Append_new_segment_before seg (v v1 : vector) :
  Append_new_segment seg v = Ok v1 ->
  forall r, before_of v1 r =
    if decide (mCurrent v = Some Head /\ Data_Segment.mBegin (mSegment v) = None)
    then (if decide (r = Head) then Some None else before_of v r)
    else (if decide (r = Node (next_segment v)) then Some (mCurrent v)
          else before_of v r).
Proof.
  unfold Append_new_segment. intros H r.
  destruct (decide (mCurrent v = Some Head /\
                    Data_Segment.mBegin (mSegment v) = None)) as [Hc|Hc].
  - destruct (allocate seg (mAllocator v)) as [newBegin mem].
    apply bind_Ok in H as (newEnd & _ & H). injection H as <-.
    destruct r; reflexivity.
  - destruct (allocate seg (mAllocator v)) as [newBegin mem].
    apply bind_Ok in H as (newEnd & _ & H).
    apply bind_Ok in H as (current & _ & H).
    apply bind_Ok in H as (s & Hs & H). injection H as <-.
    set (v1 := {| mSegment := mSegment v; mCurrent := mCurrent v;
                  mEnd := mEnd v; mAllocator := mem;
                  mSegmentAllocator := _; next_segment := _ |}) in *.
    transitivity (before_of v1 r).
    { transitivity (before_of (set_segment current
                      (Data_Segment.set_mSegAfter (Some (Node (next_segment v))) s)
                      v1) r); [destruct r; reflexivity|].
      apply (before_of_set_segment v1 current s); auto. }
    unfold before_of. destruct r as [|n]; simpl.
    + reflexivity.
    + destruct (decide (Node n = Node (next_segment v))) as [[= ->]|Hne].
      * rewrite lookup_insert_eq. reflexivity.
      * rewrite lookup_insert_ne by congruence. reflexivity.
Qed.

Lemma emplace_back_room (v : vector) P d x :
  normal v (P ++ [d]) -> d_used d < d_cap d ->
  exists b v',
    d_base d = Some b /\
    emplace_back sizeof_Type x v = Ok ((b, d_used d), v') /\
    normal v' (P ++ [with_used (d_used d + 1) d]) /\
    mAllocator v' =
      {| cells := <[(b, d_used d) := x]> (cells (mAllocator v));
         blocks := blocks (mAllocator v);
         next_block := next_block (mAllocator v) |} /\
    size (mSegmentAllocator v') = size (mSegmentAllocator v) /\
    forall r, before_of v' r = before_of v r.
Proof.
  intros H Hlt.
  pose proof (normal_shape _ _ H) as Hs.
  destruct (normal_last _ _ H) as (P' & d' & Heq & Hcur & Hend & Hsz & Hcap & HP & Hd).
  apply app_inj_tail in Heq as [<- <-].
  assert (Hj : (P ++ [d]) !! length P = Some d)
    by (rewrite lookup_app_r, Nat.sub_diag by lia; reflexivity).
  destruct (shape_linked _ _ Hs _ _ Hj) as (s & Hseg & Hsb & Hsc & Hse & Hsn).
  pose proof (desc_ok_range _ _ Hd) as Hrange.
  destruct (desc_ok_base _ _ Hd ltac:(lia)) as (b & Hb & Hblk).
  exists b.
  set (m' := {| cells := <[(b, d_used d) := x]> (cells (mAllocator v));
                blocks := blocks (mAllocator v);
                next_block := next_block (mAllocator v) |}).
  assert (Hs' : shape (with_mAllocator m' v) (P ++ [d]))
    by (apply shape_mem; auto).
  assert (Hinb : in_block (mAllocator v) (b, d_used d) = true).
  { unfold in_block. simpl. rewrite Hblk.
    apply andb_true_intro. split; [apply Z.leb_le|apply Z.ltb_lt]; lia. }
  pose proof (sum_used_bounds _ _ (shape_ok _ _ Hs)) as Hub.
  eexists. split; [exact Hb|]. split; [|split; [|split; [|split]]].
  - unfold emplace_back.
    rewrite decide_False by (rewrite Hcur, Hend; auto).
    unfold segment_at. rewrite Hcur. simpl. rewrite Hseg. simpl.
    rewrite bool_decide_true
      by (rewrite Hsc, Hse; unfold base_ptr; rewrite Hb; intros [=]; lia).
    rewrite (normal_size _ _ H). simpl.
    unfold Emplace_at_without_reallocation.
    rewrite (normal_size _ _ H). simpl.
    rewrite decide_True by reflexivity.
    rewrite (Get_value_at_spec _ _ _ Hs) by lia.
    rewrite (locate_current v P d b H Hb Hlt). simpl.
    rewrite construct_ok by exact Hinb. simpl. fold m'.
    rewrite (Get_value_at_spec _ _ _ Hs') by lia.
    rewrite (locate_current v P d b H Hb Hlt). simpl.
    unfold advance_current. simpl. rewrite Hcur. simpl.
    rewrite get_segment_with_mAllocator, Hseg.
    simpl. rewrite Hsc. unfold base_ptr. rewrite Hb. simpl. reflexivity.
  - assert (Hseg' : get_segment (d_ref d) (with_mAllocator m' v) = Ok s)
      by (rewrite get_segment_with_mAllocator; exact Hseg).
    pose proof (shape_set_used _ _ _ _ _ (d_used d + 1) Hs' Hj Hseg'
                  ltac:(lia)) as Hs2.
    unfold base_ptr in Hs2. rewrite Hb in Hs2.
    rewrite insert_app_r_alt, Nat.sub_diag in Hs2 by lia. simpl in Hs2.
    constructor.
    + exact Hs2.
    + rewrite last_snoc. simpl.
      destruct (d_ref d); simpl; exact Hcur.
    + destruct (d_ref d); simpl; rewrite Hend, Hcur; reflexivity.
    + intros j d0 Hj0 Hlen. rewrite length_app in Hlen. simpl in Hlen.
      rewrite lookup_app_l in Hj0 by lia.
      apply (normal_full _ _ H j d0).
      * rewrite lookup_app_l by lia. exact Hj0.
      * rewrite length_app. simpl. lia.
  - destruct (d_ref d); reflexivity.
  - destruct (d_ref d) eqn:E; simpl; [reflexivity|].
    simpl in Hseg. rewrite map_size_insert.
    destruct (mSegmentAllocator v !! n); [reflexivity|discriminate].
  - intros r.
    assert (Hseg' : get_segment (d_ref d) (with_mAllocator m' v) = Ok s)
      by (rewrite get_segment_with_mAllocator; exact Hseg).
    etransitivity;
      [apply (before_of_set_segment (with_mAllocator m' v) (d_ref d) s);
       [exact Hseg'|reflexivity]|].
    destruct r; reflexivity.
Qed.

(** *** The growth policy *)

Local Abbreviation Min_segment_size := (Min_segment_size sizeof_Type).

Lemma Min_segment_size_ge_8 : 8 <= Min_segment_size.
Proof.
  unfold Vector.Min_segment_size.
  destruct (Min_segment_size_eval_cases sizeof_Type) as [->|[->| ->]]; lia.
Qed.

Lemma Get_capacity_loop_range fuel (v : vector) acc r c :
  Get_capacity_loop fuel v acc r = Ok c -> 0 <= c <= size_limit.
Proof.
  revert acc r. induction fuel as [|fuel IH]; intros acc r; simpl; [discriminate|].
  destruct (get_segment r v) as [s| | |]; simpl; try discriminate.
  destruct (length_of s) as [n| | |]; simpl; try discriminate.
  destruct (Data_Segment.mSegAfter s).
  - apply IH.
  - intros [= <-]. apply wrap_range.
Qed.

Lemma Get_capacity_range (v : vector) c :
  Get_capacity v = Ok c -> 0 <= c <= size_limit.
Proof. apply Get_capacity_loop_range. Qed.

Lemma Calculate_new_capacity_spec (v : vector) c n :
  Get_capacity v = Ok c -> c + c / 2 <= size_limit ->
  Calculate_new_capacity n v = Ok (Z.max (c + c / 2) n, c).
Proof.
  intros Hc Hno. pose proof (Get_capacity_range v c Hc) as Hr.
  unfold Calculate_new_capacity. rewrite Hc. simpl.
  unfold max_size.
  destruct (c >? size_limit - c / 2) eqn:E; [apply Z.gtb_lt in E; lia|].
  assert (0 <= c / 2) by (apply Z.div_pos; lia).
  rewrite wrap_small by lia.
  destruct (c + c / 2 <? n) eqn:E'.
  - apply Z.ltb_lt in E'. rewrite Z.max_r by lia. reflexivity.
  - apply Z.ltb_ge in E'. rewrite Z.max_l by lia. reflexivity.
Qed.

Lemma Calculate_new_segment_size_spec (v : vector) c n :
  Get_capacity v = Ok c -> c + c / 2 <= size_limit -> 0 <= n <= size_limit ->
  Calculate_new_segment_size sizeof_Type n v =
  Ok (Z.max Min_segment_size (Z.max (c + c / 2) n - c)).
Proof.
  intros Hc Hno Hn. pose proof (Get_capacity_range v c Hc) as Hr.
  unfold Calculate_new_segment_size.
  rewrite (Calculate_new_capacity_spec v c n Hc Hno). simpl.
  assert (0 <= c / 2) by (apply Z.div_pos; lia).
  rewrite wrap_small by lia. reflexivity.
Qed.

(** *** Appending a segment *)

Lemma seg_matches_frame (v v' : vector) d nxt :
  seg_matches v d nxt ->
  get_segment (d_ref d) v' = get_segment (d_ref d) v ->
  seg_matches v' d nxt.
Proof. intros (s & Hs & Hrest) Heq. exists s. rewrite Heq. auto. Qed.

Lemma shape_base_fresh (v : vector) L j d b :
  shape v L -> L !! j = Some d -> d_base d = Some b ->
  (b < next_block (mAllocator v))%nat.
Proof.
  intros H Hj Hb. pose proof (shape_desc_ok _ _ _ _ H Hj) as [_ Hd].
  rewrite Hb in Hd. destruct Hd as [Hd _]. eapply (shape_fresh _ _ H); eauto.
Qed.

Lemma shape_ref_fresh (v : vector) L j d n :
  shape v L -> L !! j = Some d -> d_ref d = Node n ->
  (n < next_segment v)%nat.
Proof.
  intros H Hj Hr. destruct (shape_linked _ _ H j d Hj) as (s & Hs & _).
  rewrite Hr in Hs. simpl in Hs.
  destruct (mSegmentAllocator v !! n) eqn:E; [|discriminate].
  eapply (shape_nodes _ _ H); eauto.
Qed.

(** The member segment receives its first block. *)
Lemma Append_new_segment_head (v : vector) d0 seg :
  shape v [d0] -> mCurrent v = Some Head -> d_base d0 = None ->
  0 < seg <= size_limit ->
  exists v1,
    Append_new_segment seg v = Ok v1 /\
    shape v1 [ {| d_ref := Head; d_base := Some (next_block (mAllocator v));
                  d_cap := seg; d_used := 0 |} ] /\
    mCurrent v1 = Some Head /\ mEnd v1 = mEnd v /\
    cells (mAllocator v1) = cells (mAllocator v) /\
    blocks (mAllocator v1) =
      <[next_block (mAllocator v) := seg]> (blocks (mAllocator v)) /\
    mSegmentAllocator v1 = mSegmentAllocator v.
Proof.
  intros H Hcur Hb Hseg.
  pose proof (shape_head _ _ H) as Hh. simpl in Hh. injection Hh as Hh.
  destruct (shape_linked _ _ H 0%nat d0 eq_refl) as (s & Hs & Hsb & _).
  rewrite Hh in Hs. simpl in Hs. injection Hs as <-.
  unfold base_ptr in Hsb. rewrite Hb in Hsb.
  unfold Append_new_segment.
  rewrite decide_True by (split; assumption). simpl.
  eexists. split; [reflexivity|].
  split; [|simpl; auto].
  constructor; simpl.
  - reflexivity.
  - intros [|j] d; simpl; [|discriminate]. intros [= <-].
    eexists. split; [reflexivity|]. simpl. unfold base_ptr. simpl.
    rewrite Z.add_0_l. auto.
  - apply NoDup_singleton.
  - apply NoDup_singleton.
  - constructor; [|constructor]. split; simpl; [lia|].
    rewrite lookup_insert_eq. split; [reflexivity|lia].
  - intros j d; simpl. discriminate.
  - lia.
  - apply (shape_nodes _ _ H).
  - intros b n. destruct (decide (next_block (mAllocator v) = b)) as [<-|Hne].
    + lia.
    + rewrite lookup_insert_ne by exact Hne. intros Hbn.
      pose proof (shape_fresh _ _ H b n Hbn). lia.
Qed.

(** A new node is linked behind the segment [mCurrent] designates, here
    the last one of the chain. *)
Lemma Append_new_segment_node (v : vector) P d seg :
  shape v (P ++ [d]) -> mCurrent v = Some (d_ref d) ->
  is_Some (d_base d) -> 0 < seg -> sum_cap (P ++ [d]) + seg <= size_limit ->
  exists v1,
    Append_new_segment seg v = Ok v1 /\
    shape v1 ((P ++ [d]) ++
              [ {| d_ref := Node (next_segment v);
                   d_base := Some (next_block (mAllocator v));
                   d_cap := seg; d_used := 0 |} ]) /\
    mCurrent v1 = mCurrent v /\ mEnd v1 = Some (Node (next_segment v)) /\
    cells (mAllocator v1) = cells (mAllocator v) /\
    blocks (mAllocator v1) =
      <[next_block (mAllocator v) := seg]> (blocks (mAllocator v)) /\
    size (mSegmentAllocator v1) = S (size (mSegmentAllocator v)).
Proof.
  intros H Hcur [b Hb] Hseg Hsum.
  set (L := P ++ [d]) in *.
  assert (Hj : L !! length P = Some d)
    by (subst L; rewrite lookup_app_r, Nat.sub_diag by lia; reflexivity).
  assert (HlenL : length L = S (length P))
    by (subst L; rewrite length_app; simpl; lia).
  destruct (shape_linked _ _ H _ _ Hj) as (s & Hs & Hsb & Hsc & Hse & Hsn).
  set (ns := next_segment v). set (nb := next_block (mAllocator v)).
  set (new := {| d_ref := Node ns; d_base := Some nb; d_cap := seg; d_used := 0 |}).
  assert (Hfresh_ref : forall j d', L !! j = Some d' -> d_ref d' <> Node ns).
  { intros j d' Hj' Hr. pose proof (shape_ref_fresh _ _ _ _ _ H Hj' Hr). lia. }
  assert (Hfresh_blk : forall j d', L !! j = Some d' -> d_base d' <> Some nb).
  { intros j d' Hj' Hr. pose proof (shape_base_fresh _ _ _ _ _ H Hj' Hr). lia. }
  assert (Hnsnone : mSegmentAllocator v !! ns = None).
  { destruct (mSegmentAllocator v !! ns) eqn:E; [|reflexivity].
    pose proof (shape_nodes _ _ H _ _ E). lia. }
  unfold Append_new_segment.
  rewrite decide_False.
  2:{ intros [Hc Hnull]. rewrite Hcur in Hc. injection Hc as Hc.
      destruct (shape_linked _ _ H _ _ Hj) as (s' & Hs' & Hsb' & _).
      rewrite Hc in Hs'. simpl in Hs'. injection Hs' as <-.
      rewrite Hnull in Hsb'. unfold base_ptr in Hsb'. rewrite Hb in Hsb'.
      discriminate. }
  simpl. rewrite Hcur. simpl. fold ns nb.
  set (node := {| Data_Segment.mBegin := Some (nb, 0);
                  Data_Segment.mCurrent := Some (nb, 0);
                  Data_Segment.mEnd := Some (nb, 0 + seg);
                  Data_Segment.mSegBefore := Some (d_ref d);
                  Data_Segment.mSegAfter := None |}).
  set (v0 := {| mSegment := mSegment v; mCurrent := Some (d_ref d);
                mEnd := mEnd v;
                mAllocator := {| cells := cells (mAllocator v);
                                 blocks := <[nb := seg]> (blocks (mAllocator v));
                                 next_block := S nb |};
                mSegmentAllocator := <[ns := node]> (mSegmentAllocator v);
                next_segment := S ns |}).
  assert (Hs0 : get_segment (d_ref d) v0 = Ok s).
  { destruct (d_ref d) as [|n] eqn:E; [exact Hs|]. simpl in *.
    rewrite lookup_insert_ne; [exact Hs|].
    intros <-. rewrite Hnsnone in Hs. discriminate. }
  rewrite Hs0. simpl.
  set (v1 := set_segment (d_ref d)
               (Data_Segment.set_mSegAfter (Some (Node ns)) s) v0).
  assert (Hnew : get_segment (Node ns) v1 = Ok node).
  { subst v1. rewrite get_set_segment_ne by (apply (Hfresh_ref _ _ Hj)).
    simpl. rewrite lookup_insert_eq. reflexivity. }
  assert (Hold : forall j d', L !! j = Some d' -> j <> length P ->
                   get_segment (d_ref d') v1 = get_segment (d_ref d') v).
  { intros j d' Hj' Hne. subst v1. rewrite get_set_segment_ne.
    - destruct (d_ref d') as [|n] eqn:E; [reflexivity|]. simpl.
      rewrite lookup_insert_ne; [reflexivity|].
      intros <-. apply (Hfresh_ref _ _ Hj' E).
    - intros Heq. apply Hne. symmetry.
      apply (NoDup_lookup _ (length P) j (d_ref d) (shape_refs _ _ H));
        rewrite list_lookup_fmap; [rewrite Hj|rewrite Hj']; simpl; congruence. }
  assert (Hmem1 : mAllocator v1 = mAllocator v0)
    by (subst v1; destruct (d_ref d); reflexivity).
  exists (with_mEnd (Some (Node ns)) v1). split; [reflexivity|].
  split.
  - constructor.
    + rewrite lookup_app_l by lia. apply (shape_head _ _ H).
    + intros j d' Hj'.
      destruct (decide (j < length P)%nat) as [Hlt|Hge].
      * rewrite lookup_app_l in Hj' by lia.
        rewrite lookup_app_l by lia.
        eapply seg_matches_frame; [apply (shape_linked _ _ H _ _ Hj')|].
        apply (Hold _ _ Hj'). lia.
      * destruct (decide (j = length P)) as [->|Hne].
        -- rewrite lookup_app_l in Hj' by lia. rewrite Hj in Hj'.
           injection Hj' as <-.
           rewrite lookup_app_r, HlenL, Nat.sub_diag by lia. simpl.
           exists (Data_Segment.set_mSegAfter (Some (Node ns)) s).
           split; [apply get_set_segment_eq|]. simpl. auto.
        -- assert (j = length L) as ->.
           { apply lookup_lt_Some in Hj'. rewrite length_app in Hj'.
             simpl in Hj'. lia. }
           rewrite lookup_app_r, Nat.sub_diag in Hj' by lia.
           injection Hj' as <-.
           rewrite lookup_ge_None_2 by (rewrite length_app; simpl; lia).
           exists node. split; [exact Hnew|]. simpl.
           unfold base_ptr. simpl. rewrite Z.add_0_l. auto.
    + rewrite fmap_app. simpl. apply NoDup_app.
      split; [apply (shape_refs _ _ H)|]. split; [|apply NoDup_singleton].
      intros r Hin Hin'. apply list_elem_of_singleton in Hin'. subst r.
      apply list_elem_of_fmap in Hin as (d' & Hr & Hd').
      apply list_elem_of_lookup in Hd' as [j Hj'].
      apply (Hfresh_ref _ _ Hj'). auto.
    + rewrite omap_app. simpl. apply NoDup_app.
      split; [apply (shape_blocks _ _ H)|]. split; [|apply NoDup_singleton].
      intros b' Hin Hin'. apply list_elem_of_singleton in Hin'. subst b'.
      apply list_elem_of_omap in Hin as (d' & Hd' & Hr).
      apply list_elem_of_lookup in Hd' as [j Hj'].
      apply (Hfresh_blk _ _ Hj'). auto.
    + simpl. rewrite Hmem1. apply Forall_app. split.
      * apply Forall_lookup. intros j d' Hj'.
        pose proof (shape_desc_ok _ _ _ _ H Hj') as [Hu Hd].
        split; [exact Hu|].
        destruct (d_base d') as [b'|] eqn:Eb; [|exact Hd].
        simpl. rewrite lookup_insert_ne; [exact Hd|].
        intros <-. apply (Hfresh_blk _ _ Hj' Eb).
      * constructor; [|constructor]. split; simpl; [lia|].
        rewrite lookup_insert_eq. split; [reflexivity|lia].
    + intros j d' Hj'.
      destruct (decide (S j < length L)%nat) as [Hlt|Hge].
      * rewrite lookup_app_l in Hj' by lia. apply (shape_storage _ _ H _ _ Hj').
      * assert (S j = length L) as Hj2.
        { apply lookup_lt_Some in Hj'. rewrite length_app in Hj'.
          simpl in Hj'. lia. }
        rewrite Hj2, lookup_app_r, Nat.sub_diag in Hj' by lia.
        injection Hj' as <-. simpl. eauto.
    + rewrite sum_cap_app. simpl. lia.
    + intros n s'. simpl.
      assert (Hkeys : forall n0 s0, (<[ns := node]> (mSegmentAllocator v)) !! n0 = Some s0 ->
                        (n0 < S ns)%nat).
      { intros n0 s0. destruct (decide (ns = n0)) as [<-|Hne]; [lia|].
        rewrite lookup_insert_ne by exact Hne. intros Hn0.
        pose proof (shape_nodes _ _ H _ _ Hn0). subst ns. lia. }
      subst v1. destruct (d_ref d) as [|n1] eqn:E; simpl; [apply Hkeys|].
      destruct (decide (n1 = n)) as [<-|Hne].
      * intros _. pose proof (shape_ref_fresh _ _ _ _ _ H Hj E). subst ns. lia.
      * rewrite lookup_insert_ne by exact Hne. apply Hkeys.
    + simpl. rewrite Hmem1. simpl. intros b' n.
      destruct (decide (nb = b')) as [<-|Hne]; [lia|].
      rewrite lookup_insert_ne by exact Hne. intros Hbn.
      pose proof (shape_fresh _ _ H b' n Hbn). subst nb. lia.
  - simpl. subst v1.
    split; [destruct (d_ref d); simpl; congruence|].
    split; [reflexivity|].
    split; [destruct (d_ref d); reflexivity|].
    split; [destruct (d_ref d); reflexivity|].
    destruct (d_ref d) as [|n1] eqn:E; simpl.
    + apply map_size_insert_None. exact Hnsnone.
    + rewrite map_size_insert.
      rewrite lookup_insert_ne
        by (intros <-; apply (Hfresh_ref _ _ Hj E)).
      simpl in Hs. destruct (mSegmentAllocator v !! n1); [|discriminate].
      apply map_size_insert_None. exact Hnsnone.
Qed.

Lemma shape_with_mCurrent (v : vector) L r :
  shape v L -> shape (with_mCurrent r v) L.
Proof.
  intros H. destruct H. constructor; simpl; auto.
Qed.

(** Constructing at the cursor of the segment [mCurrent] designates and
    advancing the cursor. *)
Lemma construct_advance (v : vector) L j d b x :
  shape v L -> L !! j = Some d -> d_base d = Some b ->
  d_used d < d_cap d -> mCurrent v = Some (d_ref d) ->
  exists s v3,
    segment_at (mCurrent v) v = Ok s /\
    Data_Segment.mCurrent s = Some (b, d_used d) /\
    construct (Some (b, d_used d)) x (mAllocator v) =
      Ok {| cells := <[(b, d_used d) := x]> (cells (mAllocator v));
            blocks := blocks (mAllocator v);
            next_block := next_block (mAllocator v) |} /\
    advance_current
      (with_mAllocator
         {| cells := <[(b, d_used d) := x]> (cells (mAllocator v));
            blocks := blocks (mAllocator v);
            next_block := next_block (mAllocator v) |} v) = Ok v3 /\
    shape v3 (<[j := with_used (d_used d + 1) d]> L) /\
    mCurrent v3 = mCurrent v /\ mEnd v3 = mEnd v /\
    mAllocator v3 =
      {| cells := <[(b, d_used d) := x]> (cells (mAllocator v));
         blocks := blocks (mAllocator v);
         next_block := next_block (mAllocator v) |} /\
    size (mSegmentAllocator v3) = size (mSegmentAllocator v).
Proof.
  intros Hs Hj Hb Hlt Hcur.
  destruct (shape_linked _ _ Hs _ _ Hj) as (s & Hseg & Hsb & Hsc & Hse & Hsn).
  pose proof (shape_desc_ok _ _ _ _ Hs Hj) as Hd.
  pose proof (desc_ok_range _ _ Hd) as Hrange.
  destruct (desc_ok_base _ _ Hd ltac:(lia)) as (b' & Hb' & Hblk).
  rewrite Hb in Hb'. injection Hb' as <-.
  set (m' := {| cells := <[(b, d_used d) := x]> (cells (mAllocator v));
                blocks := blocks (mAllocator v);
                next_block := next_block (mAllocator v) |}).
  assert (Hs' : shape (with_mAllocator m' v) L) by (apply shape_mem; auto).
  assert (Hseg' : get_segment (d_ref d) (with_mAllocator m' v) = Ok s)
    by (rewrite get_segment_with_mAllocator; exact Hseg).
  pose proof (shape_set_used _ _ _ _ _ (d_used d + 1) Hs' Hj Hseg'
                ltac:(lia)) as Hs2.
  unfold base_ptr in Hs2, Hsc. rewrite Hb in Hs2, Hsc.
  exists s. eexists.
  split; [unfold segment_at; rewrite Hcur; simpl; exact Hseg|].
  split; [exact Hsc|].
  split.
  { unfold construct, in_block. simpl. rewrite Hblk.
    rewrite (proj2 (Z.leb_le _ _)), (proj2 (Z.ltb_lt _ _)) by lia.
    reflexivity. }
  split.
  { unfold advance_current. simpl. rewrite Hcur. simpl.
    rewrite get_segment_with_mAllocator, Hseg. simpl.
    rewrite Hsc. simpl. reflexivity. }
  split; [exact Hs2|].
  destruct (d_ref d) as [|n] eqn:E; simpl; repeat split; auto.
  simpl in Hseg. rewrite map_size_insert.
  destruct (mSegmentAllocator v !! n); [reflexivity|discriminate].
Qed.

(** *** One [emplace_back] on a normal state *)

(** What one [emplace_back x] does to a normal state [v] described by [L]:
    [a] is the address returned, [v'] and [L'] the new state. *)
Record step_post (v : vector) (L : list desc) (x : Type_) (a : address)
    (v' : vector) (L' : list desc) : Prop := {
  step_normal : normal v' L';
  step_used : sum_used L' = sum_used L + 1;
  step_where : locate L' (sum_used L) = Ok a;
  step_stable : forall i, 0 <= i < sum_cap L -> locate L' i = locate L i;
  step_cells : cells (mAllocator v') = <[a := x]> (cells (mAllocator v));
  step_blocks : forall b n, blocks (mAllocator v) !! b = Some n ->
                  blocks (mAllocator v') !! b = Some n;
  step_growth :
    (sum_used L < sum_cap L /\ sum_cap L' = sum_cap L) \/
    (sum_used L = sum_cap L /\
     sum_cap L' = sum_cap L +
       Z.max Min_segment_size
         (Z.max (sum_cap L + sum_cap L / 2) (sum_used L + 1) - sum_cap L))
}.

(** The member segment has storage. *)
Definition head_live (L : list desc) : Prop :=
  exists d0 b, L !! 0%nat = Some d0 /\ d_base d0 = Some b.

(** After an append the new element is the last used cell of the last
    segment, and the member segment has storage. *)
Definition step_tail (L : list desc) (a : address) (L' : list desc) : Prop :=
  (exists P d b, L' = P ++ [d] /\ d_base d = Some b /\ 0 < d_used d /\
                 a = (b, d_used d - 1)) /\
  (length L = 1%nat \/ head_live L -> head_live L').

(** What an append does to the links back, and to the numbers of nodes
    and blocks held. *)
Definition step_links (v : vector) (L : list desc) (v' : vector)
    (L' : list desc) : Prop :=
  (back_linked v L -> back_linked v' L') /\
  (size (mSegmentAllocator v') + length L
   = size (mSegmentAllocator v) + length L')%nat /\
  (size (blocks (mAllocator v')) + length (omap d_base L)
   = size (blocks (mAllocator v)) + length (omap d_base L'))%nat.

Lemma back_linked_ext (v v' : vector) L L' :
  d_ref <$> L' = d_ref <$> L ->
  (forall r, before_of v' r = before_of v r) ->
  back_linked v L -> back_linked v' L'.
Proof.
  intros Hrefs Hbef HB j d' Hj.
  assert (Hr : (d_ref <$> L) !! j = Some (d_ref d'))
    by (rewrite <- Hrefs, list_lookup_fmap, Hj; reflexivity).
  apply list_lookup_fmap_Some in Hr as (d0 & Hd0 & Hj0).
  rewrite Hbef, Hd0, (HB j d0 Hj0). destruct j as [|j']; [reflexivity|].
  rewrite <- !list_lookup_fmap, Hrefs. reflexivity.
Qed.

Lemma head_live_snoc L d : head_live L -> head_live (L ++ [d]).
Proof.
  intros (d0 & b & H0 & Hb). exists d0, b. split; [|exact Hb].
  apply lookup_app_l_Some. exact H0.
Qed.

Lemma emplace_back_room_tail (v : vector) P d x :
  normal v (P ++ [d]) -> d_used d < d_cap d ->
  exists a v' L',
    emplace_back sizeof_Type x v = Ok (a, v') /\
    step_post v (P ++ [d]) x a v' L' /\ step_tail (P ++ [d]) a L' /\
    step_links v (P ++ [d]) v' L'.
Proof.
  intros H Hlt.
  destruct (emplace_back_room v P d x H Hlt)
    as (b & v' & Hb & He & Hn & Hm & Hnodes & Hbef).
  exists (b, d_used d), v', (P ++ [with_used (d_used d + 1) d]).
  split; [exact He|].
  assert (Hext : (fun d => (d_base d, d_cap d)) <$> (P ++ [with_used (d_used d + 1) d])
                 = (fun d => (d_base d, d_cap d)) <$> (P ++ [d]))
    by (rewrite !fmap_app; reflexivity).
  split; [|split; [split|]].
  4:{ split; [|split].
      - apply (back_linked_ext v v'); [rewrite !fmap_app; reflexivity|exact Hbef].
      - rewrite Hnodes, !length_app. reflexivity.
      - rewrite Hm. simpl. rewrite !omap_app. reflexivity. }
  2:{ destruct (normal_last _ _ H) as (P' & d' & Heq & _ & _ & _ & _ & _ & Hd).
      apply app_inj_tail in Heq as [<- <-].
      pose proof (desc_ok_range _ _ Hd) as Hrange.
      exists P, (with_used (d_used d + 1) d), b. split; [reflexivity|].
      split; [exact Hb|]. simpl. split; [lia|]. f_equal. lia. }
  2:{ intros Hhead. destruct P as [|p P].
      - exists (with_used (d_used d + 1) d), b. split; [reflexivity|exact Hb].
      - destruct Hhead as [Hlen|(d0 & b0 & H0 & Hb0)].
        + simpl in Hlen. rewrite length_app in Hlen. simpl in Hlen. lia.
        + exists d0, b0. split; [exact H0|exact Hb0]. }
  constructor.
  - exact Hn.
  - rewrite !sum_used_app. simpl. lia.
  - rewrite (locate_ext _ _ _ Hext). apply (locate_current v); auto.
  - intros i _. apply locate_ext, Hext.
  - rewrite Hm. reflexivity.
  - rewrite Hm. simpl. auto.
  - left. split; [|apply sum_cap_ext, Hext].
    destruct (normal_last _ _ H) as (P' & d' & Heq & _ & _ & Hsz & Hcap & _).
    apply app_inj_tail in Heq as [<- <-]. lia.
Qed.

Lemma emplace_back_room_post (v : vector) P d x :
  normal v (P ++ [d]) -> d_used d < d_cap d ->
  exists a v' L',
    emplace_back sizeof_Type x v = Ok (a, v') /\
    step_post v (P ++ [d]) x a v' L'.
Proof.
  intros H Hlt.
  destruct (emplace_back_room_tail v P d x H Hlt) as (a & v' & L' & He & Hp & _).
  eauto.
Qed.

Lemma normal_singleton_head (v : vector) P d :
  normal v (P ++ [d]) -> d_base d = None -> P = [] /\ d_ref d = Head.
Proof.
  intros H Hb. pose proof (normal_shape _ _ H) as Hs.
  destruct P as [|p P].
  - split; [reflexivity|]. pose proof (shape_head _ _ Hs) as Hh.
    simpl in Hh. congruence.
  - exfalso. assert (Hj : ((p :: P) ++ [d]) !! S (length P) = Some d).
    { simpl. rewrite lookup_app_r, Nat.sub_diag by lia. reflexivity. }
    destruct (shape_storage _ _ Hs _ _ Hj) as [b Hb']. congruence.
Qed.

(** The first element of a vector without storage. *)
Lemma emplace_back_first_tail (v : vector) d0 x :
  normal v [d0] -> d_base d0 = None ->
  exists a v' L',
    emplace_back sizeof_Type x v = Ok (a, v') /\
    step_post v [d0] x a v' L' /\ step_tail [d0] a L' /\
    step_links v [d0] v' L'.
Proof.
  intros H Hb.
  pose proof (normal_shape _ _ H) as Hs.
  destruct (normal_singleton_head v [] d0 H Hb) as [_ Href].
  pose proof (shape_desc_ok _ _ _ _ Hs (eq_refl : [d0] !! 0%nat = Some d0)) as Hd.
  destruct (desc_ok_null _ _ Hd Hb) as [Hc0 Hu0].
  assert (Hcur : mCurrent v = Some Head).
  { rewrite (normal_current _ _ H). simpl. congruence. }
  pose proof (normal_end _ _ H) as Hend.
  destruct (shape_linked _ _ Hs 0%nat d0 eq_refl) as (s & Hseg & Hsb & Hsc & Hse & Hsn).
  unfold base_ptr in Hsb, Hsc, Hse. rewrite Hb in Hsb, Hsc, Hse.
  pose proof Min_segment_size_ge_8 as Hmin.
  assert (Hmin32 : Min_segment_size <= 32).
  { unfold Vector.Min_segment_size.
    destruct (Min_segment_size_eval_cases sizeof_Type) as [->|[->| ->]]; lia. }
  assert (Hsize : Get_size v = Ok 0).
  { rewrite (normal_size _ _ H). simpl. rewrite Hu0. reflexivity. }
  assert (Hcapv : Get_capacity v = Ok 0).
  { rewrite (Get_capacity_spec _ _ Hs). simpl. rewrite Hc0. reflexivity. }
  assert (Hseg_size : Calculate_new_segment_size sizeof_Type 1 v = Ok Min_segment_size).
  { rewrite (Calculate_new_segment_size_spec v 0 1 Hcapv);
      [|unfold size_limit; lia..].
    f_equal. lia. }
  destruct (Append_new_segment_head v d0 Min_segment_size Hs Hcur Hb
              ltac:(unfold size_limit; lia))
    as (v1 & Happ & Hs1 & Hcur1 & Hend1 & Hcells1 & Hblocks1 & Hnodes1).
  set (new := {| d_ref := Head; d_base := Some (next_block (mAllocator v));
                 d_cap := Min_segment_size; d_used := 0 |}) in *.
  destruct (construct_advance v1 [new] 0%nat new (next_block (mAllocator v)) x
              Hs1 eq_refl eq_refl ltac:(simpl; lia) Hcur1)
    as (s1 & v3 & Hseg1 & Hsc1 & Hcons & Hadv & Hs3 & Hcur3 & Hend3 & Hmem3 & Hsz3).
  simpl in Hs3, Hsc1, Hcons, Hadv, Hmem3.
  set (L' := [with_used (0 + 1) new]) in *.
  assert (Hn3 : normal v3 L').
  { constructor; [exact Hs3| | |].
    - rewrite Hcur3, Hcur1. reflexivity.
    - rewrite Hend3, Hend1, Hcur3, Hcur1, Hend, Hcur. reflexivity.
    - intros j d Hj Hlen. simpl in Hlen. lia. }
  exists (next_block (mAllocator v), 0), v3, L'.
  split.
  - unfold emplace_back.
    rewrite decide_False by (rewrite Hend; auto).
    unfold segment_at at 1. rewrite Hcur. simpl. rewrite Href in Hseg.
    simpl in Hseg. injection Hseg as Hseg. rewrite Hseg, Hsc, Hse.
    rewrite bool_decide_false by auto. simpl.
    unfold Emplace_back_with_reallocation. rewrite Hsize. simpl.
    change (wrap (0 + 1)) with 1. rewrite Hseg_size. simpl.
    rewrite Happ. simpl.
    rewrite Hseg1. simpl. rewrite Hsc1, Hcons. simpl.
    rewrite Hadv. simpl.
    rewrite (normal_size _ _ Hn3). simpl.
    change (wrap (0 + 1 + 0 - 1)) with 0.
    rewrite (Get_value_at_spec _ _ _ Hs3) by lia. simpl.
    rewrite (proj2 (Z.ltb_lt 0 Min_segment_size)) by lia. reflexivity.
  - split; [|split; [split|]].
    4:{ split; [|split].
        - intros _ j d' Hj. destruct j as [|j]; [|discriminate].
          injection Hj as <-. simpl.
          rewrite (advance_current_before _ _ Hadv).
          transitivity (before_of v1 Head); [reflexivity|].
          rewrite (Append_new_segment_before _ _ _ Happ).
          rewrite decide_True; [reflexivity|]. split; [exact Hcur|].
          rewrite Href in Hseg. simpl in Hseg. injection Hseg as Hseg.
          rewrite Hseg. exact Hsb.
        - rewrite Hsz3, Hnodes1. reflexivity.
        - rewrite Hmem3. simpl. rewrite Hblocks1.
          rewrite map_size_insert_None.
          + simpl. rewrite Hb. simpl. lia.
          + destruct (blocks (mAllocator v) !! next_block (mAllocator v)) eqn:E;
              [|reflexivity].
            pose proof (shape_fresh _ _ Hs _ _ E). lia. }
    2:{ exists [], (with_used (0 + 1) new), (next_block (mAllocator v)).
        repeat split. }
    2:{ intros _. exists (with_used (0 + 1) new), (next_block (mAllocator v)).
        split; reflexivity. }
    constructor.
    + exact Hn3.
    + simpl. lia.
    + simpl. rewrite Hu0. change (0 + 0) with 0.
      rewrite (proj2 (Z.ltb_lt 0 Min_segment_size)) by lia. reflexivity.
    + simpl. intros i Hi. lia.
    + rewrite Hmem3. simpl. rewrite Hcells1. reflexivity.
    + rewrite Hmem3. simpl. rewrite Hblocks1. intros b n Hbn.
      rewrite lookup_insert_ne; [exact Hbn|].
      intros <-. pose proof (shape_fresh _ _ Hs _ _ Hbn). lia.
    + right. simpl. rewrite Hu0, Hc0. split; [reflexivity|]. lia.
Qed.

Lemma emplace_back_first (v : vector) d0 x :
  normal v [d0] -> d_base d0 = None ->
  exists a v' L',
    emplace_back sizeof_Type x v = Ok (a, v') /\
    step_post v [d0] x a v' L'.
Proof.
  intros H Hb.
  destruct (emplace_back_first_tail v d0 x H Hb) as (a & v' & L' & He & Hp & _).
  eauto.
Qed.

(** [emplace_back] on a full vector: a new segment is appended. *)
Lemma emplace_back_grow_tail (v : vector) P d x :
  normal v (P ++ [d]) -> is_Some (d_base d) -> d_used d = d_cap d ->
  sum_cap (P ++ [d]) + sum_cap (P ++ [d]) / 2 + Min_segment_size <= size_limit ->
  exists a v' L',
    emplace_back sizeof_Type x v = Ok (a, v') /\
    step_post v (P ++ [d]) x a v' L' /\ step_tail (P ++ [d]) a L' /\
    step_links v (P ++ [d]) v' L'.
Proof.
  intros H [b Hb] Hfull Hbound.
  pose proof (normal_shape _ _ H) as Hs.
  destruct (normal_last _ _ H) as (P' & d' & Heq & Hcur & Hend & Hsz & Hcap & HP & Hd).
  apply app_inj_tail in Heq as [<- <-].
  set (L := P ++ [d]) in *.
  assert (HlenL : length L = S (length P))
    by (subst L; rewrite length_app; simpl; lia).
  assert (Hj : L !! length P = Some d)
    by (subst L; rewrite lookup_app_r, Nat.sub_diag by lia; reflexivity).
  destruct (shape_linked _ _ Hs _ _ Hj) as (s & Hseg & Hsb & Hsc & Hse & Hsn).
  pose proof (desc_ok_range _ _ Hd) as Hrange.
  assert (Hcpos : 0 < d_cap d).
  { destruct Hd as [_ Hd]. rewrite Hb in Hd. lia. }
  pose proof (sum_cap_nonneg _ _ HP) as HPnn.
  pose proof Min_segment_size_ge_8 as Hmin.
  set (c := sum_cap L) in *.
  assert (Hused : sum_used L = c) by lia.
  assert (Hsize : Get_size v = Ok c) by (rewrite (normal_size _ _ H); congruence).
  assert (Hcapv : Get_capacity v = Ok c) by apply (Get_capacity_spec _ _ Hs).
  set (seg := Z.max Min_segment_size (Z.max (c + c / 2) (c + 1) - c)).
  assert (Hseg_size : Calculate_new_segment_size sizeof_Type (c + 1) v = Ok seg)
    by (apply Calculate_new_segment_size_spec; [exact Hcapv|lia|lia]).
  assert (Hsegb : 0 < seg /\ c + seg <= size_limit) by (subst seg; lia).
  destruct (Append_new_segment_node v P d seg Hs Hcur (ex_intro _ b Hb)
              ltac:(lia) ltac:(fold L c; lia))
    as (v1 & Happ & Hs1 & Hcur1 & Hend1 & Hcells1 & Hblocks1 & Hnodes1).
  fold L in Hs1.
  set (ns := next_segment v) in *. set (nb := next_block (mAllocator v)) in *.
  set (new := {| d_ref := Node ns; d_base := Some nb; d_cap := seg; d_used := 0 |}) in *.
  assert (Hj1 : (L ++ [new]) !! length P = Some d)
    by (rewrite lookup_app_l by lia; exact Hj).
  destruct (shape_linked _ _ Hs1 _ _ Hj1) as (s1 & Hseg1 & _ & _ & _ & Hsn1).
  rewrite lookup_app_r, HlenL, Nat.sub_diag in Hsn1 by lia. simpl in Hsn1.
  pose proof (shape_with_mCurrent v1 _ (Some (Node ns)) Hs1) as Hs2.
  assert (Hjn : (L ++ [new]) !! length L = Some new)
    by (rewrite lookup_app_r, Nat.sub_diag by lia; reflexivity).
  destruct (construct_advance (with_mCurrent (Some (Node ns)) v1) (L ++ [new])
              (length L) new nb x Hs2 Hjn eq_refl ltac:(simpl; lia) eq_refl)
    as (s2 & v3 & Hseg2 & Hsc2 & Hcons & Hadv & Hs3 & Hcur3 & Hend3 & Hmem3 & Hsz3).
  rewrite insert_app_r_alt, Nat.sub_diag in Hs3 by lia.
  simpl in Hs3, Hsc2, Hmem3, Hseg2, Hcons, Hadv.
  set (L' := L ++ [with_used (0 + 1) new]) in *.
  assert (Hn3 : normal v3 L').
  { constructor; [exact Hs3| | |].
    - rewrite Hcur3. subst L'. rewrite last_snoc. reflexivity.
    - rewrite Hend3, Hcur3. simpl. exact Hend1.
    - intros j d0 Hj0 Hlen. subst L'. rewrite length_app in Hlen. simpl in Hlen.
      rewrite lookup_app_l in Hj0 by lia.
      destruct (decide (j = length P)) as [->|Hne].
      + rewrite Hj in Hj0. injection Hj0 as <-. exact Hfull.
      + apply (normal_full _ _ H j d0 Hj0). lia. }
  assert (Hloc : locate L' c = Ok (nb, 0)).
  { subst L'. rewrite (locate_app_r (mAllocator v)) by (auto using shape_ok; fold c; lia).
    fold c. rewrite Z.sub_diag. simpl.
    rewrite (proj2 (Z.ltb_lt 0 seg)) by lia. reflexivity. }
  exists (nb, 0), v3, L'.
  split.
  - unfold emplace_back.
    rewrite decide_False by (rewrite Hend, Hcur; auto).
    unfold segment_at at 1. rewrite Hcur. simpl. rewrite Hseg. simpl.
    rewrite bool_decide_false by (rewrite Hsc, Hse, Hfull; auto).
    unfold Emplace_back_with_reallocation. rewrite Hsize. simpl.
    rewrite decide_False by (unfold max_size; lia).
    rewrite (wrap_small (c + 1)) by lia.
    rewrite Hseg_size. simpl. rewrite Happ. simpl.
    rewrite decide_True by lia.
    rewrite Hcur1, Hcur, segment_at_Some, Hseg1. simpl.
    rewrite Hsn1.
    rewrite Hseg2. simpl. rewrite Hsc2, Hcons. simpl.
    rewrite Hadv. simpl.
    rewrite (normal_size _ _ Hn3). simpl.
    assert (sum_used L' = c + 1) as ->
      by (subst L'; rewrite sum_used_app; simpl; lia).
    replace (c + 1 - 1) with c by lia. rewrite wrap_small by lia.
    rewrite (Get_value_at_spec _ _ _ Hs3) by lia. rewrite Hloc. reflexivity.
  - split; [|split; [split|]].
    4:{ assert (Hbef : forall r, before_of v3 r =
                  if decide (r = Node ns) then Some (mCurrent v) else before_of v r).
        { intros r. rewrite (advance_current_before _ _ Hadv).
          transitivity (before_of v1 r); [destruct r; reflexivity|].
          rewrite (Append_new_segment_before _ _ _ Happ).
          rewrite decide_False; [reflexivity|]. intros [Hc Hnull].
          rewrite Hcur in Hc. injection Hc as Hc. rewrite Hc in Hseg.
          simpl in Hseg. injection Hseg as Hseg. rewrite Hseg, Hsb in Hnull.
          unfold base_ptr in Hnull. rewrite Hb in Hnull. discriminate. }
        split; [|split].
        - intros HB j d' Hj'. rewrite Hbef. subst L'.
          destruct (decide (j < length L)%nat) as [Hlt|Hge].
          + rewrite lookup_app_l in Hj' by lia.
            destruct (shape_linked _ _ Hs _ _ Hj') as (s' & Hs' & _).
            rewrite decide_False.
            * rewrite (HB j d' Hj'). destruct j as [|j']; [reflexivity|].
              rewrite lookup_app_l by lia. reflexivity.
            * intros E. rewrite E in Hs'. simpl in Hs'.
              destruct (mSegmentAllocator v !! ns) eqn:En; [|discriminate].
              pose proof (shape_nodes _ _ Hs _ _ En). subst ns. lia.
          + pose proof (lookup_lt_Some _ _ _ Hj') as Hlen.
            rewrite length_app in Hlen. simpl in Hlen.
            assert (j = length L) as -> by lia.
            rewrite lookup_app_r, Nat.sub_diag in Hj' by lia.
            injection Hj' as <-. simpl. rewrite decide_True by reflexivity.
            rewrite HlenL. rewrite lookup_app_l by lia. rewrite Hj, Hcur.
            reflexivity.
        - rewrite Hsz3. simpl. rewrite Hnodes1. subst L'.
          rewrite !length_app. simpl. lia.
        - rewrite Hmem3. simpl. rewrite Hblocks1.
          rewrite map_size_insert_None.
          + subst L'. rewrite omap_app, length_app. simpl. lia.
          + destruct (blocks (mAllocator v) !! nb) eqn:E; [|reflexivity].
            pose proof (shape_fresh _ _ Hs _ _ E). subst nb. lia. }
    2:{ exists L, (with_used (0 + 1) new), nb. repeat split. }
    2:{ intros Hhead. subst L'. apply head_live_snoc.
        destruct Hhead as [Hlen|Hlive]; [|exact Hlive].
        exists d, b. split; [|exact Hb]. rewrite HlenL in Hlen.
        replace 0%nat with (length P) by lia. exact Hj. }
    constructor.
    + exact Hn3.
    + subst L'. rewrite sum_used_app. simpl. lia.
    + rewrite Hused. exact Hloc.
    + intros i Hi. subst L'. apply (locate_app_l (mAllocator v)); auto using shape_ok.
    + rewrite Hmem3. simpl. rewrite Hcells1. reflexivity.
    + rewrite Hmem3. simpl. rewrite Hblocks1. intros b' n Hbn.
      rewrite lookup_insert_ne; [exact Hbn|].
      intros <-. pose proof (shape_fresh _ _ Hs _ _ Hbn). subst nb. lia.
    + right. split; [exact Hused|]. subst L'. rewrite sum_cap_app. simpl.
      rewrite Hused. fold c. subst seg. lia.
Qed.

Lemma emplace_back_grow (v : vector) P d x :
  normal v (P ++ [d]) -> is_Some (d_base d) -> d_used d = d_cap d ->
  sum_cap (P ++ [d]) + sum_cap (P ++ [d]) / 2 + Min_segment_size <= size_limit ->
  exists a v' L',
    emplace_back sizeof_Type x v = Ok (a, v') /\
    step_post v (P ++ [d]) x a v' L'.
Proof.
  intros H Hb Hfull Hbound.
  destruct (emplace_back_grow_tail v P d x H Hb Hfull Hbound)
    as (a & v' & L' & He & Hp & _).
  eauto.
Qed.

(** One [emplace_back] on any normal state with room to grow. *)
Lemma emplace_back_step_tail (v : vector) L x :
  normal v L ->
  sum_cap L + sum_cap L / 2 + Min_segment_size <= size_limit ->
  exists a v' L',
    emplace_back sizeof_Type x v = Ok (a, v') /\ step_post v L x a v' L' /\
    step_tail L a L' /\ step_links v L v' L'.
Proof.
  intros H Hbound.
  destruct (normal_last _ _ H) as (P & d & -> & _ & _ & _ & _ & _ & Hd).
  pose proof (desc_ok_range _ _ Hd) as Hrange.
  destruct (decide (d_used d < d_cap d)) as [Hlt|Hge].
  - apply emplace_back_room_tail; assumption.
  - destruct (d_base d) as [b|] eqn:Hb.
    + apply emplace_back_grow_tail; eauto. lia.
    + destruct (normal_singleton_head v P d H Hb) as [-> _].
      apply emplace_back_first_tail; assumption.
Qed.

Lemma emplace_back_step (v : vector) L x :
  normal v L ->
  sum_cap L + sum_cap L / 2 + Min_segment_size <= size_limit ->
  exists a v' L',
    emplace_back sizeof_Type x v = Ok (a, v') /\ step_post v L x a v' L'.
Proof.
  intros H Hbound.
  destruct (emplace_back_step_tail v L x H Hbound) as (a & v' & L' & He & Hp & _).
  eauto.
Qed.

(** *** Elements across one step *)

Lemma read_spec (v : vector) L i :
  shape v L -> 0 <= i ->
  read i v = (locate L i ≫= fun a => load (Some a) (mAllocator v)).
Proof.
  intros H Hi. unfold read. rewrite (Get_value_at_spec _ _ _ H Hi). reflexivity.
Qed.

Lemma load_in_block (m : memory Type_) a :
  in_block m a = true -> load (Some a) m = deref (cells m !! a).
Proof. intros H. unfold load. rewrite H. reflexivity. Qed.

Lemma in_block_mono (m m' : memory Type_) a :
  (forall b n, blocks m !! b = Some n -> blocks m' !! b = Some n) ->
  in_block m a = true -> in_block m' a = true.
Proof.
  intros Hmono. unfold in_block.
  destruct (blocks m !! a.1) as [n|] eqn:E; [|discriminate].
  rewrite (Hmono _ _ E). auto.
Qed.

Lemma step_old (v : vector) L x a v' L' i :
  normal v L -> step_post v L x a v' L' -> 0 <= i < sum_used L ->
  Get_value_at i v' = Get_value_at i v /\ read i v' = read i v /\
  exists ai, Get_value_at i v = Ok ai.
Proof.
  intros H Hp Hi.
  pose proof (normal_shape _ _ H) as Hs.
  pose proof (normal_shape _ _ (step_normal _ _ _ _ _ _ Hp)) as Hs'.
  pose proof (sum_used_bounds _ _ (shape_ok _ _ Hs)) as Hub.
  pose proof (sum_used_bounds _ _ (shape_ok _ _ Hs')) as Hub'.
  pose proof (step_used _ _ _ _ _ _ Hp) as Hu.
  destruct (locate_lt _ L i (shape_ok _ _ Hs) ltac:(lia)) as (ai & Hai & Hin).
  pose proof (step_stable _ _ _ _ _ _ Hp i ltac:(lia)) as Hst.
  assert (Hne : a <> ai).
  { intros <-. pose proof (step_where _ _ _ _ _ _ Hp) as Hw.
    rewrite <- Hst in Hai.
    pose proof (locate_inj _ L' (sum_used L) i a (shape_ok _ _ Hs')
                  (shape_blocks _ _ Hs') ltac:(lia) ltac:(lia) Hw Hai). lia. }
  rewrite !(Get_value_at_spec _ _ _ Hs'), !(Get_value_at_spec _ _ _ Hs) by lia.
  rewrite (read_spec _ _ _ Hs'), (read_spec _ _ _ Hs) by lia.
  rewrite Hst, Hai. simpl.
  split; [reflexivity|]. split; [|eauto].
  rewrite !load_in_block; auto.
  - rewrite (step_cells _ _ _ _ _ _ Hp), lookup_insert_ne by exact Hne.
    reflexivity.
  - eapply in_block_mono; [apply (step_blocks _ _ _ _ _ _ Hp)|exact Hin].
Qed.

Lemma step_new (v : vector) L x a v' L' :
  normal v L -> step_post v L x a v' L' ->
  read (sum_used L) v' = Ok x.
Proof.
  intros H Hp.
  pose proof (normal_shape _ _ H) as Hs.
  pose proof (normal_shape _ _ (step_normal _ _ _ _ _ _ Hp)) as Hs'.
  pose proof (sum_used_bounds _ _ (shape_ok _ _ Hs)) as Hub.
  pose proof (sum_used_bounds _ _ (shape_ok _ _ Hs')) as Hub'.
  pose proof (step_used _ _ _ _ _ _ Hp) as Hu.
  pose proof (step_where _ _ _ _ _ _ Hp) as Hw.
  destruct (locate_lt _ L' (sum_used L) (shape_ok _ _ Hs') ltac:(lia))
    as (a' & Ha' & Hin).
  rewrite Hw in Ha'. injection Ha' as <-.
  rewrite (read_spec _ _ _ Hs') by lia. rewrite Hw. simpl.
  rewrite load_in_block by exact Hin.
  rewrite (step_cells _ _ _ _ _ _ Hp), lookup_insert_eq. reflexivity.
Qed.

(** *** Sequences of [push_back] *)

Lemma push_back_all_spec (xs : list Type_) :
  forall (v : vector) L B,
    normal v L -> sum_cap L <= B ->
    sum_used L + Z.of_nat (length xs) +
      Z.max Min_segment_size ((sum_used L + Z.of_nat (length xs)) / 2) <= B ->
    B + B / 2 + Min_segment_size <= size_limit ->
    exists v' L',
      push_back_all sizeof_Type xs v = Ok v' /\
      normal v' L' /\
      sum_used L' = sum_used L + Z.of_nat (length xs) /\
      sum_cap L' <= B /\
      (forall i, 0 <= i < sum_used L ->
         Get_value_at i v' = Get_value_at i v /\ read i v' = read i v /\
         exists ai, Get_value_at i v = Ok ai) /\
      (forall (k : nat) x, xs !! k = Some x -> read (sum_used L + Z.of_nat k) v' = Ok x) /\
      (forall b n, blocks (mAllocator v) !! b = Some n ->
         blocks (mAllocator v') !! b = Some n).
Proof.
  induction xs as [|x xs IH]; intros v L B H HB HG Hlim.
  - exists v, L. simpl. split; [reflexivity|]. split; [exact H|].
    split; [lia|]. split; [exact HB|].
    pose proof (normal_shape _ _ H) as Hs.
    pose proof (sum_used_bounds _ _ (shape_ok _ _ Hs)) as Hub.
    split; [|split; [intros k x Hk; discriminate|auto]].
    intros i Hi. split; [reflexivity|]. split; [reflexivity|].
    destruct (locate_lt _ L i (shape_ok _ _ Hs) ltac:(lia)) as (ai & Hai & _).
    exists ai. rewrite (Get_value_at_spec _ _ _ Hs) by lia. exact Hai.
  - pose proof Min_segment_size_ge_8 as Hmin.
    pose proof (normal_shape _ _ H) as Hs.
    pose proof (sum_used_bounds _ _ (shape_ok _ _ Hs)) as Hub.
    simpl length in HG.
    destruct (emplace_back_step v L x H ltac:(lia)) as (a & v1 & L1 & He & Hp).
    pose proof (step_used _ _ _ _ _ _ Hp) as Hu.
    assert (HB1 : sum_cap L1 <= B).
    { destruct (step_growth _ _ _ _ _ _ Hp) as [[_ ->]|[Hfull ->]]; lia. }
    destruct (IH v1 L1 B (step_normal _ _ _ _ _ _ Hp) HB1 ltac:(lia) Hlim)
      as (v' & L' & Hrun & Hn' & Hu' & HB' & Hold & Hnew & Hblk).
    exists v', L'. simpl. unfold push_back. rewrite He. simpl.
    split; [exact Hrun|]. split; [exact Hn'|].
    split; [lia|]. split; [exact HB'|].
    split; [|split].
    + intros i Hi.
      destruct (step_old _ _ _ _ _ _ i H Hp Hi) as (Hg1 & Hr1 & Hex).
      destruct (Hold i ltac:(lia)) as (Hg2 & Hr2 & _).
      split; [congruence|]. split; [congruence|exact Hex].
    + intros [|k] y Hk; simpl in Hk.
      * injection Hk as <-.
        destruct (Hold (sum_used L) ltac:(lia)) as (_ & Hr & _).
        rewrite Z.add_0_r, Hr. apply (step_new _ _ _ _ _ _ H Hp).
      * rewrite <- (Hnew k y Hk). f_equal. lia.
    + intros b n Hbn. apply Hblk, (step_blocks _ _ _ _ _ _ Hp), Hbn.
Qed.

(** The new vector is normal: its chain is the member segment, without
    storage. *)
Definition no_storage : desc :=
  {| d_ref := Head; d_base := None; d_cap := 0; d_used := 0 |}.

Lemma normal_create : normal (@create Type_) [no_storage].
Proof.
  constructor; [constructor| | |]; simpl; try reflexivity.
  - intros [|j] d; simpl; [|discriminate]. intros [= <-].
    exists Data_Segment.null. repeat split.
  - apply NoDup_singleton.
  - constructor.
  - constructor; [|constructor]. split; simpl; [lia|reflexivity].
  - intros j d. discriminate.
  - unfold size_limit. lia.
  - intros n s. rewrite lookup_empty. discriminate.
  - intros b n. rewrite lookup_empty. discriminate.
  - intros j d _ Hlen. simpl in Hlen. lia.
Qed.

(** *** Reference stability *)

(** X29, reference stability on normal states.  On a normal vector [v]
    (its chain is [L]; this is the state the constructors and the appends
    leave behind), far from the maximum size, every sequence [xs] of [push_back] calls runs to
    its end, no block is released or resized, and for every index [i] below
    the old [size()] the address [operator[](i)] gives before the sequence
    is the address it gives afterwards, holding the same value. *)
Theorem reference_stability (v : vector) (L : list desc) (xs : list Type_) (c : Z) :
  normal v L -> Get_capacity v = Ok c ->
  c + Z.of_nat (length xs) <= 2 ^ 62 ->
  exists v',
    push_back_all sizeof_Type xs v = Ok v' /\
    (forall b n, blocks (mAllocator v) !! b = Some n ->
       blocks (mAllocator v') !! b = Some n) /\
    forall n i, size_ v = Ok n -> 0 <= i < n ->
      exists a,
        subscript i v = Ok (a, v) /\
        subscript i v' = Ok (a, v') /\
        load (Some a) (mAllocator v') = load (Some a) (mAllocator v).
Proof.
  intros H Hc Hbound.
  pose proof (normal_shape _ _ H) as Hs.
  rewrite (Get_capacity_spec _ _ Hs) in Hc. injection Hc as <-.
  pose proof (sum_used_bounds _ _ (shape_ok _ _ Hs)) as Hub.
  pose proof Min_segment_size_ge_8 as Hmin.
  assert (Hmin32 : Min_segment_size <= 32).
  { unfold Vector.Min_segment_size.
    destruct (Min_segment_size_eval_cases sizeof_Type) as [->|[->| ->]]; lia. }
  destruct (push_back_all_spec xs v L (2 ^ 63) H ltac:(lia) ltac:(lia)
              ltac:(unfold size_limit; lia))
    as (v' & L' & Hrun & _ & _ & _ & Hold & _ & Hblk).
  exists v'. split; [exact Hrun|]. split; [exact Hblk|].
  intros n i Hn Hi. unfold size_ in Hn. rewrite (normal_size _ _ H) in Hn.
  injection Hn as <-.
  destruct (Hold i Hi) as (Hg & Hr & a & Ha).
  exists a. unfold subscript. rewrite Hg, Ha. simpl.
  split; [reflexivity|]. split; [reflexivity|].
  unfold read in Hr. rewrite Hg, Ha in Hr. exact Hr.
Qed.

(** *** Checked and unchecked access *)

Lemma ptr_diff_no_throw p q e : ptr_diff p q <> Throw e.
Proof.
  unfold ptr_diff. destruct p as [[b o]|], q as [[b' o']|]; try discriminate.
  destruct (decide (b = b')); discriminate.
Qed.

Lemma get_segment_no_throw r (v : vector) e : get_segment r v <> Throw e.
Proof.
  destruct r as [|n]; simpl; [discriminate|].
  destruct (mSegmentAllocator v !! n); discriminate.
Qed.

Lemma length_of_no_throw s e : length_of s <> Throw e.
Proof.
  unfold length_of.
  destruct (ptr_diff (Data_Segment.mEnd s) (Data_Segment.mBegin s)) eqn:E;
    simpl; try discriminate.
  exfalso. eapply ptr_diff_no_throw, E.
Qed.

Lemma used_of_no_throw s e : used_of s <> Throw e.
Proof.
  unfold used_of.
  destruct (ptr_diff (Data_Segment.mCurrent s) (Data_Segment.mBegin s)) eqn:E;
    simpl; try discriminate.
  exfalso. eapply ptr_diff_no_throw, E.
Qed.

Lemma Get_value_at_loop_no_throw fuel (v : vector) i p e :
  Get_value_at_loop fuel v i p <> Throw e.
Proof.
  revert i p. induction fuel as [|fuel IH]; intros i p; simpl; [discriminate|].
  unfold segment_at. destruct p as [r|]; simpl; [|discriminate].
  destruct (get_segment r v) as [s| | |] eqn:Es; simpl; try discriminate;
    [|exfalso; eapply get_segment_no_throw, Es].
  destruct (length_of s) as [n| | |] eqn:En; simpl; try discriminate;
    [|exfalso; eapply length_of_no_throw, En].
  destruct (i <? n); [|apply IH].
  destruct (Data_Segment.mBegin s) as [[b o]|]; simpl; [discriminate|].
  destruct (decide (i = 0)); simpl; discriminate.
Qed.

Lemma Get_size_loop_no_throw fuel (v : vector) acc r e :
  Get_size_loop fuel v acc r <> Throw e.
Proof.
  revert acc r. induction fuel as [|fuel IH]; intros acc r; simpl; [discriminate|].
  destruct (get_segment r v) as [s| | |] eqn:Es; simpl; try discriminate;
    [|exfalso; eapply get_segment_no_throw, Es].
  destruct (used_of s) as [n| | |] eqn:En; simpl; try discriminate;
    [|exfalso; eapply used_of_no_throw, En].
  destruct (Data_Segment.mSegAfter s) as [r'|]; [|discriminate].
  destruct (decide (Some r' = mCurrent v)); [|apply IH].
  destruct (get_segment r' v) as [s'| | |] eqn:Es'; simpl; try discriminate;
    [|exfalso; eapply get_segment_no_throw, Es'].
  destruct (used_of s') as [n'| | |] eqn:En'; simpl; try discriminate.
  exfalso; eapply used_of_no_throw, En'.
Qed.

(** [at] leaves by [std::out_of_range] exactly when [size()] returns a
    value that [pos] reaches; this needs no assumption on the state. *)
Lemma at_throws_iff (v : vector) pos :
  at_ pos v = Throw out_of_range <-> exists n, Get_size v = Ok n /\ n <= pos.
Proof.
  unfold at_. split.
  - destruct (Get_size v) as [n| | |] eqn:E; simpl; try discriminate.
    + destruct (n <=? pos) eqn:El.
      * intros _. exists n. split; [reflexivity|]. apply Z.leb_le, El.
      * destruct (Get_value_at pos v) eqn:Eg; simpl; try discriminate.
        exfalso. eapply Get_value_at_loop_no_throw, Eg.
    + intros [= ->]. exfalso. eapply Get_size_loop_no_throw, E.
  - intros (n & -> & Hle). simpl.
    rewrite (proj2 (Z.leb_le _ _) Hle). reflexivity.
Qed.

Lemma element_slot_locate (m : memory Type_) L i :
  Forall (desc_ok m) L ->
  (forall j d, L !! j = Some d -> (S j < length L)%nat -> d_used d = d_cap d) ->
  0 <= i < sum_used L ->
  exists a, locate L i = Ok a /\ element_slot L i = Some a.
Proof.
  intros H. revert i. induction H as [|d L Hd HL IH]; intros i Hfull Hi;
    simpl in *; [lia|].
  pose proof (desc_ok_range _ _ Hd) as Hr.
  destruct L as [|d' L'].
  - simpl in *. assert (i < d_used d) as Hlt by lia.
    rewrite (proj2 (Z.ltb_lt _ _) Hlt).
    rewrite (proj2 (Z.ltb_lt i (d_cap d))) by lia.
    destruct (desc_ok_base _ _ Hd ltac:(lia)) as (b & -> & _). eauto.
  - rewrite (Hfull 0%nat d eq_refl) by (simpl; lia).
    destruct (i <? d_cap d) eqn:E.
    + apply Z.ltb_lt in E.
      destruct (desc_ok_base _ _ Hd ltac:(lia)) as (b & -> & _). eauto.
    + apply Z.ltb_ge in E. apply IH.
      * intros j d0 Hj Hlen. apply (Hfull (S j) d0 Hj). simpl in *. lia.
      * rewrite (Hfull 0%nat d eq_refl) in Hi by (simpl; lia). lia.
Qed.

(** Checked access on a normal vector: [at(pos)] leaves by
    [std::out_of_range] if and only if [pos >= size()]; when [pos < size()] it returns the address
    of the element of logical index [pos], which is also what
    [operator[](pos)] returns, and the state is as before the call. *)
Theorem at_out_of_range_iff (v : vector) (L : list desc) (pos : Z) :
  normal v L -> 0 <= pos ->
  exists n,
    size_ v = Ok n /\
    (at_ pos v = Throw out_of_range <-> n <= pos) /\
    (pos < n ->
     exists a, at_ pos v = Ok (a, v) /\ element_slot L pos = Some a /\
               subscript pos v = Ok (a, v)).
Proof.
  intros H Hpos. pose proof (normal_shape _ _ H) as Hs.
  exists (sum_used L). unfold size_.
  split; [apply (normal_size _ _ H)|]. split.
  - rewrite at_throws_iff, (normal_size _ _ H). split.
    + intros (n & [= <-] & Hle). exact Hle.
    + intros Hle. eauto.
  - intros Hlt.
    destruct (element_slot_locate _ L pos (shape_ok _ _ Hs) (normal_full _ _ H)
                ltac:(lia)) as (a & Hloc & Hslot).
    exists a. unfold at_, subscript. rewrite (normal_size _ _ H). simpl.
    rewrite (proj2 (Z.leb_gt _ _) Hlt).
    rewrite (Get_value_at_spec _ _ _ Hs Hpos), Hloc. simpl. auto.
Qed.

(** C10.  [operator[]] makes no bounds test.  On a well-formed chain [L]
    of total capacity [c], every [pos < c] resolves to the cell of offset
    [pos] counted along the blocks of the chain, whether or not [pos] is
    below [size()]; for [pos >= c] the walk dereferences the null
    [mSegAfter] of the last segment and returns no element. *)
Theorem subscript_unchecked (v : vector) (L : list desc) (c pos : Z) :
  shape v L -> Get_capacity v = Ok c -> 0 <= pos ->
  (pos < c ->
   exists a, subscript pos v = Ok (a, v) /\ locate L pos = Ok a /\
             in_block (mAllocator v) a = true) /\
  (c <= pos -> subscript pos v = Undefined).
Proof.
  intros Hs Hc Hpos.
  rewrite (Get_capacity_spec _ _ Hs) in Hc. injection Hc as <-.
  unfold subscript. rewrite (Get_value_at_spec _ _ _ Hs Hpos). split.
  - intros Hlt.
    destruct (locate_lt _ L pos (shape_ok _ _ Hs) ltac:(lia)) as (a & Ha & Hin).
    exists a. rewrite Ha. auto.
  - intros Hge. rewrite (locate_ge _ L pos (shape_ok _ _ Hs) Hge). reflexivity.
Qed.

(** *** C9: the assignment stubs *)

(** C9.  Move assignment and initializer-list assignment return the
    target as it was (so its size and every element read from it are as
    before), and the moved-from vector is not touched. *)
Theorem assignment_stubs (this rhs : vector) (iList : list Type_) :
  assign_move this rhs = Ok (this, rhs) /\
  assign_initializer_list this iList = Ok this /\
  (forall this' rhs', assign_move this rhs = Ok (this', rhs') ->
     size_ this' = size_ this /\ size_ rhs' = size_ rhs /\
     forall i, read i this' = read i this /\ read i rhs' = read i rhs) /\
  (forall this', assign_initializer_list this iList = Ok this' ->
     size_ this' = size_ this /\ forall i, read i this' = read i this).
Proof.
  split; [reflexivity|]. split; [reflexivity|]. split.
  - intros this' rhs' [= <- <-]. auto.
  - intros this' [= <-]. auto.
Qed.

(** *** [grow_by] *)

Lemma Fill_n_spec (L : list desc) (x : Type_) (n : nat) :
  forall (v : vector) t,
    shape v L -> 0 <= t -> t + Z.of_nat n <= sum_cap L ->
    exists m2,
      Fill_n t n x v = Ok (with_mAllocator m2 v) /\
      blocks m2 = blocks (mAllocator v) /\
      next_block m2 = next_block (mAllocator v) /\
      forall i a, 0 <= i -> locate L i = Ok a ->
        cells m2 !! a =
          if decide (t <= i < t + Z.of_nat n) then Some x
          else cells (mAllocator v) !! a.
Proof.
  induction n as [|n IH]; intros v t Hs Ht Hsum.
  - exists (mAllocator v). simpl.
    split; [destruct v; reflexivity|]. split; [reflexivity|].
    split; [reflexivity|].
    intros i a _ _. rewrite decide_False by lia. reflexivity.
  - pose proof (shape_cap _ _ Hs) as Hcap.
    destruct (locate_lt _ L t (shape_ok _ _ Hs) ltac:(lia)) as (a0 & Ha0 & Hin).
    simpl. rewrite (Get_value_at_spec _ _ _ Hs Ht), Ha0. simpl.
    rewrite construct_ok by exact Hin. simpl.
    set (m1 := {| cells := <[a0 := x]> (cells (mAllocator v));
                  blocks := blocks (mAllocator v);
                  next_block := next_block (mAllocator v) |}).
    assert (Hs1 : shape (with_mAllocator m1 v) L) by (apply shape_mem; auto).
    rewrite wrap_small by lia.
    destruct (IH (with_mAllocator m1 v) (t + 1) Hs1 ltac:(lia) ltac:(lia))
      as (m2 & Hrun & Hb & Hn & Hcells).
    exists m2. split; [exact Hrun|]. split; [exact Hb|]. split; [exact Hn|].
    intros i a Hi Ha. rewrite (Hcells i a Hi Ha). simpl.
    destruct (decide (t + 1 <= i < t + 1 + Z.of_nat n)) as [Hr|Hr].
    + rewrite decide_True by lia. reflexivity.
    + destruct (decide (i = t)) as [->|Hne].
      * rewrite decide_True by lia.
        rewrite Ha0 in Ha. injection Ha as <-. apply lookup_insert_eq.
      * rewrite decide_False by lia.
        apply lookup_insert_ne. intros <-.
        apply Hne. symmetry.
        apply (locate_inj _ L t i a0 (shape_ok _ _ Hs) (shape_blocks _ _ Hs));
          auto.
Qed.

Lemma adjust_target_Some L idx r :
  adjust_target L idx = Some r ->
  exists A0 dt, (adjust_split L idx).1 = A0 ++ [dt] /\ d_ref dt = r.
Proof.
  revert idx. induction L as [|d L IH]; intros idx; simpl; [discriminate|].
  destruct (idx <? d_cap d).
  - intros [= <-]. exists [], (with_used idx d). split; reflexivity.
  - intros Ht. destruct (IH _ Ht) as (A0 & dt & HA & Hr).
    destruct (adjust_split L (idx - d_cap d)) as [A R]. simpl in *.
    exists (with_used (d_cap d) d :: A0), dt. rewrite HA. split; auto.
Qed.

Lemma adjust_target_None L idx :
  adjust_target L idx = None -> (adjust_split L idx).2 = [].
Proof.
  revert idx. induction L as [|d L IH]; intros idx; simpl; [reflexivity|].
  destruct (idx <? d_cap d); [discriminate|].
  intros Ht. specialize (IH _ Ht).
  destruct (adjust_split L (idx - d_cap d)) as [A R]. exact IH.
Qed.

Lemma adjust_bases L idx :
  (fun d => (d_base d, d_cap d)) <$> adjust L idx =
  (fun d => (d_base d, d_cap d)) <$> L.
Proof.
  unfold adjust. revert idx. induction L as [|d L IH]; intros idx; simpl;
    [reflexivity|].
  destruct (idx <? d_cap d); simpl.
  - f_equal. rewrite <- list_fmap_compose. reflexivity.
  - specialize (IH (idx - d_cap d)).
    destruct (adjust_split L (idx - d_cap d)) as [A R]. simpl in *.
    f_equal. exact IH.
Qed.

Lemma adjust_sum_used (m : memory Type_) L idx :
  Forall (desc_ok m) L -> 0 <= idx <= sum_cap L ->
  sum_used (adjust L idx) = idx.
Proof.
  unfold adjust. intros H. revert idx.
  induction H as [|d L Hd HL IH]; intros idx Hi; simpl in *; [lia|].
  pose proof (desc_ok_range _ _ Hd).
  destruct (idx <? d_cap d) eqn:E; simpl.
  - rewrite sum_used_zero; [lia|].
    apply Forall_fmap, Forall_forall. reflexivity.
  - apply Z.ltb_ge in E. specialize (IH (idx - d_cap d) ltac:(lia)).
    destruct (adjust_split L (idx - d_cap d)) as [A R]. simpl in *. lia.
Qed.

Lemma Adjust_reset_spec (L' : list desc) :
  forall A fuel (v : vector),
    shape v (A ++ L') -> (length L' < fuel)%nat ->
    exists v',
      Adjust_reset fuel v (d_ref <$> (A ++ L') !! length A) = Ok v' /\
      shape v' (A ++ (with_used 0 <$> L')) /\
      mAllocator v' = mAllocator v /\ mCurrent v' = mCurrent v /\
      mEnd v' = mEnd v /\
      size (mSegmentAllocator v') = size (mSegmentAllocator v).
Proof.
  induction L' as [|d L' IH]; intros A fuel v Hs Hfuel.
  - destruct fuel as [|fuel]; [simpl in Hfuel; lia|].
    rewrite lookup_ge_None_2 by (rewrite length_app; simpl; lia).
    exists v. simpl. auto 10.
  - destruct fuel as [|fuel]; [simpl in Hfuel; lia|].
    assert (Hj : (A ++ d :: L') !! length A = Some d)
      by (rewrite lookup_app_r, Nat.sub_diag by lia; reflexivity).
    destruct (shape_linked _ _ Hs _ _ Hj) as (s & Hseg & Hsb & Hsc & Hse & Hsn).
    pose proof (desc_ok_range _ _ (shape_desc_ok _ _ _ _ Hs Hj)) as Hr.
    pose proof (shape_set_used _ _ _ _ _ 0 Hs Hj Hseg ltac:(lia)) as Hs1.
    rewrite insert_app_r_alt, Nat.sub_diag in Hs1 by lia. simpl in Hs1.
    rewrite (cons_middle _ A L'), app_assoc in Hs1.
    destruct (IH (A ++ [with_used 0 d]) fuel _ Hs1 ltac:(simpl in Hfuel; lia))
      as (v' & Hrun & Hs' & Hm & Hc & He & Hn).
    exists v'. rewrite Hj. simpl. rewrite Hseg. simpl.
    rewrite Hsb, Hsn.
    replace (d_ref <$> (A ++ d :: L') !! S (length A))
      with (d_ref <$> ((A ++ [with_used 0 d]) ++ L') !! length (A ++ [with_used 0 d])).
    2:{ rewrite !lookup_app_r by (rewrite ?length_app; simpl; lia).
        rewrite length_app. simpl.
        replace (length A + 1 - (length A + 1))%nat with 0%nat by lia.
        replace (S (length A) - length A)%nat with 1%nat by lia.
        reflexivity. }
    split; [exact Hrun|].
    split; [rewrite (cons_middle _ A), app_assoc; exact Hs'|].
    rewrite Hm, Hc, He, Hn.
    destruct (d_ref d) as [|n] eqn:E; simpl; repeat split; auto.
    simpl in Hseg. rewrite map_size_insert.
    destruct (mSegmentAllocator v !! n); [reflexivity|discriminate].
Qed.

Lemma Adjust_walk_spec (L' : list desc) :
  forall A fuel (v : vector) idx,
    shape v (A ++ L') -> (length L' < fuel)%nat -> 0 <= idx ->
    exists v',
      Adjust_walk fuel v idx (d_ref <$> (A ++ L') !! length A)
        = Ok (adjust_target L' idx, v') /\
      shape v' (A ++ (adjust_split L' idx).1 ++ (adjust_split L' idx).2) /\
      mAllocator v' = mAllocator v /\ mCurrent v' = mCurrent v /\
      mEnd v' = mEnd v /\
      size (mSegmentAllocator v') = size (mSegmentAllocator v).
Proof.
  induction L' as [|d L' IH]; intros A fuel v idx Hs Hfuel Hidx.
  - destruct fuel as [|fuel]; [simpl in Hfuel; lia|].
    rewrite lookup_ge_None_2 by (rewrite length_app; simpl; lia).
    exists v. simpl. auto 10.
  - destruct fuel as [|fuel]; [simpl in Hfuel; lia|].
    assert (Hj : (A ++ d :: L') !! length A = Some d)
      by (rewrite lookup_app_r, Nat.sub_diag by lia; reflexivity).
    pose proof (shape_linked _ _ Hs _ _ Hj) as Hm.
    destruct Hm as (s & Hseg & Hsb & Hsc & Hse & Hsn).
    pose proof (shape_desc_ok _ _ _ _ Hs Hj) as Hd.
    pose proof (desc_ok_range _ _ Hd) as Hr.
    pose proof (shape_cap_each _ _ _ _ Hs Hj) as Hc.
    rewrite Hj. simpl. rewrite Hseg. simpl.
    rewrite (length_of_matches v d _ s Hseg (shape_linked _ _ Hs _ _ Hj) Hd) by lia.
    simpl. destruct (idx <? d_cap d) eqn:E.
    + apply Z.ltb_lt in E.
      destruct (desc_ok_base _ _ Hd ltac:(lia)) as (b & Hb & _).
      pose proof (shape_set_used _ _ _ _ _ idx Hs Hj Hseg ltac:(lia)) as Hs1.
      rewrite insert_app_r_alt, Nat.sub_diag in Hs1 by lia. simpl in Hs1.
      unfold base_ptr in Hs1, Hsb. rewrite Hb in Hs1, Hsb.
      rewrite Hsb. simpl. eexists. split; [reflexivity|].
      split; [exact Hs1|].
      destruct (d_ref d) as [|n] eqn:Er; simpl; repeat split; auto.
      simpl in Hseg. rewrite map_size_insert.
      destruct (mSegmentAllocator v !! n); [reflexivity|discriminate].
    + apply Z.ltb_ge in E.
      pose proof (shape_set_used _ _ _ _ _ (d_cap d) Hs Hj Hseg ltac:(lia)) as Hs1.
      rewrite insert_app_r_alt, Nat.sub_diag in Hs1 by lia. simpl in Hs1.
      rewrite (cons_middle _ A L'), app_assoc in Hs1.
      destruct (IH (A ++ [with_used (d_cap d) d]) fuel _ (idx - d_cap d) Hs1
                  ltac:(simpl in Hfuel; lia) ltac:(lia))
        as (v' & Hrun & Hs' & Hm & Hcu & He & Hn).
      exists v'. rewrite Hse, Hsn.
      replace (d_ref <$> (A ++ d :: L') !! S (length A))
        with (d_ref <$> ((A ++ [with_used (d_cap d) d]) ++ L')
                          !! length (A ++ [with_used (d_cap d) d])).
      2:{ rewrite !lookup_app_r by (rewrite ?length_app; simpl; lia).
          rewrite length_app. simpl.
          replace (length A + 1 - (length A + 1))%nat with 0%nat by lia.
          replace (S (length A) - length A)%nat with 1%nat by lia.
          reflexivity. }
      split; [exact Hrun|].
      destruct (adjust_split L' (idx - d_cap d)) as [A1 R] eqn:Esplit.
      simpl in *.
      split; [rewrite (cons_middle _ A), app_assoc; exact Hs'|].
      rewrite Hm, Hcu, He, Hn.
      destruct (d_ref d) as [|n] eqn:Er; simpl; repeat split; auto.
      simpl in Hseg. rewrite map_size_insert.
      destruct (mSegmentAllocator v !! n); [reflexivity|discriminate].
Qed.

Lemma adjust_split_length L idx :
  (length (adjust_split L idx).1 + length (adjust_split L idx).2 = length L)%nat.
Proof.
  revert idx. induction L as [|d L IH]; intros idx; simpl; [reflexivity|].
  destruct (idx <? d_cap d); simpl; [reflexivity|].
  specialize (IH (idx - d_cap d)).
  destruct (adjust_split L (idx - d_cap d)) as [A R]. simpl in *. lia.
Qed.

Lemma Adjust_spec (v : vector) L idx :
  shape v L -> 0 <= idx ->
  exists v',
    Adjust_segments_and_get_last_address_for idx v
      = Ok (adjust_target L idx, v') /\
    shape v' (adjust L idx) /\
    mAllocator v' = mAllocator v /\ mEnd v' = mEnd v /\
    size (mSegmentAllocator v') = size (mSegmentAllocator v).
Proof.
  intros Hs Hidx. pose proof (shape_length _ _ Hs) as Hlen.
  pose proof (adjust_split_length L idx) as Hsplit.
  destruct (Adjust_walk_spec L [] (budget v) v idx Hs ltac:(lia) Hidx)
    as (v1 & Hwalk & Hs1 & Hm1 & Hc1 & He1 & Hn1).
  cbn [app length] in Hwalk, Hs1. rewrite (shape_head _ _ Hs) in Hwalk.
  unfold Adjust_segments_and_get_last_address_for, adjust.
  rewrite Hwalk. cbn [mbind outcome_bind].
  destruct (adjust_target L idx) as [r|] eqn:Et.
  - destruct (adjust_target_Some _ _ _ Et) as (A0 & dt & HA & Hr).
    set (A1 := (adjust_split L idx).1) in *.
    set (R := (adjust_split L idx).2) in *.
    assert (Hj : (A1 ++ R) !! length A0 = Some dt).
    { rewrite HA, <- app_assoc, lookup_app_r, Nat.sub_diag by lia. reflexivity. }
    destruct (shape_linked _ _ Hs1 _ _ Hj) as (s & Hseg & _ & _ & _ & Hsn).
    rewrite Hr in Hseg. rewrite Hseg. cbn [mbind outcome_bind].
    assert (HlenA : length A1 = S (length A0))
      by (rewrite HA, length_app; simpl; lia).
    rewrite <- HlenA in Hsn. rewrite Hsn.
    destruct (Adjust_reset_spec R A1 (budget v) v1 Hs1 ltac:(lia))
      as (v2 & Hreset & Hs2 & Hm2 & Hc2 & He2 & Hn2).
    rewrite Hreset. cbn [mbind outcome_bind]. exists v2. split; [reflexivity|].
    split; [exact Hs2|]. rewrite Hm2, He2, Hn2. auto.
  - exists v1. split; [reflexivity|].
    rewrite (adjust_target_None _ _ Et) in *. simpl.
    split; [exact Hs1|]. auto.
Qed.

Lemma cursor_ok_adjust (v : vector) L idx :
  shape v (adjust L idx) -> mCurrent v = adjust_target L idx ->
  cursor_ok v (adjust L idx).
Proof.
  intros Hs Hcur j d Hj Hd. rewrite Hcur in Hd. symmetry in Hd.
  destruct (adjust_target_Some _ _ _ Hd) as (A0 & dt & HA & Hr).
  unfold adjust in *. rewrite HA in *.
  assert (S j = length A0) as Hpos.
  { apply (NoDup_lookup _ (S j) (length A0) (d_ref d) (shape_refs _ _ Hs)).
    - rewrite list_lookup_fmap, Hj. reflexivity.
    - rewrite list_lookup_fmap, <- app_assoc, lookup_app_r, Nat.sub_diag by lia.
      simpl. congruence. }
  rewrite Hpos, <- app_assoc. simpl.
  rewrite drop_app_ge by lia.
  replace (S (length A0) - length A0)%nat with 1%nat by lia. simpl.
  apply Forall_fmap, Forall_forall. reflexivity.
Qed.

(** The capacity test of [grow_by] and the segment it may append. *)
Lemma grow_by_prepare (v : vector) L n :
  normal v L -> 0 <= n -> sum_cap L + n <= 2 ^ 62 ->
  exists v1 L1,
    (if sum_used L + n >? sum_cap L
     then seg_size ← Calculate_new_segment_size sizeof_Type (sum_used L + n) v;
          Append_new_segment seg_size v
     else Ok v) = Ok v1 /\
    shape v1 L1 /\ cursor_ok v1 L1 /\
    sum_used L1 = sum_used L /\ sum_used L + n <= sum_cap L1 /\
    (forall i, 0 <= i < sum_cap L -> locate L1 i = locate L i) /\
    cells (mAllocator v1) = cells (mAllocator v) /\
    (forall b k, blocks (mAllocator v) !! b = Some k ->
       blocks (mAllocator v1) !! b = Some k) /\
    (segment_nodes v1 <= S (segment_nodes v))%nat /\
    (storage_blocks v1 <= S (storage_blocks v))%nat /\
    (sum_used L + n <= sum_cap L -> sum_cap L1 = sum_cap L) /\
    (sum_cap L < sum_used L + n ->
     sum_cap L1 = sum_cap L +
       Z.max Min_segment_size
         (Z.max (sum_cap L + sum_cap L / 2) (sum_used L + n) - sum_cap L)).
Proof.
  intros H Hn Hbound.
  pose proof (normal_shape _ _ H) as Hs.
  pose proof (sum_used_bounds _ _ (shape_ok _ _ Hs)) as Hub.
  pose proof Min_segment_size_ge_8 as Hmin.
  assert (Hmin32 : Min_segment_size <= 32).
  { unfold Vector.Min_segment_size.
    destruct (Min_segment_size_eval_cases sizeof_Type) as [->|[->| ->]]; lia. }
  set (s := sum_used L) in *. set (c := sum_cap L) in *.
  destruct (s + n >? c) eqn:E.
  - apply Z.gtb_lt in E.
    set (seg := Z.max Min_segment_size (Z.max (c + c / 2) (s + n) - c)).
    assert (Hseg_size : Calculate_new_segment_size sizeof_Type (s + n) v = Ok seg).
    { apply Calculate_new_segment_size_spec;
        [apply (Get_capacity_spec _ _ Hs)|unfold size_limit; lia..]. }
    assert (Hsegb : 0 < seg /\ c + seg <= size_limit /\ s + n <= c + seg)
      by (subst seg; unfold size_limit; lia).
    rewrite Hseg_size. cbn [mbind outcome_bind].
    destruct (normal_last _ _ H) as (P & d & HL & Hcur & Hend & Hsz & Hcap & HP & Hd).
    destruct (d_base d) as [b|] eqn:Hb.
    + rewrite HL in Hs.
      destruct (Append_new_segment_node v P d seg Hs Hcur (ex_intro _ b Hb)
                  ltac:(lia) ltac:(rewrite <- HL; fold c; lia))
        as (v1 & Happ & Hs1 & Hcur1 & Hend1 & Hcells1 & Hblocks1 & Hnodes1).
      rewrite <- HL in Hs, Hs1.
      eexists v1, _. split; [exact Happ|]. split; [exact Hs1|].
      split.
      { intros j d' Hj Hd'. rewrite Hcur1, Hcur in Hd'.
        assert (S j = length P) as Hpos.
        { apply (NoDup_lookup _ (S j) (length P) (d_ref d) (shape_refs _ _ Hs1)).
          - rewrite list_lookup_fmap, Hj. simpl. congruence.
          - rewrite HL, list_lookup_fmap, <- app_assoc, lookup_app_r,
              Nat.sub_diag by lia. reflexivity. }
        rewrite Hpos, HL, <- app_assoc. simpl.
        rewrite drop_app_ge by lia.
        replace (S (length P) - length P)%nat with 1%nat by lia. simpl.
        constructor; [reflexivity|constructor]. }
      split; [rewrite sum_used_app; simpl; fold s; lia|].
      split; [rewrite sum_cap_app; simpl; fold c; lia|].
      split.
      { intros i Hi. apply (locate_app_l (mAllocator v)); auto using shape_ok. }
      split; [exact Hcells1|].
      split.
      { rewrite Hblocks1. intros b' k Hbk.
        rewrite lookup_insert_ne; [exact Hbk|].
        intros <-. pose proof (shape_fresh _ _ Hs _ _ Hbk). lia. }
      split; [unfold segment_nodes; lia|].
      split.
      { unfold storage_blocks. rewrite Hblocks1, map_size_insert.
        destruct (blocks (mAllocator v) !! next_block (mAllocator v));
          unfold id; lia. }
      split; [lia|]. intros _. rewrite sum_cap_app. simpl. fold c. subst seg. lia.
    + destruct (normal_singleton_head v P d ltac:(rewrite <- HL; exact H) Hb)
        as [-> Href].
      simpl in HL. rewrite HL in Hs.
      destruct (desc_ok_null _ _ Hd Hb) as [Hc0 Hu0].
      assert (Hcur' : mCurrent v = Some Head) by congruence.
      destruct (Append_new_segment_head v d seg Hs Hcur' Hb ltac:(lia))
        as (v1 & Happ & Hs1 & Hcur1 & Hend1 & Hcells1 & Hblocks1 & Hnodes1).
      assert (Hc00 : c = 0) by (subst c; rewrite HL; simpl; lia).
      assert (Hs00 : s = 0) by (subst s; rewrite HL; simpl; lia).
      eexists v1, _. split; [exact Happ|]. split; [exact Hs1|].
      split; [intros j d' Hj; destruct j; discriminate|].
      split; [simpl; lia|]. split; [simpl; lia|].
      split; [intros i Hi; lia|]. split; [exact Hcells1|].
      split.
      { rewrite Hblocks1. intros b' k Hbk.
        rewrite lookup_insert_ne; [exact Hbk|].
        intros <-. pose proof (shape_fresh _ _ Hs _ _ Hbk). lia. }
      split; [unfold segment_nodes; rewrite Hnodes1; lia|].
      split.
      { unfold storage_blocks. rewrite Hblocks1, map_size_insert.
        destruct (blocks (mAllocator v) !! next_block (mAllocator v));
          unfold id; lia. }
      split; [lia|]. intros _. simpl. subst seg. lia.
  - rewrite Z.gtb_ltb in E. apply Z.ltb_ge in E.
    exists v, L. split; [reflexivity|]. split; [exact Hs|].
    split; [apply normal_cursor_ok, H|].
    split; [reflexivity|]. split; [lia|]. split; [auto|].
    split; [reflexivity|]. split; [auto|].
    split; [lia|]. split; [lia|]. split; [reflexivity|lia].
Qed.

Lemma grow_by_spec (v : vector) L n x :
  normal v L -> 0 <= n -> sum_cap L + n <= 2 ^ 62 ->
  exists v' L',
    grow_by sizeof_Type n x v = Ok v' /\
    shape v' L' /\ cursor_ok v' L' /\
    sum_used L' = sum_used L + n /\
    (forall i, 0 <= i < sum_used L -> read i v' = read i v) /\
    (forall i, sum_used L <= i < sum_used L + n -> read i v' = Ok x) /\
    (segment_nodes v' <= S (segment_nodes v))%nat /\
    (storage_blocks v' <= S (storage_blocks v))%nat /\
    (sum_used L + n <= sum_cap L -> sum_cap L' = sum_cap L) /\
    (sum_cap L < sum_used L + n ->
     sum_cap L' = sum_cap L +
       Z.max Min_segment_size
         (Z.max (sum_cap L + sum_cap L / 2) (sum_used L + n) - sum_cap L)).
Proof.
  intros H Hn Hbound.
  pose proof (normal_shape _ _ H) as Hs.
  pose proof (sum_used_bounds _ _ (shape_ok _ _ Hs)) as Hub.
  destruct (grow_by_prepare v L n H Hn Hbound)
    as (v1 & L1 & Hprep & Hs1 & Hc1 & Hu1 & Hroom & Hloc1 & Hcells1 & Hblk1
        & Hnodes & Hblocks & Hsame & Hgrown).
  pose proof (shape_cap _ _ Hs1) as Hcap1.
  destruct (Fill_n_spec L1 x (Z.to_nat n) v1 (sum_used L) Hs1 ltac:(lia)
              ltac:(lia)) as (m2 & Hfill & Hb2 & Hn2 & Hcells2).
  pose proof (shape_mem _ _ m2 Hs1 Hb2 Hn2) as Hs2.
  destruct (Adjust_spec _ L1 (sum_used L + n) Hs2 ltac:(lia))
    as (v3 & Hadj & Hs3 & Hm3 & He3 & Hn3).
  set (L' := adjust L1 (sum_used L + n)) in *.
  set (v' := with_mCurrent (adjust_target L1 (sum_used L + n)) v3).
  pose proof (shape_with_mCurrent v3 L' (adjust_target L1 (sum_used L + n)) Hs3)
    as Hs'.
  fold v' in Hs'.
  assert (Hsum' : sum_used L' = sum_used L + n)
    by (apply (adjust_sum_used _ _ _ (shape_ok _ _ Hs1)); lia).
  assert (Hmem' : mAllocator v' = m2) by (subst v'; simpl; rewrite Hm3; reflexivity).
  assert (Hlocate : forall i, locate L' i = locate L1 i)
    by (intros i; apply locate_ext, adjust_bases).
  exists v', L'. split.
  { unfold grow_by. rewrite (normal_size _ _ H). cbn [mbind outcome_bind].
    rewrite wrap_small by (unfold size_limit; lia).
    unfold Check_size.
    destruct (sum_used L + n >? size_limit) eqn:E;
      [apply Z.gtb_lt in E; unfold size_limit in E; lia|].
    cbn [mbind outcome_bind].
    rewrite (Get_capacity_spec _ _ Hs). cbn [mbind outcome_bind].
    rewrite Hprep. cbn [mbind outcome_bind].
    rewrite (Get_size_spec _ _ Hs1 Hc1), Hu1. cbn [mbind outcome_bind].
    rewrite Hfill. cbn [mbind outcome_bind].
    rewrite Hadj. reflexivity. }
  split; [exact Hs'|].
  split; [apply cursor_ok_adjust; [exact Hs'|reflexivity]|].
  split; [exact Hsum'|].
  split.
  { intros i Hi.
    rewrite (read_spec _ _ _ Hs'), (read_spec _ _ _ Hs) by lia.
    rewrite Hlocate, Hmem', (Hloc1 i) by lia.
    destruct (locate_lt _ L i (shape_ok _ _ Hs) ltac:(lia)) as (a & Ha & Hin).
    rewrite Ha. simpl. rewrite !load_in_block; auto.
    - rewrite (Hcells2 i a) by (rewrite ?Hloc1; auto; lia).
      rewrite decide_False by lia. rewrite Hcells1. reflexivity.
    - unfold in_block in *. rewrite Hb2.
      destruct (blocks (mAllocator v) !! a.1) as [k|] eqn:Ek; [|discriminate].
      rewrite (Hblk1 _ _ Ek). exact Hin. }
  split.
  { intros i Hi.
    rewrite (read_spec _ _ _ Hs') by lia. rewrite Hlocate, Hmem'.
    destruct (locate_lt _ L1 i (shape_ok _ _ Hs1) ltac:(lia)) as (a & Ha & Hin).
    rewrite Ha. simpl. rewrite load_in_block.
    - rewrite (Hcells2 i a) by (auto; lia).
      rewrite decide_True by lia. reflexivity.
    - unfold in_block in *. rewrite Hb2. exact Hin. }
  split; [subst v'; unfold segment_nodes in *; simpl; rewrite Hn3; exact Hnodes|].
  split; [rewrite Hmem' || unfold storage_blocks in *; rewrite ?Hmem', ?Hb2; exact Hblocks|].
  assert (Hcap' : sum_cap L' = sum_cap L1) by apply sum_cap_ext, adjust_bases.
  rewrite Hcap'. auto.
Qed.

(** *** [grow_by] and [push_back] *)

(** X30.  On a normal vector far from the maximum size, [grow_by(n, x)] and
    [n] successive [push_back(x)] both run to their end and leave the same
    logical contents: the same [size()] (the old one plus [n]) and, at
    every index, the same element; [grow_by] obtains at most one segment
    node and at most one storage block. *)
Theorem grow_by_equivalence (v : vector) (L : list desc) (c n : Z) (x : Type_) :
  normal v L -> Get_capacity v = Ok c -> 0 <= n -> c + n <= 2 ^ 62 ->
  exists v1 v2 s,
    size_ v = Ok s /\
    grow_by sizeof_Type n x v = Ok v1 /\
    push_back_all sizeof_Type (replicate (Z.to_nat n) x) v = Ok v2 /\
    size_ v1 = Ok (s + n) /\ size_ v2 = Ok (s + n) /\
    (forall i, 0 <= i < s + n -> read i v1 = read i v2) /\
    (segment_nodes v1 <= S (segment_nodes v))%nat /\
    (storage_blocks v1 <= S (storage_blocks v))%nat.
Proof.
  intros H Hc Hn Hbound.
  pose proof (normal_shape _ _ H) as Hs.
  rewrite (Get_capacity_spec _ _ Hs) in Hc. injection Hc as <-.
  pose proof (sum_used_bounds _ _ (shape_ok _ _ Hs)) as Hub.
  pose proof Min_segment_size_ge_8 as Hmin.
  assert (Hmin32 : Min_segment_size <= 32).
  { unfold Vector.Min_segment_size.
    destruct (Min_segment_size_eval_cases sizeof_Type) as [->|[->| ->]]; lia. }
  destruct (grow_by_spec v L n x H Hn Hbound)
    as (v1 & L1 & Hgrow & Hs1 & Hc1 & Hu1 & Hold1 & Hnew1 & Hnodes & Hblocks & _).
  assert (Hlen : Z.of_nat (length (replicate (Z.to_nat n) x)) = n)
    by (rewrite length_replicate; lia).
  destruct (push_back_all_spec (replicate (Z.to_nat n) x) v L (2 ^ 63) H
              ltac:(lia) ltac:(rewrite Hlen; lia) ltac:(unfold size_limit; lia))
    as (v2 & L2 & Hrun & Hn2 & Hu2 & _ & Hold2 & Hnew2 & _).
  rewrite Hlen in Hu2.
  exists v1, v2, (sum_used L). unfold size_.
  split; [apply (normal_size _ _ H)|]. split; [exact Hgrow|].
  split; [exact Hrun|].
  split; [rewrite (Get_size_spec _ _ Hs1 Hc1); congruence|].
  split; [rewrite (normal_size _ _ Hn2); congruence|].
  split; [|auto].
  intros i Hi. destruct (decide (i < sum_used L)) as [Hlt|Hge].
  - destruct (Hold2 i ltac:(lia)) as (_ & -> & _). apply Hold1. lia.
  - rewrite Hnew1 by lia.
    replace i with (sum_used L + Z.of_nat (Z.to_nat (i - sum_used L))) at 1 by lia.
    symmetry. apply Hnew2. apply lookup_replicate_2. lia.
Qed.

(** *** C6 *)

(** C6, the growth policy.  While one and a half times the current
    capacity [c] is representable, the length computed for a new segment
    is [max(Min_segment_size, max(c + c/2, requested) - c)] with the
    minimum 8, 16 or 32 by element size; [emplace_back] on a full normal
    vector requests [size() + 1] and [grow_by] beyond the capacity
    requests the new size, and the capacity grows by exactly that
    length. *)
Theorem growth_policy (v : vector) (c requested : Z) :
  Get_capacity v = Ok c -> c + c / 2 <= size_limit ->
  0 <= requested <= size_limit ->
  Calculate_new_segment_size sizeof_Type requested v
    = Ok (Z.max Min_segment_size (Z.max (c + c / 2) requested - c)) /\
  Min_segment_size = (if 32 <=? sizeof_Type then 8
                      else if 16 <=? sizeof_Type then 16 else 32) /\
  (forall L x,
     normal v L -> size_ v = Ok c -> c + c / 2 + Min_segment_size <= size_limit ->
     exists a v',
       emplace_back sizeof_Type x v = Ok (a, v') /\
       Get_capacity v' =
         Ok (c + Z.max Min_segment_size (Z.max (c + c / 2) (c + 1) - c))) /\
  (forall L s n x,
     normal v L -> size_ v = Ok s -> 0 <= n -> c + n <= 2 ^ 62 -> c < s + n ->
     exists v',
       grow_by sizeof_Type n x v = Ok v' /\
       Get_capacity v' =
         Ok (c + Z.max Min_segment_size (Z.max (c + c / 2) (s + n) - c))).
Proof.
  intros Hc Hno Hreq.
  split; [apply Calculate_new_segment_size_spec; assumption|].
  split; [reflexivity|]. split.
  - intros L x H Hsize Hbound. pose proof (normal_shape _ _ H) as Hs.
    rewrite (Get_capacity_spec _ _ Hs) in Hc. injection Hc as <-.
    unfold size_ in Hsize. rewrite (normal_size _ _ H) in Hsize.
    injection Hsize as Hfull.
    destruct (emplace_back_step v L x H Hbound) as (a & v' & L' & He & Hp).
    exists a, v'. split; [exact He|].
    rewrite (Get_capacity_spec _ _
               (normal_shape _ _ (step_normal _ _ _ _ _ _ Hp))).
    destruct (step_growth _ _ _ _ _ _ Hp) as [[Hlt _]|[_ ->]]; [lia|].
    rewrite Hfull. reflexivity.
  - intros L s n x H Hsize Hn Hbound Hgrow. pose proof (normal_shape _ _ H) as Hs.
    rewrite (Get_capacity_spec _ _ Hs) in Hc. injection Hc as <-.
    unfold size_ in Hsize. rewrite (normal_size _ _ H) in Hsize.
    injection Hsize as <-.
    destruct (grow_by_spec v L n x H Hn Hbound)
      as (v' & L' & Hg & Hs' & _ & _ & _ & _ & _ & _ & _ & Hcap).
    exists v'. split; [exact Hg|].
    rewrite (Get_capacity_spec _ _ Hs'), (Hcap Hgrow). reflexivity.
Qed.

End facts.

(** *** A concrete vector

    [push_back(21); push_back(22)] on a new vector of 8-byte elements: one
    block of 32 cells, two of them in use. *)
Definition two_elements : @concurrent_vector Z :=
  {| mSegment :=
       {| Data_Segment.mBegin := Some (0%nat, 0);
          Data_Segment.mCurrent := Some (0%nat, 2);
          Data_Segment.mEnd := Some (0%nat, 32);
          Data_Segment.mSegBefore := None;
          Data_Segment.mSegAfter := None |};
     mCurrent := Some Head;
     mEnd := Some Head;
     mAllocator :=
       {| cells := {[ (0%nat, 0) := 21; (0%nat, 1) := 22 ]};
          blocks := {[ 0%nat := 32 ]};
          next_block := 1 |};
     mSegmentAllocator := ∅;
     next_segment := 0 |}.

Definition two_elements_chain : list desc :=
  [ {| d_ref := Head; d_base := Some 0%nat; d_cap := 32; d_used := 2 |} ].

Example two_elements_reached :
  push_back_all 8 [21; 22] create = Ok two_elements.
Proof. vm_compute. reflexivity. Qed.

Lemma normal_two_elements : normal two_elements two_elements_chain.
Proof.
  constructor; [constructor| | |]; simpl; try reflexivity.
  - intros [|j] d; simpl; [|discriminate]. intros [= <-].
    eexists. split; [reflexivity|]. repeat split.
  - apply NoDup_singleton.
  - apply NoDup_singleton.
  - constructor; [|constructor]. split; simpl; [lia|].
    split; [reflexivity|lia].
  - intros j d. discriminate.
  - unfold size_limit. lia.
  - intros n s. rewrite lookup_empty. discriminate.
  - intros b n. destruct (decide (b = 0%nat)) as [->|Hne]; [lia|].
    rewrite lookup_singleton_ne by congruence. discriminate.
  - intros j d _ Hlen. simpl in Hlen. lia.
Qed.

(** The test scenario of the repository: after two [push_back]s,
    [grow_by(5, 23)] gives [{21, 22, 23, 23, 23, 23, 23}] and the first
    element is still 21 at the same address. *)
Example shrink_push_grow_scenario :
  exists v,
    grow_by 8 5 23 two_elements = Ok v /\
    size_ v = Ok 7 /\
    (fun i => read i v) <$> [0; 1; 2; 3; 4; 5; 6]
      = Ok <$> [21; 22; 23; 23; 23; 23; 23] /\
    Get_value_at 0 v = Get_value_at 0 two_elements.
Proof. eexists. split; [vm_compute; reflexivity|]. vm_compute. auto. Qed.

Lemma reference_stability_witness :
  normal two_elements two_elements_chain /\
  Get_capacity two_elements = Ok 32 /\
  32 + Z.of_nat (length [23; 24; 25]) <= 2 ^ 62 /\
  exists v',
    push_back_all 8 [23; 24; 25] two_elements = Ok v' /\
    (forall b n, blocks (mAllocator two_elements) !! b = Some n ->
       blocks (mAllocator v') !! b = Some n) /\
    forall n i, size_ two_elements = Ok n -> 0 <= i < n ->
      exists a,
        subscript i two_elements = Ok (a, two_elements) /\
        subscript i v' = Ok (a, v') /\
        load (Some a) (mAllocator v') = load (Some a) (mAllocator two_elements).
Proof.
  split; [exact normal_two_elements|].
  split; [reflexivity|].
  split; [simpl; lia|].
  apply (reference_stability 8 two_elements two_elements_chain [23; 24; 25] 32).
  - exact normal_two_elements.
  - reflexivity.
  - simpl; lia.
Defined.

Lemma grow_by_equivalence_witness :
  normal two_elements two_elements_chain /\
  Get_capacity two_elements = Ok 32 /\ 0 <= 5 /\ 32 + 5 <= 2 ^ 62 /\
  exists v1 v2 s,
    size_ two_elements = Ok s /\
    grow_by 8 5 23 two_elements = Ok v1 /\
    push_back_all 8 (replicate (Z.to_nat 5) 23) two_elements = Ok v2 /\
    size_ v1 = Ok (s + 5) /\ size_ v2 = Ok (s + 5) /\
    (forall i, 0 <= i < s + 5 -> read i v1 = read i v2) /\
    (segment_nodes v1 <= S (segment_nodes two_elements))%nat /\
    (storage_blocks v1 <= S (storage_blocks two_elements))%nat.
Proof.
  split; [exact normal_two_elements|].
  split; [reflexivity|]. split; [lia|]. split; [lia|].
  apply (grow_by_equivalence 8 two_elements two_elements_chain 32 5 23).
  - exact normal_two_elements.
  - reflexivity.
  - lia.
  - lia.
Defined.

Lemma growth_policy_witness :
  Get_capacity two_elements = Ok 32 /\ 32 + 32 / 2 <= size_limit /\
  0 <= 33 <= size_limit /\
  Calculate_new_segment_size 8 33 two_elements
    = Ok (Z.max (Min_segment_size 8) (Z.max (32 + 32 / 2) 33 - 32)) /\
  Min_segment_size 8 = (if 32 <=? 8 then 8 else if 16 <=? 8 then 16 else 32) /\
  (forall L x,
     normal two_elements L -> size_ two_elements = Ok 32 ->
     32 + 32 / 2 + Min_segment_size 8 <= size_limit ->
     exists a v',
       emplace_back 8 x two_elements = Ok (a, v') /\
       Get_capacity v' =
         Ok (32 + Z.max (Min_segment_size 8) (Z.max (32 + 32 / 2) (32 + 1) - 32))) /\
  (forall L s n x,
     normal two_elements L -> size_ two_elements = Ok s -> 0 <= n ->
     32 + n <= 2 ^ 62 -> 32 < s + n ->
     exists v',
       grow_by 8 n x two_elements = Ok v' /\
       Get_capacity v' =
         Ok (32 + Z.max (Min_segment_size 8) (Z.max (32 + 32 / 2) (s + n) - 32))).
Proof.
  split; [reflexivity|]. split; [unfold size_limit; lia|].
  split; [unfold size_limit; lia|].
  apply (growth_policy 8 two_elements 32 33).
  - reflexivity.
  - unfold size_limit; lia.
  - unfold size_limit; lia.
Defined.

Lemma at_out_of_range_iff_witness :
  normal two_elements two_elements_chain /\ 0 <= 1 /\
  exists n,
    size_ two_elements = Ok n /\
    (at_ 1 two_elements = Throw out_of_range <-> n <= 1) /\
    (1 < n ->
     exists a, at_ 1 two_elements = Ok (a, two_elements) /\
               element_slot two_elements_chain 1 = Some a /\
               subscript 1 two_elements = Ok (a, two_elements)).
Proof.
  split; [exact normal_two_elements|]. split; [lia|].
  apply (at_out_of_range_iff two_elements two_elements_chain 1).
  - exact normal_two_elements.
  - lia.
Defined.

Lemma subscript_unchecked_witness :
  shape two_elements two_elements_chain /\
  Get_capacity two_elements = Ok 32 /\ 0 <= 5 /\
  (5 < 32 ->
   exists a, subscript 5 two_elements = Ok (a, two_elements) /\
             locate two_elements_chain 5 = Ok a /\
             in_block (mAllocator two_elements) a = true) /\
  (32 <= 5 -> subscript 5 two_elements = Undefined).
Proof.
  split; [exact (normal_shape _ _ normal_two_elements)|].
  split; [reflexivity|]. split; [lia|].
  apply (subscript_unchecked two_elements two_elements_chain 32 5).
  - exact (normal_shape _ _ normal_two_elements).
  - reflexivity.
  - lia.
Defined.

(** *** States in which an append walks off the chain

    Elements of 8 bytes: the first block obtained by an append has 32
    cells. *)

(** C1 (the code departs from the claim): an append on a vector that is
    exactly full and whose [mCurrent] no longer designates its last
    segment takes the branch without reallocation and runs off the chain,
    so the sequence of appends has no outcome and the elements have no
    state afterwards.  After [grow_by(100, x)] on a new vector the hundred
    elements are there and [mCurrent] is null: the first [push_back] is
    undefined.  After [reserve(10)] on [{a, b, c}], [mCurrent] stays on
    the first segment while [mEnd] is the reserved one: ten [push_back]
    calls fill the reserved cells and the eleventh is undefined. *)
Theorem push_back_undefined_on_full_vector {Type_ : Type}
    (a b c x y : Type_) :
  (exists (v : @concurrent_vector Type_) (p : address),
     grow_by 8 100 x create = Ok v /\
     size_ v = Ok 100 /\ Get_capacity v = Ok 100 /\
     range_for v = Ok (replicate 100 x) /\
     subscript 0 v = Ok (p, v) /\ load (Some p) (mAllocator v) = Ok x /\
     mCurrent v = None /\
     push_back 8 y v = Undefined) /\
  (exists (v0 v1 v2 : @concurrent_vector Type_) (p : address),
     create_from [a; b; c] = Ok v0 /\
     reserve 10 v0 = Ok v1 /\
     size_ v1 = Ok 3 /\ Get_capacity v1 = Ok 13 /\
     subscript 0 v1 = Ok (p, v1) /\ load (Some p) (mAllocator v1) = Ok a /\
     mCurrent v1 = Some Head /\ mEnd v1 = Some (Node 0) /\
     push_back_all 8 (replicate 10 y) v1 = Ok v2 /\
     size_ v2 = Ok 13 /\ Get_capacity v2 = Ok 13 /\
     range_for v2 = Ok ([a; b; c] ++ replicate 10 y) /\
     mCurrent v2 = Some Head /\
     push_back 8 y v2 = Undefined /\
     push_back_all 8 (replicate 11 y) v1 = Undefined).
Proof.
  split.
  - eexists _, _. split; [vm_compute; reflexivity|].
    repeat (split; [vm_compute; reflexivity|]). vm_compute. reflexivity.
  - eexists _, _, _, _. split; [vm_compute; reflexivity|].
    split; [vm_compute; reflexivity|].
    repeat (split; [vm_compute; reflexivity|]). vm_compute. reflexivity.
Qed.

(** C7 (the code departs from the claim): after [reserve(10)] on
    [{a, b, c}] the vector has 10 spare cells.  [grow_by(11, x)] returns:
    it links a new segment of 32 cells behind the first one, in place of
    the reserved one, and the vector holds [a, b, c] and eleven [x].
    Eleven [push_back(x)] calls on the same state do not: ten of them fill
    the reserved cells and the eleventh runs off the chain. *)
Theorem grow_by_returns_where_push_back_fails {Type_ : Type}
    (a b c x : Type_) :
  exists (v0 v1 v2 v3 : @concurrent_vector Type_),
    create_from [a; b; c] = Ok v0 /\
    reserve 10 v0 = Ok v1 /\
    size_ v1 = Ok 3 /\ Get_capacity v1 = Ok 13 /\
    grow_by 8 11 x v1 = Ok v2 /\
    size_ v2 = Ok 14 /\ Get_capacity v2 = Ok 35 /\
    range_for v2 = Ok ([a; b; c] ++ replicate 11 x) /\
    segment_nodes v2 = S (segment_nodes v1) /\
    storage_blocks v2 = S (storage_blocks v1) /\
    push_back_all 8 (replicate 10 x) v1 = Ok v3 /\
    range_for v3 = Ok ([a; b; c] ++ replicate 10 x) /\
    push_back 8 x v3 = Undefined /\
    push_back_all 8 (replicate 11 x) v1 = Undefined.
Proof.
  eexists _, _, _, _. split; [vm_compute; reflexivity|].
  split; [vm_compute; reflexivity|].
  split; [vm_compute; reflexivity|]. split; [vm_compute; reflexivity|].
  split; [vm_compute; reflexivity|].
  repeat (split; [vm_compute; reflexivity|]). vm_compute. reflexivity.
Qed.

(** C8 (the code departs from the claim): [{a, b, c}], [reserve(10)],
    [push_back(d)], [push_back(e)]: [at(3)] is the element holding [d], in
    the reserved segment.  A second [reserve(20)] links its segment behind
    the first one, in place of the reserved one.  [size()] still is 5, and
    [at(3)] and [at(4)] return, with the state unchanged, but what they
    return are cells of the new block, in which nothing was ever
    constructed; the elements holding [d] and [e] are where they were, out
    of reach. *)
Theorem at_after_second_reserve {Type_ : Type} (a b c d e : Type_) :
  exists (v0 v1 v2 v3 v4 : @concurrent_vector Type_) (p3 p4 r3 r4 : address),
    create_from [a; b; c] = Ok v0 /\
    reserve 10 v0 = Ok v1 /\
    push_back 8 d v1 = Ok v2 /\ push_back 8 e v2 = Ok v3 /\
    size_ v3 = Ok 5 /\
    at_ 3 v3 = Ok (p3, v3) /\ load (Some p3) (mAllocator v3) = Ok d /\
    at_ 4 v3 = Ok (p4, v3) /\ load (Some p4) (mAllocator v3) = Ok e /\
    reserve 20 v3 = Ok v4 /\
    size_ v4 = Ok 5 /\
    at_ 5 v4 = Throw out_of_range /\
    at_ 3 v4 = Ok (r3, v4) /\ at_ 4 v4 = Ok (r4, v4) /\
    r3 <> p3 /\ r4 <> p4 /\
    cells (mAllocator v4) !! r3 = None /\
    cells (mAllocator v4) !! r4 = None /\
    load (Some r3) (mAllocator v4) = Undefined /\
    load (Some r4) (mAllocator v4) = Undefined /\
    load (Some p3) (mAllocator v4) = Ok d /\
    load (Some p4) (mAllocator v4) = Ok e.
Proof.
  eexists _, _, _, _, _, _, _, _, _. split; [vm_compute; reflexivity|].
  split; [vm_compute; reflexivity|]. split; [vm_compute; reflexivity|].
  split; [vm_compute; reflexivity|]. split; [vm_compute; reflexivity|].
  split; [vm_compute; reflexivity|]. split; [vm_compute; reflexivity|].
  split; [vm_compute; reflexivity|]. split; [vm_compute; reflexivity|].
  split; [vm_compute; reflexivity|]. split; [vm_compute; reflexivity|].
  split; [vm_compute; reflexivity|].
  split; [vm_compute; reflexivity|]. split; [vm_compute; reflexivity|].
  split; [discriminate|]. split; [discriminate|].
  repeat (split; [vm_compute; reflexivity|]). vm_compute. reflexivity.
Qed.

End VectorFacts.

(** ** More properties of the segmented vector *)

Module VectorMore.
Import Vector VectorFacts.

#[local] Arguments construct : simpl never.
#[local] Arguments destroy : simpl never.
#[local] Arguments budget : simpl never.
#[local] Arguments load : simpl never.

Section more.
Context {Type_ : Type}.
Context (sizeof_Type : Z).

Local Abbreviation vector := (@concurrent_vector Type_).
Local Abbreviation Min_segment_size := (Min_segment_size sizeof_Type).

(** *** Appending to a new vector and reading back *)

(** X5.  [push_back] of the values [xs], in order, on a new vector: the
    calls all return, [size()] is the number of values, and [at(k)] and
    [operator[](k)] designate an element that holds the [k]-th value. *)
Theorem push_back_read_back (xs : list Type_) :
  Z.of_nat (length xs) <= 2 ^ 62 ->
  exists v : vector,
    push_back_all sizeof_Type xs create = Ok v /\
    size_ v = Ok (Z.of_nat (length xs)) /\
    forall (k : nat) x, xs !! k = Some x ->
      read (Z.of_nat k) v = Ok x /\
      exists a, at_ (Z.of_nat k) v = Ok (a, v) /\
                subscript (Z.of_nat k) v = Ok (a, v) /\
                load (Some a) (mAllocator v) = Ok x.
Proof.
  intros Hlen.
  pose proof (Min_segment_size_ge_8 sizeof_Type) as Hmin.
  assert (Hmin32 : Min_segment_size <= 32).
  { unfold Vector.Min_segment_size.
    destruct (Min_segment_size_eval_cases sizeof_Type) as [->|[->| ->]]; lia. }
  destruct (push_back_all_spec sizeof_Type xs create [no_storage] (2 ^ 63)
              normal_create)
    as (v & L & Hrun & Hn & Hu & _ & _ & Hnew & _);
    [simpl; lia|simpl; lia|unfold size_limit; lia|].
  simpl in Hu.
  exists v. split; [exact Hrun|].
  assert (Hsize : Get_size v = Ok (Z.of_nat (length xs))).
  { rewrite (normal_size _ _ Hn). f_equal. lia. }
  split; [exact Hsize|].
  intros k x Hk. specialize (Hnew k x Hk).
  replace (sum_used [no_storage] + Z.of_nat k) with (Z.of_nat k) in Hnew
    by (simpl; lia).
  split; [exact Hnew|].
  unfold read in Hnew. apply bind_Ok in Hnew as (a & Ha & Hload).
  exists a. unfold at_, subscript. rewrite Hsize, Ha. simpl.
  apply lookup_lt_Some in Hk.
  rewrite (proj2 (Z.leb_gt _ _)) by lia. auto.
Qed.

(** *** [reserve] *)

(** X6.  [reserve(new_cap)] on a normal vector of capacity [c]: nothing
    happens when [new_cap <= c]; otherwise one segment of [new_cap] cells
    is appended, so that the capacity becomes [c + new_cap] (not
    [new_cap]); the size, the addresses of the cells and the elements stay
    as they are. *)
Theorem reserve_appends_segment (v : vector) (L : list desc) (c new_cap : Z) :
  normal v L -> Get_capacity v = Ok c ->
  (new_cap <= c -> reserve new_cap v = Ok v) /\
  (c < new_cap -> c + new_cap <= size_limit ->
   exists v',
     reserve new_cap v = Ok v' /\
     Get_capacity v' = Ok (c + new_cap) /\
     size_ v' = size_ v /\
     (forall i, 0 <= i < c -> Get_value_at i v' = Get_value_at i v) /\
     cells (mAllocator v') = cells (mAllocator v) /\
     blocks (mAllocator v')
     = <[next_block (mAllocator v) := new_cap]> (blocks (mAllocator v))).
Proof.
  intros H Hc. pose proof (normal_shape _ _ H) as Hs.
  pose proof (Get_capacity_spec _ _ Hs) as Hcap.
  rewrite Hc in Hcap. injection Hcap as ->.
  unfold reserve. rewrite Hc. cbn [mbind outcome_bind]. split.
  - intros Hle.
    destruct (new_cap >? sum_cap L) eqn:E; [|reflexivity].
    rewrite Z.gtb_ltb in E. apply Z.ltb_lt in E. lia.
  - intros Hlt Hbound.
    assert (E : (new_cap >? sum_cap L) = true)
      by (rewrite Z.gtb_ltb; apply Z.ltb_lt; exact Hlt).
    rewrite E.
    destruct (normal_last _ _ H) as (P & d & -> & Hcur & Hend & Hsz & Hcp & HP & Hd).
    pose proof (sum_cap_nonneg _ _ (shape_ok _ _ Hs)) as Hnn.
    unfold size_. rewrite (normal_size _ _ H).
    destruct (d_base d) as [b|] eqn:Hb.
    + destruct (Append_new_segment_node v P d new_cap Hs Hcur
                  (ex_intro _ b Hb) ltac:(lia) Hbound)
        as (v1 & Happ & Hs1 & Hcur1 & Hend1 & Hcells1 & Hblocks1 & _).
      set (new := {| d_ref := Node (next_segment v);
                     d_base := Some (next_block (mAllocator v));
                     d_cap := new_cap; d_used := 0 |}) in *.
      exists v1. split; [exact Happ|].
      split; [rewrite (Get_capacity_spec _ _ Hs1), sum_cap_app; simpl;
              f_equal; lia|].
      split.
      { rewrite (Get_size_spec _ _ Hs1).
        - rewrite sum_used_app. simpl. f_equal. lia.
        - intros j d' Hj Hd'. rewrite Hcur1, Hcur in Hd'.
          assert (S j = length P) as Hpos.
          { apply (NoDup_lookup _ (S j) (length P) (d_ref d')
                     (shape_refs _ _ Hs1)).
            - rewrite list_lookup_fmap, Hj. reflexivity.
            - rewrite list_lookup_fmap, <- app_assoc, lookup_app_r,
                Nat.sub_diag by lia.
              simpl. congruence. }
          rewrite Hpos, <- app_assoc, drop_app_ge by lia.
          replace (S (length P) - length P)%nat with 1%nat by lia. simpl.
          constructor; [reflexivity|constructor]. }
      split; [|split; assumption].
      intros i Hi.
      rewrite (Get_value_at_spec _ _ _ Hs1), (Get_value_at_spec _ _ _ Hs) by lia.
      apply (locate_app_l (mAllocator v)); [apply (shape_ok _ _ Hs)|lia].
    + destruct (normal_singleton_head v P d H Hb) as [-> Href].
      destruct (desc_ok_null _ _ Hd Hb) as [Hc0 Hu0].
      rewrite Href in Hcur. simpl in Hbound, Hlt.
      destruct (Append_new_segment_head v d new_cap Hs Hcur Hb ltac:(lia))
        as (v1 & Happ & Hs1 & Hcur1 & Hend1 & Hcells1 & Hblocks1 & _).
      exists v1. split; [exact Happ|].
      split; [rewrite (Get_capacity_spec _ _ Hs1); simpl; f_equal; lia|].
      split.
      { rewrite (Get_size_spec _ _ Hs1).
        - simpl. f_equal. lia.
        - intros j d' Hj. destruct j; discriminate. }
      split; [|split; assumption].
      intros i Hi. simpl in Hi. lia.
Qed.

(** *** [clear] *)

Lemma destroy_ok (m : memory Type_) a :
  in_block m a = true ->
  destroy (Some a) m =
  Ok {| cells := delete a (cells m); blocks := blocks m;
        next_block := next_block m |}.
Proof. intros H. unfold destroy. rewrite H. reflexivity. Qed.

Lemma Destruct_loop_spec (L : list desc) (n : nat) :
  forall (v : vector) t,
    shape v L -> 0 <= t -> t + Z.of_nat n <= sum_cap L ->
    exists m2,
      Destruct_loop n t v = Ok (with_mAllocator m2 v) /\
      blocks m2 = blocks (mAllocator v) /\
      next_block m2 = next_block (mAllocator v) /\
      forall i a, 0 <= i -> locate L i = Ok a ->
        cells m2 !! a =
          if decide (t <= i < t + Z.of_nat n) then None
          else cells (mAllocator v) !! a.
Proof.
  induction n as [|n IH]; intros v t Hs Ht Hsum.
  - exists (mAllocator v). simpl.
    split; [destruct v; reflexivity|]. split; [reflexivity|].
    split; [reflexivity|].
    intros i a _ _. rewrite decide_False by lia. reflexivity.
  - pose proof (shape_cap _ _ Hs) as Hcap.
    destruct (locate_lt _ L t (shape_ok _ _ Hs) ltac:(lia)) as (a0 & Ha0 & Hin).
    simpl. rewrite (Get_value_at_spec _ _ _ Hs Ht), Ha0. simpl.
    rewrite destroy_ok by exact Hin. simpl.
    set (m1 := {| cells := delete a0 (cells (mAllocator v));
                  blocks := blocks (mAllocator v);
                  next_block := next_block (mAllocator v) |}).
    assert (Hs1 : shape (with_mAllocator m1 v) L) by (apply shape_mem; auto).
    rewrite wrap_small by lia.
    destruct (IH (with_mAllocator m1 v) (t + 1) Hs1 ltac:(lia) ltac:(lia))
      as (m2 & Hrun & Hb & Hn & Hcells).
    exists m2. split; [exact Hrun|]. split; [exact Hb|]. split; [exact Hn|].
    intros i a Hi Ha. rewrite (Hcells i a Hi Ha). simpl.
    destruct (decide (t + 1 <= i < t + 1 + Z.of_nat n)) as [Hr|Hr].
    + rewrite decide_True by lia. reflexivity.
    + destruct (decide (i = t)) as [->|Hne].
      * rewrite decide_True by lia.
        rewrite Ha0 in Ha. injection Ha as <-. apply lookup_delete_eq.
      * rewrite decide_False by lia.
        apply lookup_delete_ne. intros <-.
        apply Hne. symmetry.
        apply (locate_inj _ L t i a0 (shape_ok _ _ Hs) (shape_blocks _ _ Hs));
          auto.
Qed.

(** X7.  [clear()] on a normal vector: it returns, [size()] is 0
    afterwards and every element has been destroyed, while the capacity,
    the blocks and the segment nodes stay as they are (nothing is
    released); when the vector has storage, [mCurrent] designates the
    member segment again. *)
Theorem clear_keeps_storage (v : vector) (L : list desc) :
  normal v L ->
  exists v',
    clear v = Ok v' /\
    size_ v' = Ok 0 /\
    Get_capacity v' = Get_capacity v /\
    blocks (mAllocator v') = blocks (mAllocator v) /\
    segment_nodes v' = segment_nodes v /\
    (forall n i a, size_ v = Ok n -> 0 <= i < n ->
       Get_value_at i v = Ok a -> cells (mAllocator v') !! a = None) /\
    (Data_Segment.mBegin (mSegment v) <> None -> mCurrent v' = Some Head).
Proof.
  intros H. pose proof (normal_shape _ _ H) as Hs.
  pose proof (sum_used_bounds _ _ (shape_ok _ _ Hs)) as Hub.
  pose proof (shape_cap _ _ Hs) as Hcap.
  pose proof (sum_cap_nonneg _ _ (shape_ok _ _ Hs)) as Hnn.
  destruct (Destruct_loop_spec L (Z.to_nat (sum_used L)) v 0 Hs ltac:(lia)
              ltac:(lia)) as (m2 & Hdes & Hb2 & Hn2 & Hcells2).
  pose proof (shape_mem _ _ m2 Hs Hb2 Hn2) as Hs2.
  destruct (Adjust_spec _ L 0 Hs2 ltac:(lia))
    as (v3 & Hadj & Hs3 & Hm3 & He3 & Hn3).
  set (v' := with_mCurrent (adjust_target L 0) v3).
  assert (Hs' : shape v' (adjust L 0)) by (apply shape_with_mCurrent, Hs3).
  assert (Hc' : cursor_ok v' (adjust L 0))
    by (apply cursor_ok_adjust; [exact Hs'|reflexivity]).
  exists v'. split.
  { unfold clear. rewrite (normal_size _ _ H). cbn [mbind outcome_bind].
    unfold Destruct. rewrite Z.sub_0_r, wrap_small by lia.
    rewrite Hdes. cbn [mbind outcome_bind]. rewrite Hadj. reflexivity. }
  split.
  { unfold size_. rewrite (Get_size_spec _ _ Hs' Hc').
    rewrite (adjust_sum_used (mAllocator v)); [reflexivity|apply Hs|lia]. }
  split.
  { rewrite (Get_capacity_spec _ _ Hs'), (Get_capacity_spec _ _ Hs).
    f_equal. apply sum_cap_ext, adjust_bases. }
  split; [simpl; rewrite Hm3; exact Hb2|].
  split; [unfold segment_nodes; simpl; rewrite Hn3; reflexivity|].
  split.
  - intros n i a Hn Hi Ha. unfold size_ in Hn.
    rewrite (normal_size _ _ H) in Hn. injection Hn as <-.
    rewrite (Get_value_at_spec _ _ _ Hs) in Ha by lia.
    simpl. rewrite Hm3. simpl. rewrite (Hcells2 i a ltac:(lia) Ha).
    rewrite decide_True by lia. reflexivity.
  - intros Hbegin. simpl.
    pose proof (shape_head _ _ Hs) as Hh.
    destruct L as [|d0 L0]; [discriminate|]. simpl in Hh. injection Hh as Hh.
    destruct (shape_linked _ _ Hs 0%nat d0 eq_refl) as (s & Hseg & Hsb & _).
    rewrite Hh in Hseg. simpl in Hseg. injection Hseg as <-.
    pose proof (shape_desc_ok _ _ _ _ Hs (eq_refl : (d0 :: L0) !! 0%nat = Some d0))
      as [_ Hd0].
    unfold base_ptr in Hsb. destruct (d_base d0) as [b|]; [|congruence].
    simpl. rewrite (proj2 (Z.ltb_lt 0 (d_cap d0))) by lia. congruence.
Qed.

(** X8.  [clear()] on a vector that never had storage: the walk for
    index 0 runs off the chain, so [mCurrent] becomes [nullptr]; the next
    [push_back] then takes the branch without reallocation and
    dereferences the null [mSegAfter] of the member segment. *)
Theorem clear_new_vector_then_push_back (x : Type_) :
  exists v' : vector,
    clear create = Ok v' /\
    mCurrent v' = None /\ size_ v' = Ok 0 /\ Get_capacity v' = Ok 0 /\
    push_back sizeof_Type x v' = Undefined.
Proof.
  eexists. split; [vm_compute; reflexivity|].
  split; [reflexivity|]. split; [vm_compute; reflexivity|].
  split; [vm_compute; reflexivity|]. vm_compute. reflexivity.
Qed.

(** *** [grow_by] up to the capacity *)

Lemma adjust_target_ge (m : memory Type_) L idx :
  Forall (desc_ok m) L -> sum_cap L <= idx -> adjust_target L idx = None.
Proof.
  intros H. revert idx. induction H as [|d L [Hd _] HL IH]; intros idx Hi;
    simpl in *; [reflexivity|].
  pose proof (sum_cap_nonneg m L HL).
  destruct (idx <? d_cap d) eqn:E; [apply Z.ltb_lt in E; lia|].
  apply IH. lia.
Qed.

(** [push_back] on a full vector whose [mCurrent] is null: the branch
    without reallocation is taken and walks off the chain. *)
Lemma push_back_null_current (v : vector) L y :
  shape v L -> cursor_ok v L -> mCurrent v = None ->
  sum_used L = sum_cap L ->
  push_back sizeof_Type y v = Undefined.
Proof.
  intros Hs Hc Hcur Hfull.
  pose proof (sum_used_bounds _ _ (shape_ok _ _ Hs)) as Hub.
  assert (Hcap : Get_value_at (sum_used L) v = Undefined).
  { rewrite (Get_value_at_spec _ _ _ Hs) by lia.
    apply (locate_ge (mAllocator v)); [apply Hs|lia]. }
  unfold push_back, emplace_back. rewrite Hcur.
  destruct (decide (None <> mEnd v)) as [Hne|Heq].
  - cbn [mbind outcome_bind].
    rewrite (Get_size_spec _ _ Hs Hc). cbn [mbind outcome_bind].
    unfold Emplace_at_without_reallocation.
    rewrite (Get_size_spec _ _ Hs Hc). cbn [mbind outcome_bind].
    rewrite decide_True by reflexivity.
    rewrite Hcap. reflexivity.
  - reflexivity.
Qed.

(** X9.  [grow_by(n, x)] on a normal vector always returns; when it
    leaves the vector exactly full ([capacity() == size()], as when [n]
    is the spare capacity, or 0 on a full vector), [mCurrent] is
    [nullptr] afterwards and the next [push_back], instead of growing the
    vector, dereferences a null segment pointer. *)
Theorem grow_by_to_capacity (v : vector) (L : list desc) (n : Z) (x y : Type_) :
  normal v L -> 0 <= n -> sum_cap L + n <= 2 ^ 62 ->
  exists v',
    grow_by sizeof_Type n x v = Ok v' /\
    (Get_capacity v' = size_ v' ->
     mCurrent v' = None /\ push_back sizeof_Type y v' = Undefined).
Proof.
  intros H Hn Hbound.
  pose proof (normal_shape _ _ H) as Hs.
  pose proof (sum_used_bounds _ _ (shape_ok _ _ Hs)) as Hub.
  destruct (grow_by_prepare sizeof_Type v L n H Hn Hbound)
    as (v1 & L1 & Hprep & Hs1 & Hc1 & Hu1 & Hroom & _).
  pose proof (shape_cap _ _ Hs1) as Hcap1.
  destruct (Fill_n_spec L1 x (Z.to_nat n) v1 (sum_used L) Hs1 ltac:(lia)
              ltac:(lia)) as (m2 & Hfill & Hb2 & Hn2 & _).
  pose proof (shape_mem _ _ m2 Hs1 Hb2 Hn2) as Hs2.
  destruct (Adjust_spec _ L1 (sum_used L + n) Hs2 ltac:(lia))
    as (v3 & Hadj & Hs3 & _).
  set (L' := adjust L1 (sum_used L + n)) in *.
  set (v' := with_mCurrent (adjust_target L1 (sum_used L + n)) v3).
  pose proof (shape_with_mCurrent v3 L' (adjust_target L1 (sum_used L + n)) Hs3)
    as Hs'.
  fold v' in Hs'.
  assert (Hc' : cursor_ok v' L')
    by (apply cursor_ok_adjust; [exact Hs'|reflexivity]).
  assert (Hsum' : sum_used L' = sum_used L + n)
    by (apply (adjust_sum_used _ _ _ (shape_ok _ _ Hs1)); lia).
  assert (Hcap' : sum_cap L' = sum_cap L1) by apply sum_cap_ext, adjust_bases.
  exists v'. split.
  { unfold grow_by. rewrite (normal_size _ _ H). cbn [mbind outcome_bind].
    rewrite wrap_small by (unfold size_limit; lia).
    unfold Check_size.
    destruct (sum_used L + n >? size_limit) eqn:E;
      [apply Z.gtb_lt in E; unfold size_limit in E; lia|].
    cbn [mbind outcome_bind].
    rewrite (Get_capacity_spec _ _ Hs). cbn [mbind outcome_bind].
    rewrite Hprep. cbn [mbind outcome_bind].
    rewrite (Get_size_spec _ _ Hs1 Hc1), Hu1. cbn [mbind outcome_bind].
    rewrite Hfill. cbn [mbind outcome_bind].
    rewrite Hadj. reflexivity. }
  unfold size_. rewrite (Get_capacity_spec _ _ Hs'), (Get_size_spec _ _ Hs' Hc').
  intros [= Hfull].
  assert (Hnull : mCurrent v' = None).
  { simpl. apply (adjust_target_ge (mAllocator v1)); [apply Hs1|lia]. }
  split; [exact Hnull|].
  apply (push_back_null_current v' L' y Hs' Hc' Hnull). lia.
Qed.

(** *** The constructors *)

Lemma Copy_n_pointer_spec (b : nat) (cap : Z) (xs : list Type_) :
  forall o (m : memory Type_),
    blocks m !! b = Some cap -> 0 <= o -> o + Z.of_nat (length xs) <= cap ->
    exists m',
      Copy_n_pointer (Some (b, o)) xs m = Ok m' /\
      blocks m' = blocks m /\ next_block m' = next_block m /\
      (forall (k : nat) x, xs !! k = Some x ->
         cells m' !! (b, o + Z.of_nat k) = Some x) /\
      (forall a, a.1 <> b \/ a.2 < o -> cells m' !! a = cells m !! a).
Proof.
  induction xs as [|x xs IH]; intros o m Hb Ho Hlen.
  - exists m. simpl. split; [reflexivity|]. split; [reflexivity|].
    split; [reflexivity|]. split; [intros k y; discriminate|auto].
  - simpl length in Hlen.
    assert (Hin : in_block m (b, o) = true).
    { unfold in_block. simpl. rewrite Hb.
      rewrite (proj2 (Z.leb_le _ _)), (proj2 (Z.ltb_lt _ _)) by lia.
      reflexivity. }
    pose proof (construct_ok m (b, o) x Hin) as Hc. unfold address in Hc.
    cbn [Copy_n_pointer]. rewrite Hc. cbn [mbind outcome_bind ptr_add].
    set (m1 := {| cells := <[(b, o) := x]> (cells m); blocks := blocks m;
                  next_block := next_block m |}).
    destruct (IH (o + 1) m1 Hb ltac:(lia) ltac:(lia))
      as (m' & Hrun & Hb' & Hn' & Hnew & Hold).
    exists m'. split; [exact Hrun|]. split; [exact Hb'|]. split; [exact Hn'|].
    split.
    + intros [|k] y Hk; simpl in Hk.
      * injection Hk as <-. rewrite Z.add_0_r.
        rewrite (Hold (b, o)) by (right; simpl; lia).
        apply lookup_insert_eq.
      * replace (o + Z.of_nat (S k)) with (o + 1 + Z.of_nat k) by lia.
        apply Hnew. exact Hk.
    + intros a Ha. rewrite (Hold a) by (destruct Ha; [left; auto|right; lia]).
      simpl. apply lookup_insert_ne. intros <-. simpl in Ha. lia.
Qed.

Lemma Fill_n_pointer_replicate target n (val : Type_) (m : memory Type_) :
  Fill_n_pointer target n val m = Copy_n_pointer target (replicate n val) m.
Proof.
  revert target m. induction n as [|n IH]; intros target m; simpl;
    [reflexivity|].
  destruct (construct target val m); simpl; try reflexivity.
  destruct (ptr_add target 1); simpl; auto.
Qed.

(** The segment list of a vector built by a constructor from [n > 0]
    values: the member segment with a block of exactly [n] cells, all in
    use. *)
Definition built (n : Z) : list desc :=
  [ {| d_ref := Head; d_base := Some 0%nat; d_cap := n; d_used := n |} ].

Lemma Do_in_place_n_create (xs : list Type_) :
  0 < Z.of_nat (length xs) <= size_limit ->
  exists v : vector,
    Do_in_place_n (Z.of_nat (length xs)) xs create = Ok v /\
    normal v (built (Z.of_nat (length xs))) /\
    (forall (k : nat) x, xs !! k = Some x ->
       cells (mAllocator v) !! (0%nat, Z.of_nat k) = Some x) /\
    mSegmentAllocator v = ∅ /\
    Data_Segment.mSegBefore (mSegment v) = None /\
    blocks (mAllocator v) = {[ 0%nat := Z.of_nat (length xs) ]} /\
    (forall a x, cells (mAllocator v) !! a = Some x -> a.1 = 0%nat).
Proof.
  intros Hn. set (n := Z.of_nat (length xs)) in *.
  set (m0 := {| cells := (∅ : gmap address Type_);
                blocks := <[0%nat := n]> ∅; next_block := 1 |}).
  destruct (Copy_n_pointer_spec 0%nat n xs 0 m0) as (m' & Hcopy & Hb & Hnb & Hnew & Hold);
    [apply lookup_insert_eq|lia|lia|].
  eexists. split.
  { unfold Do_in_place_n. rewrite decide_True by lia.
    unfold Allocate_new_n, Check_size.
    destruct (n >? size_limit) eqn:E; [apply Z.gtb_lt in E; lia|].
    cbn [mbind outcome_bind]. simpl. fold m0. unfold address in Hcopy.
    rewrite Hcopy. cbn [mbind outcome_bind].
    unfold advance_current_by. simpl. reflexivity. }
  split.
  - constructor; [constructor| | |]; simpl; try reflexivity.
    + intros [|j] d; simpl; [|discriminate]. intros [= <-].
      eexists. split; [reflexivity|]. simpl. repeat split.
    + apply NoDup_singleton.
    + apply NoDup_singleton.
    + constructor; [|constructor]. split; simpl; [lia|].
      rewrite Hb. simpl. split; [apply lookup_insert_eq|lia].
    + intros j d. discriminate.
    + lia.
    + intros k s. rewrite lookup_empty. discriminate.
    + intros b k. rewrite Hb, Hnb. simpl.
      destruct (decide (b = 0%nat)) as [->|Hne]; [lia|].
      rewrite lookup_insert_ne by congruence. rewrite lookup_empty.
      discriminate.
    + intros j d _ Hlen. simpl in Hlen. lia.
  - split; [intros k x Hk; simpl; rewrite <- (Hnew k x Hk); reflexivity|].
    split; [reflexivity|]. split; [reflexivity|].
    split; [simpl; rewrite Hb; reflexivity|].
    simpl. intros a x Ha. destruct (decide (a.1 = 0%nat)) as [E|E]; [exact E|].
    rewrite (Hold a (or_introl E)) in Ha. simpl in Ha.
    rewrite lookup_empty in Ha. discriminate.
Qed.

Lemma built_read (v : vector) n (xs : list Type_) :
  normal v (built n) ->
  (forall (k : nat) x, xs !! k = Some x ->
     cells (mAllocator v) !! (0%nat, Z.of_nat k) = Some x) ->
  n = Z.of_nat (length xs) ->
  size_ v = Ok n /\ Get_capacity v = Ok n /\
  forall (k : nat) x, xs !! k = Some x -> read (Z.of_nat k) v = Ok x.
Proof.
  intros H Hcells Hn. pose proof (normal_shape _ _ H) as Hs.
  split; [unfold size_; rewrite (normal_size _ _ H); simpl; f_equal; lia|].
  split; [rewrite (Get_capacity_spec _ _ Hs); simpl; f_equal; lia|].
  intros k x Hk. pose proof (lookup_lt_Some _ _ _ Hk) as Hlt.
  rewrite (read_spec _ _ _ Hs) by lia. simpl.
  rewrite (proj2 (Z.ltb_lt _ _)) by lia. simpl.
  rewrite load_in_block.
  - pose proof (Hcells k x Hk) as Hc. unfold address in *.
    etransitivity; [exact (f_equal deref Hc)|reflexivity].
  - pose proof (shape_desc_ok _ _ _ _ Hs
                  (eq_refl : built n !! 0%nat = Some _)) as [_ [Hb _]].
    simpl in Hb. unfold in_block. simpl. rewrite Hb.
    rewrite (proj2 (Z.leb_le _ _)), (proj2 (Z.ltb_lt _ _)) by lia.
    reflexivity.
Qed.


(** X11.  The constructor from a count and a value: a vector in the
    normal state with [size() == capacity() == count], every element equal
    to the value; for [count == 0] nothing is allocated. *)
Theorem create_n_copies (count : Z) (value : Type_) :
  0 <= count <= size_limit ->
  exists (v : vector) L,
    create_n count value = Ok v /\ normal v L /\
    size_ v = Ok count /\ Get_capacity v = Ok count /\
    (forall i, 0 <= i < count -> read i v = Ok value) /\
    (count = 0 -> v = create).
Proof.
  intros Hc. unfold create_n, Construct_in_place_n.
  destruct (decide (count <> 0)) as [Hne|Heq].
  - set (xs := replicate (Z.to_nat count) value).
    assert (Hlen : Z.of_nat (length xs) = count)
      by (subst xs; rewrite length_replicate; lia).
    destruct (Do_in_place_n_create xs) as (v & Hrun & Hn & Hcells & _); [lia|].
    rewrite Hlen in Hrun, Hn.
    exists v, (built count). split.
    { unfold Do_in_place_n in Hrun. rewrite decide_True in Hrun by exact Hne.
      rewrite <- Hrun.
      destruct (Allocate_new_n count create) as [v1| | |]; try reflexivity.
      cbn [mbind outcome_bind].
      destruct (segment_at (mCurrent v1) v1) as [s| | |]; try reflexivity.
      cbn [mbind outcome_bind]. rewrite Fill_n_pointer_replicate. reflexivity. }
    split; [exact Hn|].
    destruct (built_read v count xs Hn Hcells (eq_sym Hlen)) as (H1 & H2 & H3).
    split; [exact H1|]. split; [exact H2|]. split; [|contradiction].
    intros i Hi. replace i with (Z.of_nat (Z.to_nat i)) by lia.
    apply H3. apply lookup_replicate_2. lia.
  - assert (count = 0) as -> by lia.
    exists create, [no_storage]. split; [reflexivity|].
    split; [apply normal_create|]. split; [reflexivity|].
    split; [reflexivity|]. split; [intros i Hi; lia|reflexivity].
Qed.

(** *** [front], [back] and [empty] *)

Lemma push_back_all_tail (xs : list Type_) :
  forall (x : Type_) (v : vector) L B,
    normal v L -> length L = 1%nat \/ head_live L -> sum_cap L <= B ->
    sum_used L + Z.of_nat (length xs) + 1 +
      Z.max Min_segment_size ((sum_used L + Z.of_nat (length xs) + 1) / 2) <= B ->
    B + B / 2 + Min_segment_size <= size_limit ->
    exists v' L' P d b,
      push_back_all sizeof_Type (xs ++ [x]) v = Ok v' /\
      normal v' L' /\ head_live L' /\
      sum_used L' = sum_used L + Z.of_nat (length xs) + 1 /\
      L' = P ++ [d] /\ d_base d = Some b /\ 0 < d_used d /\
      cells (mAllocator v') !! (b, d_used d - 1) = Some x.
Proof.
  pose proof (Min_segment_size_ge_8 sizeof_Type) as Hmin.
  induction xs as [|y xs IH]; intros x v L B H Hhead HB HG Hlim.
  - pose proof (normal_shape _ _ H) as Hs.
    pose proof (sum_used_bounds _ _ (shape_ok _ _ Hs)) as Hub.
    simpl length in HG.
    destruct (emplace_back_step_tail sizeof_Type v L x H ltac:(lia))
      as (a & v1 & L1 & He & Hp & ((P & d & b & -> & Hb & Hu & ->) & Hlive) & _).
    exists v1, (P ++ [d]), P, d, b. simpl. unfold push_back. rewrite He. simpl.
    split; [reflexivity|]. split; [exact (step_normal _ _ _ _ _ _ _ Hp)|].
    split; [exact (Hlive Hhead)|].
    split; [rewrite (step_used _ _ _ _ _ _ _ Hp); lia|].
    split; [reflexivity|]. split; [exact Hb|]. split; [exact Hu|].
    rewrite (step_cells _ _ _ _ _ _ _ Hp). apply lookup_insert_eq.
  - pose proof (normal_shape _ _ H) as Hs.
    pose proof (sum_used_bounds _ _ (shape_ok _ _ Hs)) as Hub.
    simpl length in HG.
    destruct (emplace_back_step_tail sizeof_Type v L y H ltac:(lia))
      as (a & v1 & L1 & He & Hp & (_ & Hlive) & _).
    pose proof (step_used _ _ _ _ _ _ _ Hp) as Hu1.
    assert (HB1 : sum_cap L1 <= B).
    { destruct (step_growth _ _ _ _ _ _ _ Hp) as [[_ ->]|[Hfull ->]]; lia. }
    destruct (IH x v1 L1 B (step_normal _ _ _ _ _ _ _ Hp)
                (or_intror (Hlive Hhead)) HB1 ltac:(lia) Hlim)
      as (v' & L' & P & d & b & Hrun & Hn & Hl & Hu & HL & Hb & Hpos & Hc).
    exists v', L', P, d, b. simpl. unfold push_back. rewrite He. simpl.
    split; [exact Hrun|]. split; [exact Hn|]. split; [exact Hl|].
    split; [lia|]. auto.
Qed.

Lemma head_segment (v : vector) L :
  normal v L -> head_live L ->
  exists d0 b, L !! 0%nat = Some d0 /\ d_base d0 = Some b /\
    Data_Segment.mBegin (mSegment v) = Some (b, 0) /\
    Data_Segment.mCurrent (mSegment v) = Some (b, d_used d0) /\
    0 < d_cap d0.
Proof.
  intros H (d0 & b & H0 & Hb). pose proof (normal_shape _ _ H) as Hs.
  exists d0, b. split; [exact H0|]. split; [exact Hb|].
  destruct (shape_linked _ _ Hs 0%nat d0 H0) as (s & Hseg & Hsb & Hsc & _ & _).
  pose proof (shape_head _ _ Hs) as Hh. rewrite H0 in Hh. simpl in Hh.
  injection Hh as Hh. rewrite Hh in Hseg. simpl in Hseg. injection Hseg as <-.
  unfold base_ptr in Hsb, Hsc. rewrite Hb in Hsb, Hsc.
  split; [exact Hsb|]. split; [exact Hsc|].
  destruct (shape_desc_ok _ _ _ _ Hs H0) as [_ Hd]. rewrite Hb in Hd. lia.
Qed.

(** X17.  [front()], [back()] and [empty()] after [push_back] of the
    values [xs], in order, on a new vector: [empty()] holds exactly when
    there are no values; with values, [front()] is the element of
    [at(0)] and holds the first value, [back()] is the element of
    [at(size() - 1)] and holds the last value; on the new vector both
    are undefined. *)
Theorem front_back_empty_after_push_back (xs : list Type_) :
  Z.of_nat (length xs) <= 2 ^ 62 ->
  exists v : vector,
    push_back_all sizeof_Type xs create = Ok v /\
    empty v = match xs with [] => true | _ :: _ => false end /\
    (xs = [] -> front v = Undefined /\ back v = Undefined) /\
    (forall x, head xs = Some x ->
       exists a, front v = Ok (a, v) /\ at_ 0 v = Ok (a, v) /\
                 load (Some a) (mAllocator v) = Ok x) /\
    (forall x, last xs = Some x ->
       exists a, back v = Ok (a, v) /\
                 at_ (Z.of_nat (length xs) - 1) v = Ok (a, v) /\
                 load (Some a) (mAllocator v) = Ok x).
Proof.
  intros Hlen.
  pose proof (Min_segment_size_ge_8 sizeof_Type) as Hmin.
  assert (Hmin32 : Min_segment_size <= 32).
  { unfold Vector.Min_segment_size.
    destruct (Min_segment_size_eval_cases sizeof_Type) as [->|[->| ->]]; lia. }
  destruct xs as [|x0 xs0].
  { exists create. split; [reflexivity|]. split; [reflexivity|].
    split; [split; reflexivity|]. split; intros x Hx; discriminate. }
  destruct (last_is_Some (x0 :: xs0)) as [_ Hlast].
  destruct (Hlast ltac:(discriminate)) as [xl Hxl].
  apply last_Some in Hxl as [xs' Hxs]. rewrite Hxs in *.
  rewrite length_app in Hlen. simpl length in Hlen.
  destruct (push_back_all_tail xs' xl create [no_storage] (2 ^ 63)
              normal_create (or_introl eq_refl))
    as (v & L & P & d & b & Hrun & Hn & Hlive & Hu & HL & Hb & Hpos & Hcell);
    [simpl; lia|simpl; lia|unfold size_limit; lia|].
  destruct (push_back_all_spec sizeof_Type (xs' ++ [xl]) create [no_storage]
              (2 ^ 63) normal_create)
    as (v2 & L2 & Hrun2 & _ & _ & _ & _ & Hnew & _);
    [simpl; lia|rewrite length_app; simpl; lia|unfold size_limit; lia|].
  rewrite Hrun in Hrun2. injection Hrun2 as <-.
  simpl in Hu.
  pose proof (normal_shape _ _ Hn) as Hs.
  assert (Hsize : Get_size v = Ok (Z.of_nat (length xs') + 1)).
  { rewrite (normal_size _ _ Hn). f_equal. lia. }
  destruct (head_segment v L Hn Hlive) as (d0 & b0 & H0 & Hb0 & Hbeg & Hcur0 & Hcap0).
  assert (Hd : desc_ok (mAllocator v) d).
  { apply (shape_desc_ok v L (length P) d Hs). rewrite HL.
    rewrite lookup_app_r, Nat.sub_diag by lia. reflexivity. }
  destruct Hd as [Hrange Hblock]. rewrite Hb in Hblock.
  destruct Hblock as [Hblock Hcap].
  assert (Hfull : sum_used P = sum_cap P).
  { assert (HPf : forall j dj, P !! j = Some dj -> d_used dj = d_cap dj).
    { intros j dj Hj. apply (normal_full _ _ Hn j).
      - rewrite HL. apply lookup_app_l_Some. exact Hj.
      - rewrite HL, length_app. simpl. apply lookup_lt_Some in Hj. lia. }
    clear -HPf. induction P as [|p P IH]; [reflexivity|]. simpl.
    rewrite (HPf 0%nat p eq_refl), IH; [reflexivity|].
    intros j dj Hj. apply (HPf (S j)). exact Hj. }
  assert (Hused0 : 0 < d_used d0).
  { destruct P as [|p P'].
    - rewrite HL in H0. simpl in H0. injection H0 as <-. exact Hpos.
    - rewrite HL in H0. simpl in H0. injection H0 as <-.
      rewrite (normal_full _ _ Hn 0%nat p); [exact Hcap0|rewrite HL; reflexivity|].
      rewrite HL. simpl. rewrite length_app. simpl. lia. }
  exists v. split; [exact Hrun|].
  split.
  { destruct (xs' ++ [xl]) eqn:E; [destruct xs'; discriminate|].
    unfold empty. rewrite Hbeg, Hcur0. apply bool_decide_eq_false.
    intros [= Heq]. lia. }
  split; [intros E; destruct xs'; discriminate|].
  split.
  - intros x Hx. exists (b0, 0). unfold front, at_. rewrite Hbeg, Hsize.
    simpl. rewrite (proj2 (Z.leb_gt _ _)) by lia.
    assert (Hloc : locate L 0 = Ok (b0, 0)).
    { destruct L as [|d0' L']; [discriminate|]. simpl in H0.
      injection H0 as ->. simpl. rewrite (proj2 (Z.ltb_lt _ _)) by lia.
      rewrite Hb0. reflexivity. }
    rewrite (Get_value_at_spec _ _ _ Hs) by lia. rewrite Hloc.
    split; [reflexivity|]. split; [reflexivity|].
    assert (Hk : (xs' ++ [xl]) !! 0%nat = Some x).
    { destruct (xs' ++ [xl]); [discriminate|]. exact Hx. }
    specialize (Hnew 0%nat x Hk).
    change (sum_used [no_storage] + Z.of_nat 0) with 0 in Hnew.
    unfold read in Hnew.
    rewrite (Get_value_at_spec _ _ _ Hs), Hloc in Hnew by lia. exact Hnew.
  - intros x Hx. rewrite last_snoc in Hx. injection Hx as <-.
    exists (b, d_used d - 1).
    assert (Hcurv : mCurrent v = Some (d_ref d)).
    { rewrite (normal_current _ _ Hn), HL, last_snoc. reflexivity. }
    destruct (shape_linked _ _ Hs (length P) d) as (s & Hseg & _ & Hsc & _ & _).
    { rewrite HL, lookup_app_r, Nat.sub_diag by lia. reflexivity. }
    unfold base_ptr in Hsc. rewrite Hb in Hsc.
    split.
    { unfold back. rewrite Hcurv, Hseg. simpl. rewrite Hsc. simpl.
      do 3 f_equal. }
    assert (Hloc : locate L (Z.of_nat (length xs')) = Ok (b, d_used d - 1)).
    { rewrite HL. rewrite HL, sum_used_app in Hu. simpl in Hu.
      pose proof (shape_ok _ _ Hs) as Hok. rewrite HL in Hok.
      apply Forall_app in Hok as [HokP _].
      rewrite (locate_app_r (mAllocator v)) by (auto; lia).
      simpl. rewrite (proj2 (Z.ltb_lt _ _)) by lia. rewrite Hb.
      do 2 f_equal. lia. }
    split.
    { unfold at_. rewrite Hsize. simpl.
      replace (Z.of_nat (length (xs' ++ [xl])) - 1) with (Z.of_nat (length xs'))
        by (rewrite length_app; simpl; lia).
      rewrite (proj2 (Z.leb_gt _ _)) by lia.
      rewrite (Get_value_at_spec _ _ _ Hs) by lia. rewrite Hloc. reflexivity. }
    rewrite load_in_block.
    + unfold address in *. etransitivity; [exact (f_equal deref Hcell)|reflexivity].
    + unfold in_block. simpl. rewrite Hblock.
      rewrite (proj2 (Z.leb_le _ _)), (proj2 (Z.ltb_lt _ _)) by lia.
      reflexivity.
Qed.

(** *** The destructor *)

(** Only cells of live blocks hold elements. *)
Definition cells_in_blocks (m : memory Type_) : Prop :=
  forall a x, cells m !! a = Some x -> is_Some (blocks m !! a.1).

Lemma Destruct_contiguous_loop_spec (b : nat) (cap : Z) (n : nat) :
  forall o (m : memory Type_),
    blocks m !! b = Some cap -> 0 <= o -> o + Z.of_nat n <= cap ->
    exists m',
      Destruct_contiguous_loop n (Some (b, o)) m = Ok m' /\
      blocks m' = blocks m /\ next_block m' = next_block m /\
      (forall a, is_Some (cells m' !! a) -> is_Some (cells m !! a)) /\
      (forall a, a.1 <> b -> cells m' !! a = cells m !! a).
Proof.
  induction n as [|n IH]; intros o m Hb Ho Hn.
  - exists m. auto.
  - assert (Hin : in_block m (b, o) = true).
    { unfold in_block. simpl. rewrite Hb.
      rewrite (proj2 (Z.leb_le _ _)), (proj2 (Z.ltb_lt _ _)) by lia.
      reflexivity. }
    pose proof (destroy_ok m (b, o) Hin) as Hdes. unfold address in Hdes.
    cbn [Destruct_contiguous_loop]. rewrite Hdes.
    cbn [mbind outcome_bind ptr_add].
    set (m1 := {| cells := delete (b, o) (cells m); blocks := blocks m;
                  next_block := next_block m |}).
    destruct (IH (o + 1) m1 Hb ltac:(lia) ltac:(lia))
      as (m' & Hrun & Hbl & Hnb & Hsub & Hfr).
    exists m'. split; [exact Hrun|]. split; [exact Hbl|]. split; [exact Hnb|].
    split.
    + intros a Ha. specialize (Hsub a Ha). simpl in Hsub.
      destruct (decide (a = (b, o))) as [->|Hne].
      * rewrite lookup_delete_eq in Hsub. destruct Hsub. discriminate.
      * rewrite lookup_delete_ne in Hsub by congruence. exact Hsub.
    + intros a Ha. rewrite (Hfr a Ha). simpl.
      apply lookup_delete_ne. intros <-. apply Ha. reflexivity.
Qed.

Lemma release_storage (m : memory Type_) (d : desc) :
  desc_ok m d -> cells_in_blocks m ->
  exists m1 m2,
    Destruct_contiguous (base_ptr d 0) (base_ptr d (d_used d)) m = Ok m1 /\
    deallocate (base_ptr d 0) m1 = Ok m2 /\
    blocks m2 = match d_base d with
                | Some b => delete b (blocks m)
                | None => blocks m
                end /\
    cells_in_blocks m2 /\ next_block m2 = next_block m /\
    (forall a, d_base d <> Some a.1 -> cells m2 !! a = cells m !! a).
Proof.
  intros [Hrange Hd] Hcells. unfold base_ptr.
  destruct (d_base d) as [b|].
  - destruct Hd as [Hb Hcap].
    destruct (Destruct_contiguous_loop_spec b (d_cap d) (Z.to_nat (d_used d)) 0 m Hb)
      as (m1 & Hrun & Hbl & Hnb & Hsub & Hfr); [lia|lia|].
    exists m1. eexists. split.
    { unfold Destruct_contiguous. simpl. rewrite decide_True by reflexivity.
      simpl. rewrite Z.sub_0_r.
      destruct (d_used d <? 0) eqn:E; [apply Z.ltb_lt in E; lia|]. exact Hrun. }
    split.
    { unfold deallocate. rewrite decide_True; [reflexivity|].
      split; [reflexivity|]. rewrite Hbl, Hb. eauto. }
    simpl. split; [rewrite Hbl; reflexivity|].
    split; [|split; [exact Hnb|]].
    + intros a x Ha. simpl in *.
      apply map_lookup_filter_Some in Ha as [Ha Hne]. simpl in Hne.
      rewrite Hbl, lookup_delete_ne by congruence.
      destruct (Hsub a (ex_intro _ x Ha)) as [y Hy]. exact (Hcells a y Hy).
    + intros a Ha. assert (Hab : a.1 <> b) by congruence.
      rewrite <- (Hfr a Hab).
      destruct (cells m1 !! a) as [x|] eqn:E.
      * apply map_lookup_filter_Some. split; [exact E|]. simpl. exact Hab.
      * apply map_lookup_filter_None. left. exact E.
  - exists m, m. split; [reflexivity|]. split; [reflexivity|]. auto.
Qed.

(** The chain as [Finalise_no_lock] walks it: every segment with its
    storage and its link back. *)
Record back_chain (v : vector) (L : list desc) : Prop := {
  bc_head : d_ref <$> L !! 0%nat = Some Head;
  bc_seg : forall j d, L !! j = Some d -> exists s,
    get_segment (d_ref d) v = Ok s /\
    Data_Segment.mBegin s = base_ptr d 0 /\
    Data_Segment.mCurrent s = base_ptr d (d_used d) /\
    Data_Segment.mEnd s = base_ptr d (d_cap d) /\
    Data_Segment.mSegBefore s
    = match j with O => None | S j' => d_ref <$> L !! j' end;
  bc_refs : NoDup (d_ref <$> L);
  bc_blocks : NoDup (omap d_base L);
  bc_ok : Forall (desc_ok (mAllocator v)) L
}.

Lemma back_chain_of (v : vector) L :
  shape v L -> back_linked v L -> back_chain v L.
Proof.
  intros Hs HB. constructor.
  - apply (shape_head _ _ Hs).
  - intros j d Hj.
    destruct (shape_linked _ _ Hs j d Hj) as (s & Hseg & H1 & H2 & H3 & _).
    exists s. repeat (split; [assumption|]).
    specialize (HB j d Hj). unfold before_of in HB. rewrite Hseg in HB.
    injection HB as HB. exact HB.
  - apply (shape_refs _ _ Hs).
  - apply (shape_blocks _ _ Hs).
  - apply (shape_ok _ _ Hs).
Qed.

Lemma length_of_desc (s : Data_Segment.t) d :
  Data_Segment.mBegin s = base_ptr d 0 ->
  Data_Segment.mEnd s = base_ptr d (d_cap d) ->
  exists n, length_of s = Ok n.
Proof.
  intros Hb He. unfold length_of. rewrite Hb, He. unfold base_ptr.
  destruct (d_base d); simpl; [rewrite decide_True by reflexivity|]; eauto.
Qed.

Lemma Finalise_loop_walk (P : list desc) :
  forall (d : desc) (v : vector) (fuel : nat),
    back_chain v (P ++ [d]) -> cells_in_blocks (mAllocator v) ->
    (length P < fuel)%nat ->
    exists v',
      Finalise_loop fuel (Some (d_ref d)) v = Ok v' /\
      mSegment v' = Data_Segment.null /\
      cells_in_blocks (mAllocator v') /\
      (size (blocks (mAllocator v')) + length (omap d_base (P ++ [d]))
       = size (blocks (mAllocator v)))%nat /\
      (size (mSegmentAllocator v') + length P = size (mSegmentAllocator v))%nat /\
      next_segment v' = next_segment v /\
      next_block (mAllocator v') = next_block (mAllocator v) /\
      (forall b, blocks (mAllocator v') !! b
                 = if decide (b ∈ omap d_base (P ++ [d])) then None
                   else blocks (mAllocator v) !! b) /\
      (forall a, a.1 ∉ omap d_base (P ++ [d]) ->
         cells (mAllocator v') !! a = cells (mAllocator v) !! a).
Proof.
  induction P as [|d' P' IH] using rev_ind; intros d v fuel Hc Hcells Hfuel.
  - destruct fuel as [|fuel]; [simpl in Hfuel; lia|].
    destruct (bc_seg _ _ Hc 0%nat d eq_refl) as (s & Hseg & Hsb & Hsc & Hse & Hbef).
    pose proof (bc_head _ _ Hc) as Hh. simpl in Hh. injection Hh as Hh.
    pose proof (bc_ok _ _ Hc) as Hok. apply Forall_cons in Hok as [Hd _].
    destruct (release_storage (mAllocator v) d Hd Hcells)
      as (m1 & m2 & Hdes & Hdea & Hbl & Hcells2 & Hnb2 & Hfr2).
    destruct (length_of_desc s d Hsb Hse) as [n Hn].
    eexists. split.
    { cbn [Finalise_loop]. rewrite Hseg. cbn [mbind outcome_bind].
      rewrite Hsb, Hsc, Hdes. cbn [mbind outcome_bind]. rewrite Hn.
      cbn [mbind outcome_bind]. rewrite Hdea. cbn [mbind outcome_bind].
      rewrite Hbef. cbn [mbind outcome_bind]. destruct fuel; reflexivity. }
    rewrite Hh. simpl. split; [reflexivity|]. split; [exact Hcells2|].
    split; [|split; [lia|split; [reflexivity|split; [exact Hnb2|split]]]].
    + rewrite Hbl.
      destruct (d_base d) as [b|] eqn:Hb; simpl; [|lia].
      destruct Hd as [_ Hd]. rewrite Hb in Hd. destruct Hd as [Hd _].
      rewrite map_size_delete, Hd.
      assert (size (blocks (mAllocator v)) <> 0%nat).
      { intros E. apply map_size_empty_inv in E. rewrite E in Hd.
        rewrite lookup_empty in Hd. discriminate. }
      lia.
    + intros b0. rewrite Hbl. destruct (d_base d) as [b|]; simpl.
      * destruct (decide (b0 ∈ [b])) as [Hin|Hin].
        -- apply list_elem_of_singleton in Hin as ->. apply lookup_delete_eq.
        -- apply lookup_delete_ne. intros <-. apply Hin. left.
      * reflexivity.
    + intros a Ha. apply Hfr2. intros E. apply Ha. rewrite E. left.
  - destruct fuel as [|fuel]; [lia|].
    rewrite length_app in Hfuel. simpl in Hfuel.
    assert (Hj : ((P' ++ [d']) ++ [d]) !! S (length P') = Some d).
    { rewrite lookup_app_r by (rewrite length_app; simpl; lia).
      rewrite length_app. simpl.
      replace (S (length P') - (length P' + 1))%nat with 0%nat by lia.
      reflexivity. }
    assert (Hj' : ((P' ++ [d']) ++ [d]) !! length P' = Some d').
    { rewrite lookup_app_l by (rewrite length_app; simpl; lia).
      rewrite lookup_app_r, Nat.sub_diag by lia. reflexivity. }
    destruct (bc_seg _ _ Hc _ d Hj) as (s & Hseg & Hsb & Hsc & Hse & Hbef).
    rewrite Hj' in Hbef. simpl in Hbef.
    pose proof (bc_refs _ _ Hc) as Hrefs.
    pose proof (bc_blocks _ _ Hc) as Hblocks.
    pose proof (bc_ok _ _ Hc) as Hok.
    apply Forall_app in Hok as [HokP Hd]. apply Forall_cons in Hd as [Hd _].
    assert (Hnode : exists n, d_ref d = Node n).
    { destruct (d_ref d) as [|n] eqn:E; [|eauto]. exfalso.
      pose proof (bc_head _ _ Hc) as Hh.
      assert (H1 : (d_ref <$> (P' ++ [d']) ++ [d]) !! S (length P') = Some Head)
        by (rewrite list_lookup_fmap, Hj; simpl; congruence).
      assert (H0 : (d_ref <$> (P' ++ [d']) ++ [d]) !! 0%nat = Some Head)
        by (rewrite list_lookup_fmap; exact Hh).
      pose proof (NoDup_lookup _ _ _ _ Hrefs H1 H0). lia. }
    destruct Hnode as [n Hn].
    destruct (release_storage (mAllocator v) d Hd Hcells)
      as (m1 & m2 & Hdes & Hdea & Hbl & Hcells2 & Hnb2 & Hfr2).
    destruct (length_of_desc s d Hsb Hse) as [len Hlen].
    set (s0 := {| Data_Segment.mBegin := None; Data_Segment.mCurrent := None;
                  Data_Segment.mEnd := None;
                  Data_Segment.mSegBefore := Some (d_ref d');
                  Data_Segment.mSegAfter := None |}).
    set (v2 := {| mSegment := mSegment v; mCurrent := mCurrent v; mEnd := mEnd v;
                  mAllocator := m2;
                  mSegmentAllocator := delete n (<[n := s0]> (mSegmentAllocator v));
                  next_segment := next_segment v |}).
    assert (Hstep : Finalise_loop (S fuel) (Some (d_ref d)) v
                    = Finalise_loop fuel (Some (d_ref d')) v2).
    { cbn [Finalise_loop]. rewrite Hseg. cbn [mbind outcome_bind].
      rewrite Hsb, Hsc, Hdes. cbn [mbind outcome_bind]. rewrite Hlen.
      cbn [mbind outcome_bind]. rewrite Hdea. cbn [mbind outcome_bind].
      rewrite Hbef, Hn. reflexivity. }
    assert (Hfree : forall j dj, (P' ++ [d']) !! j = Some dj ->
              d_ref dj <> Node n /\
              (forall b, d_base dj = Some b -> d_base d <> Some b)).
    { intros j dj Hdj. pose proof (lookup_lt_Some _ _ _ Hdj) as Hlt.
      rewrite length_app in Hlt. simpl in Hlt. split.
      - intros E.
        assert (H1 : (d_ref <$> (P' ++ [d']) ++ [d]) !! j = Some (Node n)).
        { rewrite list_lookup_fmap, lookup_app_l, Hdj
            by (rewrite length_app; simpl; lia). simpl. congruence. }
        assert (H2 : (d_ref <$> (P' ++ [d']) ++ [d]) !! S (length P') = Some (Node n))
          by (rewrite list_lookup_fmap, Hj; simpl; congruence).
        pose proof (NoDup_lookup _ _ _ _ Hrefs H1 H2). lia.
      - intros b Hb Hb'. rewrite omap_app in Hblocks.
        apply NoDup_app in Hblocks as (_ & Hdis & _).
        apply (Hdis b).
        + apply list_elem_of_omap. exists dj. split; [|exact Hb].
          eapply list_elem_of_lookup_2; eauto.
        + simpl. rewrite Hb'. left. }
    assert (Hc2 : back_chain v2 (P' ++ [d'])).
    { constructor.
      - pose proof (bc_head _ _ Hc) as Hh.
        rewrite lookup_app_l in Hh by (rewrite length_app; simpl; lia).
        exact Hh.
      - intros j dj Hdj. pose proof (lookup_lt_Some _ _ _ Hdj) as Hlt.
        destruct (Hfree j dj Hdj) as [Hnr _].
        destruct (bc_seg _ _ Hc j dj) as (sj & Hsj & H1 & H2 & H3 & H4).
        { rewrite lookup_app_l by exact Hlt. exact Hdj. }
        exists sj. split.
        { destruct (d_ref dj) as [|k]; [exact Hsj|]. simpl in *.
          rewrite lookup_delete_ne, lookup_insert_ne by congruence. exact Hsj. }
        repeat (split; [assumption|]). rewrite H4.
        destruct j as [|j']; [reflexivity|].
        rewrite lookup_app_l by lia. reflexivity.
      - rewrite fmap_app in Hrefs. apply NoDup_app in Hrefs as [Hr _]. exact Hr.
      - rewrite omap_app in Hblocks. apply NoDup_app in Hblocks as [Hb _]. exact Hb.
      - apply Forall_lookup. intros j dj Hdj.
        destruct (Hfree j dj Hdj) as [_ Hnb].
        pose proof (proj1 (Forall_lookup _ _) HokP j dj Hdj) as [Hr Hdd].
        split; [exact Hr|]. simpl. rewrite Hbl.
        destruct (d_base dj) as [bj|] eqn:Hbj; [|exact Hdd].
        destruct (d_base d) as [b|] eqn:Hb; [|exact Hdd].
        rewrite lookup_delete_ne; [exact Hdd|].
        intros E. subst. exact (Hnb _ eq_refl eq_refl). }
    destruct (IH d' v2 fuel Hc2 Hcells2 ltac:(lia))
      as (v' & Hrun & Hnull & Hcells' & Hsb' & Hsn' & Hns' & Hnb' & HF1 & HF2).
    exists v'. split; [rewrite Hstep; exact Hrun|].
    split; [exact Hnull|]. split; [exact Hcells'|].
    split; [|split; [|split; [exact Hns'|split;
                                [rewrite Hnb'; exact Hnb2|split]]]].
    3:{ intros b0. rewrite HF1. simpl. rewrite Hbl.
        rewrite (omap_app _ (P' ++ [d'])). simpl (omap d_base [d]).
        destruct (decide (b0 ∈ omap d_base (P' ++ [d']))) as [Hin|Hin].
        - rewrite decide_True by (apply elem_of_app; left; exact Hin).
          reflexivity.
        - destruct (d_base d) as [b|] eqn:Hb; simpl.
          + destruct (decide (b0 = b)) as [->|Hne].
            * rewrite decide_True by (apply elem_of_app; right; left).
              apply lookup_delete_eq.
            * rewrite decide_False.
              -- apply lookup_delete_ne. congruence.
              -- intros [H1|H1]%elem_of_app; [exact (Hin H1)|].
                 apply list_elem_of_singleton in H1. congruence.
          + rewrite app_nil_r, decide_False by exact Hin. reflexivity. }
    3:{ intros a Ha. rewrite (omap_app _ (P' ++ [d'])) in Ha.
        rewrite HF2 by (intros H1; apply Ha, elem_of_app; left; exact H1).
        simpl. apply Hfr2. intros E. apply Ha, elem_of_app. right.
        simpl. rewrite E. left. }
    + simpl in Hsb'. rewrite Hbl in Hsb'.
      rewrite (omap_app _ (P' ++ [d'])), length_app.
      assert (Hone : length (omap d_base [d])
                     = match d_base d with Some _ => 1%nat | None => 0%nat end)
        by (simpl; destruct (d_base d); reflexivity).
      rewrite Hone. clear Hone.
      destruct (d_base d) as [b|] eqn:Hb; [|lia].
      destruct Hd as [_ Hd]. rewrite Hb in Hd. destruct Hd as [Hd _].
      rewrite map_size_delete, Hd in Hsb'.
      assert (size (blocks (mAllocator v)) <> 0%nat).
      { intros E. apply map_size_empty_inv in E. rewrite E in Hd.
        rewrite lookup_empty in Hd. discriminate. }
      lia.
    + simpl in Hsn'. rewrite length_app. simpl.
      rewrite map_size_delete, lookup_insert_eq, map_size_insert in Hsn'.
      rewrite Hn in Hseg. simpl in Hseg.
      destruct (mSegmentAllocator v !! n) eqn:En; [|discriminate].
      assert (size (mSegmentAllocator v) <> 0%nat).
      { intros E. apply map_size_empty_inv in E. rewrite E in En.
        rewrite lookup_empty in En. discriminate. }
      unfold id in Hsn'. lia.
Qed.

(** The state of a vector that owns exactly the segments of its chain:
    the links back are in place, and no node, block or element exists
    outside the chain. *)
Record kept (v : vector) (L : list desc) : Prop := {
  kept_normal : normal v L;
  kept_links : back_linked v L;
  kept_nodes : (size (mSegmentAllocator v) + 1 = length L)%nat;
  kept_blocks : size (blocks (mAllocator v)) = length (omap d_base L);
  kept_cells : cells_in_blocks (mAllocator v);
  kept_head : length L = 1%nat \/ head_live L
}.

Lemma kept_create : kept (@create Type_) [no_storage].
Proof.
  constructor.
  - apply normal_create.
  - intros [|j] d Hj; [|discriminate]. injection Hj as <-. reflexivity.
  - reflexivity.
  - reflexivity.
  - intros a x Ha. simpl in Ha. rewrite lookup_empty in Ha. discriminate.
  - left. reflexivity.
Qed.

Lemma kept_built (xs : list Type_) :
  0 < Z.of_nat (length xs) <= size_limit ->
  exists v : vector,
    Do_in_place_n (Z.of_nat (length xs)) xs create = Ok v /\
    kept v (built (Z.of_nat (length xs))) /\
    forall (k : nat) x, xs !! k = Some x -> read (Z.of_nat k) v = Ok x.
Proof.
  intros Hn.
  destruct (Do_in_place_n_create xs Hn)
    as (v & Hrun & Hnorm & Hread & Hnodes & Hbef & Hblocks & Hcells).
  exists v. split; [exact Hrun|].
  split; [|apply (built_read v _ xs Hnorm Hread eq_refl)].
  constructor.
  - exact Hnorm.
  - intros [|j] d Hj; [|discriminate]. injection Hj as <-.
    unfold before_of. simpl. rewrite Hbef. reflexivity.
  - rewrite Hnodes. reflexivity.
  - rewrite Hblocks, map_size_singleton. reflexivity.
  - intros a x Ha. rewrite (Hcells a x Ha), Hblocks, lookup_singleton_eq. eauto.
  - left. reflexivity.
Qed.

Lemma kept_step (v : vector) L x :
  kept v L ->
  sum_cap L + sum_cap L / 2 + Min_segment_size <= size_limit ->
  exists a v' L',
    emplace_back sizeof_Type x v = Ok (a, v') /\
    step_post sizeof_Type v L x a v' L' /\ kept v' L'.
Proof.
  intros K Hbound.
  destruct (emplace_back_step_tail sizeof_Type v L x (kept_normal _ _ K) Hbound)
    as (a & v' & L' & He & Hp & (_ & Hlive) & Hlinks & Hnodes & Hblocks).
  exists a, v', L'. split; [exact He|]. split; [exact Hp|].
  pose proof (kept_nodes _ _ K). pose proof (kept_blocks _ _ K).
  constructor; [| | | | |right; exact (Hlive (kept_head _ _ K))].
  - exact (step_normal _ _ _ _ _ _ _ Hp).
  - exact (Hlinks (kept_links _ _ K)).
  - lia.
  - lia.
  - pose proof (normal_shape _ _ (kept_normal _ _ K)) as Hs.
    pose proof (normal_shape _ _ (step_normal _ _ _ _ _ _ _ Hp)) as Hs'.
    pose proof (sum_used_bounds _ _ (shape_ok _ _ Hs)) as Hub.
    pose proof (sum_used_bounds _ _ (shape_ok _ _ Hs')) as Hub'.
    pose proof (step_used _ _ _ _ _ _ _ Hp) as Hu.
    destruct (locate_lt _ L' (sum_used L) (shape_ok _ _ Hs') ltac:(lia))
      as (a' & Ha' & Hin).
    rewrite (step_where _ _ _ _ _ _ _ Hp) in Ha'. injection Ha' as <-.
    intros c y Hc. rewrite (step_cells _ _ _ _ _ _ _ Hp) in Hc.
    destruct (decide (c = a)) as [->|Hne].
    + unfold in_block in Hin.
      destruct (blocks (mAllocator v') !! a.1); [eauto|discriminate].
    + rewrite lookup_insert_ne in Hc by congruence.
      destruct (kept_cells _ _ K c y Hc) as [n Hn].
      exists n. apply (step_blocks _ _ _ _ _ _ _ Hp). exact Hn.
Qed.

Lemma kept_push_back_all_used (xs : list Type_) :
  forall (v : vector) L B,
    kept v L -> sum_cap L <= B ->
    sum_used L + Z.of_nat (length xs) +
      Z.max Min_segment_size ((sum_used L + Z.of_nat (length xs)) / 2) <= B ->
    B + B / 2 + Min_segment_size <= size_limit ->
    exists v' L', push_back_all sizeof_Type xs v = Ok v' /\ kept v' L' /\
      sum_used L' = sum_used L + Z.of_nat (length xs).
Proof.
  pose proof (Min_segment_size_ge_8 sizeof_Type) as Hmin.
  induction xs as [|x xs IH]; intros v L B K HB HG Hlim.
  - exists v, L. split; [reflexivity|]. split; [exact K|]. simpl. lia.
  - pose proof (normal_shape _ _ (kept_normal _ _ K)) as Hs.
    pose proof (sum_used_bounds _ _ (shape_ok _ _ Hs)) as Hub.
    simpl length in HG.
    destruct (kept_step v L x K ltac:(lia)) as (a & v1 & L1 & He & Hp & K1).
    pose proof (step_used _ _ _ _ _ _ _ Hp) as Hu.
    assert (HB1 : sum_cap L1 <= B).
    { destruct (step_growth _ _ _ _ _ _ _ Hp) as [[_ ->]|[Hfull ->]]; lia. }
    destruct (IH v1 L1 B K1 HB1 ltac:(lia) Hlim) as (v' & L' & Hrun & K' & Hu').
    exists v', L'. split; [|split; [exact K'|simpl length; lia]].
    simpl. unfold push_back. rewrite He. simpl. exact Hrun.
Qed.

(** The state the initializer-list constructor leaves behind. *)
Lemma kept_start (init : list Type_) :
  Z.of_nat (length init) <= 2 ^ 62 ->
  exists (v0 : vector) L0,
    create_from init = Ok v0 /\ kept v0 L0 /\
    sum_cap L0 = Z.of_nat (length init) /\
    sum_used L0 = Z.of_nat (length init) /\
    forall (k : nat) x, init !! k = Some x -> read (Z.of_nat k) v0 = Ok x.
Proof.
  intros Hlen. unfold create_from, Construct_range, Check_size.
  destruct (Z.of_nat (length init) >? size_limit) eqn:E;
    [apply Z.gtb_lt in E; unfold size_limit in E; lia|].
  cbn [mbind outcome_bind].
  destruct init as [|x0 init'].
  - exists create, [no_storage]. split; [reflexivity|].
    split; [apply kept_create|]. split; [reflexivity|].
    split; [reflexivity|]. intros k x Hk. discriminate.
  - destruct (kept_built (x0 :: init')) as (v0 & Hrun & K0 & Hread);
      [unfold size_limit; simpl length in *; lia|].
    exists v0, (built (Z.of_nat (length (x0 :: init')))).
    split; [exact Hrun|]. split; [exact K0|].
    split; [simpl; lia|]. split; [simpl; lia|exact Hread].
Qed.

(** The state after the initializer-list constructor and a sequence of
    [push_back] calls. *)
Lemma built_state (init xs : list Type_) :
  Z.of_nat (length init) + Z.of_nat (length xs) <= 2 ^ 62 ->
  exists (v0 v : vector) L,
    create_from init = Ok v0 /\
    push_back_all sizeof_Type xs v0 = Ok v /\ kept v L /\
    sum_used L = Z.of_nat (length init) + Z.of_nat (length xs) /\
    sum_cap L <= 2 ^ 63 /\
    forall (k : nat) x, (init ++ xs) !! k = Some x ->
      read (Z.of_nat k) v = Ok x.
Proof.
  intros Hlen.
  pose proof (Min_segment_size_ge_8 sizeof_Type) as Hmin.
  assert (Hmin32 : Min_segment_size <= 32).
  { unfold Vector.Min_segment_size.
    destruct (Min_segment_size_eval_cases sizeof_Type) as [->|[->| ->]]; lia. }
  destruct (kept_start init) as (v0 & L0 & Hv0 & K0 & Hc0 & Hu0 & Hread0); [lia|].
  destruct (kept_push_back_all_used xs v0 L0 (2 ^ 63) K0)
    as (v & L & Hrun & K & Hu); [lia|lia|unfold size_limit; lia|].
  destruct (push_back_all_spec sizeof_Type xs v0 L0 (2 ^ 63) (kept_normal _ _ K0))
    as (v2 & L2 & Hrun2 & Hn2 & _ & Hcap2 & Hold & Hnew & _);
    [lia|lia|unfold size_limit; lia|].
  rewrite Hrun in Hrun2. injection Hrun2 as <-.
  exists v0, v, L. split; [exact Hv0|]. split; [exact Hrun|].
  split; [exact K|]. split; [lia|]. split.
  { pose proof (Get_capacity_spec _ _ (normal_shape _ _ (kept_normal _ _ K))) as E1.
    pose proof (Get_capacity_spec _ _ (normal_shape _ _ Hn2)) as E2.
    rewrite E1 in E2. injection E2 as ->. exact Hcap2. }
  intros k x Hk.
  destruct (decide (k < length init)%nat) as [Hlt|Hge].
  - rewrite lookup_app_l in Hk by exact Hlt.
    destruct (Hold (Z.of_nat k) ltac:(lia)) as (_ & -> & _).
    apply Hread0. exact Hk.
  - rewrite lookup_app_r in Hk by lia.
    rewrite <- (Hnew _ x Hk). f_equal. lia.
Qed.

(** [Finalise_no_lock] on a vector that owns exactly the segments of its
    chain, whatever its cursors are. *)
Lemma Finalise_chain (v : vector) L :
  shape v L -> back_linked v L -> mEnd v = d_ref <$> last L ->
  (size (mSegmentAllocator v) + 1 = length L)%nat ->
  size (blocks (mAllocator v)) = length (omap d_base L) ->
  cells_in_blocks (mAllocator v) ->
  exists v',
    Finalise_no_lock v = Ok v' /\
    blocks (mAllocator v') = ∅ /\ cells (mAllocator v') = ∅ /\
    mSegmentAllocator v' = ∅ /\ mSegment v' = Data_Segment.null /\
    mCurrent v' = Some Head /\ mEnd v' = Some Head /\
    next_segment v' = next_segment v /\
    next_block (mAllocator v') = next_block (mAllocator v).
Proof.
  intros Hs HB Hend Hnodes Hblocks Hkc.
  destruct (last L) as [d|] eqn:El.
  2:{ apply last_None in El. subst L. pose proof (shape_head _ _ Hs). discriminate. }
  apply last_Some in El as [P ->]. simpl in Hend.
  rewrite length_app in Hnodes. simpl in Hnodes.
  destruct (Finalise_loop_walk P d v (budget v) (back_chain_of _ _ Hs HB) Hkc)
    as (v' & Hrun & Hnull & Hcells & Hsb & Hsn & Hns & Hnb & _);
    [unfold budget; lia|].
  assert (Hb0 : blocks (mAllocator v') = ∅) by (apply map_size_empty_inv; lia).
  exists (with_mCurrent (Some Head) (with_mEnd (Some Head) v')).
  split.
  { unfold Finalise_no_lock. rewrite Hend, Hrun. reflexivity. }
  simpl. split; [exact Hb0|]. split.
  { apply map_eq. intros a. rewrite lookup_empty.
    destruct (cells (mAllocator v') !! a) as [x|] eqn:E; [|reflexivity].
    destruct (Hcells a x E) as [n Hn']. rewrite Hb0, lookup_empty in Hn'.
    discriminate. }
  split; [apply map_size_empty_inv; lia|]. split; [exact Hnull|].
  split; [reflexivity|]. split; [reflexivity|]. split; assumption.
Qed.

Lemma Finalise_kept (v : vector) L :
  kept v L ->
  exists v',
    Finalise v = Ok v' /\
    blocks (mAllocator v') = ∅ /\ cells (mAllocator v') = ∅ /\
    mSegmentAllocator v' = ∅ /\ mSegment v' = Data_Segment.null /\
    mCurrent v' = Some Head /\ mEnd v' = Some Head /\
    next_segment v' = next_segment v /\
    next_block (mAllocator v') = next_block (mAllocator v).
Proof.
  intros K. pose proof (kept_normal _ _ K) as Hn.
  apply Finalise_chain with L.
  - apply (normal_shape _ _ Hn).
  - apply (kept_links _ _ K).
  - rewrite (normal_end _ _ Hn). apply (normal_current _ _ Hn).
  - apply (kept_nodes _ _ K).
  - apply (kept_blocks _ _ K).
  - apply (kept_cells _ _ K).
Qed.

(** X18.  The destructor of a vector built by the initializer-list
    constructor and then [push_back] calls: [Finalise] returns, every
    storage block and every segment node is given back to its allocator,
    no element is left constructed, and the members are those of a new
    vector. *)
Theorem destructor_releases_all (init xs : list Type_) :
  Z.of_nat (length init) + Z.of_nat (length xs) <= 2 ^ 62 ->
  exists v0 v v' : vector,
    create_from init = Ok v0 /\
    push_back_all sizeof_Type xs v0 = Ok v /\
    Finalise v = Ok v' /\
    blocks (mAllocator v') = ∅ /\ cells (mAllocator v') = ∅ /\
    mSegmentAllocator v' = ∅ /\ mSegment v' = Data_Segment.null /\
    mCurrent v' = Some Head /\ mEnd v' = Some Head.
Proof.
  intros Hlen.
  pose proof (Min_segment_size_ge_8 sizeof_Type) as Hmin.
  assert (Hmin32 : Min_segment_size <= 32).
  { unfold Vector.Min_segment_size.
    destruct (Min_segment_size_eval_cases sizeof_Type) as [->|[->| ->]]; lia. }
  destruct (kept_start init) as (v0 & L0 & Hv0 & K0 & Hc0 & Hu0 & _); [lia|].
  destruct (kept_push_back_all_used xs v0 L0 (2 ^ 63) K0)
    as (v & L & Hrun & K & _); [lia|lia|unfold size_limit; lia|].
  destruct (Finalise_kept v L K)
    as (v' & Hfin & H1 & H2 & H3 & H4 & H5 & H6 & _).
  exists v0, v, v'. auto 10.
Qed.

(** *** Two [reserve] calls in a row *)

Lemma set_segment_mAllocator r s (v : vector) :
  mAllocator (set_segment r s v) = mAllocator v.
Proof. destruct r; reflexivity. Qed.

(** The chain up to a segment [d], when the link behind [d] is cut. *)
Lemma shape_cut (v : vector) P d T s :
  shape v ((P ++ [d]) ++ T) -> get_segment (d_ref d) v = Ok s ->
  shape (set_segment (d_ref d) (Data_Segment.set_mSegAfter None s) v) (P ++ [d]).
Proof.
  intros H Hseg.
  assert (HlenL : length (P ++ [d]) = S (length P))
    by (rewrite length_app; simpl; lia).
  assert (Hj : ((P ++ [d]) ++ T) !! length P = Some d).
  { rewrite lookup_app_l by lia.
    rewrite lookup_app_r, Nat.sub_diag by lia. reflexivity. }
  constructor.
  - pose proof (shape_head _ _ H) as Hh.
    rewrite lookup_app_l in Hh by lia. exact Hh.
  - intros j d' Hj'. pose proof (lookup_lt_Some _ _ _ Hj') as Hlt.
    assert (Hj2 : ((P ++ [d]) ++ T) !! j = Some d')
      by (rewrite lookup_app_l by lia; exact Hj').
    destruct (decide (j = length P)) as [->|Hne].
    + rewrite Hj in Hj2. injection Hj2 as <-.
      destruct (shape_linked _ _ H _ _ Hj) as (s' & Hs' & Hsb & Hsc & Hse & _).
      rewrite Hseg in Hs'. injection Hs' as <-.
      exists (Data_Segment.set_mSegAfter None s).
      split; [apply get_set_segment_eq|]. simpl.
      rewrite lookup_ge_None_2 by lia. auto.
    + eapply seg_matches_frame.
      * pose proof (shape_linked _ _ H _ _ Hj2) as Hm.
        rewrite (lookup_app_l (P ++ [d])) in Hm by lia. exact Hm.
      * apply get_set_segment_ne. intros E. apply Hne.
        apply (NoDup_lookup _ j (length P) (d_ref d) (shape_refs _ _ H));
          rewrite list_lookup_fmap; [rewrite Hj2|rewrite Hj]; simpl; congruence.
  - pose proof (shape_refs _ _ H) as Hr. rewrite fmap_app in Hr.
    apply NoDup_app in Hr as [Hr _]. exact Hr.
  - pose proof (shape_blocks _ _ H) as Hr. rewrite omap_app in Hr.
    apply NoDup_app in Hr as [Hr _]. exact Hr.
  - rewrite set_segment_mAllocator. pose proof (shape_ok _ _ H) as Hok.
    apply Forall_app in Hok as [Hok _]. exact Hok.
  - intros j d' Hj'. apply (shape_storage _ _ H j d').
    rewrite lookup_app_l; [exact Hj'|]. apply lookup_lt_Some in Hj'. exact Hj'.
  - pose proof (shape_cap _ _ H) as Hc. rewrite sum_cap_app in Hc.
    pose proof (shape_ok _ _ H) as Hok. apply Forall_app in Hok as [_ HokT].
    pose proof (sum_cap_nonneg _ _ HokT). lia.
  - intros n s'. destruct (d_ref d) as [|k]; simpl in *;
      [apply (shape_nodes _ _ H)|].
    destruct (decide (k = n)) as [<-|Hne].
    + intros _. destruct (mSegmentAllocator v !! k) eqn:E; [|discriminate].
      apply (shape_nodes _ _ H _ _ E).
    + rewrite lookup_insert_ne by exact Hne. apply (shape_nodes _ _ H).
  - rewrite set_segment_mAllocator. apply (shape_fresh _ _ H).
Qed.

(** [Append_new_segment] overwrites the link behind [mCurrent]: what was
    linked there before plays no part. *)
Lemma Append_new_segment_cut seg (v : vector) r s :
  mCurrent v = Some r -> get_segment r v = Ok s ->
  r <> Node (next_segment v) ->
  Append_new_segment seg
    (set_segment r (Data_Segment.set_mSegAfter None s) v)
  = Append_new_segment seg v.
Proof.
  intros Hcur Hseg Hne. unfold Append_new_segment.
  destruct r as [|k]; simpl in *.
  - injection Hseg as <-. rewrite Hcur. simpl.
    destruct (decide (Some Head = Some Head /\
                      Data_Segment.mBegin (mSegment v) = None));
      reflexivity.
  - rewrite Hcur.
    rewrite !(decide_False (P := Some (Node k) = Some Head /\ _))
      by (intros [E _]; discriminate).
    simpl. destruct (mSegmentAllocator v !! k) as [s0|] eqn:E; [|discriminate].
    simpl in Hseg. injection Hseg as ->.
    assert (Hk : next_segment v <> k) by congruence.
    rewrite lookup_insert_ne by exact Hk. rewrite lookup_insert_eq.
    rewrite lookup_insert_ne by exact Hk. rewrite E.
    simpl. unfold with_mEnd. simpl.
    do 2 f_equal. apply map_eq. intros i.
    destruct (decide (i = k)) as [->|Hik].
    + rewrite !lookup_insert_eq. reflexivity.
    + rewrite !(lookup_insert_ne _ k i) by congruence.
      destruct (decide (i = next_segment v)) as [->|Hin].
      * rewrite !lookup_insert_eq. reflexivity.
      * rewrite !(lookup_insert_ne _ (next_segment v) i) by congruence.
        rewrite lookup_insert_ne by congruence. reflexivity.
Qed.

Lemma reserve_twice_kept (v : vector) L c n m :
  kept v L -> Get_capacity v = Ok c -> 0 < c ->
  c < n -> c + n < m -> c + n + m <= size_limit ->
  exists v1 v2 v3,
    reserve n v = Ok v1 /\ Get_capacity v1 = Ok (c + n) /\
    reserve m v1 = Ok v2 /\ Get_capacity v2 = Ok (c + m) /\
    storage_blocks v2 = (storage_blocks v + 2)%nat /\
    segment_nodes v2 = (segment_nodes v + 2)%nat /\
    Finalise v2 = Ok v3 /\
    storage_blocks v3 = 1%nat /\ segment_nodes v3 = 1%nat.
Proof.
  intros K Hc Hpos Hn Hm Hlim.
  pose proof (kept_normal _ _ K) as H. pose proof (normal_shape _ _ H) as Hs.
  pose proof (Get_capacity_spec _ _ Hs) as Hcap.
  rewrite Hc in Hcap. injection Hcap as ->.
  destruct (normal_last _ _ H) as (P & d & HL & Hcur & Hend & _ & Hcp & HP & Hd).
  subst L.
  assert (HlenL : length (P ++ [d]) = S (length P))
    by (rewrite length_app; simpl; lia).
  assert (Hj : (P ++ [d]) !! length P = Some d)
    by (rewrite lookup_app_r, Nat.sub_diag by lia; reflexivity).
  destruct (d_base d) as [b|] eqn:Hb.
  2:{ destruct (normal_singleton_head v P d H Hb) as [-> _].
      destruct (desc_ok_null _ _ Hd Hb) as [Hc0 _]. simpl in Hpos. lia. }
  destruct (shape_linked _ _ Hs _ _ Hj) as (s & Hseg & Hsb & _).
  assert (Hhead : forall (v' : vector) s',
            mCurrent v' = Some (d_ref d) ->
            get_segment (d_ref d) v' = Ok s' ->
            Data_Segment.mBegin s' = base_ptr d 0 ->
            ~ (mCurrent v' = Some Head /\
               Data_Segment.mBegin (mSegment v') = None)).
  { intros v' s' Hc' Hs' Hsb' [Hh Hnull]. rewrite Hc' in Hh. injection Hh as Hh.
    rewrite Hh in Hs'. simpl in Hs'. injection Hs' as Hs'.
    rewrite Hs', Hsb' in Hnull. unfold base_ptr in Hnull. rewrite Hb in Hnull.
    discriminate. }
  (* the first call *)
  destruct (Append_new_segment_node v P d n Hs Hcur (ex_intro _ b Hb)
              ltac:(lia) ltac:(lia))
    as (v1 & Happ1 & Hs1 & Hcur1 & Hend1 & Hcells1 & Hblocks1 & Hnodes1).
  set (new1 := {| d_ref := Node (next_segment v);
                  d_base := Some (next_block (mAllocator v));
                  d_cap := n; d_used := 0 |}) in *.
  pose proof (Append_new_segment_before _ _ _ Happ1) as Hbef1.
  assert (Hcap1 : Get_capacity v1 = Ok (sum_cap (P ++ [d]) + n)).
  { rewrite (Get_capacity_spec _ _ Hs1), sum_cap_app. simpl. f_equal. lia. }
  assert (Hj1 : ((P ++ [d]) ++ [new1]) !! length P = Some d)
    by (rewrite lookup_app_l by lia; exact Hj).
  destruct (shape_linked _ _ Hs1 _ _ Hj1) as (s1 & Hseg1 & Hsb1 & _).
  (* the second call *)
  set (v1c := set_segment (d_ref d) (Data_Segment.set_mSegAfter None s1) v1).
  pose proof (shape_cut v1 P d [new1] s1 Hs1 Hseg1) as Hsc. fold v1c in Hsc.
  assert (Hcurc : mCurrent v1c = Some (d_ref d))
    by (subst v1c; destruct (d_ref d); simpl; congruence).
  assert (Hmemc : mAllocator v1c = mAllocator v1)
    by apply set_segment_mAllocator.
  assert (Hnextc : next_segment v1c = next_segment v1)
    by (subst v1c; destruct (d_ref d); reflexivity).
  assert (Hsizec : size (mSegmentAllocator v1c) = size (mSegmentAllocator v1)).
  { subst v1c. destruct (d_ref d) as [|k]; [reflexivity|]. simpl in *.
    rewrite map_size_insert.
    destruct (mSegmentAllocator v1 !! k); [reflexivity|discriminate]. }
  assert (Hfresh1 : d_ref d <> Node (next_segment v1)).
  { intros E. rewrite E in Hseg1. simpl in Hseg1.
    destruct (mSegmentAllocator v1 !! next_segment v1) eqn:En; [|discriminate].
    pose proof (shape_nodes _ _ Hs1 _ _ En). lia. }
  destruct (Append_new_segment_node v1c P d m Hsc Hcurc (ex_intro _ b Hb)
              ltac:(lia) ltac:(lia))
    as (v2 & Happ2 & Hs2 & Hcur2 & Hend2 & Hcells2 & Hblocks2 & Hnodes2).
  rewrite Hmemc, Hnextc in *.
  set (new2 := {| d_ref := Node (next_segment v1);
                  d_base := Some (next_block (mAllocator v1));
                  d_cap := m; d_used := 0 |}) in *.
  assert (Happ2' : Append_new_segment m v1 = Ok v2).
  { rewrite <- Happ2. symmetry.
    apply Append_new_segment_cut; [congruence|exact Hseg1|exact Hfresh1]. }
  pose proof (Append_new_segment_before _ _ _ Happ2') as Hbef2.
  assert (Hsize1 : size (blocks (mAllocator v1))
                   = S (size (blocks (mAllocator v)))).
  { rewrite Hblocks1. apply map_size_insert_None.
    destruct (blocks (mAllocator v) !! next_block (mAllocator v)) eqn:E;
      [|reflexivity].
    pose proof (shape_fresh _ _ Hs _ _ E). lia. }
  assert (Hsize2 : size (blocks (mAllocator v2))
                   = S (size (blocks (mAllocator v1)))).
  { rewrite Hblocks2. apply map_size_insert_None.
    destruct (blocks (mAllocator v1) !! next_block (mAllocator v1)) eqn:E;
      [|reflexivity].
    pose proof (shape_fresh _ _ Hs1 _ _ E). lia. }
  (* the links back after the two calls *)
  assert (HB2 : back_linked v2 ((P ++ [d]) ++ [new2])).
  { intros j d' Hj'. rewrite Hbef2.
    rewrite (decide_False (P := mCurrent v1 = Some Head /\ _))
      by (apply (Hhead v1 s1); [congruence|exact Hseg1|exact Hsb1]).
    destruct (decide (j < length (P ++ [d]))%nat) as [Hlt|Hge].
    - rewrite lookup_app_l in Hj' by lia.
      assert (Hj1' : ((P ++ [d]) ++ [new1]) !! j = Some d')
        by (rewrite lookup_app_l by lia; exact Hj').
      rewrite decide_False.
      2:{ intros E. pose proof (shape_ref_fresh _ _ _ _ _ Hs1 Hj1' E). lia. }
      rewrite Hbef1.
      rewrite (decide_False (P := mCurrent v = Some Head /\ _))
        by (apply (Hhead v s); assumption).
      rewrite decide_False.
      2:{ intros E. pose proof (shape_ref_fresh _ _ _ _ _ Hs Hj' E). lia. }
      rewrite (kept_links _ _ K j d' Hj').
      destruct j as [|j']; [reflexivity|].
      rewrite (lookup_app_l (P ++ [d])) by lia. reflexivity.
    - pose proof (lookup_lt_Some _ _ _ Hj') as Hlen.
      rewrite length_app in Hlen. simpl in Hlen.
      assert (j = length (P ++ [d])) as -> by lia.
      rewrite lookup_app_r, Nat.sub_diag in Hj' by lia.
      injection Hj' as <-. simpl. rewrite decide_True by reflexivity.
      rewrite HlenL, (lookup_app_l (P ++ [d])), Hj by lia.
      rewrite Hcur1, Hcur. reflexivity. }
  assert (Hcells : cells_in_blocks (mAllocator v2)).
  { intros a x Ha. rewrite Hcells2, Hcells1 in Ha.
    destruct (kept_cells _ _ K a x Ha) as [k Hk].
    rewrite Hblocks2, Hblocks1.
    apply lookup_insert_is_Some'. right.
    apply lookup_insert_is_Some'. right. eauto. }
  pose proof (kept_nodes _ _ K) as Hkn. pose proof (kept_blocks _ _ K) as Hkb.
  destruct (Finalise_loop_walk (P ++ [d]) new2 v2 (budget v2)
              (back_chain_of _ _ Hs2 HB2) Hcells)
    as (v3 & Hrun & _ & _ & Hsb3 & Hsn3 & _);
    [unfold budget; rewrite Hnodes2, Hsizec, Hnodes1; lia|].
  exists v1, v2, (with_mCurrent (Some Head) (with_mEnd (Some Head) v3)).
  assert (E1 : (n >? sum_cap (P ++ [d])) = true)
    by (rewrite Z.gtb_ltb; apply Z.ltb_lt; lia).
  assert (E2 : (m >? sum_cap (P ++ [d]) + n) = true)
    by (rewrite Z.gtb_ltb; apply Z.ltb_lt; lia).
  split; [unfold reserve; rewrite Hc; cbn [mbind outcome_bind]; rewrite E1;
          exact Happ1|].
  split; [exact Hcap1|].
  split; [unfold reserve; rewrite Hcap1; cbn [mbind outcome_bind]; rewrite E2;
          exact Happ2'|].
  split; [rewrite (Get_capacity_spec _ _ Hs2), sum_cap_app; simpl; f_equal; lia|].
  unfold storage_blocks, segment_nodes.
  split; [lia|]. split; [lia|].
  split; [unfold Finalise, Finalise_no_lock; rewrite Hend2;
          change (Some (Node (next_segment v1))) with (Some (d_ref new2));
          rewrite Hrun; reflexivity|].
  simpl. rewrite omap_app, length_app in Hsb3. simpl in Hsb3.
  split; lia.
Qed.

(** X19.  Two [reserve] calls in a row on a vector built by the
    initializer-list constructor and [push_back] calls, each beyond the
    capacity of the moment: the second call links its segment in place of
    the segment of the first, so the capacity is [c + m], not
    [c + n + m], and the block and the node obtained by the first call
    are never given back: they are what is left after [Finalise]. *)
Theorem reserve_twice_loses_a_segment (init xs : list Type_) (n m : Z) :
  0 < Z.of_nat (length init) + Z.of_nat (length xs) <= 2 ^ 62 ->
  exists (v0 v : vector) c,
    create_from init = Ok v0 /\
    push_back_all sizeof_Type xs v0 = Ok v /\
    Get_capacity v = Ok c /\
    (c < n -> c + n < m -> c + n + m <= size_limit ->
     exists v1 v2 v3,
       reserve n v = Ok v1 /\ Get_capacity v1 = Ok (c + n) /\
       reserve m v1 = Ok v2 /\ Get_capacity v2 = Ok (c + m) /\
       storage_blocks v2 = (storage_blocks v + 2)%nat /\
       segment_nodes v2 = (segment_nodes v + 2)%nat /\
       Finalise v2 = Ok v3 /\
       storage_blocks v3 = 1%nat /\ segment_nodes v3 = 1%nat).
Proof.
  intros Hlen.
  pose proof (Min_segment_size_ge_8 sizeof_Type) as Hmin.
  assert (Hmin32 : Min_segment_size <= 32).
  { unfold Vector.Min_segment_size.
    destruct (Min_segment_size_eval_cases sizeof_Type) as [->|[->| ->]]; lia. }
  destruct (kept_start init) as (v0 & L0 & Hv0 & K0 & Hc0 & Hu0 & _); [lia|].
  destruct (kept_push_back_all_used xs v0 L0 (2 ^ 63) K0)
    as (v & L & Hrun & K & Hu); [lia|lia|unfold size_limit; lia|].
  pose proof (normal_shape _ _ (kept_normal _ _ K)) as Hs.
  pose proof (sum_used_bounds _ _ (shape_ok _ _ Hs)) as Hub.
  exists v0, v, (sum_cap L). split; [exact Hv0|]. split; [exact Hrun|].
  split; [apply (Get_capacity_spec _ _ Hs)|].
  intros Hn Hm Hlim.
  apply (reserve_twice_kept v L (sum_cap L) n m K
           (Get_capacity_spec _ _ Hs)); lia.
Qed.

(** *** Iteration *)

Lemma range_for_loop_reads (v : vector) (ys : list Type_) :
  forall (i : Z) (fuel : nat),
    (forall (k : nat) y, ys !! k = Some y -> read (i + Z.of_nat k) v = Ok y) ->
    0 <= i -> i + Z.of_nat (length ys) <= size_limit ->
    (length ys <= fuel)%nat ->
    range_for_loop fuel (Return_iterator i)
      (Return_iterator (i + Z.of_nat (length ys))) v = Ok ys.
Proof.
  induction ys as [|y ys IH]; intros i fuel Hread Hi Hlim Hfuel.
  - assert (E : iterator_eqb (Return_iterator i)
                  (Return_iterator (i + Z.of_nat (length (@nil Type_)))) = true)
      by (apply bool_decide_eq_true; simpl; lia).
    destruct fuel; cbn [range_for_loop]; rewrite E; reflexivity.
  - simpl length in *.
    assert (E : iterator_eqb (Return_iterator i)
                  (Return_iterator (i + Z.of_nat (S (length ys)))) = false)
      by (apply bool_decide_eq_false; simpl; lia).
    destruct fuel as [|fuel]; [lia|].
    cbn [range_for_loop]. rewrite E.
    pose proof (Hread 0%nat y eq_refl) as H0. rewrite Z.add_0_r in H0.
    unfold read in H0. apply bind_Ok in H0 as (a & Ha & Hload).
    unfold iterator_deref. cbn [mValue mIndex Return_iterator]. rewrite Ha.
    cbn [mbind outcome_bind]. rewrite Hload. cbn [mbind outcome_bind].
    unfold iterator_next. cbn [mIndex].
    rewrite wrap_small by lia.
    change {| mIndex := i + 1; mValue := None |} with (Return_iterator (i + 1)).
    replace (i + Z.of_nat (S (length ys)))
      with (i + 1 + Z.of_nat (length ys)) by lia.
    rewrite IH; [reflexivity| |lia|lia|lia].
    intros k z Hk. replace (i + 1 + Z.of_nat k) with (i + Z.of_nat (S k)) by lia.
    apply Hread. exact Hk.
Qed.

(** X20.  The range-for loop over a vector built by the initializer-list
    constructor and [push_back] calls: from [begin()] to [end()], with
    [operator!=], [operator*] and [operator++], it ends and reads the
    values of the list and then the values pushed, in order. *)
Theorem range_for_reads_the_elements (init xs : list Type_) :
  Z.of_nat (length init) + Z.of_nat (length xs) <= 2 ^ 62 ->
  exists v0 v : vector,
    create_from init = Ok v0 /\
    push_back_all sizeof_Type xs v0 = Ok v /\
    range_for v = Ok (init ++ xs).
Proof.
  intros Hlen.
  destruct (built_state init xs Hlen) as (v0 & v & L & Hv0 & Hrun & K & Hu & _ & Hread).
  exists v0, v. split; [exact Hv0|]. split; [exact Hrun|].
  unfold range_for, end_, size_.
  rewrite (normal_size _ _ (kept_normal _ _ K)). cbn [mbind outcome_bind].
  cbn [mIndex Return_iterator]. rewrite Hu.
  replace (Z.of_nat (length init) + Z.of_nat (length xs))
    with (0 + Z.of_nat (length (init ++ xs)))
    by (rewrite length_app; lia).
  apply range_for_loop_reads.
  - intros k y Hk. rewrite Z.add_0_l. apply Hread. exact Hk.
  - lia.
  - rewrite length_app. unfold size_limit. lia.
  - rewrite length_app. lia.
Qed.

(** *** [assign] *)

Lemma Copy_n_spec (L : list desc) (ys : list Type_) :
  forall (v : vector) t,
    shape v L -> 0 <= t -> t + Z.of_nat (length ys) <= sum_cap L ->
    exists m2,
      Copy_n t ys v = Ok (with_mAllocator m2 v) /\
      blocks m2 = blocks (mAllocator v) /\
      next_block m2 = next_block (mAllocator v) /\
      forall i a, 0 <= i -> locate L i = Ok a ->
        cells m2 !! a =
          if decide (t <= i < t + Z.of_nat (length ys))
          then ys !! Z.to_nat (i - t)
          else cells (mAllocator v) !! a.
Proof.
  induction ys as [|y ys IH]; intros v t Hs Ht Hsum.
  - exists (mAllocator v). simpl.
    split; [destruct v; reflexivity|]. split; [reflexivity|].
    split; [reflexivity|].
    intros i a _ _. rewrite decide_False by lia. reflexivity.
  - simpl length in *. pose proof (shape_cap _ _ Hs) as Hcap.
    destruct (locate_lt _ L t (shape_ok _ _ Hs) ltac:(lia)) as (a0 & Ha0 & Hin).
    cbn [Copy_n]. rewrite (Get_value_at_spec _ _ _ Hs Ht), Ha0.
    cbn [mbind outcome_bind].
    rewrite construct_ok by exact Hin. cbn [mbind outcome_bind].
    set (m1 := {| cells := <[a0 := y]> (cells (mAllocator v));
                  blocks := blocks (mAllocator v);
                  next_block := next_block (mAllocator v) |}).
    assert (Hs1 : shape (with_mAllocator m1 v) L) by (apply shape_mem; auto).
    rewrite wrap_small by lia.
    destruct (IH (with_mAllocator m1 v) (t + 1) Hs1 ltac:(lia) ltac:(lia))
      as (m2 & Hrun & Hb & Hn & Hcells).
    exists m2. split; [exact Hrun|]. split; [exact Hb|]. split; [exact Hn|].
    intros i a Hi Ha. rewrite (Hcells i a Hi Ha). simpl.
    destruct (decide (t + 1 <= i < t + 1 + Z.of_nat (length ys))) as [Hr|Hr].
    + rewrite decide_True by lia.
      replace (Z.to_nat (i - t)) with (S (Z.to_nat (i - (t + 1)))) by lia.
      reflexivity.
    + destruct (decide (i = t)) as [->|Hne].
      * rewrite decide_True by lia. rewrite Z.sub_diag. simpl.
        rewrite Ha0 in Ha. injection Ha as <-. apply lookup_insert_eq.
      * rewrite decide_False by lia.
        apply lookup_insert_ne. intros <-.
        apply Hne. symmetry.
        apply (locate_inj _ L t i a0 (shape_ok _ _ Hs) (shape_blocks _ _ Hs));
          auto.
Qed.

(** The values [ys] written over the first cells of the chain, the
    elements up to index [e] behind them destroyed, and the cursors set
    for [length ys] elements. *)
Lemma overwrite_spec (v : vector) L (ys : list Type_) (e : Z) :
  shape v L -> Z.of_nat (length ys) <= e <= sum_cap L ->
  exists m2 v',
    Copy_n 0 ys v = Ok (with_mAllocator m2 v) /\
    blocks m2 = blocks (mAllocator v) /\
    next_block m2 = next_block (mAllocator v) /\
    (v2 ← Destruct_loop (Z.to_nat (e - Z.of_nat (length ys)))
            (Z.of_nat (length ys)) (with_mAllocator m2 v);
     '(target, v3) ←
       Adjust_segments_and_get_last_address_for (Z.of_nat (length ys)) v2;
     Ok (with_mCurrent target v3)) = Ok v' /\
    shape v' (adjust L (Z.of_nat (length ys))) /\
    cursor_ok v' (adjust L (Z.of_nat (length ys))) /\
    mCurrent v' = adjust_target L (Z.of_nat (length ys)) /\
    (forall (k : nat) y, ys !! k = Some y -> read (Z.of_nat k) v' = Ok y) /\
    mEnd v' = mEnd v.
Proof.
  intros Hs He. set (n := Z.of_nat (length ys)) in *.
  destruct (Copy_n_spec L ys v 0 Hs ltac:(lia) ltac:(lia))
    as (m2 & Hcopy & Hb2 & Hn2 & Hcells2).
  pose proof (shape_mem _ _ m2 Hs Hb2 Hn2) as Hs2.
  destruct (Destruct_loop_spec L (Z.to_nat (e - n)) (with_mAllocator m2 v) n Hs2
              ltac:(lia) ltac:(lia)) as (m3 & Hdes & Hb3 & Hn3 & Hcells3).
  simpl in Hb3, Hn3.
  assert (Hs3 : shape (with_mAllocator m3 v) L)
    by (apply shape_mem; [exact Hs|congruence|congruence]).
  destruct (Adjust_spec _ L n Hs3 ltac:(lia))
    as (v3 & Hadj & Hs4 & Hm4 & He4 & Hn4).
  set (v' := with_mCurrent (adjust_target L n) v3).
  assert (Hs' : shape v' (adjust L n)) by (apply shape_with_mCurrent, Hs4).
  exists m2, v'. split; [exact Hcopy|]. split; [exact Hb2|]. split; [exact Hn2|].
  split.
  { rewrite Hdes. cbn [mbind outcome_bind].
    change (with_mAllocator m3 (with_mAllocator m2 v)) with (with_mAllocator m3 v).
    rewrite Hadj. reflexivity. }
  split; [exact Hs'|].
  split; [apply cursor_ok_adjust; [exact Hs'|reflexivity]|].
  split; [reflexivity|]. split; [|exact He4].
  intros k y Hk. pose proof (lookup_lt_Some _ _ _ Hk) as Hlt.
  assert (Hkn : Z.of_nat k < n) by (subst n; lia).
  rewrite (read_spec _ _ _ Hs') by lia.
  rewrite (locate_ext _ _ _ (adjust_bases L n)).
  destruct (locate_lt _ L (Z.of_nat k) (shape_ok _ _ Hs) ltac:(lia))
    as (a & Ha & Hin).
  rewrite Ha. cbn [mbind outcome_bind]. subst v'. simpl. rewrite Hm4. simpl.
  rewrite load_in_block.
  - rewrite (Hcells3 (Z.of_nat k) a ltac:(lia) Ha).
    rewrite decide_False by lia.
    simpl. rewrite (Hcells2 (Z.of_nat k) a ltac:(lia) Ha).
    rewrite decide_True by (subst n; lia).
    rewrite Z.sub_0_r, Nat2Z.id, Hk. reflexivity.
  - unfold in_block in *. rewrite Hb3, Hb2. exact Hin.
Qed.

(** [Allocate_new_n] on a vector that holds no storage. *)
Lemma Allocate_new_n_blank (vf : vector) (cap : Z) :
  blocks (mAllocator vf) = ∅ -> mSegmentAllocator vf = ∅ ->
  0 < cap <= size_limit ->
  exists v1,
    Allocate_new_n cap vf = Ok v1 /\
    shape v1 [ {| d_ref := Head; d_base := Some (next_block (mAllocator vf));
                  d_cap := cap; d_used := 0 |} ].
Proof.
  intros Hb Hn Hcap. eexists. split.
  { unfold Allocate_new_n, Check_size.
    destruct (cap >? size_limit) eqn:E; [apply Z.gtb_lt in E; lia|].
    reflexivity. }
  constructor; simpl; try reflexivity.
  - intros [|j] d; simpl; [|discriminate]. intros [= <-].
    eexists. split; [reflexivity|]. simpl. repeat split.
  - apply NoDup_singleton.
  - apply NoDup_singleton.
  - constructor; [|constructor]. split; simpl; [lia|].
    split; [apply lookup_insert_eq|lia].
  - intros j d. discriminate.
  - lia.
  - intros k s. rewrite Hn, lookup_empty. discriminate.
  - intros b k. rewrite Hb.
    destruct (decide (b = next_block (mAllocator vf))) as [->|Hne]; [lia|].
    rewrite lookup_insert_ne by congruence. rewrite lookup_empty. discriminate.
Qed.

Lemma cursor_ok_mem (v : vector) L m :
  cursor_ok v L -> cursor_ok (with_mAllocator m v) L.
Proof. intros H. exact H. Qed.

(** X21.  [assign(std::initializer_list)] on a vector built by the
    initializer-list constructor and [push_back] calls: it returns,
    [size()] is the length of the new list and the elements are its
    values, in order; when the new list is longer than the capacity [c],
    the storage is replaced by one block of [max(c + c / 2, length)]
    cells; and whenever the capacity afterwards equals the new size
    (always so on a new vector), [mCurrent] is left null and the next
    [push_back] is undefined behaviour. *)
Theorem assign_replaces_the_elements (init xs ys : list Type_) (y : Type_) :
  Z.of_nat (length init) + Z.of_nat (length xs) <= 2 ^ 62 ->
  Z.of_nat (length ys) <= 2 ^ 62 ->
  exists v0 v v' : vector,
    create_from init = Ok v0 /\
    push_back_all sizeof_Type xs v0 = Ok v /\
    assign ys v = Ok v' /\
    size_ v' = Ok (Z.of_nat (length ys)) /\
    (forall (k : nat) z, ys !! k = Some z -> read (Z.of_nat k) v' = Ok z) /\
    (forall c, Get_capacity v = Ok c -> c < Z.of_nat (length ys) ->
       Get_capacity v' = Ok (Z.max (c + c / 2) (Z.of_nat (length ys)))) /\
    (Get_capacity v' = Ok (Z.of_nat (length ys)) ->
       mCurrent v' = None /\ push_back sizeof_Type y v' = Undefined).
Proof.
  intros Hlen Hys. set (n := Z.of_nat (length ys)) in *.
  destruct (built_state init xs Hlen)
    as (v0 & v & L & Hv0 & Hrun & K & Hu & Hcapb & _).
  pose proof (kept_normal _ _ K) as Hn. pose proof (normal_shape _ _ Hn) as Hs.
  pose proof (sum_used_bounds _ _ (shape_ok _ _ Hs)) as Hub.
  pose proof (normal_size _ _ Hn) as Hsize.
  pose proof (Get_capacity_spec _ _ Hs) as Hcap.
  assert (Hmain : exists (v' : vector) L' (m : memory Type_),
            assign ys v = Ok v' /\ shape v' (adjust L' n) /\
            cursor_ok v' (adjust L' n) /\ mCurrent v' = adjust_target L' n /\
            (forall (k : nat) z, ys !! k = Some z -> read (Z.of_nat k) v' = Ok z) /\
            Forall (desc_ok m) L' /\ n <= sum_cap L' /\
            (sum_cap L < n -> sum_cap L' = Z.max (sum_cap L + sum_cap L / 2) n)).
  { unfold assign, Assign_range. rewrite Hsize. cbn [mbind outcome_bind].
    unfold Check_size. fold n.
    destruct (n >? size_limit) eqn:E;
      [apply Z.gtb_lt in E; unfold size_limit in E; lia|].
    cbn [mbind outcome_bind].
    destruct (n >? sum_used L) eqn:E1.
    - apply Z.gtb_lt in E1. rewrite Hcap. cbn [mbind outcome_bind].
      destruct (n >? sum_cap L) eqn:E2.
      + apply Z.gtb_lt in E2. unfold Deallocate_then_allocate.
        destruct (n >? max_size) eqn:E3;
          [apply Z.gtb_lt in E3; unfold max_size, size_limit in E3; lia|].
        rewrite (Calculate_new_capacity_spec v (sum_cap L) n Hcap)
          by (unfold size_limit; lia).
        cbn [mbind outcome_bind].
        destruct (Finalise_kept v L K)
          as (vf & Hfin & Hfb & _ & Hfn & _).
        unfold Finalise in Hfin. rewrite Hfin. cbn [mbind outcome_bind].
        set (cap := Z.max (sum_cap L + sum_cap L / 2) n).
        destruct (Allocate_new_n_blank vf cap Hfb Hfn) as (v1 & Hall & Hs1);
          [unfold size_limit; lia|].
        rewrite Hall. cbn [mbind outcome_bind].
        set (L1 := [ {| d_ref := Head; d_base := Some (next_block (mAllocator vf));
                        d_cap := cap; d_used := 0 |} ]) in *.
        destruct (overwrite_spec v1 L1 ys n Hs1)
          as (m2 & v' & Hcopy & _ & _ & Hrest & Hs' & Hc' & Hcur' & Hread' & _);
          [simpl; lia|].
        fold n in Hrest, Hs', Hc', Hcur'.
        rewrite Z.sub_diag in Hrest. cbn [Z.to_nat Destruct_loop mbind outcome_bind] in Hrest.
        exists v', L1, (mAllocator v1).
        split; [cbn [mIndex begin_ Return_iterator]; rewrite Hcopy;
                cbn [mbind outcome_bind]; exact Hrest|].
        split; [exact Hs'|]. split; [exact Hc'|]. split; [exact Hcur'|].
        split; [exact Hread'|]. split; [apply (shape_ok _ _ Hs1)|].
        split; [simpl; lia|]. intros _. simpl. lia.
      + assert (Hle : n <= sum_cap L).
        { destruct (Z.gtb_spec n (sum_cap L)); [discriminate|lia]. }
        destruct (overwrite_spec v L ys n Hs)
          as (m2 & v' & Hcopy & _ & _ & Hrest & Hs' & Hc' & Hcur' & Hread' & _);
          [lia|].
        fold n in Hrest, Hs', Hc', Hcur'.
        rewrite Z.sub_diag in Hrest. cbn [Z.to_nat Destruct_loop mbind outcome_bind] in Hrest.
        exists v', L, (mAllocator v).
        split; [cbn [mbind outcome_bind mIndex begin_ Return_iterator];
                rewrite Hcopy; cbn [mbind outcome_bind]; exact Hrest|].
        split; [exact Hs'|]. split; [exact Hc'|]. split; [exact Hcur'|].
        split; [exact Hread'|]. split; [apply (shape_ok _ _ Hs)|].
        split; [lia|]. intros Hlt. lia.
    - assert (Hle : n <= sum_used L).
      { destruct (Z.gtb_spec n (sum_used L)); [discriminate|lia]. }
      destruct (overwrite_spec v L ys (sum_used L) Hs)
        as (m2 & v' & Hcopy & Hb2 & Hn2 & Hrest & Hs' & Hc' & Hcur' & Hread' & _);
        [lia|].
      fold n in Hrest, Hs', Hc', Hcur'.
      exists v', L, (mAllocator v).
      split.
      { cbn [mIndex begin_ Return_iterator]. rewrite Hcopy.
        cbn [mbind outcome_bind]. unfold End_iterator.
        rewrite (Get_size_spec _ _ (shape_mem _ _ m2 Hs Hb2 Hn2)
                   (normal_cursor_ok _ _ Hn)).
        cbn [mbind outcome_bind mIndex Return_iterator]. unfold Destruct.
        rewrite Z.add_0_l, (wrap_small n) by (unfold size_limit; lia).
        rewrite wrap_small by (unfold size_limit; lia). exact Hrest. }
      split; [exact Hs'|]. split; [exact Hc'|]. split; [exact Hcur'|].
      split; [exact Hread'|]. split; [apply (shape_ok _ _ Hs)|].
      split; [lia|]. intros Hlt. lia. }
  destruct Hmain as (v' & L' & m & Hassign & Hs' & Hc' & Hcur' & Hread' & Hok' & Hle' & Hgrow).
  pose proof (adjust_sum_used m L' n Hok' ltac:(lia)) as Hused'.
  assert (Hcap' : Get_capacity v' = Ok (sum_cap L')).
  { rewrite (Get_capacity_spec _ _ Hs'). f_equal. apply sum_cap_ext, adjust_bases. }
  exists v0, v, v'. split; [exact Hv0|]. split; [exact Hrun|].
  split; [exact Hassign|].
  split; [unfold size_; rewrite (Get_size_spec _ _ Hs' Hc'), Hused'; reflexivity|].
  split; [exact Hread'|].
  split.
  - intros c Hc Hlt. rewrite Hcap in Hc. injection Hc as <-.
    rewrite Hcap', Hgrow by exact Hlt. reflexivity.
  - intros Hceq. rewrite Hcap' in Hceq. injection Hceq as Hceq.
    assert (Hnone : mCurrent v' = None).
    { rewrite Hcur'. apply (adjust_target_ge m); [exact Hok'|lia]. }
    split; [exact Hnone|].
    apply (push_back_null_current v' (adjust L' n) y Hs' Hc' Hnone).
    rewrite Hused'. rewrite (sum_cap_ext (adjust L' n) L' (adjust_bases L' n)).
    lia.
Qed.

(** *** [shrink_to_fit] *)

(** [Finalise_no_lock] on a vector whose allocator also holds blocks that
    do not belong to the chain: those blocks and their cells are kept. *)
Lemma Finalise_chain_frame (v : vector) L :
  shape v L -> back_linked v L -> mEnd v = d_ref <$> last L ->
  (size (mSegmentAllocator v) + 1 = length L)%nat ->
  cells_in_blocks (mAllocator v) ->
  exists v',
    Finalise_no_lock v = Ok v' /\
    (forall b, blocks (mAllocator v') !! b
               = if decide (b ∈ omap d_base L) then None
                 else blocks (mAllocator v) !! b) /\
    (forall a, a.1 ∉ omap d_base L ->
       cells (mAllocator v') !! a = cells (mAllocator v) !! a) /\
    cells_in_blocks (mAllocator v') /\
    (size (blocks (mAllocator v')) + length (omap d_base L)
     = size (blocks (mAllocator v)))%nat /\
    mSegmentAllocator v' = ∅ /\ mSegment v' = Data_Segment.null /\
    mCurrent v' = Some Head /\ mEnd v' = Some Head /\
    next_segment v' = next_segment v /\
    next_block (mAllocator v') = next_block (mAllocator v).
Proof.
  intros Hs HB Hend Hnodes Hkc.
  destruct (last L) as [d|] eqn:El.
  2:{ apply last_None in El. subst L. pose proof (shape_head _ _ Hs). discriminate. }
  apply last_Some in El as [P ->]. simpl in Hend.
  rewrite length_app in Hnodes. simpl in Hnodes.
  destruct (Finalise_loop_walk P d v (budget v) (back_chain_of _ _ Hs HB) Hkc)
    as (v' & Hrun & Hnull & Hcells & Hsb & Hsn & Hns & Hnb & HF1 & HF2);
    [unfold budget; lia|].
  exists (with_mCurrent (Some Head) (with_mEnd (Some Head) v')).
  split.
  { unfold Finalise_no_lock. rewrite Hend, Hrun. reflexivity. }
  simpl. split; [exact HF1|]. split; [exact HF2|]. split; [exact Hcells|].
  split; [exact Hsb|].
  split; [apply map_size_empty_inv; lia|]. split; [exact Hnull|].
  split; [reflexivity|]. split; [reflexivity|]. split; assumption.
Qed.

Lemma shape_allocate (v : vector) L n :
  shape v L -> shape (with_mAllocator (allocate n (mAllocator v)).2 v) L.
Proof.
  intros H. pose proof (shape_fresh _ _ H) as Hfresh.
  destruct H. constructor; simpl; auto.
  - eapply Forall_impl; [eassumption|]. intros d [Hu Hd]. split; [exact Hu|].
    destruct (d_base d) as [b|]; [|exact Hd]. destruct Hd as [Hb Hc].
    split; [|exact Hc]. simpl. rewrite lookup_insert_ne; [exact Hb|].
    intros <-. pose proof (Hfresh _ _ Hb). lia.
  - intros b k.
    destruct (decide (b = next_block (mAllocator v))) as [->|Hne]; [lia|].
    rewrite lookup_insert_ne by congruence. intros Hb.
    pose proof (Hfresh _ _ Hb). lia.
Qed.

(** The loop of [Move_or_copy_n] from the elements of the vector to the
    cells of a block [nb] outside the chain. *)
Lemma Move_or_copy_n_loop_spec (L : list desc) (ys : list Type_) (nb : nat)
    (cap : Z) :
  forall (count : nat) (i : Z) (v : vector),
    shape v L -> blocks (mAllocator v) !! nb = Some cap ->
    nb ∉ omap d_base L ->
    0 <= i -> i + Z.of_nat count <= cap ->
    i + Z.of_nat count <= Z.of_nat (length ys) ->
    i + Z.of_nat count <= size_limit ->
    (forall (k : nat) y, ys !! k = Some y -> i <= Z.of_nat k ->
       read (Z.of_nat k) v = Ok y) ->
    exists m',
      Move_or_copy_n_loop count (Some (nb, i)) i v = Ok (with_mAllocator m' v) /\
      blocks m' = blocks (mAllocator v) /\
      next_block m' = next_block (mAllocator v) /\
      (forall a, cells m' !! a =
         if decide (a.1 = nb /\ i <= a.2 < i + Z.of_nat count)
         then ys !! Z.to_nat a.2
         else cells (mAllocator v) !! a).
Proof.
  induction count as [|count IH]; intros i v Hs Hnb Hout Hi Hcap Hlen Hlim Hread.
  - exists (mAllocator v). split; [destruct v; reflexivity|].
    split; [reflexivity|]. split; [reflexivity|].
    intros a. rewrite decide_False by lia. reflexivity.
  - destruct (lookup_lt_is_Some_2 ys (Z.to_nat i) ltac:(lia)) as [y Hy].
    pose proof (Hread _ y Hy ltac:(lia)) as Hr.
    rewrite Z2Nat.id in Hr by lia.
    rewrite (read_spec _ _ _ Hs Hi) in Hr.
    destruct (locate L i) as [src| | |] eqn:Hsrc; try discriminate.
    cbn [mbind outcome_bind] in Hr.
    cbn [Move_or_copy_n_loop]. rewrite (Get_value_at_spec _ _ _ Hs Hi), Hsrc.
    cbn [mbind outcome_bind]. rewrite Hr. cbn [mbind outcome_bind].
    assert (Hin : in_block (mAllocator v) (nb, i) = true).
    { unfold in_block. simpl. rewrite Hnb.
      rewrite (proj2 (Z.leb_le _ _)), (proj2 (Z.ltb_lt _ _)) by lia.
      reflexivity. }
    rewrite construct_ok by exact Hin. cbn [mbind outcome_bind ptr_add].
    set (m1 := {| cells := <[(nb, i) := y]> (cells (mAllocator v));
                  blocks := blocks (mAllocator v);
                  next_block := next_block (mAllocator v) |}).
    assert (Hs1 : shape (with_mAllocator m1 v) L) by (apply shape_mem; auto).
    rewrite wrap_small by lia.
    destruct (IH (i + 1) (with_mAllocator m1 v) Hs1 Hnb Hout ltac:(lia)
                ltac:(lia) ltac:(lia) ltac:(lia))
      as (m' & Hrun & Hb & Hn & Hcells).
    { intros k z Hk Hik.
      pose proof (Hread k z Hk ltac:(lia)) as Hrk.
      rewrite (read_spec _ _ _ Hs) in Hrk by lia.
      rewrite (read_spec _ _ _ Hs1) by lia.
      destruct (locate L (Z.of_nat k)) as [[b o]| | |] eqn:Hloc; try discriminate.
      cbn [mbind outcome_bind] in *.
      pose proof (locate_block (mAllocator v) _ _ _ _ Hloc) as Hbl.
      unfold load in *. unfold in_block in *. simpl in *.
      rewrite lookup_insert_ne; [exact Hrk|].
      intros E. injection E as E1 E2. subst. exact (Hout Hbl). }
    exists m'. split; [exact Hrun|]. split; [exact Hb|]. split; [exact Hn|].
    intros a. rewrite (Hcells a). simpl.
    destruct (decide (a.1 = nb /\ i + 1 <= a.2 < i + 1 + Z.of_nat count))
      as [Hr1|Hr1].
    + rewrite decide_True by lia. reflexivity.
    + destruct (decide (a = (nb, i))) as [->|Hne].
      * rewrite decide_True by (simpl; lia). simpl.
        rewrite lookup_insert_eq. symmetry. exact Hy.
      * rewrite lookup_insert_ne by congruence.
        rewrite decide_False; [reflexivity|].
        intros [E1 E2]. destruct a as [b o]. simpl in *.
        assert (o = i) by lia. subst. apply Hne. reflexivity.
Qed.

Lemma map_size_one (m : gmap nat Z) k x :
  size m = 1%nat -> m !! k = Some x -> m = {[ k := x ]}.
Proof.
  intros Hsz Hk. apply map_eq. intros j.
  destruct (decide (j = k)) as [->|Hne].
  - rewrite lookup_singleton_eq. exact Hk.
  - rewrite lookup_singleton_ne by congruence.
    pose proof (map_size_delete k m) as Hd. rewrite Hk, Hsz in Hd.
    apply map_size_empty_inv in Hd.
    rewrite <- (lookup_delete_ne m k j) by congruence.
    rewrite Hd. apply lookup_empty.
Qed.

(** The test of [shrink_to_fit] on a vector that constructors and appends
    have left: it asks whether a cell is unused. *)
Lemma shrink_to_fit_test (v : vector) L :
  normal v L ->
  (if decide (mCurrent v <> mEnd v) then Ok true
   else s ← segment_at (mCurrent v) v;
        Ok (bool_decide (Data_Segment.mCurrent s <> Data_Segment.mEnd s)))
  = Ok (bool_decide (sum_used L <> sum_cap L)).
Proof.
  intros Hn. pose proof (normal_shape _ _ Hn) as Hs.
  destruct (normal_last _ _ Hn) as (P & d & -> & Hc & He & Hu & Hcap & _ & Hd).
  rewrite decide_False by (rewrite Hc, He; intros E; apply E; reflexivity).
  rewrite Hc, segment_at_Some.
  destruct (shape_linked _ _ Hs (length P) d) as (s & Hseg & _ & Hsc & Hse & _).
  { rewrite lookup_app_r, Nat.sub_diag by lia. reflexivity. }
  rewrite Hseg. cbn [mbind outcome_bind]. rewrite Hsc, Hse. f_equal.
  destruct Hd as [Hr Hd]. unfold base_ptr.
  destruct (d_base d) as [b|].
  - destruct (decide (d_used d = d_cap d)) as [E|E].
    + rewrite E, !bool_decide_eq_false_2; [reflexivity|lia|].
      intros H. apply H. reflexivity.
    + rewrite !bool_decide_eq_true_2; [reflexivity|lia|congruence].
  - rewrite !bool_decide_eq_false_2; [reflexivity|lia|].
    intros H. apply H. reflexivity.
Qed.

(** The descriptor of the one block [Reallocate_to_fit_n] leaves. *)
Definition fitted (b : nat) (n : Z) : list desc :=
  [ {| d_ref := Head; d_base := Some b; d_cap := n; d_used := n |} ].

(** [shrink_to_fit] on a vector with elements and with unused cells. *)
Lemma shrink_to_fit_kept (v : vector) L (ys : list Type_) :
  kept v L -> sum_used L = Z.of_nat (length ys) -> ys <> [] ->
  sum_used L < sum_cap L ->
  (forall (k : nat) y, ys !! k = Some y -> read (Z.of_nat k) v = Ok y) ->
  exists v',
    shrink_to_fit v = Ok v' /\
    kept v' (fitted (next_block (mAllocator v)) (sum_used L)) /\
    blocks (mAllocator v') = {[ next_block (mAllocator v) := sum_used L ]} /\
    (forall (k : nat) y, ys !! k = Some y -> read (Z.of_nat k) v' = Ok y).
Proof.
  intros K Hu Hne Hlt Hread.
  pose proof (kept_normal _ _ K) as Hn. pose proof (normal_shape _ _ Hn) as Hs.
  pose proof (shape_cap _ _ Hs) as Hlim.
  pose proof (normal_cursor_ok _ _ Hn) as Hcur.
  pose proof (shape_fresh _ _ Hs) as Hfresh.
  assert (Hpos : 0 < sum_used L) by (destruct ys; [congruence|simpl in Hu; lia]).
  set (nb := next_block (mAllocator v)).
  assert (Hout : nb ∉ omap d_base L).
  { intros Hin. apply list_elem_of_omap in Hin as (d & Hd & Hb).
    pose proof (proj1 (Forall_forall _ _) (shape_ok _ _ Hs) d Hd) as [_ Hok].
    rewrite Hb in Hok. destruct Hok as [Hok _].
    pose proof (Hfresh _ _ Hok). unfold nb in *. lia. }
  assert (Hnone : blocks (mAllocator v) !! nb = None).
  { destruct (blocks (mAllocator v) !! nb) as [k|] eqn:E; [|reflexivity].
    pose proof (Hfresh _ _ E). unfold nb in *. lia. }
  unfold shrink_to_fit. rewrite (shrink_to_fit_test v L Hn).
  cbn [mbind outcome_bind]. rewrite bool_decide_eq_true_2 by lia.
  rewrite decide_False.
  2:{ intros [Hc Hbc].
      destruct (normal_last _ _ Hn) as (P & d & -> & Hc' & _ & Hu' & _ & _ & Hd).
      rewrite Hc' in Hc. injection Hc as Hc.
      pose proof (shape_head _ _ Hs) as Hh.
      assert (HP : P = []).
      { destruct P as [|d0 P]; [reflexivity|]. exfalso.
        pose proof (shape_refs _ _ Hs) as Hnd.
        assert (H0 : (d_ref <$> (d0 :: P) ++ [d]) !! 0%nat = Some Head)
          by (rewrite list_lookup_fmap; exact Hh).
        assert (H1 : (d_ref <$> (d0 :: P) ++ [d]) !! length (d0 :: P) = Some Head).
        { rewrite list_lookup_fmap, lookup_app_r, Nat.sub_diag by lia.
          simpl. congruence. }
        pose proof (NoDup_lookup _ _ _ _ Hnd H0 H1) as E. simpl in E. lia. }
      subst P.
      destruct (shape_linked _ _ Hs 0%nat d eq_refl) as (s & Hseg & Hsb & Hsc & _).
      rewrite <- Hc in Hseg. simpl in Hseg. injection Hseg as <-.
      rewrite Hsb, Hsc in Hbc. unfold base_ptr in Hbc.
      simpl in Hpos. destruct Hd as [Hr Hd].
      destruct (d_base d); [injection Hbc as Hbc; lia|lia]. }
  rewrite (normal_size _ _ Hn). cbn [mbind outcome_bind].
  unfold Reallocate_to_fit_n, Check_size.
  destruct (sum_used L >? size_limit) eqn:E; [apply Z.gtb_lt in E; lia|].
  cbn [mbind outcome_bind]. rewrite (normal_size _ _ Hn).
  cbn [mbind outcome_bind allocate]. fold nb.
  set (mem := {| cells := cells (mAllocator v);
                 blocks := <[nb := sum_used L]> (blocks (mAllocator v));
                 next_block := S nb |}).
  pose proof (shape_allocate v L (sum_used L) Hs) as Hs1.
  change (allocate (sum_used L) (mAllocator v)).2 with mem in Hs1.
  unfold End_iterator.
  rewrite (Get_size_spec _ _ Hs1 (cursor_ok_mem v L mem Hcur)).
  cbn [mbind outcome_bind]. unfold Move_or_copy_n.
  cbn [mIndex begin_ Return_iterator]. rewrite Z.sub_0_r.
  destruct (Move_or_copy_n_loop_spec L ys nb (sum_used L) (Z.to_nat (sum_used L)) 0
              (with_mAllocator mem v) Hs1)
    as (m' & Hrun & Hb' & Hn' & Hcells').
  { simpl. apply lookup_insert_eq. }
  { exact Hout. }
  { lia. }
  { lia. }
  { lia. }
  { lia. }
  { intros k y Hk _. pose proof (Hread k y Hk) as Hrk.
    rewrite (read_spec _ _ _ Hs) in Hrk by lia.
    rewrite (read_spec _ _ _ Hs1) by lia.
    destruct (locate L (Z.of_nat k)) as [[b o]| | |] eqn:Hloc; try discriminate.
    cbn [mbind outcome_bind] in *.
    pose proof (locate_block (mAllocator v) _ _ _ _ Hloc) as Hbl.
    unfold load in *. unfold in_block in *. simpl in *.
    rewrite lookup_insert_ne; [exact Hrk|].
    intros <-. exact (Hout Hbl). }
  rewrite Hrun. cbn [mbind outcome_bind].
  change (with_mAllocator m' (with_mAllocator mem v)) with (with_mAllocator m' v).
  simpl in Hb', Hn'.
  assert (Hs2 : shape (with_mAllocator m' v) L).
  { apply (shape_mem (with_mAllocator mem v) L m' Hs1); assumption. }
  destruct (Finalise_chain_frame (with_mAllocator m' v) L Hs2)
    as (vf & Hfin & HF1 & HF2 & Hcib & Hsz & Hnodes0 & Hnull & Hc0 & He0 & Hns
        & Hnbk).
  { apply (back_linked_ext v _ L L eq_refl); [|exact (kept_links _ _ K)].
    intros r. destruct r; reflexivity. }
  { simpl. rewrite (normal_end _ _ Hn). apply (normal_current _ _ Hn). }
  { simpl. apply (kept_nodes _ _ K). }
  { intros a x Ha. simpl in *. rewrite Hcells' in Ha. rewrite Hb'.
    destruct (decide (a.1 = nb /\ 0 <= a.2 < 0 + Z.of_nat (Z.to_nat (sum_used L))))
      as [[-> _]|_].
    - rewrite lookup_insert_eq. eauto.
    - apply lookup_insert_is_Some'. right. exact (kept_cells _ _ K a x Ha). }
  simpl in HF1, HF2, Hsz, Hns, Hnbk.
  assert (Hblocks : blocks (mAllocator vf) = {[ nb := sum_used L ]}).
  { apply map_size_one.
    - rewrite Hb', map_size_insert, Hnone, (kept_blocks _ _ K) in Hsz.
      unfold id in Hsz. lia.
    - rewrite HF1, decide_False by exact Hout. rewrite Hb'.
      apply lookup_insert_eq. }
  unfold Exchange_data. rewrite Hfin. cbn [mbind outcome_bind ptr_add].
  rewrite Hnull, Hc0, He0, Hnodes0, Z.add_0_l.
  cbn [Data_Segment.mSegBefore Data_Segment.mSegAfter Data_Segment.null].
  eexists. split; [reflexivity|].
  assert (Hshape : shape
            {| mSegment :=
                 {| Data_Segment.mBegin := Some (nb, 0);
                    Data_Segment.mCurrent := Some (nb, sum_used L);
                    Data_Segment.mEnd := Some (nb, sum_used L);
                    Data_Segment.mSegBefore := None;
                    Data_Segment.mSegAfter := None |};
               mCurrent := Some Head; mEnd := Some Head;
               mAllocator := mAllocator vf; mSegmentAllocator := ∅;
               next_segment := next_segment vf |}
            (fitted nb (sum_used L))).
  { constructor; simpl; try reflexivity.
    - intros [|j] d; simpl; [|discriminate]. intros [= <-].
      eexists. split; [reflexivity|]. simpl. repeat split.
    - apply NoDup_singleton.
    - apply NoDup_singleton.
    - constructor; [|constructor]. split; simpl; [lia|].
      split; [rewrite Hblocks; apply lookup_singleton_eq|lia].
    - intros j d. discriminate.
    - lia.
    - intros k s. rewrite lookup_empty. discriminate.
    - intros b k. rewrite Hblocks, Hnbk, Hn'. intros Hb.
      apply lookup_singleton_Some in Hb as [<- _]. lia. }
  split; [|split; [exact Hblocks|]].
  - constructor.
    + constructor; [exact Hshape|reflexivity|reflexivity|].
      intros j d _ Hj. simpl in Hj. lia.
    + intros [|j] d Hj; [|discriminate]. injection Hj as <-. reflexivity.
    + reflexivity.
    + simpl. rewrite Hblocks, map_size_singleton. reflexivity.
    + exact Hcib.
    + left. reflexivity.
  - intros k y Hk. pose proof (lookup_lt_Some _ _ _ Hk) as Hklt.
    rewrite (read_spec _ _ _ Hshape) by lia. simpl.
    rewrite (proj2 (Z.ltb_lt _ _)) by lia. cbn [mbind outcome_bind].
    rewrite load_in_block.
    + rewrite HF2 by exact Hout. rewrite Hcells'.
      rewrite decide_True by (simpl; lia). simpl.
      rewrite Nat2Z.id, Hk. reflexivity.
    + unfold in_block. simpl. rewrite Hblocks, lookup_singleton_eq.
      rewrite (proj2 (Z.leb_le _ _)), (proj2 (Z.ltb_lt _ _)) by lia.
      reflexivity.
Qed.

(** X22.  [shrink_to_fit()] on a vector built by the initializer-list
    constructor and [push_back] calls: it returns, [size()] and the
    elements are unchanged and [capacity()] is [size()] afterwards.  With
    no unused cell the vector is left as it is.  Otherwise the elements
    are moved to one new block of exactly [size()] cells, every former
    block and segment node is released, the element of index [k] is at
    offset [k] of the new block, and a following [push_back] returns. *)
Theorem shrink_to_fit_trims_storage (init xs : list Type_) (y : Type_) :
  Z.of_nat (length init) + Z.of_nat (length xs) <= 2 ^ 62 ->
  exists v0 v v' : vector,
    create_from init = Ok v0 /\
    push_back_all sizeof_Type xs v0 = Ok v /\
    shrink_to_fit v = Ok v' /\
    size_ v' = Ok (Z.of_nat (length (init ++ xs))) /\
    Get_capacity v' = Ok (Z.of_nat (length (init ++ xs))) /\
    (forall (k : nat) z, (init ++ xs) !! k = Some z ->
       read (Z.of_nat k) v' = Ok z) /\
    (Get_capacity v = Ok (Z.of_nat (length (init ++ xs))) -> v' = v) /\
    (Get_capacity v <> Ok (Z.of_nat (length (init ++ xs))) ->
       blocks (mAllocator v')
       = {[ next_block (mAllocator v) := Z.of_nat (length (init ++ xs)) ]} /\
       mSegmentAllocator v' = ∅ /\
       (forall k, 0 <= k < Z.of_nat (length (init ++ xs)) ->
          Get_value_at k v' = Ok (next_block (mAllocator v), k)) /\
       exists v'', push_back sizeof_Type y v' = Ok v'' /\
                   size_ v'' = Ok (Z.of_nat (length (init ++ xs)) + 1)).
Proof.
  intros Hlen.
  pose proof (Min_segment_size_ge_8 sizeof_Type) as Hmin.
  assert (Hmin32 : Min_segment_size <= 32).
  { unfold Vector.Min_segment_size.
    destruct (Min_segment_size_eval_cases sizeof_Type) as [->|[->| ->]]; lia. }
  destruct (decide (init ++ xs = [])) as [Hnil|Hne].
  - apply app_eq_nil in Hnil as [-> ->].
    exists create, create, create.
    split; [reflexivity|]. split; [reflexivity|]. split; [reflexivity|].
    split; [reflexivity|]. split; [reflexivity|].
    split; [intros k z Hk; discriminate|]. split; [reflexivity|].
    intros H. exfalso. apply H. reflexivity.
  - destruct (built_state init xs Hlen)
      as (v0 & v & L & Hv0 & Hrun & K & Hu & Hcapb & Hread).
    pose proof (kept_normal _ _ K) as Hn.
    pose proof (normal_shape _ _ Hn) as Hs.
    pose proof (sum_used_bounds _ _ (shape_ok _ _ Hs)) as Hub.
    pose proof (Get_capacity_spec _ _ Hs) as Hcap.
    assert (Hlen' : Z.of_nat (length (init ++ xs)) = sum_used L)
      by (rewrite length_app; lia).
    rewrite Hlen'.
    exists v0, v. destruct (decide (sum_used L = sum_cap L)) as [Hfit|Hunfit].
    + exists v. split; [exact Hv0|]. split; [exact Hrun|].
      split.
      { unfold shrink_to_fit. rewrite (shrink_to_fit_test v L Hn).
        cbn [mbind outcome_bind].
        rewrite bool_decide_eq_false_2 by (intros H; apply H; exact Hfit).
        reflexivity. }
      split; [exact (normal_size _ _ Hn)|].
      split; [rewrite Hcap, Hfit; reflexivity|].
      split; [exact Hread|]. split; [reflexivity|].
      intros H. exfalso. apply H. rewrite Hcap, Hfit. reflexivity.
    + destruct (shrink_to_fit_kept v L (init ++ xs) K) as (v' & Hrun' & K' & Hb' & Hread');
        [lia|exact Hne|lia|exact Hread|].
      pose proof (kept_normal _ _ K') as Hn'.
      pose proof (normal_shape _ _ Hn') as Hs'.
      exists v'. split; [exact Hv0|]. split; [exact Hrun|].
      split; [exact Hrun'|].
      split.
      { unfold size_. rewrite (normal_size _ _ Hn'). simpl. f_equal. lia. }
      split.
      { rewrite (Get_capacity_spec _ _ Hs'). simpl. f_equal. lia. }
      split; [exact Hread'|].
      split; [intros H; rewrite Hcap in H; injection H as H; lia|].
      intros _. split; [exact Hb'|]. split.
      { apply map_size_empty_inv. pose proof (kept_nodes _ _ K') as H.
        simpl in H. lia. }
      split.
      { intros k Hk. rewrite (Get_value_at_spec _ _ _ Hs') by lia. simpl.
        rewrite (proj2 (Z.ltb_lt _ _)) by lia. reflexivity. }
      destruct (kept_step v' _ y K') as (a & v'' & L'' & He & Hp & K'').
      { simpl. assert (0 <= sum_used L / 2) by (apply Z.div_pos; lia).
        assert (sum_used L / 2 <= sum_used L)
          by (apply Z.div_le_upper_bound; lia).
        unfold size_limit. lia. }
      exists v''. split; [unfold push_back; rewrite He; reflexivity|].
      unfold size_. rewrite (normal_size _ _ (kept_normal _ _ K'')).
      rewrite (step_used _ _ _ _ _ _ _ Hp). simpl. f_equal. lia.
Qed.

(** *** [clear] followed by [shrink_to_fit] *)

Lemma Adjust_walk_before fuel :
  forall (v : vector) index t r0 v',
    Adjust_walk fuel v index t = Ok (r0, v') ->
    forall r, before_of v' r = before_of v r.
Proof.
  induction fuel as [|fuel IH]; intros v index t r0 v' H r; [discriminate|].
  cbn [Adjust_walk] in H.
  destruct t as [rt|]; [|injection H as _ <-; reflexivity].
  apply bind_Ok in H as (s & Hs & H).
  apply bind_Ok in H as (n & Hn & H).
  destruct (index <? n).
  - apply bind_Ok in H as (p & Hp & H). injection H as _ <-.
    apply (before_of_set_segment v rt s); [exact Hs|reflexivity].
  - rewrite (IH _ _ _ _ _ H r).
    apply (before_of_set_segment v rt s); [exact Hs|reflexivity].
Qed.

Lemma Adjust_reset_before fuel :
  forall (v : vector) t v',
    Adjust_reset fuel v t = Ok v' ->
    forall r, before_of v' r = before_of v r.
Proof.
  induction fuel as [|fuel IH]; intros v t v' H r; [discriminate|].
  cbn [Adjust_reset] in H.
  destruct t as [rt|]; [|injection H as <-; reflexivity].
  apply bind_Ok in H as (s & Hs & H).
  rewrite (IH _ _ _ H r).
  apply (before_of_set_segment v rt s); [exact Hs|reflexivity].
Qed.

(** [Adjust_segments_and_get_last_address_for] moves cursors only: the
    links back are as before. *)
Lemma Adjust_before index (v : vector) t v' :
  Adjust_segments_and_get_last_address_for index v = Ok (t, v') ->
  forall r, before_of v' r = before_of v r.
Proof.
  unfold Adjust_segments_and_get_last_address_for. intros H r.
  apply bind_Ok in H as ([t1 v1] & Hw & H).
  pose proof (Adjust_walk_before _ _ _ _ _ _ Hw r) as E1.
  destruct t1 as [r1|].
  - apply bind_Ok in H as (s & Hs & H). apply bind_Ok in H as (v2 & Hr & H).
    injection H as _ <-. rewrite (Adjust_reset_before _ _ _ _ Hr r). exact E1.
  - injection H as _ <-. exact E1.
Qed.

(** [Destruct] constructs nothing. *)
Lemma Destruct_loop_subset n :
  forall t (v v' : vector),
    Destruct_loop n t v = Ok v' ->
    forall a, is_Some (cells (mAllocator v') !! a) ->
              is_Some (cells (mAllocator v) !! a).
Proof.
  induction n as [|n IH]; intros t v v' H a Ha.
  - injection H as <-. exact Ha.
  - cbn [Destruct_loop] in H. apply bind_Ok in H as (p & Hp & H).
    apply bind_Ok in H as (mem & Hm & H).
    specialize (IH _ _ _ H a Ha). simpl in IH.
    unfold destroy in Hm. destruct (in_block (mAllocator v) p); [|discriminate].
    injection Hm as <-. simpl in IH.
    destruct (decide (a = p)) as [->|Hne].
    + rewrite lookup_delete_eq in IH. destruct IH; discriminate.
    + rewrite lookup_delete_ne in IH by congruence. exact IH.
Qed.

Lemma adjust_refs L idx : d_ref <$> adjust L idx = d_ref <$> L.
Proof.
  unfold adjust. revert idx. induction L as [|d L IH]; intros idx; simpl;
    [reflexivity|].
  destruct (idx <? d_cap d); simpl.
  - f_equal. rewrite <- list_fmap_compose. reflexivity.
  - specialize (IH (idx - d_cap d)).
    destruct (adjust_split L (idx - d_cap d)) as [A R]. simpl in *.
    f_equal. exact IH.
Qed.

(** A vector without storage, whatever its allocators have handed out
    before. *)
Lemma kept_blank (v : vector) :
  blocks (mAllocator v) = ∅ -> cells (mAllocator v) = ∅ ->
  mSegmentAllocator v = ∅ -> mSegment v = Data_Segment.null ->
  mCurrent v = Some Head -> mEnd v = Some Head ->
  kept v [no_storage].
Proof.
  intros Hb Hc Hn Hs Hcur Hend. constructor.
  - constructor; [constructor| | |]; simpl; try reflexivity.
    + intros [|j] d; simpl; [|discriminate]. intros [= <-].
      exists Data_Segment.null. simpl. rewrite Hs. repeat split.
    + apply NoDup_singleton.
    + constructor.
    + constructor; [|constructor]. split; simpl; [lia|reflexivity].
    + intros j d. discriminate.
    + unfold size_limit. lia.
    + intros n s. rewrite Hn, lookup_empty. discriminate.
    + intros b n. rewrite Hb, lookup_empty. discriminate.
    + exact Hcur.
    + rewrite Hend, Hcur. reflexivity.
    + intros j d _ Hlen. simpl in Hlen. lia.
  - intros [|j] d Hj; [|discriminate]. injection Hj as <-.
    unfold before_of. simpl. rewrite Hs. reflexivity.
  - rewrite Hn. reflexivity.
  - rewrite Hb. reflexivity.
  - intros a x Ha. rewrite Hc, lookup_empty in Ha. discriminate.
  - left. reflexivity.
Qed.

(** [clear()] and then [shrink_to_fit()] on a vector with storage. *)
Lemma clear_shrink_kept (v : vector) L :
  kept v L -> head_live L ->
  exists v1 v2,
    clear v = Ok v1 /\ shrink_to_fit v1 = Ok v2 /\
    blocks (mAllocator v2) = ∅ /\ cells (mAllocator v2) = ∅ /\
    mSegmentAllocator v2 = ∅ /\ mSegment v2 = Data_Segment.null /\
    mCurrent v2 = Some Head /\ mEnd v2 = Some Head.
Proof.
  intros K (d0 & b & H0 & Hb0).
  pose proof (kept_normal _ _ K) as H. pose proof (normal_shape _ _ H) as Hs.
  pose proof (sum_used_bounds _ _ (shape_ok _ _ Hs)) as Hub.
  pose proof (shape_cap _ _ Hs) as Hcap.
  pose proof (sum_cap_nonneg _ _ (shape_ok _ _ Hs)) as Hnn.
  destruct (Destruct_loop_spec L (Z.to_nat (sum_used L)) v 0 Hs ltac:(lia)
              ltac:(lia)) as (m2 & Hdes & Hb2 & Hn2 & Hcells2).
  pose proof (shape_mem _ _ m2 Hs Hb2 Hn2) as Hs2.
  destruct (Adjust_spec _ L 0 Hs2 ltac:(lia))
    as (v3 & Hadj & Hs3 & Hm3 & He3 & Hn3).
  set (v1 := with_mCurrent (adjust_target L 0) v3).
  assert (Hs1 : shape v1 (adjust L 0)) by (apply shape_with_mCurrent, Hs3).
  pose proof (shape_head _ _ Hs) as Hh. rewrite H0 in Hh. simpl in Hh.
  injection Hh as Hh.
  pose proof (shape_desc_ok _ _ _ _ Hs H0) as [Hr0 Hd0]. rewrite Hb0 in Hd0.
  destruct Hd0 as [_ Hpos0].
  assert (Hcur1 : mCurrent v1 = Some Head).
  { simpl. destruct L as [|d L0]; [discriminate|]. injection H0 as ->.
    simpl. rewrite (proj2 (Z.ltb_lt 0 (d_cap d0))) by lia. congruence. }
  assert (H01 : adjust L 0 !! 0%nat = Some (with_used 0 d0)).
  { unfold adjust. destruct L as [|d L0]; [discriminate|]. injection H0 as ->.
    simpl. rewrite (proj2 (Z.ltb_lt 0 (d_cap d0))) by lia. reflexivity. }
  destruct (shape_linked _ _ Hs1 0%nat _ H01) as (s & Hseg & Hsb & Hsc & Hse & _).
  simpl in Hseg. rewrite Hh in Hseg. simpl in Hseg. injection Hseg as <-.
  unfold base_ptr in Hsb, Hsc, Hse. simpl in Hsb, Hsc, Hse.
  rewrite Hb0 in Hsb, Hsc, Hse.
  assert (Hclear : clear v = Ok v1).
  { unfold clear. rewrite (normal_size _ _ H). cbn [mbind outcome_bind].
    unfold Destruct. rewrite Z.sub_0_r, wrap_small by lia.
    rewrite Hdes. cbn [mbind outcome_bind]. rewrite Hadj. reflexivity. }
  assert (Hlen1 : length (adjust L 0) = length L).
  { rewrite <- (length_fmap d_ref (adjust L 0)), adjust_refs.
    apply length_fmap. }
  destruct (Finalise_chain v1 (adjust L 0) Hs1)
    as (v2 & Hfin & Hbl2 & Hce2 & Hno2 & Hnull2 & Hc2 & He2 & _).
  { apply (back_linked_ext v v1 L (adjust L 0) (adjust_refs L 0));
      [|exact (kept_links _ _ K)].
    intros r. transitivity (before_of v3 r); [destruct r; reflexivity|].
    rewrite (Adjust_before _ _ _ _ Hadj r). destruct r; reflexivity. }
  { simpl. rewrite He3. simpl.
    rewrite (normal_end _ _ H), (normal_current _ _ H).
    rewrite <- !fmap_last, adjust_refs. reflexivity. }
  { simpl. rewrite Hn3. simpl. rewrite Hlen1. apply (kept_nodes _ _ K). }
  { simpl. rewrite Hm3. simpl. rewrite Hb2, (kept_blocks _ _ K).
    f_equal. symmetry. apply omap_base_ext, adjust_bases. }
  { intros a x Ha. simpl in *. rewrite Hm3 in *. simpl in *.
    destruct (Destruct_loop_subset _ _ _ _ Hdes a (ex_intro _ x Ha)) as [y Hy].
    rewrite Hb2. exact (kept_cells _ _ K a y Hy). }
  exists v1, v2. split; [exact Hclear|]. split; [|auto 10].
  unfold shrink_to_fit.
  assert (Htest : (if decide (mCurrent v1 <> mEnd v1) then Ok true
                   else s ← segment_at (mCurrent v1) v1;
                        Ok (bool_decide (Data_Segment.mCurrent s
                                         <> Data_Segment.mEnd s)))
                  = Ok true).
  { destruct (decide (mCurrent v1 <> mEnd v1)); [reflexivity|].
    rewrite Hcur1, segment_at_Some. cbn [get_segment mbind outcome_bind].
    change (mSegment v1) with (mSegment v3).
    rewrite Hsc, Hse, bool_decide_eq_true_2; [reflexivity|].
    intros E. injection E as E. lia. }
  rewrite Htest. cbn [mbind outcome_bind].
  rewrite decide_True; [exact Hfin|].
  split; [symmetry; exact Hcur1|].
  change (mSegment v1) with (mSegment v3). rewrite Hsb, Hsc. reflexivity.
Qed.

(** X23.  [clear()] and then [shrink_to_fit()] on a non-empty vector built
    by the initializer-list constructor and [push_back] calls: both
    return, every block and every segment node is released, the members
    are those of a new vector, [size()] and [capacity()] are 0, and
    [push_back] calls that follow behave as on a new vector. *)
Theorem clear_shrink_to_fit_releases_storage (init xs zs : list Type_) :
  0 < Z.of_nat (length init) + Z.of_nat (length xs) <= 2 ^ 62 ->
  Z.of_nat (length zs) <= 2 ^ 62 ->
  exists v0 v v1 v2 v3 : vector,
    create_from init = Ok v0 /\
    push_back_all sizeof_Type xs v0 = Ok v /\
    clear v = Ok v1 /\ shrink_to_fit v1 = Ok v2 /\
    blocks (mAllocator v2) = ∅ /\ cells (mAllocator v2) = ∅ /\
    mSegmentAllocator v2 = ∅ /\ mSegment v2 = Data_Segment.null /\
    mCurrent v2 = Some Head /\ mEnd v2 = Some Head /\
    size_ v2 = Ok 0 /\ Get_capacity v2 = Ok 0 /\
    push_back_all sizeof_Type zs v2 = Ok v3 /\
    size_ v3 = Ok (Z.of_nat (length zs)) /\
    (forall (k : nat) z, zs !! k = Some z -> read (Z.of_nat k) v3 = Ok z).
Proof.
  intros Hlen Hzs.
  pose proof (Min_segment_size_ge_8 sizeof_Type) as Hmin.
  assert (Hmin32 : Min_segment_size <= 32).
  { unfold Vector.Min_segment_size.
    destruct (Min_segment_size_eval_cases sizeof_Type) as [->|[->| ->]]; lia. }
  destruct (built_state init xs ltac:(lia))
    as (v0 & v & L & Hv0 & Hrun & K & Hu & _ & _).
  pose proof (kept_normal _ _ K) as Hn. pose proof (normal_shape _ _ Hn) as Hs.
  assert (Hlive : head_live L).
  { destruct (kept_head _ _ K) as [H1|Hl]; [|exact Hl].
    destruct L as [|d [|d' L']]; try discriminate.
    pose proof (shape_desc_ok _ _ _ _ Hs (eq_refl : [d] !! 0%nat = Some d))
      as [Hr Hd].
    simpl in Hu. destruct (d_base d) as [b|] eqn:Hb; [|lia].
    exists d, b. split; [reflexivity|exact Hb]. }
  destruct (clear_shrink_kept v L K Hlive)
    as (v1 & v2 & Hclear & Hshrink & Hb2 & Hc2 & Hn2 & Hs2 & Hcur2 & Hend2).
  pose proof (kept_blank v2 Hb2 Hc2 Hn2 Hs2 Hcur2 Hend2) as K2.
  pose proof (kept_normal _ _ K2) as Hnorm2.
  destruct (push_back_all_spec sizeof_Type zs v2 [no_storage] (2 ^ 63) Hnorm2)
    as (v3 & L3 & Hrun3 & Hn3 & Hu3 & _ & _ & Hnew & _);
    [simpl; lia|simpl; lia|unfold size_limit; lia|].
  simpl in Hu3.
  exists v0, v, v1, v2, v3. split; [exact Hv0|]. split; [exact Hrun|].
  split; [exact Hclear|]. split; [exact Hshrink|].
  split; [exact Hb2|]. split; [exact Hc2|]. split; [exact Hn2|].
  split; [exact Hs2|]. split; [exact Hcur2|]. split; [exact Hend2|].
  split; [exact (normal_size _ _ Hnorm2)|].
  split; [exact (Get_capacity_spec _ _ (normal_shape _ _ Hnorm2))|].
  split; [exact Hrun3|].
  split; [unfold size_; rewrite (normal_size _ _ Hn3); f_equal; lia|].
  intros k z Hk. specialize (Hnew k z Hk).
  replace (sum_used [no_storage] + Z.of_nat k) with (Z.of_nat k) in Hnew
    by (simpl; lia).
  exact Hnew.
Qed.

(** *** Random access and reverse traversal through iterators *)

Lemma reverse_for_loop_reads (v : vector) (ys : list Type_) :
  (forall (k : nat) y, ys !! k = Some y -> read (Z.of_nat k) v = Ok y) ->
  Z.of_nat (length ys) <= size_limit ->
  forall (n fuel : nat),
    (n <= length ys)%nat -> (n <= fuel)%nat ->
    reverse_for_loop fuel (Return_iterator (Z.of_nat n)) rend v
    = Ok (rev (take n ys)).
Proof.
  intros Hread Hlim. induction n as [|n IH]; intros fuel Hn Hfuel.
  - destruct fuel; reflexivity.
  - assert (E : iterator_eqb (Return_iterator (Z.of_nat (S n))) rend = false)
      by (apply bool_decide_eq_false; simpl; lia).
    destruct fuel as [|fuel]; [lia|].
    cbn [reverse_for_loop]. rewrite E.
    destruct (lookup_lt_is_Some_2 ys n ltac:(lia)) as [y Hy].
    pose proof (Hread n y Hy) as H0.
    unfold read in H0. apply bind_Ok in H0 as (a & Ha & Hload).
    unfold iterator_prev. cbn [mIndex Return_iterator].
    replace (wrap (Z.of_nat (S n) - 1)) with (Z.of_nat n)
      by (rewrite wrap_small; lia).
    unfold iterator_deref. cbn [mValue mIndex]. rewrite Ha.
    cbn [mbind outcome_bind]. rewrite Hload. cbn [mbind outcome_bind].
    change {| mIndex := Z.of_nat n; mValue := None |}
      with (Return_iterator (Z.of_nat n)).
    rewrite IH by lia. cbn [mbind outcome_bind].
    rewrite (take_S_r _ _ _ Hy), rev_app_distr. reflexivity.
Qed.

(** X26.  Traversal from [rbegin()] to [rend()] of a vector built by the
    initializer-list constructor and [push_back] calls returns and reads
    the elements last to first. *)
Theorem reverse_for_reads_backwards (init xs : list Type_) :
  Z.of_nat (length init) + Z.of_nat (length xs) <= 2 ^ 62 ->
  exists v0 v : vector,
    create_from init = Ok v0 /\
    push_back_all sizeof_Type xs v0 = Ok v /\
    reverse_for v = Ok (rev (init ++ xs)).
Proof.
  intros Hlen.
  destruct (built_state init xs Hlen)
    as (v0 & v & L & Hv0 & Hrun & K & Hu & _ & Hread).
  exists v0, v. split; [exact Hv0|]. split; [exact Hrun|].
  unfold reverse_for, rbegin, end_, size_.
  rewrite (normal_size _ _ (kept_normal _ _ K)). cbn [mbind outcome_bind].
  cbn [mIndex Return_iterator]. rewrite Hu.
  replace (Z.of_nat (length init) + Z.of_nat (length xs))
    with (Z.of_nat (length (init ++ xs))) by (rewrite length_app; lia).
  rewrite Nat2Z.id.
  rewrite (reverse_for_loop_reads v (init ++ xs) Hread); try lia.
  - rewrite firstn_all. reflexivity.
  - rewrite length_app. unfold size_limit. lia.
Qed.

(** X27.  Random access through iterators on a vector built by the
    initializer-list constructor and [push_back] calls: for [i + k] below
    the size, [*(begin() + (i + k))] and [(begin() + i)[k]] designate the
    element of [at(i + k)].  [operator[]] leaves that address in the
    cache of the iterator without moving it, so [operator*] on the same
    iterator afterwards designates the element of index [i + k], which
    for [k > 0] is not the element of its own index [i]. *)
Theorem iterator_subscript_leaves_cache (init xs : list Type_) (i k : nat)
    (z : Type_) :
  Z.of_nat (length init) + Z.of_nat (length xs) <= 2 ^ 62 ->
  (init ++ xs) !! (i + k)%nat = Some z ->
  exists (v0 v : vector) (a : address) (it' : iterator),
    create_from init = Ok v0 /\
    push_back_all sizeof_Type xs v0 = Ok v /\
    at_ (Z.of_nat (i + k)) v = Ok (a, v) /\
    load (Some a) (mAllocator v) = Ok z /\
    (fst <$> iterator_deref (iterator_plus (Z.of_nat (i + k)) begin_) v) = Ok a /\
    iterator_subscript (Z.of_nat k) (iterator_plus (Z.of_nat i) begin_) v
    = Ok (a, it') /\
    mIndex it' = Z.of_nat i /\
    iterator_deref it' v = Ok (a, it') /\
    ((0 < k)%nat ->
     forall a_i, at_ (Z.of_nat i) v = Ok (a_i, v) -> a_i <> a).
Proof.
  intros Hlen Hz. pose proof (lookup_lt_Some _ _ _ Hz) as Hlt.
  rewrite length_app in Hlt.
  destruct (built_state init xs Hlen)
    as (v0 & v & L & Hv0 & Hrun & K & Hu & _ & Hread).
  pose proof (kept_normal _ _ K) as Hn. pose proof (normal_shape _ _ Hn) as Hs.
  pose proof (normal_size _ _ Hn) as Hsize.
  pose proof (Hread _ z Hz) as Hr. unfold read in Hr.
  apply bind_Ok in Hr as (a & Ha & Hload).
  assert (Hwi : wrap (0 + Z.of_nat i) = Z.of_nat i)
    by (apply wrap_small; unfold size_limit; lia).
  assert (Hwik : wrap (0 + Z.of_nat (i + k)) = Z.of_nat (i + k))
    by (apply wrap_small; unfold size_limit; lia).
  assert (Hwk : wrap (Z.of_nat i + Z.of_nat k) = Z.of_nat (i + k))
    by (rewrite wrap_small; unfold size_limit; lia).
  exists v0, v, a, {| mIndex := Z.of_nat i; mValue := Some a |}.
  split; [exact Hv0|]. split; [exact Hrun|].
  split.
  { unfold at_. rewrite Hsize. cbn [mbind outcome_bind].
    rewrite (proj2 (Z.leb_gt _ _)) by lia. rewrite Ha. reflexivity. }
  split; [exact Hload|].
  split.
  { unfold iterator_plus, iterator_deref.
    cbn [mIndex mValue begin_ Return_iterator]. rewrite Hwik, Ha. reflexivity. }
  split.
  { unfold iterator_plus, iterator_subscript.
    cbn [mIndex mValue begin_ Return_iterator]. rewrite Hwi, Hwk, Ha.
    reflexivity. }
  split; [reflexivity|]. split; [reflexivity|].
  intros Hk a_i Hai Heq. subst a_i.
  unfold at_ in Hai. rewrite Hsize in Hai. cbn [mbind outcome_bind] in Hai.
  rewrite (proj2 (Z.leb_gt _ _)) in Hai by lia.
  apply bind_Ok in Hai as (a' & Ha' & Hai). injection Hai as ->.
  rewrite (Get_value_at_spec v L (Z.of_nat (i + k)) Hs) in Ha by lia.
  rewrite (Get_value_at_spec v L (Z.of_nat i) Hs) in Ha' by lia.
  assert (E : Z.of_nat i = Z.of_nat (i + k)).
  { apply (locate_inj (mAllocator v) L _ _ a (shape_ok _ _ Hs)
             (shape_blocks _ _ Hs)); [lia|lia|exact Ha'|exact Ha]. }
  lia.
Qed.

(** *** [assign] from a range of input iterators *)

Lemma with_used_id (d : desc) : with_used (d_used d) d = d.
Proof. destruct d; reflexivity. Qed.

(** Setting the cursors for the current size of a vector that has an
    unused cell changes nothing. *)
Lemma adjust_at_size (m : memory Type_) L :
  Forall (desc_ok m) L ->
  (forall j d, L !! j = Some d -> (S j < length L)%nat -> d_used d = d_cap d) ->
  sum_used L < sum_cap L ->
  adjust L (sum_used L) = L /\ adjust_target L (sum_used L) = d_ref <$> last L.
Proof.
  unfold adjust. intros Hok.
  induction Hok as [|d L Hd HL IH]; intros Hfull Hlt.
  - simpl in Hlt. lia.
  - pose proof (sum_used_bounds m L HL) as Hub. destruct Hd as [Hr _].
    change (sum_used (d :: L)) with (d_used d + sum_used L) in *.
    change (sum_cap (d :: L)) with (d_cap d + sum_cap L) in *.
    cbn [adjust_split adjust_target].
    destruct L as [|d' L'].
    + simpl in Hlt |- *. rewrite (proj2 (Z.ltb_lt _ _)) by lia. simpl.
      rewrite Z.add_0_r, with_used_id. split; reflexivity.
    + pose proof (Hfull 0%nat d eq_refl ltac:(simpl; lia)) as Hd_full.
      rewrite (proj2 (Z.ltb_ge _ _)) by lia.
      replace (d_used d + sum_used (d' :: L') - d_cap d)
        with (sum_used (d' :: L')) by lia.
      destruct IH as [IH1 IH2].
      { intros j d0 Hj Hlen. apply (Hfull (S j) d0 Hj). simpl in *. lia. }
      { lia. }
      rewrite IH2.
      destruct (adjust_split (d' :: L') (sum_used (d' :: L'))) as [A R].
      cbn [fst snd] in IH1 |- *. split; [|reflexivity].
      rewrite <- app_comm_cons, IH1. f_equal.
      rewrite <- Hd_full. apply with_used_id.
Qed.

(** The first loop of [Assign_range] for input iterators is [Copy_n] on
    as many values as the vector has elements. *)
Lemma Assign_over_Copy_n (ys : list Type_) :
  forall (t c : Z) (v : vector),
    0 <= t <= c -> c <= size_limit ->
    Assign_over ys t c v
    = (v1 ← Copy_n t (take (Z.to_nat (c - t)) ys) v;
       Ok (drop (Z.to_nat (c - t)) ys,
           t + Z.of_nat (length (take (Z.to_nat (c - t)) ys)), v1)).
Proof.
  induction ys as [|y ys IH]; intros t c v Ht Hc.
  - rewrite take_nil, drop_nil. simpl. rewrite Z.add_0_r. reflexivity.
  - cbn [Assign_over]. destruct (decide (t = c)) as [->|Hne].
    + rewrite Z.sub_diag. simpl. rewrite Z.add_0_r. reflexivity.
    + replace (Z.to_nat (c - t)) with (S (Z.to_nat (c - (t + 1)))) by lia.
      cbn [take drop firstn skipn Copy_n length].
      destruct (Get_value_at t v) as [p| | |]; try reflexivity.
      cbn [mbind outcome_bind].
      destruct (construct (Some p) y (mAllocator v)) as [mem| | |];
        try reflexivity.
      cbn [mbind outcome_bind].
      rewrite wrap_small by lia. rewrite IH by lia.
      destruct (Copy_n (t + 1) (take (Z.to_nat (c - (t + 1))) ys)
                  (with_mAllocator mem v)); try reflexivity.
      cbn [mbind outcome_bind]. do 3 f_equal. lia.
Qed.

(** X28.  [assign(first, last)] from a range of input iterators that
    delivers the values [ys], on a vector of size [s] built by the
    initializer-list constructor and [push_back] calls.  With at most [s]
    values, or with more on a vector that has an unused cell, it returns,
    [size()] is the number of values and the elements are the values, in
    order.  With more than [s] values on a vector whose capacity is [s]
    (a new vector, or one as the initializer-list constructor leaves it),
    [mCurrent] is null when the first [emplace_back] is reached, and the
    call is undefined behaviour. *)
Theorem assign_input_range (init xs ys : list Type_) :
  Z.of_nat (length init) + Z.of_nat (length xs) <= 2 ^ 62 ->
  Z.of_nat (length ys) <= 2 ^ 62 ->
  exists (v0 v : vector) (s : Z),
    create_from init = Ok v0 /\
    push_back_all sizeof_Type xs v0 = Ok v /\
    size_ v = Ok s /\
    (Z.of_nat (length ys) <= s \/ Get_capacity v <> Ok s ->
     exists v', assign_input sizeof_Type ys v = Ok v' /\
       size_ v' = Ok (Z.of_nat (length ys)) /\
       forall (k : nat) z, ys !! k = Some z -> read (Z.of_nat k) v' = Ok z) /\
    (s < Z.of_nat (length ys) -> Get_capacity v = Ok s ->
     assign_input sizeof_Type ys v = Undefined).
Proof.
  intros Hlen Hys.
  pose proof (Min_segment_size_ge_8 sizeof_Type) as Hmin.
  assert (Hmin32 : Min_segment_size <= 32).
  { unfold Vector.Min_segment_size.
    destruct (Min_segment_size_eval_cases sizeof_Type) as [->|[->| ->]]; lia. }
  destruct (built_state init xs Hlen)
    as (v0 & v & L & Hv0 & Hrun & K & Hu & Hcapb & _).
  pose proof (kept_normal _ _ K) as Hn. pose proof (normal_shape _ _ Hn) as Hs.
  pose proof (sum_used_bounds _ _ (shape_ok _ _ Hs)) as Hub.
  pose proof (normal_size _ _ Hn) as Hsize.
  pose proof (Get_capacity_spec _ _ Hs) as Hcap.
  set (s := sum_used L) in *.
  set (n := Z.to_nat (s - 0)).
  set (ys1 := take n ys). set (rest := drop n ys).
  assert (Hlen1 : Z.of_nat (length ys1) = Z.min (Z.of_nat (length ys)) s).
  { unfold ys1, n. rewrite length_take. lia. }
  destruct (overwrite_spec v L ys1 s Hs)
    as (m2 & v1 & Hcopy & _ & _ & Hrest & Hs1 & Hc1 & Hcur1 & Hread1 & Hend1);
    [lia|].
  assert (Hrun1 : assign_input sizeof_Type ys v
                  = push_back_all sizeof_Type rest v1).
  { unfold assign_input, Assign_range_input, End_iterator.
    rewrite Hsize. cbn [mbind outcome_bind mIndex begin_ Return_iterator].
    fold s. rewrite (Assign_over_Copy_n ys 0 s v) by (unfold size_limit; lia).
    fold n. fold ys1. fold rest. rewrite Hcopy. cbn [mbind outcome_bind].
    rewrite Z.add_0_l. unfold Destruct.
    rewrite wrap_small by (unfold size_limit; lia).
    apply bind_Ok in Hrest as (v2 & Hdes & Hrest). rewrite Hdes.
    cbn [mbind outcome_bind].
    apply bind_Ok in Hrest as ([seg v3] & Hadj & Hrest). rewrite Hadj.
    cbn [mbind outcome_bind]. injection Hrest as <-. reflexivity. }
  pose proof (adjust_sum_used _ L (Z.of_nat (length ys1)) (shape_ok _ _ Hs)
                ltac:(lia)) as Hused1.
  exists v0, v, s. split; [exact Hv0|]. split; [exact Hrun|].
  split; [exact Hsize|]. split.
  - intros Hcase.
    destruct (decide (Z.of_nat (length ys) <= s)) as [Hle|Hgt].
    + assert (Hall : ys1 = ys) by (apply take_ge; lia).
      assert (Hnil : rest = []) by (apply drop_ge; lia).
      exists v1. rewrite Hrun1, Hnil. split; [reflexivity|].
      rewrite Hall in *. split; [|exact Hread1].
      unfold size_. rewrite (Get_size_spec _ _ Hs1 Hc1), Hused1. reflexivity.
    + destruct Hcase as [Hle|Hroom]; [lia|].
      assert (Hlt : s < sum_cap L).
      { destruct (decide (s = sum_cap L)) as [E|E]; [|lia].
        exfalso. apply Hroom. rewrite Hcap, E. reflexivity. }
      assert (Hl1 : Z.of_nat (length ys1) = s) by lia.
      rewrite Hl1 in *.
      destruct (adjust_at_size _ L (shape_ok _ _ Hs) (normal_full _ _ Hn) Hlt)
        as [Hadj Htarget].
      fold s in Hadj, Htarget. rewrite Hadj in *.
      assert (Hn1 : normal v1 L).
      { constructor; [exact Hs1| | |exact (normal_full _ _ Hn)].
        - rewrite Hcur1. exact Htarget.
        - rewrite Hend1, Hcur1, Htarget, (normal_end _ _ Hn).
          apply (normal_current _ _ Hn). }
      destruct (push_back_all_spec sizeof_Type rest v1 L (2 ^ 63) Hn1)
        as (v' & L' & Hrun' & Hn' & Hu' & _ & Hold & Hnew & _).
      { lia. }
      { unfold rest. rewrite length_drop. fold s. lia. }
      { unfold size_limit. lia. }
      fold s in Hu', Hold, Hnew.
      assert (Hrl : Z.of_nat (length rest) = Z.of_nat (length ys) - s)
        by (unfold rest, n; rewrite length_drop; lia).
      exists v'. rewrite Hrun1. split; [exact Hrun'|].
      split; [unfold size_; rewrite (normal_size _ _ Hn'); f_equal; lia|].
      intros k z Hk.
      rewrite <- (take_drop n ys) in Hk. fold ys1 in Hk. fold rest in Hk.
      destruct (decide (Z.of_nat k < s)) as [Hks|Hks].
      * rewrite lookup_app_l in Hk by lia.
        destruct (Hold (Z.of_nat k) ltac:(lia)) as (_ & -> & _).
        apply Hread1. exact Hk.
      * rewrite lookup_app_r in Hk by lia.
        rewrite <- (Hnew _ z Hk). f_equal. lia.
  - intros Hgt Hceq. rewrite Hcap in Hceq. injection Hceq as Hceq.
    assert (Hl1 : Z.of_nat (length ys1) = s) by lia.
    rewrite Hl1 in *. rewrite Hrun1.
    assert (Hnone : mCurrent v1 = None).
    { rewrite Hcur1. apply (adjust_target_ge (mAllocator v));
        [apply (shape_ok _ _ Hs)|lia]. }
    assert (Hne : exists y rest', drop n ys = y :: rest').
    { destruct (drop n ys) as [|y rest'] eqn:Erest; [|eauto].
      apply (f_equal (@length _)) in Erest. unfold n in Erest.
      rewrite length_drop in Erest. simpl in Erest. lia. }
    destruct Hne as (y & rest' & Erest). unfold rest. rewrite Erest.
    cbn [push_back_all].
    rewrite (push_back_null_current v1 (adjust L s) y Hs1 Hc1 Hnone).
    + reflexivity.
    + rewrite Hused1. rewrite (sum_cap_ext (adjust L s) L (adjust_bases L s)).
      lia.
Qed.

End more.

Lemma push_back_read_back_witness :
  Z.of_nat (length [21; 22; 23]) <= 2 ^ 62 /\
  exists v : @concurrent_vector Z,
    push_back_all 4 [21; 22; 23] create = Ok v /\
    size_ v = Ok (Z.of_nat (length [21; 22; 23])) /\
    forall (k : nat) x, [21; 22; 23] !! k = Some x ->
      read (Z.of_nat k) v = Ok x /\
      exists a, at_ (Z.of_nat k) v = Ok (a, v) /\
                subscript (Z.of_nat k) v = Ok (a, v) /\
                load (Some a) (mAllocator v) = Ok x.
Proof.
  split; [simpl; lia|].
  apply (push_back_read_back 4 [21; 22; 23]). simpl. lia.
Defined.

Lemma reserve_appends_segment_witness :
  normal two_elements two_elements_chain /\
  Get_capacity two_elements = Ok 32 /\
  (40 <= 32 -> reserve 40 two_elements = Ok two_elements) /\
  (32 < 40 -> 32 + 40 <= size_limit ->
   exists v',
     reserve 40 two_elements = Ok v' /\
     Get_capacity v' = Ok (32 + 40) /\
     size_ v' = size_ two_elements /\
     (forall i, 0 <= i < 32 -> Get_value_at i v' = Get_value_at i two_elements) /\
     cells (mAllocator v') = cells (mAllocator two_elements) /\
     blocks (mAllocator v')
     = <[next_block (mAllocator two_elements) := 40]>
         (blocks (mAllocator two_elements))).
Proof.
  split; [exact normal_two_elements|]. split; [reflexivity|].
  apply (reserve_appends_segment two_elements two_elements_chain 32 40).
  - exact normal_two_elements.
  - reflexivity.
Defined.

Lemma clear_keeps_storage_witness :
  normal two_elements two_elements_chain /\
  exists v',
    clear two_elements = Ok v' /\
    size_ v' = Ok 0 /\
    Get_capacity v' = Get_capacity two_elements /\
    blocks (mAllocator v') = blocks (mAllocator two_elements) /\
    segment_nodes v' = segment_nodes two_elements /\
    (forall n i a, size_ two_elements = Ok n -> 0 <= i < n ->
       Get_value_at i two_elements = Ok a ->
       cells (mAllocator v') !! a = None) /\
    (Data_Segment.mBegin (mSegment two_elements) <> None ->
     mCurrent v' = Some Head).
Proof.
  split; [exact normal_two_elements|].
  apply (clear_keeps_storage two_elements two_elements_chain).
  exact normal_two_elements.
Defined.

Lemma grow_by_to_capacity_witness :
  normal two_elements two_elements_chain /\ 0 <= 30 /\
  sum_cap two_elements_chain + 30 <= 2 ^ 62 /\
  exists v',
    grow_by 8 30 23 two_elements = Ok v' /\
    (Get_capacity v' = size_ v' ->
     mCurrent v' = None /\ push_back 8 24 v' = Undefined).
Proof.
  split; [exact normal_two_elements|]. split; [lia|]. split; [simpl; lia|].
  apply (grow_by_to_capacity 8 two_elements two_elements_chain 30 23 24).
  - exact normal_two_elements.
  - lia.
  - simpl. lia.
Defined.

(** The capacity test of the witness holds: [grow_by(30, 23)] on the
    two-element vector fills its 32 cells. *)
Example grow_by_to_capacity_reached :
  exists v',
    grow_by 8 30 23 two_elements = Ok v' /\
    Get_capacity v' = size_ v' /\ size_ v' = Ok 32.
Proof.
  eexists. split; [vm_compute; reflexivity|].
  split; vm_compute; reflexivity.
Qed.


Lemma create_n_copies_witness :
  0 <= 5 <= size_limit /\
  exists (v : @concurrent_vector Z) L,
    create_n 5 7 = Ok v /\ normal v L /\
    size_ v = Ok 5 /\ Get_capacity v = Ok 5 /\
    (forall i, 0 <= i < 5 -> read i v = Ok 7) /\
    (5 = 0 -> v = create).
Proof.
  split; [unfold size_limit; lia|].
  apply (create_n_copies 5 7). unfold size_limit. lia.
Defined.

Lemma front_back_empty_after_push_back_witness :
  Z.of_nat (length [21; 22; 23]) <= 2 ^ 62 /\
  exists v : @concurrent_vector Z,
    push_back_all 4 [21; 22; 23] create = Ok v /\
    empty v = false /\
    ([21; 22; 23] = [] -> front v = Undefined /\ back v = Undefined) /\
    (forall x, head [21; 22; 23] = Some x ->
       exists a, front v = Ok (a, v) /\ at_ 0 v = Ok (a, v) /\
                 load (Some a) (mAllocator v) = Ok x) /\
    (forall x, last [21; 22; 23] = Some x ->
       exists a, back v = Ok (a, v) /\
                 at_ (Z.of_nat (length [21; 22; 23]) - 1) v = Ok (a, v) /\
                 load (Some a) (mAllocator v) = Ok x).
Proof.
  split; [simpl; lia|].
  apply (front_back_empty_after_push_back 4 [21; 22; 23]). simpl. lia.
Defined.

Lemma destructor_releases_all_witness :
  Z.of_nat (length [1; 2; 3]) + Z.of_nat (length [4; 5]) <= 2 ^ 62 /\
  exists v0 v v' : @concurrent_vector Z,
    create_from [1; 2; 3] = Ok v0 /\
    push_back_all 8 [4; 5] v0 = Ok v /\
    Finalise v = Ok v' /\
    blocks (mAllocator v') = ∅ /\ cells (mAllocator v') = ∅ /\
    mSegmentAllocator v' = ∅ /\ mSegment v' = Data_Segment.null /\
    mCurrent v' = Some Head /\ mEnd v' = Some Head.
Proof.
  split; [simpl; lia|].
  apply (destructor_releases_all 8 [1; 2; 3] [4; 5]). simpl. lia.
Defined.

Lemma reserve_twice_loses_a_segment_witness :
  0 < Z.of_nat (length [1; 2; 3]) + Z.of_nat (length (@nil Z)) <= 2 ^ 62 /\
  exists (v0 v : @concurrent_vector Z) c,
    create_from [1; 2; 3] = Ok v0 /\
    push_back_all 8 [] v0 = Ok v /\
    Get_capacity v = Ok c /\
    (c < 10 -> c + 10 < 20 -> c + 10 + 20 <= size_limit ->
     exists v1 v2 v3,
       reserve 10 v = Ok v1 /\ Get_capacity v1 = Ok (c + 10) /\
       reserve 20 v1 = Ok v2 /\ Get_capacity v2 = Ok (c + 20) /\
       storage_blocks v2 = (storage_blocks v + 2)%nat /\
       segment_nodes v2 = (segment_nodes v + 2)%nat /\
       Finalise v2 = Ok v3 /\
       storage_blocks v3 = 1%nat /\ segment_nodes v3 = 1%nat).
Proof.
  split; [simpl; lia|].
  apply (reserve_twice_loses_a_segment 8 [1; 2; 3] [] 10 20). simpl. lia.
Defined.

(** The run of the witness: the capacity is 3, then 13, then 23, and one
    block stays allocated after [Finalise]. *)
Example reserve_twice_scenario :
  exists v v1 v2 v3 : @concurrent_vector Z,
    create_from [1; 2; 3] = Ok v /\ Get_capacity v = Ok 3 /\
    reserve 10 v = Ok v1 /\ Get_capacity v1 = Ok 13 /\
    reserve 20 v1 = Ok v2 /\ Get_capacity v2 = Ok 23 /\
    Finalise v2 = Ok v3 /\
    blocks (mAllocator v3) = {[ 1%nat := 10 ]}.
Proof.
  do 4 eexists. repeat (split; [vm_compute; reflexivity|]).
  vm_compute. reflexivity.
Qed.

Lemma range_for_reads_the_elements_witness :
  Z.of_nat (length [1; 3; 5]) + Z.of_nat (length [7; 11]) <= 2 ^ 62 /\
  exists v0 v : @concurrent_vector Z,
    create_from [1; 3; 5] = Ok v0 /\
    push_back_all 8 [7; 11] v0 = Ok v /\
    range_for v = Ok ([1; 3; 5] ++ [7; 11]).
Proof.
  split; [simpl; lia|].
  apply (range_for_reads_the_elements 8 [1; 3; 5] [7; 11]). simpl. lia.
Defined.

Lemma assign_replaces_the_elements_witness :
  Z.of_nat (length [1; 3; 5]) + Z.of_nat (length [7; 11]) <= 2 ^ 62 /\
  Z.of_nat (length [2; 4; 6; 8]) <= 2 ^ 62 /\
  exists v0 v v' : @concurrent_vector Z,
    create_from [1; 3; 5] = Ok v0 /\
    push_back_all 8 [7; 11] v0 = Ok v /\
    assign [2; 4; 6; 8] v = Ok v' /\
    size_ v' = Ok (Z.of_nat (length [2; 4; 6; 8])) /\
    (forall (k : nat) z, [2; 4; 6; 8] !! k = Some z ->
       read (Z.of_nat k) v' = Ok z) /\
    (forall c, Get_capacity v = Ok c -> c < Z.of_nat (length [2; 4; 6; 8]) ->
       Get_capacity v'
       = Ok (Z.max (c + c / 2) (Z.of_nat (length [2; 4; 6; 8])))) /\
    (Get_capacity v' = Ok (Z.of_nat (length [2; 4; 6; 8])) ->
       mCurrent v' = None /\ push_back 8 23 v' = Undefined).
Proof.
  split; [simpl; lia|]. split; [simpl; lia|].
  apply (assign_replaces_the_elements 8 [1; 3; 5] [7; 11] [2; 4; 6; 8] 23);
    simpl; lia.
Defined.

Lemma shrink_to_fit_trims_storage_witness :
  Z.of_nat (length [1; 3; 5]) + Z.of_nat (length [7; 11]) <= 2 ^ 62 /\
  exists v0 v v' : @concurrent_vector Z,
    create_from [1; 3; 5] = Ok v0 /\
    push_back_all 8 [7; 11] v0 = Ok v /\
    shrink_to_fit v = Ok v' /\
    size_ v' = Ok (Z.of_nat (length ([1; 3; 5] ++ [7; 11]))) /\
    Get_capacity v' = Ok (Z.of_nat (length ([1; 3; 5] ++ [7; 11]))) /\
    (forall (k : nat) z, ([1; 3; 5] ++ [7; 11]) !! k = Some z ->
       read (Z.of_nat k) v' = Ok z) /\
    (Get_capacity v = Ok (Z.of_nat (length ([1; 3; 5] ++ [7; 11]))) -> v' = v) /\
    (Get_capacity v <> Ok (Z.of_nat (length ([1; 3; 5] ++ [7; 11]))) ->
       blocks (mAllocator v')
       = {[ next_block (mAllocator v)
            := Z.of_nat (length ([1; 3; 5] ++ [7; 11])) ]} /\
       mSegmentAllocator v' = ∅ /\
       (forall k, 0 <= k < Z.of_nat (length ([1; 3; 5] ++ [7; 11])) ->
          Get_value_at k v' = Ok (next_block (mAllocator v), k)) /\
       exists v'', push_back 8 23 v' = Ok v'' /\
                   size_ v'' = Ok (Z.of_nat (length ([1; 3; 5] ++ [7; 11])) + 1)).
Proof.
  split; [simpl; lia|].
  apply (shrink_to_fit_trims_storage 8 [1; 3; 5] [7; 11] 23). simpl. lia.
Defined.

(** The run of the witness: the capacity is 35 before and 5 after, and
    the only block left is the new one. *)
Example shrink_to_fit_scenario :
  exists v0 v v' : @concurrent_vector Z,
    create_from [1; 3; 5] = Ok v0 /\
    push_back_all 8 [7; 11] v0 = Ok v /\ Get_capacity v = Ok 35 /\
    shrink_to_fit v = Ok v' /\ Get_capacity v' = Ok 5 /\
    range_for v' = Ok [1; 3; 5; 7; 11] /\
    blocks (mAllocator v') = {[ 2%nat := 5 ]}.
Proof.
  do 3 eexists. repeat (split; [vm_compute; reflexivity|]).
  vm_compute. reflexivity.
Qed.

Lemma clear_shrink_to_fit_releases_storage_witness :
  0 < Z.of_nat (length [2; 3; 4]) + Z.of_nat (length [5]) <= 2 ^ 62 /\
  Z.of_nat (length [21; 22]) <= 2 ^ 62 /\
  exists v0 v v1 v2 v3 : @concurrent_vector Z,
    create_from [2; 3; 4] = Ok v0 /\
    push_back_all 8 [5] v0 = Ok v /\
    clear v = Ok v1 /\ shrink_to_fit v1 = Ok v2 /\
    blocks (mAllocator v2) = ∅ /\ cells (mAllocator v2) = ∅ /\
    mSegmentAllocator v2 = ∅ /\ mSegment v2 = Data_Segment.null /\
    mCurrent v2 = Some Head /\ mEnd v2 = Some Head /\
    size_ v2 = Ok 0 /\ Get_capacity v2 = Ok 0 /\
    push_back_all 8 [21; 22] v2 = Ok v3 /\
    size_ v3 = Ok (Z.of_nat (length [21; 22])) /\
    (forall (k : nat) z, [21; 22] !! k = Some z -> read (Z.of_nat k) v3 = Ok z).
Proof.
  split; [simpl; lia|]. split; [simpl; lia|].
  apply (clear_shrink_to_fit_releases_storage 8 [2; 3; 4] [5] [21; 22]);
    simpl; lia.
Defined.

(** The scenario of the repository's test: [v{2, 3, 4}], [clear()],
    [shrink_to_fit()], two [push_back]s and [grow_by(5, 23)]. *)
Example clear_shrink_push_grow_scenario :
  (v ← create_from [2; 3; 4]; v ← clear v; v ← shrink_to_fit v;
   v ← push_back 8 21 v; v ← push_back 8 22 v; v ← grow_by 8 5 23 v;
   range_for v)
  = Ok [21; 22; 23; 23; 23; 23; 23].
Proof. vm_compute. reflexivity. Qed.

Lemma reverse_for_reads_backwards_witness :
  Z.of_nat (length [1; 3; 5]) + Z.of_nat (length [7; 11]) <= 2 ^ 62 /\
  exists v0 v : @concurrent_vector Z,
    create_from [1; 3; 5] = Ok v0 /\
    push_back_all 8 [7; 11] v0 = Ok v /\
    reverse_for v = Ok (rev ([1; 3; 5] ++ [7; 11])).
Proof.
  split; [simpl; lia|].
  apply (reverse_for_reads_backwards 8 [1; 3; 5] [7; 11]). simpl. lia.
Defined.

Lemma iterator_subscript_leaves_cache_witness :
  Z.of_nat (length [1; 3; 5]) + Z.of_nat (length [7; 11]) <= 2 ^ 62 /\
  ([1; 3; 5] ++ [7; 11]) !! (1 + 2)%nat = Some 7 /\
  exists (v0 v : @concurrent_vector Z) (a : address) (it' : iterator),
    create_from [1; 3; 5] = Ok v0 /\
    push_back_all 8 [7; 11] v0 = Ok v /\
    at_ (Z.of_nat (1 + 2)) v = Ok (a, v) /\
    load (Some a) (mAllocator v) = Ok 7 /\
    (fst <$> iterator_deref (iterator_plus (Z.of_nat (1 + 2)) begin_) v) = Ok a /\
    iterator_subscript (Z.of_nat 2) (iterator_plus (Z.of_nat 1) begin_) v
    = Ok (a, it') /\
    mIndex it' = Z.of_nat 1 /\
    iterator_deref it' v = Ok (a, it') /\
    ((0 < 2)%nat ->
     forall a_i, at_ (Z.of_nat 1) v = Ok (a_i, v) -> a_i <> a).
Proof.
  split; [simpl; lia|]. split; [reflexivity|].
  apply (iterator_subscript_leaves_cache 8 [1; 3; 5] [7; 11] 1 2 7);
    [simpl; lia|reflexivity].
Defined.

Lemma assign_input_range_witness :
  Z.of_nat (length [1; 3; 5]) + Z.of_nat (length [7; 11]) <= 2 ^ 62 /\
  Z.of_nat (length [2; 4; 6; 8; 10; 12]) <= 2 ^ 62 /\
  exists (v0 v : @concurrent_vector Z) (s : Z),
    create_from [1; 3; 5] = Ok v0 /\
    push_back_all 8 [7; 11] v0 = Ok v /\
    size_ v = Ok s /\
    (Z.of_nat (length [2; 4; 6; 8; 10; 12]) <= s \/ Get_capacity v <> Ok s ->
     exists v', assign_input 8 [2; 4; 6; 8; 10; 12] v = Ok v' /\
       size_ v' = Ok (Z.of_nat (length [2; 4; 6; 8; 10; 12])) /\
       forall (k : nat) z, [2; 4; 6; 8; 10; 12] !! k = Some z ->
         read (Z.of_nat k) v' = Ok z) /\
    (s < Z.of_nat (length [2; 4; 6; 8; 10; 12]) -> Get_capacity v = Ok s ->
     assign_input 8 [2; 4; 6; 8; 10; 12] v = Undefined).
Proof.
  split; [simpl; lia|]. split; [simpl; lia|].
  apply (assign_input_range 8 [1; 3; 5] [7; 11] [2; 4; 6; 8; 10; 12]);
    simpl; lia.
Defined.

(** The three cases on concrete vectors: fewer values than elements,
    more values with room left, and more values on a full vector. *)
Example assign_input_scenarios :
  (v ← create_from [1; 3; 5]; v ← assign_input 8 [2; 4] v; range_for v)
  = Ok [2; 4] /\
  (v ← create_from [1; 3; 5]; v ← push_back 8 7 v;
   v ← assign_input 8 [2; 4; 6; 8; 10; 12] v; range_for v)
  = Ok [2; 4; 6; 8; 10; 12] /\
  (v ← create_from [1; 3; 5]; assign_input 8 [2; 4; 6; 8] v) = Undefined /\
  assign_input 8 [2] (@create Z) = Undefined.
Proof. repeat split; vm_compute; reflexivity. Qed.

(** [assign] on a new vector, as the iteration test does: the capacity is
    the size, [mCurrent] is null and [push_back] has no defined result. *)
Example assign_on_new_vector :
  exists v' : @concurrent_vector Z,
    assign [1; 2; 3] create = Ok v' /\ size_ v' = Ok 3 /\
    Get_capacity v' = Ok 3 /\ range_for v' = Ok [1; 2; 3] /\
    mCurrent v' = None /\ push_back 8 4 v' = Undefined.
Proof.
  eexists. repeat (split; [vm_compute; reflexivity|]).
  vm_compute. reflexivity.
Qed.

End VectorMore.
(** ** Properties of the segmented queue *)

Module QueueFacts.
Import Queue.

#[local] Arguments construct : simpl never.
#[local] Arguments destroy : simpl never.
#[local] Arguments load : simpl never.
#[local] Arguments budget : simpl never.
#[local] Arguments Allocate_mini_queue : simpl never.
#[local] Arguments Emplace_back_mini_queue : simpl never.
#[local] Arguments unsafe_size : simpl never.

Section facts.
Context {Type_ : Type}.
Context (sizeof_Type : Z) (value_init : Type_).

Local Abbreviation queue := (@concurrent_queue Type_).
Local Abbreviation Min_queue_size := (Min_queue_size sizeof_Type).

(** *** The chain of blocks, described as a list

    A descriptor gives, for one block of the chain, its node, its storage
    block and the length of it, the offset of the oldest live element and
    the live elements, oldest first. *)
Record qdesc := {
  q_node : nat;
  q_blk : nat;
  q_cap : Z;
  q_ub : Z;
  q_vals : list Type_
}.

Definition q_cur (d : qdesc) : Z := q_ub d + Z.of_nat (length (q_vals d)).

Definition with_vals (ub : Z) (vals : list Type_) (d : qdesc) : qdesc :=
  {| q_node := q_node d; q_blk := q_blk d; q_cap := q_cap d;
     q_ub := ub; q_vals := vals |}.

(** The elements of the queue, oldest first. *)
Definition contents (L : list qdesc) : list Type_ := L ≫= q_vals.

Definition node_matches (q : queue) (d : qdesc) (nxt : option nat) : Prop :=
  exists s,
    mini_queues q !! q_node d = Some s /\
    MiniQueue.mBegin s = Some (q_blk d, 0) /\
    MiniQueue.mUsedBegin s = Some (q_blk d, q_ub d) /\
    MiniQueue.mCurrent s = Some (q_blk d, q_cur d) /\
    MiniQueue.mEnd s = Some (q_blk d, q_cap d) /\
    MiniQueue.mNextQueue s = nxt.

Definition qdesc_ok (m : memory Type_) (d : qdesc) : Prop :=
  blocks m !! q_blk d = Some (q_cap d) /\
  0 <= q_ub d /\ q_cur d <= q_cap d /\ 0 < q_cap d /\
  forall (k : nat) x, q_vals d !! k = Some x ->
    cells m !! (q_blk d, q_ub d + Z.of_nat k) = Some x.

(** [repr q L]: the chain from [mQueue] to [mQueueEnd] is [L]. *)
Record repr (q : queue) (L : list qdesc) : Prop := {
  repr_head : mQueue q = q_node <$> L !! 0%nat;
  repr_end : mQueueEnd q = q_node <$> last L;
  repr_linked : forall j d, L !! j = Some d ->
                  node_matches q d (q_node <$> L !! S j);
  repr_nodes : NoDup (q_node <$> L);
  repr_blocks : NoDup (q_blk <$> L);
  repr_ok : Forall (qdesc_ok (mAllocator q)) L;
  repr_fresh_nodes : forall n s, mini_queues q !! n = Some s ->
                       (n < next_mini_queue q)%nat;
  repr_fresh_blocks : forall b n, blocks (mAllocator q) !! b = Some n ->
                        (b < next_block (mAllocator q))%nat
}.

(** While only [push] has been called: [mQueueCurrent] is the last
    block, every block holds an element, all but the last are full. *)
Record pushing (q : queue) (L : list qdesc) : Prop := {
  pushing_repr : repr q L;
  pushing_current : mQueueCurrent q = mQueueEnd q;
  pushing_blocks : forall j d, L !! j = Some d ->
                     q_ub d = 0 /\ q_vals d <> [] /\
                     ((S j < length L)%nat -> q_cur d = q_cap d)
}.

(** While [try_pop] is called: the blocks that hold elements come first,
    and each of them but the last is used up to its end. *)
Record popping (q : queue) (L : list qdesc) : Prop := {
  popping_repr : repr q L;
  popping_blocks : forall j d, L !! j = Some d ->
                     (q_vals d = [] ->
                      forall j' d', (j < j')%nat -> L !! j' = Some d' ->
                                    q_vals d' = []) /\
                     (forall j' d', (j < j')%nat -> L !! j' = Some d' ->
                                    q_vals d' <> [] -> q_cur d = q_cap d)
}.

Lemma pushing_popping (q : queue) L : pushing q L -> popping q L.
Proof.
  intros H. constructor; [apply H|].
  intros j d Hj. split.
  - intros Hnil. destruct (pushing_blocks _ _ H j d Hj) as (_ & Hne & _).
    contradiction.
  - intros j' d' Hlt Hj' _.
    destruct (pushing_blocks _ _ H j d Hj) as (_ & _ & Hfull).
    apply Hfull. apply lookup_lt_Some in Hj'. lia.
Qed.

Lemma repr_create : repr (@create Type_) [].
Proof.
  constructor; simpl; try reflexivity; try constructor.
  - intros j d. rewrite lookup_nil. discriminate.
  - intros n s. rewrite lookup_empty. discriminate.
  - intros b n. rewrite lookup_empty. discriminate.
Qed.

Lemma pushing_create : pushing (@create Type_) [].
Proof.
  constructor; [apply repr_create|reflexivity|].
  intros j d. rewrite lookup_nil. discriminate.
Qed.

Lemma repr_desc_ok (q : queue) L j d :
  repr q L -> L !! j = Some d -> qdesc_ok (mAllocator q) d.
Proof.
  intros H Hj. pose proof (repr_ok _ _ H) as Hok.
  rewrite Forall_lookup in Hok. eauto.
Qed.

Lemma repr_node_inj (q : queue) L j j' d d' :
  repr q L -> L !! j = Some d -> L !! j' = Some d' ->
  q_node d = q_node d' -> j = j'.
Proof.
  intros H Hj Hj' Heq.
  apply (NoDup_lookup _ j j' (q_node d) (repr_nodes _ _ H));
    rewrite list_lookup_fmap; [rewrite Hj|rewrite Hj']; simpl; congruence.
Qed.

Lemma repr_blk_inj (q : queue) L j j' d d' :
  repr q L -> L !! j = Some d -> L !! j' = Some d' ->
  q_blk d = q_blk d' -> j = j'.
Proof.
  intros H Hj Hj' Heq.
  apply (NoDup_lookup _ j j' (q_blk d) (repr_blocks _ _ H));
    rewrite list_lookup_fmap; [rewrite Hj|rewrite Hj']; simpl; congruence.
Qed.

Lemma qdesc_ok_frame (m m' : memory Type_) d :
  qdesc_ok m d -> blocks m' !! q_blk d = blocks m !! q_blk d ->
  (forall a, a.1 = q_blk d -> cells m' !! a = cells m !! a) ->
  qdesc_ok m' d.
Proof.
  intros (Hb & Hu & Hc & Hp & Hcells) Hblk Hsame.
  split; [congruence|]. repeat split; auto.
  intros k x Hk. rewrite Hsame by reflexivity. auto.
Qed.

(** One block changes its cursors and its live elements; the memory
    changes inside that block only. *)
Lemma repr_update (q q' : queue) L j d d' s' :
  repr q L -> L !! j = Some d ->
  q_node d' = q_node d -> q_blk d' = q_blk d -> q_cap d' = q_cap d ->
  MiniQueue.mBegin s' = Some (q_blk d, 0) ->
  MiniQueue.mUsedBegin s' = Some (q_blk d, q_ub d') ->
  MiniQueue.mCurrent s' = Some (q_blk d, q_cur d') ->
  MiniQueue.mEnd s' = Some (q_blk d, q_cap d) ->
  MiniQueue.mNextQueue s' = q_node <$> L !! S j ->
  mQueue q' = mQueue q -> mQueueEnd q' = mQueueEnd q ->
  mini_queues q' = <[q_node d := s']> (mini_queues q) ->
  next_mini_queue q' = next_mini_queue q ->
  blocks (mAllocator q') = blocks (mAllocator q) ->
  next_block (mAllocator q') = next_block (mAllocator q) ->
  (forall a, a.1 <> q_blk d ->
     cells (mAllocator q') !! a = cells (mAllocator q) !! a) ->
  qdesc_ok (mAllocator q') d' ->
  repr q' (<[j := d']> L).
Proof.
  intros H Hj Hn Hb Hc Hsb Hsu Hsc Hse Hsn Hq He Hmq Hnq Hblk Hnb Hcells Hok.
  assert (Hnodes : q_node <$> <[j := d']> L = q_node <$> L).
  { rewrite list_fmap_insert, Hn. apply list_insert_id.
    rewrite list_lookup_fmap, Hj. reflexivity. }
  assert (Hblks : q_blk <$> <[j := d']> L = q_blk <$> L).
  { rewrite list_fmap_insert, Hb. apply list_insert_id.
    rewrite list_lookup_fmap, Hj. reflexivity. }
  assert (Hlt : (j < length L)%nat) by (eapply lookup_lt_Some; eauto).
  constructor.
  - rewrite Hq, (repr_head _ _ H), <- !list_lookup_fmap, Hnodes. reflexivity.
  - rewrite He, (repr_end _ _ H), <- !fmap_last, Hnodes. reflexivity.
  - intros j' d0 Hj'.
    rewrite <- (list_lookup_fmap q_node (<[j:=_]> L)), Hnodes, list_lookup_fmap.
    destruct (decide (j' = j)) as [->|Hne].
    + rewrite list_lookup_insert_eq in Hj' by exact Hlt. injection Hj' as <-.
      exists s'. rewrite Hmq, Hn, Hb, Hc, lookup_insert_eq. auto 10.
    + rewrite list_lookup_insert_ne in Hj' by congruence.
      destruct (repr_linked _ _ H j' d0 Hj') as (s0 & Hs0 & Hrest).
      exists s0. split; [|exact Hrest].
      rewrite Hmq, lookup_insert_ne; [exact Hs0|].
      intros Heq. apply Hne. symmetry.
      apply (repr_node_inj q L j j' d d0 H Hj Hj' Heq).
  - rewrite Hnodes. apply (repr_nodes _ _ H).
  - rewrite Hblks. apply (repr_blocks _ _ H).
  - apply Forall_lookup. intros j' d0 Hj'.
    destruct (decide (j' = j)) as [->|Hne].
    + rewrite list_lookup_insert_eq in Hj' by exact Hlt. injection Hj' as <-.
      exact Hok.
    + rewrite list_lookup_insert_ne in Hj' by congruence.
      apply (qdesc_ok_frame (mAllocator q)).
      * apply (repr_desc_ok _ _ _ _ H Hj').
      * rewrite Hblk. reflexivity.
      * intros a Ha. apply Hcells. rewrite Ha. intros Heq. apply Hne.
        apply (repr_blk_inj q L j' j d0 d H Hj' Hj Heq).
  - intros n s. rewrite Hmq, Hnq.
    destruct (decide (q_node d = n)) as [<-|Hne].
    + intros _. destruct (repr_linked _ _ H j d Hj) as (s0 & Hs0 & _).
      apply (repr_fresh_nodes _ _ H _ _ Hs0).
    + rewrite lookup_insert_ne by exact Hne. apply (repr_fresh_nodes _ _ H).
  - rewrite Hblk, Hnb. apply (repr_fresh_blocks _ _ H).
Qed.

(** The chain is never longer than the walk budget allows. *)
Lemma repr_length (q : queue) L : repr q L -> (length L < budget q)%nat.
Proof.
  intros H. unfold budget.
  assert (Hsub : forall n, n ∈ q_node <$> L -> n ∈ elements (dom (mini_queues q))).
  { intros n Hin. apply list_elem_of_fmap in Hin as (d & -> & Hd).
    apply list_elem_of_lookup in Hd as [j Hj].
    destruct (repr_linked _ _ H j d Hj) as (s & Hs & _).
    apply elem_of_elements, elem_of_dom. eauto. }
  pose proof (submseteq_length _ _
                (NoDup_submseteq _ _ (repr_nodes _ _ H) Hsub)) as Hle.
  rewrite length_fmap in Hle.
  rewrite <- size_dom. unfold size at 1, set_size. simpl. lia.
Qed.

Lemma unsafe_size_loop_ok (q : queue) L :
  repr q L ->
  forall fuel j size,
    (length L - j <= fuel)%nat ->
    exists sz, unsafe_size_loop fuel q size (q_node <$> L !! j) = Ok sz.
Proof.
  intros H. induction fuel as [|fuel IH]; intros j size Hfuel.
  - rewrite lookup_ge_None_2 by lia. simpl. eauto.
  - destruct (L !! j) as [d|] eqn:Hj; simpl; [|eauto].
    destruct (repr_linked _ _ H j d Hj) as (s & Hs & _ & Hsu & Hsc & _ & Hsn).
    rewrite Hs. simpl. unfold Get_mini_queue_used_size.
    rewrite Hsc, Hsu. simpl. rewrite decide_True by reflexivity. simpl.
    rewrite Hsn. apply IH. apply lookup_lt_Some in Hj. lia.
Qed.

Lemma unsafe_size_ok (q : queue) L :
  repr q L -> exists sz, unsafe_size q = Ok sz.
Proof.
  intros H. unfold unsafe_size. rewrite (repr_head _ _ H).
  apply (unsafe_size_loop_ok q L H). pose proof (repr_length _ _ H). lia.
Qed.

(** *** One [push] *)

(** [Internal_push] after its first [if]: construct at the write position
    and advance it. *)
Definition push_tail (x : Type_) (q1 : queue) : outcome queue :=
  c ← deref (mQueueCurrent q1);
  sc ← deref (mini_queues q1 !! c);
  mem ← construct (MiniQueue.mCurrent sc) x (mAllocator q1);
  p ← ptr_add (MiniQueue.mCurrent sc) 1;
  let sc := MiniQueue.set_mCurrent p sc in
  let q2 := set_mini_queue c sc (with_mAllocator mem q1) in
  if decide (MiniQueue.mCurrent sc = MiniQueue.mEnd sc /\
             mQueueCurrent q2 <> mQueueEnd q2)
  then
    next ← get_mini_queue (MiniQueue.mNextQueue sc) q2;
    let q3 :=
      set_mini_queue c (MiniQueue.set_mCurrent (MiniQueue.mBegin next) sc) q2 in
    Ok (with_mQueueCurrent (MiniQueue.mNextQueue sc) q3)
  else Ok q2.

(** The write block is the last one and has a free cell. *)
Record ready (q : queue) (P : list qdesc) (d : qdesc) : Prop := {
  ready_repr : repr q (P ++ [d]);
  ready_current : mQueueCurrent q = mQueueEnd q;
  ready_room : q_cur d < q_cap d;
  ready_ub : q_ub d = 0;
  ready_full : forall j d0, P !! j = Some d0 ->
                 q_ub d0 = 0 /\ q_vals d0 <> [] /\ q_cur d0 = q_cap d0
}.

Lemma q_cur_snoc ub vals x d :
  q_cur (with_vals ub (vals ++ [x]) d) = ub + Z.of_nat (length vals) + 1.
Proof. unfold q_cur. simpl. rewrite length_app. simpl. lia. Qed.

Lemma contents_snoc P d x :
  contents (P ++ [with_vals (q_ub d) (q_vals d ++ [x]) d])
  = contents (P ++ [d]) ++ [x].
Proof.
  unfold contents. rewrite !bind_app. simpl. rewrite !app_nil_r.
  rewrite app_assoc. reflexivity.
Qed.

Lemma push_tail_ready (q : queue) P d x :
  ready q P d ->
  exists q',
    push_tail x q = Ok q' /\
    pushing q' (P ++ [with_vals (q_ub d) (q_vals d ++ [x]) d]) /\
    blocks (mAllocator q') = blocks (mAllocator q) /\
    mini_queues q' = <[q_node d := MiniQueue.set_mCurrent
                                     (Some (q_blk d, q_cur d + 1))
                                     (default
                                        {| MiniQueue.mElements := None;
                                           MiniQueue.mBegin := None;
                                           MiniQueue.mUsedBegin := None;
                                           MiniQueue.mCurrent := None;
                                           MiniQueue.mEnd := None;
                                           MiniQueue.mNextQueue := None |}
                                        (mini_queues q !! q_node d))]>
                       (mini_queues q).
Proof.
  intros H. pose proof (ready_repr _ _ _ H) as Hr.
  assert (Hj : (P ++ [d]) !! length P = Some d)
    by (rewrite lookup_app_r, Nat.sub_diag by lia; reflexivity).
  destruct (repr_linked _ _ Hr _ _ Hj) as (s & Hs & Hsb & Hsu & Hsc & Hse & Hsn).
  destruct (repr_desc_ok _ _ _ _ Hr Hj) as (Hblk & Hub & Hcur & Hpos & Hcells).
  pose proof (ready_room _ _ _ H) as Hroom.
  assert (Hend : mQueueEnd q = Some (q_node d))
    by (rewrite (repr_end _ _ Hr), last_snoc; reflexivity).
  pose proof (ready_current _ _ _ H) as Hc. rewrite Hend in Hc.
  assert (Hcur0 : 0 <= q_cur d) by (unfold q_cur; lia).
  assert (Hin : in_block (mAllocator q) (q_blk d, q_cur d) = true).
  { unfold in_block. simpl. rewrite Hblk.
    rewrite (proj2 (Z.leb_le _ _)), (proj2 (Z.ltb_lt _ _)) by lia. reflexivity. }
  set (m' := {| cells := <[(q_blk d, q_cur d) := x]> (cells (mAllocator q));
                blocks := blocks (mAllocator q);
                next_block := next_block (mAllocator q) |}).
  set (s' := MiniQueue.set_mCurrent (Some (q_blk d, q_cur d + 1)) s).
  set (q' := set_mini_queue (q_node d) s' (with_mAllocator m' q)).
  exists q'. split.
  { unfold push_tail. rewrite Hc. simpl. rewrite Hs. simpl.
    rewrite Hsc. unfold construct. rewrite Hin. simpl.
    rewrite decide_False; [reflexivity|].
    intros [_ Hne]. apply Hne. congruence. }
  set (d' := with_vals (q_ub d) (q_vals d ++ [x]) d).
  assert (Hcur' : q_cur d' = q_cur d + 1).
  { subst d'. rewrite q_cur_snoc. unfold q_cur. lia. }
  assert (Hr' : repr q' (<[length P := d']> (P ++ [d]))).
  { apply (repr_update q q' (P ++ [d]) (length P) d d' s' Hr Hj);
      try reflexivity; simpl; auto.
    - rewrite Hcur'. reflexivity.
    - intros a Ha. apply lookup_insert_ne. intros <-. apply Ha. reflexivity.
    - split; [exact Hblk|]. split; [exact Hub|].
      split; [rewrite Hcur'; change (q_cap d') with (q_cap d); lia|].
      split; [exact Hpos|].
      intros k y Hk. subst d'. simpl in Hk |- *.
      destruct (decide (k = length (q_vals d))) as [->|Hne].
      + rewrite lookup_app_r, Nat.sub_diag in Hk by lia. injection Hk as <-.
        apply lookup_insert_eq.
      + assert (k < length (q_vals d))%nat.
        { apply lookup_lt_Some in Hk. rewrite length_app in Hk.
          simpl in Hk. lia. }
        rewrite lookup_app_l in Hk by lia.
        rewrite lookup_insert_ne; [auto|].
        unfold q_cur. intros [= Heq]. lia. }
  rewrite insert_app_r_alt, Nat.sub_diag in Hr' by lia. simpl in Hr'.
  split; [|split].
  - constructor; [exact Hr'| |].
    + simpl. rewrite Hc, Hend. reflexivity.
    + intros j d0 Hj0.
      destruct (decide (j < length P)%nat) as [Hlt|Hge].
      * rewrite lookup_app_l in Hj0 by lia.
        destruct (ready_full _ _ _ H j d0 Hj0) as (H1 & H2 & H3). auto.
      * assert (j = length P) as ->.
        { apply lookup_lt_Some in Hj0. rewrite length_app in Hj0.
          simpl in Hj0. lia. }
        rewrite lookup_app_r, Nat.sub_diag in Hj0 by lia. injection Hj0 as <-.
        split; [apply (ready_ub _ _ _ H)|].
        split; [simpl; intros Hnil; apply app_eq_nil in Hnil as [_ ?]; discriminate|].
        rewrite length_app. simpl. lia.
  - reflexivity.
  - subst q' s'. simpl. rewrite Hs. reflexivity.
Qed.

(** The block that [Allocate_mini_queue] builds. *)
Definition new_block_size (requested current : Z) : Z :=
  Z.max Min_queue_size
    (wrap (Calculate_new_capacity sizeof_Type requested - current)).

Definition new_node (b : nat) (n : Z) : MiniQueue.t :=
  {| MiniQueue.mElements := Some (b, 0); MiniQueue.mBegin := Some (b, 0);
     MiniQueue.mUsedBegin := Some (b, 0); MiniQueue.mCurrent := Some (b, 0);
     MiniQueue.mEnd := Some (b, 0 + n); MiniQueue.mNextQueue := None |}.

Definition new_desc (q : queue) (n : Z) : qdesc :=
  {| q_node := next_mini_queue q; q_blk := next_block (mAllocator q);
     q_cap := n; q_ub := 0; q_vals := [] |}.

Lemma new_block_size_pos r c : 0 < new_block_size r c.
Proof.
  unfold new_block_size, Queue.Min_queue_size.
  pose proof (Min_segment_size_eval_cases sizeof_Type). lia.
Qed.

Lemma Allocate_mini_queue_eq r c (q : queue) :
  Allocate_mini_queue sizeof_Type r c q
  = Ok (next_mini_queue q,
        {| mQueue := mQueue q; mQueueCurrent := mQueueCurrent q;
           mQueueEnd := mQueueEnd q;
           mAllocator :=
             {| cells := cells (mAllocator q);
                blocks := <[next_block (mAllocator q) := new_block_size r c]>
                            (blocks (mAllocator q));
                next_block := S (next_block (mAllocator q)) |};
           mini_queues :=
             <[next_mini_queue q :=
                 new_node (next_block (mAllocator q)) (new_block_size r c)]>
               (mini_queues q);
           next_mini_queue := S (next_mini_queue q) |}).
Proof. reflexivity. Qed.

(** A fresh block is linked behind the last one. *)
Lemma repr_append (q q' : queue) L n :
  repr q L -> 0 < n ->
  mQueue q' = q_node <$> (L ++ [new_desc q n]) !! 0%nat ->
  mQueueEnd q' = Some (next_mini_queue q) ->
  mini_queues q'
  = match last L with
    | None => <[next_mini_queue q := new_node (next_block (mAllocator q)) n]>
                (mini_queues q)
    | Some e =>
        <[q_node e :=
            MiniQueue.set_mNextQueue (Some (next_mini_queue q))
              (default (new_node 0 0) (mini_queues q !! q_node e))]>
          (<[next_mini_queue q := new_node (next_block (mAllocator q)) n]>
             (mini_queues q))
    end ->
  next_mini_queue q' = S (next_mini_queue q) ->
  blocks (mAllocator q')
  = <[next_block (mAllocator q) := n]> (blocks (mAllocator q)) ->
  cells (mAllocator q') = cells (mAllocator q) ->
  next_block (mAllocator q') = S (next_block (mAllocator q)) ->
  repr q' (L ++ [new_desc q n]).
Proof.
  intros H Hn Hq He Hmq Hnq Hblk Hcells Hnb.
  assert (Hnode : forall j d, L !! j = Some d ->
            q_node d <> next_mini_queue q).
  { intros j d Hj. destruct (repr_linked _ _ H j d Hj) as (s & Hs & _).
    pose proof (repr_fresh_nodes _ _ H _ _ Hs). lia. }
  assert (Hblock : forall j d, L !! j = Some d ->
            q_blk d <> next_block (mAllocator q)).
  { intros j d Hj. destruct (repr_desc_ok _ _ _ _ H Hj) as (Hb & _).
    pose proof (repr_fresh_blocks _ _ H _ _ Hb). lia. }
  constructor.
  - exact Hq.
  - rewrite He, last_snoc. reflexivity.
  - intros j d Hj.
    destruct (decide (j < length L)%nat) as [Hlt|Hge].
    + rewrite lookup_app_l in Hj by lia.
      destruct (repr_linked _ _ H j d Hj) as (s & Hs & Hsb & Hsu & Hsc & Hse & Hsn).
      destruct (last L) as [e|] eqn:Hlast;
        [|apply last_None in Hlast; subst L; simpl in Hlt; lia].
      apply last_Some in Hlast as [P ->].
      rewrite length_app in Hlt. simpl in Hlt.
      assert (He' : (P ++ [e]) !! length P = Some e)
        by (rewrite lookup_app_r, Nat.sub_diag by lia; reflexivity).
      destruct (decide (j = length P)) as [->|Hne].
      * assert (d = e) as -> by congruence.
        exists (MiniQueue.set_mNextQueue (Some (next_mini_queue q)) s).
        rewrite Hmq, lookup_insert_eq, Hs. simpl.
        split; [reflexivity|]. repeat (split; [assumption|]).
        rewrite lookup_app_r by (rewrite length_app; simpl; lia).
        rewrite length_app. simpl.
        replace (S (length P) - (length P + 1))%nat with 0%nat by lia.
        reflexivity.
      * exists s. rewrite Hmq, !lookup_insert_ne; [| |].
        -- split; [exact Hs|]. repeat (split; [assumption|]).
           rewrite Hsn, (lookup_app_l (P ++ [e]))
             by (rewrite length_app; simpl; lia).
           reflexivity.
        -- intros Heq. symmetry in Heq. exact (Hnode _ _ Hj Heq).
        -- intros Heq. apply Hne.
           apply (repr_node_inj q (P ++ [e]) j (length P) d e H Hj He').
           congruence.
    + assert (j = length L) as ->.
      { apply lookup_lt_Some in Hj. rewrite length_app in Hj. simpl in Hj. lia. }
      rewrite lookup_app_r, Nat.sub_diag in Hj by lia. injection Hj as <-.
      exists (new_node (next_block (mAllocator q)) n).
      split.
      { rewrite Hmq. destruct (last L) as [e|] eqn:Hlast.
        - apply last_Some in Hlast as [P ->].
          rewrite lookup_insert_ne; [apply lookup_insert_eq|].
          apply (Hnode (length P)).
          rewrite lookup_app_r, Nat.sub_diag by lia. reflexivity.
        - apply lookup_insert_eq. }
      simpl. repeat (split; [reflexivity|]).
      rewrite lookup_ge_None_2; [reflexivity|].
      rewrite length_app. simpl. lia.
  - rewrite fmap_app. apply NoDup_app. split; [apply (repr_nodes _ _ H)|].
    split; [|apply NoDup_singleton].
    intros x Hx Hx'. apply list_elem_of_fmap in Hx as (d & -> & Hd).
    apply list_elem_of_lookup in Hd as [j Hj].
    simpl in Hx'. apply list_elem_of_singleton in Hx'.
    exact (Hnode _ _ Hj Hx').
  - rewrite fmap_app. apply NoDup_app. split; [apply (repr_blocks _ _ H)|].
    split; [|apply NoDup_singleton].
    intros x Hx Hx'. apply list_elem_of_fmap in Hx as (d & -> & Hd).
    apply list_elem_of_lookup in Hd as [j Hj].
    simpl in Hx'. apply list_elem_of_singleton in Hx'.
    exact (Hblock _ _ Hj Hx').
  - apply Forall_app. split.
    + apply Forall_lookup. intros j d Hj.
      apply (qdesc_ok_frame (mAllocator q)).
      * apply (repr_desc_ok _ _ _ _ H Hj).
      * rewrite Hblk. apply lookup_insert_ne.
        intros Heq. symmetry in Heq. exact (Hblock _ _ Hj Heq).
      * intros a _. rewrite Hcells. reflexivity.
    + constructor; [|constructor]. unfold qdesc_ok, q_cur. simpl.
      rewrite Hblk, lookup_insert_eq.
      split; [reflexivity|]. split; [lia|]. split; [lia|]. split; [lia|].
      intros k x. rewrite lookup_nil. discriminate.
  - intros n' s. rewrite Hmq, Hnq. intros Hl.
    assert (Hold : forall s0, mini_queues q !! n' = Some s0 ->
              (n' < S (next_mini_queue q))%nat).
    { intros s0 Hs0. pose proof (repr_fresh_nodes _ _ H _ _ Hs0). lia. }
    assert (Hmid : forall s0,
              (<[next_mini_queue q := new_node (next_block (mAllocator q)) n]>
                 (mini_queues q)) !! n' = Some s0 ->
              (n' < S (next_mini_queue q))%nat).
    { intros s0. destruct (decide (next_mini_queue q = n')) as [<-|Hne'].
      - intros _. lia.
      - rewrite lookup_insert_ne by exact Hne'. apply Hold. }
    destruct (last L) as [e|] eqn:Hlast; [|exact (Hmid _ Hl)].
    apply last_Some in Hlast as [P ->].
    destruct (decide (q_node e = n')) as [<-|Hne'].
    + assert (He' : (P ++ [e]) !! length P = Some e)
        by (rewrite lookup_app_r, Nat.sub_diag by lia; reflexivity).
      destruct (repr_linked _ _ H _ _ He') as (s0 & Hs0 & _).
      exact (Hold _ Hs0).
    + rewrite lookup_insert_ne in Hl by exact Hne'. exact (Hmid _ Hl).
  - intros b k. rewrite Hblk, Hnb.
    destruct (decide (next_block (mAllocator q) = b)) as [<-|Hne'].
    + intros _. lia.
    + rewrite lookup_insert_ne by exact Hne'. intros Hb.
      pose proof (repr_fresh_blocks _ _ H _ _ Hb). lia.
Qed.

(** [Internal_push] up to the end of its first [if]. *)
Definition push_head (q : queue) : outcome queue :=
  if decide (mQueueEnd q = mQueueCurrent q)
  then
    match mQueue q with
    | None =>
        '(queue, q') ← Allocate_mini_queue sizeof_Type 1 0 q;
        Emplace_back_mini_queue queue q'
    | Some _ =>
        sc ← get_mini_queue (mQueueCurrent q) q;
        if decide (MiniQueue.mCurrent sc = MiniQueue.mEnd sc)
        then
          size ← unsafe_size q;
          '(queue, q') ←
            Allocate_mini_queue sizeof_Type (wrap (size + 1)) size q;
          Emplace_back_mini_queue queue q'
        else Ok q
    end
  else Ok q.

Lemma Internal_push_eq x (q : queue) :
  Internal_push sizeof_Type x q = push_head q ≫= push_tail x.
Proof. reflexivity. Qed.

Lemma contents_app L1 L2 : contents (L1 ++ L2) = contents L1 ++ contents L2.
Proof. unfold contents. apply bind_app. Qed.

(** The first [if] of [Internal_push] on a queue that has only been
    pushed to: either nothing changes, or a block is allocated and linked
    behind the last one. *)
Lemma push_head_cases (q : queue) L :
  pushing q L ->
  exists q1 P d,
    push_head q = Ok q1 /\ ready q1 P d /\
    ((q1 = q /\ L = P ++ [d]) \/
     (exists n, P = L /\ d = new_desc q n /\
        mAllocator q1
        = {| cells := cells (mAllocator q);
             blocks := <[next_block (mAllocator q) := n]>
                         (blocks (mAllocator q));
             next_block := S (next_block (mAllocator q)) |} /\
        dom (mini_queues q1) = {[next_mini_queue q]} ∪ dom (mini_queues q))).
Proof.
  intros H. pose proof (pushing_repr _ _ H) as Hr.
  pose proof (pushing_current _ _ H) as Hc.
  unfold push_head. rewrite decide_True by congruence.
  destruct (last L) as [d|] eqn:Hlast.
  - apply last_Some in Hlast as [P ->].
    assert (Hj : (P ++ [d]) !! length P = Some d)
      by (rewrite lookup_app_r, Nat.sub_diag by lia; reflexivity).
    destruct (repr_linked _ _ Hr _ _ Hj) as (s & Hs & Hsb & Hsu & Hsc & Hse & Hsn).
    assert (Hend : mQueueEnd q = Some (q_node d))
      by (rewrite (repr_end _ _ Hr), last_snoc; reflexivity).
    rewrite Hend in Hc.
    assert (Hhead : exists h, mQueue q = Some h).
    { rewrite (repr_head _ _ Hr). destruct P; simpl; eauto. }
    destruct Hhead as [h Hh]. rewrite Hh.
    unfold get_mini_queue. rewrite Hc. cbn [mbind outcome_bind deref].
    rewrite Hs. cbn [mbind outcome_bind deref].
    destruct (repr_desc_ok _ _ _ _ Hr Hj) as (Hblk & Hub & Hcur & Hpos & Hcells).
    destruct (decide (MiniQueue.mCurrent s = MiniQueue.mEnd s)) as [Hfull|Hroom].
    + destruct (unsafe_size_ok q _ Hr) as [sz Hsz]. rewrite Hsz.
      cbn [mbind outcome_bind]. rewrite Allocate_mini_queue_eq.
      cbn [mbind outcome_bind].
      set (n := new_block_size (wrap (sz + 1)) sz).
      assert (Hne : next_mini_queue q <> q_node d).
      { pose proof (repr_fresh_nodes _ _ Hr _ _ Hs). lia. }
      unfold Emplace_back_mini_queue. cbn [mQueue mQueueEnd mini_queues].
      rewrite Hh, Hend. simpl. rewrite lookup_insert_ne by exact Hne.
      rewrite Hs. simpl. unfold get_mini_queue. simpl. rewrite Hc. simpl.
      rewrite lookup_insert_eq. simpl. rewrite decide_True by exact Hfull.
      eexists _, (P ++ [d]), (new_desc q n).
      split; [reflexivity|]. split.
      * constructor.
        -- apply (repr_append q _ (P ++ [d]) n Hr); simpl; try reflexivity.
           ++ apply new_block_size_pos.
           ++ rewrite <- Hh, (repr_head _ _ Hr). destruct P; reflexivity.
           ++ rewrite last_snoc, Hs. reflexivity.
        -- reflexivity.
        -- unfold q_cur. simpl. apply new_block_size_pos.
        -- reflexivity.
        -- intros j d0 Hj0.
           destruct (pushing_blocks _ _ H j d0 Hj0) as (H1 & H2 & H3).
           split; [exact H1|]. split; [exact H2|].
           destruct (decide (j = length P)) as [->|Hnj].
           ++ assert (d0 = d) as -> by congruence.
              rewrite Hsc, Hse in Hfull. congruence.
           ++ apply H3. apply lookup_lt_Some in Hj0.
              rewrite length_app in Hj0 |- *. simpl in Hj0 |- *. lia.
      * right. exists n. split; [reflexivity|]. split; [reflexivity|].
        split; [reflexivity|]. simpl.
        rewrite dom_insert_lookup_L
          by (rewrite lookup_insert_ne by exact Hne; eauto).
        apply dom_insert_L.
    + exists q, P, d. split; [reflexivity|]. split; [|left; auto].
      constructor.
      * exact Hr.
      * congruence.
      * rewrite Hsc, Hse in Hroom.
        destruct (decide (q_cur d = q_cap d)); [congruence|lia].
      * apply (pushing_blocks _ _ H _ _ Hj).
      * intros j d0 Hj0.
        assert (Hj1 : (P ++ [d]) !! j = Some d0).
        { rewrite lookup_app_l; [exact Hj0|]. eapply lookup_lt_Some; eauto. }
        destruct (pushing_blocks _ _ H j d0 Hj1) as (H1 & H2 & H3).
        split; [exact H1|]. split; [exact H2|].
        apply H3. apply lookup_lt_Some in Hj0. rewrite length_app. simpl. lia.
  - apply last_None in Hlast. subst L.
    pose proof (repr_head _ _ Hr) as Hh. simpl in Hh. rewrite Hh.
    rewrite Allocate_mini_queue_eq. cbn [mbind outcome_bind].
    set (n := new_block_size 1 0).
    unfold Emplace_back_mini_queue. cbn [mQueue]. rewrite Hh.
    eexists _, [], (new_desc q n).
    split; [reflexivity|]. split.
    + constructor.
      * apply (repr_append q _ [] n Hr); simpl; try reflexivity.
        apply new_block_size_pos.
      * reflexivity.
      * unfold q_cur. simpl. apply new_block_size_pos.
      * reflexivity.
      * intros j d0. rewrite lookup_nil. discriminate.
    + right. exists n. split; [reflexivity|]. split; [reflexivity|].
      split; [reflexivity|]. simpl. apply dom_insert_L.
Qed.

Lemma push_head_ready (q : queue) L :
  pushing q L ->
  exists q1 P d,
    push_head q = Ok q1 /\ ready q1 P d /\
    contents (P ++ [d]) = contents L.
Proof.
  intros H.
  destruct (push_head_cases q L H) as (q1 & P & d & Hh & Hready & Hcase).
  exists q1, P, d. split; [exact Hh|]. split; [exact Hready|].
  destruct Hcase as [[_ ->]|(n & -> & -> & _)]; [reflexivity|].
  rewrite contents_app. unfold contents at 2. simpl. apply app_nil_r.
Qed.

Lemma push_step (q : queue) L x :
  pushing q L ->
  exists q' L',
    push sizeof_Type x q = Ok q' /\ pushing q' L' /\
    contents L' = contents L ++ [x].
Proof.
  intros H. destruct (push_head_ready q L H) as (q1 & P & d & Hh & Hready & Hcont).
  destruct (push_tail_ready q1 P d x Hready) as (q' & Ht & Hp & _).
  exists q', (P ++ [with_vals (q_ub d) (q_vals d ++ [x]) d]).
  split; [|split; [exact Hp|]].
  - unfold push. rewrite Internal_push_eq, Hh. exact Ht.
  - rewrite contents_snoc, Hcont. reflexivity.
Qed.

Lemma push_all_spec xs : forall (q : queue) L,
  pushing q L ->
  exists q' L',
    push_all sizeof_Type xs q = Ok q' /\ pushing q' L' /\
    contents L' = contents L ++ xs.
Proof.
  induction xs as [|x xs IH]; intros q L H.
  - exists q, L. rewrite app_nil_r. auto.
  - destruct (push_step q L x H) as (q1 & L1 & Hpush & H1 & Hc1).
    destruct (IH q1 L1 H1) as (q' & L' & Hall & H' & Hc').
    exists q', L'. simpl. rewrite Hpush. simpl.
    split; [exact Hall|]. split; [exact H'|].
    rewrite Hc', Hc1, <- app_assoc. reflexivity.
Qed.

(** *** One [try_pop] *)

(** The head block goes behind the last one. *)
Lemma repr_rotate (q q' : queue) h X e sh se :
  repr q (h :: X ++ [e]) ->
  mini_queues q !! q_node h = Some sh ->
  mini_queues q !! q_node e = Some se ->
  mQueue q' = MiniQueue.mNextQueue sh ->
  mQueueEnd q' = Some (q_node h) ->
  mini_queues q'
  = <[q_node h := MiniQueue.set_mNextQueue None sh]>
      (<[q_node e := MiniQueue.set_mNextQueue (Some (q_node h)) se]>
         (mini_queues q)) ->
  next_mini_queue q' = next_mini_queue q ->
  mAllocator q' = mAllocator q ->
  repr q' ((X ++ [e]) ++ [h]).
Proof.
  intros H Hsh Hse Hq He Hmq Hnq Hmem.
  assert (H0 : (h :: X ++ [e]) !! 0%nat = Some h) by reflexivity.
  assert (Hlast : (h :: X ++ [e]) !! S (length X) = Some e).
  { simpl. rewrite lookup_app_r, Nat.sub_diag by lia. reflexivity. }
  assert (Hhe : q_node h <> q_node e).
  { intros Heq. pose proof (repr_node_inj _ _ _ _ _ _ H H0 Hlast Heq). lia. }
  constructor.
  - destruct (repr_linked _ _ H _ _ H0) as (s & Hs & _ & _ & _ & _ & Hsn).
    assert (s = sh) as -> by congruence.
    rewrite Hq, Hsn. simpl.
    rewrite (lookup_app_l (X ++ [e])) by (rewrite length_app; simpl; lia).
    reflexivity.
  - rewrite He, last_snoc. reflexivity.
  - intros j d Hj.
    destruct (decide (j < length X)%nat) as [Hlt|Hge].
    + rewrite <- app_assoc, lookup_app_l in Hj by lia.
      assert (Hj' : (h :: X ++ [e]) !! S j = Some d).
      { simpl. rewrite lookup_app_l by lia. exact Hj. }
      destruct (repr_linked _ _ H _ _ Hj') as (s & Hs & Hsb & Hsu & Hsc & Hsen & Hsn).
      exists s. rewrite Hmq, !lookup_insert_ne.
      * split; [exact Hs|]. repeat (split; [assumption|]).
        rewrite Hsn. simpl.
        rewrite (lookup_app_l (X ++ [e])) by (rewrite length_app; simpl; lia).
        reflexivity.
      * intros Heq. symmetry in Heq.
        pose proof (repr_node_inj _ _ _ _ _ _ H Hj' Hlast Heq). lia.
      * intros Heq. symmetry in Heq.
        pose proof (repr_node_inj _ _ _ _ _ _ H Hj' H0 Heq). lia.
    + destruct (decide (j = length X)) as [->|Hne].
      * rewrite <- app_assoc, lookup_app_r, Nat.sub_diag in Hj by lia.
        injection Hj as <-.
        destruct (repr_linked _ _ H _ _ Hlast) as (s & Hs & Hsb & Hsu & Hsc & Hsen & Hsn).
        assert (s = se) as -> by congruence.
        exists (MiniQueue.set_mNextQueue (Some (q_node h)) se).
        rewrite Hmq, lookup_insert_ne by exact Hhe.
        rewrite lookup_insert_eq. split; [reflexivity|]. simpl.
        repeat (split; [assumption|]).
        rewrite lookup_app_r by (rewrite length_app; simpl; lia).
        rewrite length_app. simpl.
        replace (S (length X) - (length X + 1))%nat with 0%nat by lia.
        reflexivity.
      * assert (j = S (length X)) as ->.
        { apply lookup_lt_Some in Hj. rewrite !length_app in Hj.
          simpl in Hj. lia. }
        rewrite lookup_app_r in Hj by (rewrite length_app; simpl; lia).
        rewrite length_app in Hj. simpl in Hj.
        replace (S (length X) - (length X + 1))%nat with 0%nat in Hj by lia.
        injection Hj as <-.
        destruct (repr_linked _ _ H _ _ H0) as (s & Hs & Hsb & Hsu & Hsc & Hsen & Hsn).
        assert (s = sh) as -> by congruence.
        exists (MiniQueue.set_mNextQueue None sh).
        rewrite Hmq, lookup_insert_eq. split; [reflexivity|]. simpl.
        repeat (split; [assumption|]).
        rewrite lookup_ge_None_2; [reflexivity|].
        rewrite !length_app. simpl. lia.
  - rewrite fmap_app. simpl. rewrite <- Permutation_cons_append.
    exact (repr_nodes _ _ H).
  - rewrite fmap_app. simpl. rewrite <- Permutation_cons_append.
    exact (repr_blocks _ _ H).
  - rewrite Hmem, <- Permutation_cons_append. exact (repr_ok _ _ H).
  - intros n s. rewrite Hmq, Hnq.
    destruct (decide (q_node h = n)) as [<-|Hn1].
    { intros _. apply (repr_fresh_nodes _ _ H _ _ Hsh). }
    rewrite lookup_insert_ne by exact Hn1.
    destruct (decide (q_node e = n)) as [<-|Hn2].
    { intros _. apply (repr_fresh_nodes _ _ H _ _ Hse). }
    rewrite lookup_insert_ne by exact Hn2. apply (repr_fresh_nodes _ _ H).
  - rewrite Hmem. apply (repr_fresh_blocks _ _ H).
Qed.

Lemma contents_nil L :
  (forall j d, L !! j = Some d -> q_vals d = []) -> contents L = [].
Proof.
  induction L as [|d L IH]; intros H; [reflexivity|].
  unfold contents in *. simpl. rewrite (H 0%nat d eq_refl). simpl.
  apply IH. intros j d0 Hj. apply (H (S j) d0 Hj).
Qed.

Lemma contents_nil_inv L j d :
  contents L = [] -> L !! j = Some d -> q_vals d = [].
Proof.
  revert j. induction L as [|d0 L IH]; intros j Hc Hj; [discriminate|].
  unfold contents in *. simpl in Hc. apply app_eq_nil in Hc as [H1 H2].
  destruct j as [|j]; [injection Hj as <-; exact H1|]. apply (IH j H2 Hj).
Qed.

(** An empty queue: [try_pop] fails and leaves the queue as it is. *)
Lemma try_pop_empty (q : queue) L :
  repr q L -> contents L = [] ->
  try_pop value_init q = Ok (false, value_init, q) /\ empty q = Ok true.
Proof.
  intros H Hc. unfold try_pop, empty. rewrite (repr_head _ _ H).
  destruct L as [|h X]; [auto|]. simpl.
  destruct (repr_linked _ _ H 0%nat h eq_refl) as (s & Hs & _ & Hsu & Hsc & _).
  rewrite Hs. simpl.
  assert (Hv : q_vals h = []) by (apply (contents_nil_inv _ 0%nat _ Hc eq_refl)).
  assert (Heq : MiniQueue.mCurrent s = MiniQueue.mUsedBegin s).
  { rewrite Hsc, Hsu. unfold q_cur. rewrite Hv. simpl. do 2 f_equal. lia. }
  rewrite decide_True by exact Heq. rewrite bool_decide_eq_true_2 by exact Heq.
  auto.
Qed.

Lemma load_cell (m : memory Type_) a x :
  in_block m a = true -> cells m !! a = Some x -> load (Some a) m = Ok x.
Proof. intros H1 H2. unfold load. rewrite H1, H2. reflexivity. Qed.

Lemma destroy_cell (m : memory Type_) a :
  in_block m a = true ->
  destroy (Some a) m
  = Ok {| cells := delete a (cells m); blocks := blocks m;
          next_block := next_block m |}.
Proof. intros H. unfold destroy. rewrite H. reflexivity. Qed.

(** [try_pop] on a head block that holds an element: the element comes
    out; either the block keeps its place, or, when its last cell has been
    consumed, its cursors go back to [mBegin] and it goes behind the other
    blocks (where it already is when it is the only one). *)
Lemma try_pop_head (q : queue) h X x vs :
  repr q (h :: X) -> q_vals h = x :: vs ->
  exists q',
    try_pop value_init q = Ok (true, x, q') /\
    blocks (mAllocator q') = blocks (mAllocator q) /\
    ((q_ub h + 1 < q_cap h /\ repr q' (with_vals (q_ub h + 1) vs h :: X)) \/
     (q_ub h + 1 = q_cap h /\ vs = [] /\ repr q' (X ++ [with_vals 0 [] h]))).
Proof.
  intros H Hv.
  assert (H0 : (h :: X) !! 0%nat = Some h) by reflexivity.
  destruct (repr_linked _ _ H _ _ H0) as (s & Hs & Hsb & Hsu & Hsc & Hse & Hsn).
  destruct (repr_desc_ok _ _ _ _ H H0) as (Hblk & Hub & Hcur & Hpos & Hcells).
  pose proof (repr_head _ _ H) as Hh. simpl in Hh.
  assert (Hlen : q_cur h = q_ub h + 1 + Z.of_nat (length vs)).
  { unfold q_cur. rewrite Hv. simpl length. lia. }
  assert (Hin : in_block (mAllocator q) (q_blk h, q_ub h) = true).
  { unfold in_block. simpl. rewrite Hblk.
    rewrite (proj2 (Z.leb_le _ _)), (proj2 (Z.ltb_lt _ _)) by lia. reflexivity. }
  assert (Hx : cells (mAllocator q) !! (q_blk h, q_ub h) = Some x).
  { specialize (Hcells 0%nat x). rewrite Hv in Hcells.
    rewrite Z.add_0_r in Hcells. apply Hcells. reflexivity. }
  set (m' := {| cells := delete (q_blk h, q_ub h) (cells (mAllocator q));
                blocks := blocks (mAllocator q);
                next_block := next_block (mAllocator q) |}).
  set (s1 := MiniQueue.set_mUsedBegin (Some (q_blk h, q_ub h + 1)) s).
  assert (Hpop : try_pop value_init q
                 = (let q1 := set_mini_queue (q_node h) s1 (with_mAllocator m' q) in
  if decide (MiniQueue.mUsedBegin s1 = MiniQueue.mEnd s1)
  then
    let s := MiniQueue.set_mCurrent (MiniQueue.mBegin s1)
               (MiniQueue.set_mUsedBegin (MiniQueue.mBegin s1) s1) in
    let q2 := set_mini_queue (q_node h) s q1 in
    if decide (mQueue q2 <> mQueueEnd q2)
    then
      e ← deref (mQueueEnd q2);
      se ← deref (mini_queues q2 !! e);
      let q3 :=
        with_mQueueEnd (mQueue q2)
          (set_mini_queue e (MiniQueue.set_mNextQueue (mQueue q2) se) q2) in
      sh ← deref (mini_queues q3 !! q_node h);
      Ok (true, x,
          with_mQueue (MiniQueue.mNextQueue sh)
            (set_mini_queue (q_node h) (MiniQueue.set_mNextQueue None sh) q3))
    else Ok (true, x, q2)
  else Ok (true, x, q1))).
  { unfold try_pop. rewrite Hh, Hs. cbn [mbind outcome_bind deref].
    rewrite decide_False.
    2:{ rewrite Hsc, Hsu, Hlen. intros [= Heq]. lia. }
    unfold Internal_Pop. rewrite Hh. cbn [mbind outcome_bind deref].
    rewrite Hs. cbn [mbind outcome_bind deref].
    pose proof (load_cell _ _ x Hin Hx) as Hload.
    pose proof (destroy_cell _ _ Hin) as Hdestroy.
    unfold address in Hload, Hdestroy.
    rewrite Hsu, Hload, Hdestroy.
    cbn [mbind outcome_bind deref ptr_add]. reflexivity. }
  rewrite Hpop. clear Hpop. cbn zeta.
  assert (Hcell' : forall (k : nat) y, vs !! k = Some y ->
            cells m' !! (q_blk h, q_ub h + 1 + Z.of_nat k) = Some y).
  { intros k y Hk. simpl. rewrite lookup_delete_ne by (intros [= Heq]; lia).
    specialize (Hcells (S k) y). rewrite Hv in Hcells.
    replace (q_ub h + 1 + Z.of_nat k) with (q_ub h + Z.of_nat (S k)) by lia.
    apply Hcells. exact Hk. }
  destruct (decide (MiniQueue.mUsedBegin s1 = MiniQueue.mEnd s1)) as [Hend|Hnot].
  - simpl in Hend. rewrite Hse in Hend. injection Hend as Hend.
    assert (vs = []) as -> by (destruct vs; [reflexivity|simpl in Hlen; lia]).
    set (s2 := MiniQueue.set_mCurrent (MiniQueue.mBegin s1)
                 (MiniQueue.set_mUsedBegin (MiniQueue.mBegin s1) s1)).
    set (q2 := set_mini_queue (q_node h) s2
                 (set_mini_queue (q_node h) s1 (with_mAllocator m' q))).
    assert (Hr2 : repr q2 (with_vals 0 [] h :: X)).
    { apply (repr_update q q2 (h :: X) 0%nat h (with_vals 0 [] h) s2 H H0);
        try reflexivity; simpl; auto.
      - apply insert_insert_eq.
      - intros a Ha. apply lookup_delete_ne. intros <-. apply Ha. reflexivity.
      - split; [exact Hblk|]. unfold q_cur. simpl.
        split; [lia|]. split; [lia|]. split; [lia|].
        intros k y. rewrite lookup_nil. discriminate. }
    destruct (last X) as [e|] eqn:Hlast.
    + apply last_Some in Hlast as [X' ->].
      assert (Hje : (with_vals 0 [] h :: X' ++ [e]) !! S (length X') = Some e).
      { simpl. rewrite lookup_app_r, Nat.sub_diag by lia. reflexivity. }
      destruct (repr_linked _ _ Hr2 _ _ Hje) as (se & Hse2 & _).
      assert (Hne : q_node h <> q_node e).
      { intros Heq.
        pose proof (repr_node_inj _ _ 0%nat _ _ _ Hr2 eq_refl Hje Heq). lia. }
      assert (HE : mQueueEnd q2 = Some (q_node e)).
      { rewrite (repr_end _ _ Hr2).
        change (with_vals 0 [] h :: X' ++ [e])
          with ((with_vals 0 [] h :: X') ++ [e]).
        rewrite last_snoc. reflexivity. }
      assert (HQ : mQueue q2 = Some (q_node h)) by exact Hh.
      rewrite decide_True by (rewrite HQ, HE; congruence).
      rewrite HE. cbn [mbind outcome_bind deref]. rewrite Hse2.
      cbn [mbind outcome_bind deref].
      cbn [mini_queues with_mQueueEnd set_mini_queue].
      rewrite lookup_insert_ne by congruence.
      assert (Hs2 : mini_queues q2 !! q_node h = Some s2)
        by (simpl; apply lookup_insert_eq).
      rewrite Hs2. cbn [mbind outcome_bind deref].
      eexists. split; [reflexivity|]. split; [reflexivity|].
      right. split; [lia|]. split; [reflexivity|].
      apply (repr_rotate q2 _ (with_vals 0 [] h) X' e s2 se Hr2 Hs2 Hse2);
        try reflexivity.
      all: unfold with_mQueue, with_mQueueEnd, set_mini_queue;
        cbn [mini_queues mQueue mQueueEnd]; rewrite ?HQ; reflexivity.
    + apply last_None in Hlast. subst X.
      assert (HE : mQueueEnd q2 = Some (q_node h)).
      { rewrite (repr_end _ _ Hr2). reflexivity. }
      assert (HQ : mQueue q2 = Some (q_node h)) by exact Hh.
      rewrite decide_False by (rewrite HQ, HE; intros Hne; apply Hne; reflexivity).
      exists q2. split; [reflexivity|]. split; [reflexivity|].
      right. split; [lia|]. split; [reflexivity|]. exact Hr2.
  - eexists. split; [reflexivity|]. split; [reflexivity|].
    left.
    assert (Hlt : q_ub h + 1 < q_cap h).
    { simpl in Hnot. rewrite Hse in Hnot.
      destruct (decide (q_ub h + 1 = q_cap h)); [congruence|lia]. }
    split; [exact Hlt|].
    apply (repr_update q _ (h :: X) 0%nat h (with_vals (q_ub h + 1) vs h) s1 H H0);
      try reflexivity; simpl; auto.
    + rewrite Hsc, Hlen. reflexivity.
    + intros a Ha. apply lookup_delete_ne. intros <-. apply Ha. reflexivity.
    + split; [exact Hblk|]. unfold q_cur. simpl.
      split; [lia|]. split; [lia|]. split; [lia|]. exact Hcell'.
Qed.

(** One successful [try_pop]: the chain keeps its blocks, possibly in
    another order. *)
Lemma pop_step_perm (q : queue) L x rest :
  popping q L -> contents L = x :: rest ->
  exists q' L',
    try_pop value_init q = Ok (true, x, q') /\ popping q' L' /\
    contents L' = rest /\
    q_node <$> L' ≡ₚ q_node <$> L /\ q_blk <$> L' ≡ₚ q_blk <$> L.
Proof.
  intros H Hc. pose proof (popping_repr _ _ H) as Hr.
  destruct L as [|h X]; [discriminate|].
  destruct (popping_blocks _ _ H 0%nat h eq_refl) as [Hnil Hfull].
  destruct (q_vals h) as [|x' vs] eqn:Hv.
  { rewrite contents_nil in Hc; [discriminate|].
    intros [|j] d Hj; [injection Hj as <-; exact Hv|].
    apply (Hnil eq_refl (S j) d); [lia|exact Hj]. }
  change (h :: X) with ([h] ++ X) in Hc. rewrite contents_app in Hc.
  unfold contents at 1 in Hc. simpl in Hc. rewrite Hv, app_nil_r in Hc.
  simpl in Hc. injection Hc as -> Hrest.
  destruct (try_pop_head q h X x vs Hr Hv) as (q' & Hpop & _ & Hcase).
  assert (Hlen : q_cur h = q_ub h + 1 + Z.of_nat (length vs)).
  { unfold q_cur. rewrite Hv. simpl length. lia. }
  destruct Hcase as [(Hlt & Hr') | (Heq & -> & Hr')].
  - exists q', (with_vals (q_ub h + 1) vs h :: X).
    split; [exact Hpop|]. split.
    + constructor; [exact Hr'|].
      intros [|j] d Hj.
      * injection Hj as <-. split.
        -- simpl. intros -> j' d' Hj' Hd'.
           destruct j' as [|j']; [lia|].
           destruct (q_vals d') eqn:Hvd; [reflexivity|].
           assert (q_cur h = q_cap h).
           { apply (Hfull (S j') d'); [lia|exact Hd'|]. rewrite Hvd. discriminate. }
           simpl in Hlen. lia.
        -- intros j' d' Hj' Hd' Hne. destruct j' as [|j']; [lia|].
           unfold q_cur. simpl. rewrite <- (Hfull (S j') d' Hj' Hd' Hne).
           rewrite Hlen. lia.
      * destruct (popping_blocks _ _ H (S j) d Hj) as [H1 H2]. split.
        -- intros Hd j' d' Hj' Hd'. destruct j' as [|j']; [lia|].
           apply (H1 Hd (S j') d'); [lia|exact Hd'].
        -- intros j' d' Hj' Hd' Hne. destruct j' as [|j']; [lia|].
           apply (H2 (S j') d'); [lia|exact Hd'|exact Hne].
    + split; [|split; reflexivity].
      change (with_vals (q_ub h + 1) vs h :: X)
        with ([with_vals (q_ub h + 1) vs h] ++ X).
      rewrite contents_app. unfold contents at 1. simpl.
      rewrite app_nil_r. exact Hrest.
  - exists q', (X ++ [with_vals 0 [] h]).
    split; [exact Hpop|]. split.
    + constructor; [exact Hr'|].
      intros j d Hj.
      destruct (decide (j < length X)%nat) as [Hjlt|Hjge].
      * rewrite lookup_app_l in Hj by lia.
        destruct (popping_blocks _ _ H (S j) d Hj) as [H1 H2]. split.
        -- intros Hd j' d' Hj' Hd'.
           destruct (decide (j' < length X)%nat) as [Hlt'|Hge'].
           ++ rewrite lookup_app_l in Hd' by lia.
              apply (H1 Hd (S j') d'); [lia|exact Hd'].
           ++ apply lookup_lt_Some in Hd' as Hb. rewrite length_app in Hb.
              simpl in Hb.
              rewrite lookup_app_r in Hd' by lia.
              replace (j' - length X)%nat with 0%nat in Hd' by lia.
              injection Hd' as <-. reflexivity.
        -- intros j' d' Hj' Hd' Hne.
           destruct (decide (j' < length X)%nat) as [Hlt'|Hge'].
           ++ rewrite lookup_app_l in Hd' by lia.
              apply (H2 (S j') d'); [lia|exact Hd'|exact Hne].
           ++ apply lookup_lt_Some in Hd' as Hb. rewrite length_app in Hb.
              simpl in Hb.
              rewrite lookup_app_r in Hd' by lia.
              replace (j' - length X)%nat with 0%nat in Hd' by lia.
              injection Hd' as <-. simpl in Hne. congruence.
      * apply lookup_lt_Some in Hj as Hb. rewrite length_app in Hb.
        simpl in Hb. split.
        -- intros _ j' d' Hj' Hd'. apply lookup_lt_Some in Hd'.
           rewrite length_app in Hd'. simpl in Hd'. lia.
        -- intros j' d' Hj' Hd'. apply lookup_lt_Some in Hd'.
           rewrite length_app in Hd'. simpl in Hd'. lia.
    + split; [|split].
      * rewrite contents_app. unfold contents at 2. simpl.
        rewrite app_nil_r. exact Hrest.
      * rewrite fmap_app. simpl. symmetry. apply Permutation_cons_append.
      * rewrite fmap_app. simpl. symmetry. apply Permutation_cons_append.
Qed.

Lemma pop_step (q : queue) L x rest :
  popping q L -> contents L = x :: rest ->
  exists q' L',
    try_pop value_init q = Ok (true, x, q') /\ popping q' L' /\
    contents L' = rest.
Proof.
  intros H Hc.
  destruct (pop_step_perm q L x rest H Hc) as (q' & L' & Hpop & H' & Hc' & _).
  eauto.
Qed.

Lemma try_pop_n_spec xs : forall (q : queue) L rest,
  popping q L -> contents L = xs ++ rest ->
  exists q' L',
    try_pop_n value_init (length xs) q
    = Ok ((fun v => (true, v)) <$> xs, q') /\
    popping q' L' /\ contents L' = rest.
Proof.
  induction xs as [|x xs IH]; intros q L rest H Hc.
  - exists q, L. auto.
  - destruct (pop_step q L x (xs ++ rest) H Hc) as (q1 & L1 & Hpop & H1 & Hc1).
    destruct (IH q1 L1 rest H1 Hc1) as (q' & L' & Hn & H' & Hc').
    exists q', L'. split; [|auto].
    simpl. rewrite Hpop. cbn [mbind outcome_bind]. rewrite Hn. reflexivity.
Qed.

(** FIFO order on a new queue: for every sequence of values pushed in
    that order onto a new queue, with no [try_pop] in between, the pushes all return, as
    many [try_pop] calls as values were pushed then all succeed and deliver
    the values in the order of the pushes, and the queue is left empty: the
    next [try_pop] fails and [empty()] holds. *)
Theorem fifo_order (vals : list Type_) :
  exists (q1 q2 : queue),
    push_all sizeof_Type vals create = Ok q1 /\
    try_pop_n value_init (length vals) q1
    = Ok ((fun v => (true, v)) <$> vals, q2) /\
    try_pop value_init q2 = Ok (false, value_init, q2) /\
    empty q2 = Ok true.
Proof.
  destruct (push_all_spec vals create [] pushing_create)
    as (q1 & L1 & Hpush & H1 & Hc1).
  simpl in Hc1.
  destruct (try_pop_n_spec vals q1 L1 [] (pushing_popping _ _ H1))
    as (q2 & L2 & Hpop & H2 & Hc2).
  { rewrite app_nil_r. exact Hc1. }
  exists q1, q2. split; [exact Hpush|]. split; [exact Hpop|].
  apply (try_pop_empty q2 L2 (popping_repr _ _ H2) Hc2).
Qed.

(** *** Blocks are never released by [push] and [try_pop] *)

Ltac inv_bind H :=
  let a := fresh "a" in
  let E := fresh "E" in
  apply bind_Ok in H as (a & E & H).

Lemma construct_blocks (p : pointer) (x : Type_) (m m' : memory Type_) :
  construct p x m = Ok m' -> blocks m' = blocks m.
Proof.
  unfold construct. destruct p as [a|]; [|discriminate].
  destruct (in_block m a); [|discriminate]. intros [= <-]. reflexivity.
Qed.

Lemma destroy_blocks (p : pointer) (m m' : memory Type_) :
  destroy p m = Ok m' -> blocks m' = blocks m.
Proof.
  unfold destroy. destruct p as [a|]; [|discriminate].
  destruct (in_block m a); [|discriminate]. intros [= <-]. reflexivity.
Qed.

Lemma Emplace_back_mini_queue_mem n (q q' : queue) :
  Emplace_back_mini_queue n q = Ok q' -> mAllocator q' = mAllocator q.
Proof.
  unfold Emplace_back_mini_queue. intros H.
  destruct (mQueue q); [|injection H as <-; reflexivity].
  inv_bind H. inv_bind H. cbn zeta in H. inv_bind H.
  destruct (decide _); injection H as <-; reflexivity.
Qed.

Lemma push_head_blocks (q q1 : queue) :
  push_head q = Ok q1 ->
  dom (blocks (mAllocator q)) ⊆ dom (blocks (mAllocator q1)).
Proof.
  unfold push_head. intros H.
  assert (Hgrow : forall r c q', Allocate_mini_queue sizeof_Type r c q
                      ≫= (fun '(queue, q') => Emplace_back_mini_queue queue q')
                      = Ok q' ->
            dom (blocks (mAllocator q)) ⊆ dom (blocks (mAllocator q'))).
  { intros r c q' Hq'. rewrite Allocate_mini_queue_eq in Hq'.
    cbn [mbind outcome_bind] in Hq'.
    apply Emplace_back_mini_queue_mem in Hq'. rewrite Hq'. simpl.
    rewrite dom_insert. apply union_subseteq_r. }
  destruct (decide _); [|injection H as <-; reflexivity].
  destruct (mQueue q); [|exact (Hgrow _ _ _ H)].
  inv_bind H. destruct (decide _); [|injection H as <-; reflexivity].
  inv_bind H. exact (Hgrow _ _ _ H).
Qed.

Lemma push_tail_blocks x (q1 q2 : queue) :
  push_tail x q1 = Ok q2 -> blocks (mAllocator q2) = blocks (mAllocator q1).
Proof.
  unfold push_tail. intros H.
  inv_bind H. inv_bind H. inv_bind H. inv_bind H. cbn zeta in H.
  match goal with E : construct _ _ _ = Ok _ |- _ =>
    apply construct_blocks in E; rewrite <- E end.
  destruct (decide _).
  - inv_bind H. injection H as <-. reflexivity.
  - injection H as <-. reflexivity.
Qed.

Lemma push_blocks x (q q' : queue) :
  push sizeof_Type x q = Ok q' ->
  dom (blocks (mAllocator q)) ⊆ dom (blocks (mAllocator q')).
Proof.
  unfold push. rewrite Internal_push_eq. intros H. inv_bind H.
  apply push_tail_blocks in H. rewrite H. apply push_head_blocks. assumption.
Qed.

Lemma try_pop_blocks (q q' : queue) r dest :
  try_pop value_init q = Ok (r, dest, q') ->
  blocks (mAllocator q') = blocks (mAllocator q).
Proof.
  unfold try_pop. intros H.
  destruct (mQueue q) eqn:Hq; [|injection H as _ _ <-; reflexivity].
  inv_bind H. destruct (decide _); [injection H as _ _ <-; reflexivity|].
  unfold Internal_Pop in H.
  inv_bind H. inv_bind H. inv_bind H. inv_bind H. inv_bind H. cbn zeta in H.
  match goal with E : destroy _ _ = Ok _ |- _ =>
    apply destroy_blocks in E; rewrite <- E end.
  destruct (decide _); [|injection H as _ _ <-; reflexivity].
  destruct (decide _); [|injection H as _ _ <-; reflexivity].
  inv_bind H. inv_bind H. cbn zeta in H. inv_bind H.
  injection H as _ _ <-. reflexivity.
Qed.

Lemma run_blocks calls : forall (q q' : queue),
  run sizeof_Type value_init calls q = Ok q' ->
  dom (blocks (mAllocator q)) ⊆ dom (blocks (mAllocator q')).
Proof.
  induction calls as [|[x|] calls IH]; intros q q' H; simpl in H.
  - injection H as <-. reflexivity.
  - inv_bind H. etransitivity; [eapply push_blocks; eassumption|].
    apply IH. exact H.
  - inv_bind H. destruct a as [[r dest] q1].
    apply try_pop_blocks in E. rewrite <- E. apply IH. exact H.
Qed.

(** The block [h] holds no live element. *)
Definition drained (q : queue) (h : nat) : Prop :=
  exists s, mini_queues q !! h = Some s /\
            MiniQueue.mCurrent s = MiniQueue.mUsedBegin s.

(** The recycling rule without its side conditions: every [try_pop] that
    takes the last live element of the head block makes another block the
    head and this block the last one. *)
Definition drained_head_goes_last : Prop :=
  forall calls (q q' : queue) h x,
    run sizeof_Type value_init calls create = Ok q ->
    mQueue q = Some h ->
    try_pop value_init q = Ok (true, x, q') ->
    drained q' h ->
    mQueue q' <> Some h /\ mQueueEnd q' = Some h.

(** C5, with the side conditions the code has. No sequence of [push] and
    [try_pop] calls that runs with defined behaviour releases a block: the
    set of allocated blocks only grows and their number never decreases.
    In every state, a [try_pop] that returns [true] hands out the element
    at [mUsedBegin] of the head block, leaves every block allocated and
    the write position [mQueueCurrent] as it was, and touches no node but
    the head block and, when it relinks, the last one.  When its increment
    moves [mUsedBegin] to [mEnd] (the last cell of the head block is
    consumed), [mUsedBegin] and [mCurrent] of that block go back to
    [mBegin]; a block that is also [mQueueEnd] then stays the head, with
    its link as it was; any other block is unlinked from the head
    ([mQueue] becomes its successor, its own link becomes null) and
    relinked behind the last block, whose link now designates it, and is
    the new [mQueueEnd].  When [mEnd] is not reached the block keeps its
    place, also when no live element is left in it: [mQueue], [mQueueEnd],
    its [mCurrent] and its link are unchanged. *)
Theorem block_recycling :
  (forall calls (q q' : queue),
     run sizeof_Type value_init calls q = Ok q' ->
     dom (blocks (mAllocator q)) ⊆ dom (blocks (mAllocator q')) /\
     (allocated_blocks q <= allocated_blocks q')%nat) /\
  (forall (q q' : queue) x,
     try_pop value_init q = Ok (true, x, q') ->
     exists h s p s',
       mQueue q = Some h /\ mini_queues q !! h = Some s /\
       load (MiniQueue.mUsedBegin s) (mAllocator q) = Ok x /\
       blocks (mAllocator q') = blocks (mAllocator q) /\
       mQueueCurrent q' = mQueueCurrent q /\
       (forall n, n <> h -> mQueueEnd q <> Some n ->
                  mini_queues q' !! n = mini_queues q !! n) /\
       ptr_add (MiniQueue.mUsedBegin s) 1 = Ok p /\
       mini_queues q' !! h = Some s' /\
       MiniQueue.mBegin s' = MiniQueue.mBegin s /\
       MiniQueue.mEnd s' = MiniQueue.mEnd s /\
       (p = MiniQueue.mEnd s ->
        MiniQueue.mUsedBegin s' = MiniQueue.mBegin s /\
        MiniQueue.mCurrent s' = MiniQueue.mBegin s /\
        (mQueueEnd q = Some h ->
         mQueue q' = Some h /\ mQueueEnd q' = Some h /\
         MiniQueue.mNextQueue s' = MiniQueue.mNextQueue s) /\
        (mQueueEnd q <> Some h ->
         mQueue q' = MiniQueue.mNextQueue s /\ mQueueEnd q' = Some h /\
         MiniQueue.mNextQueue s' = None /\
         exists e se,
           mQueueEnd q = Some e /\ mini_queues q !! e = Some se /\
           mini_queues q' !! e
           = Some (MiniQueue.set_mNextQueue (Some h) se))) /\
       (p <> MiniQueue.mEnd s ->
        mQueue q' = Some h /\ mQueueEnd q' = mQueueEnd q /\
        MiniQueue.mUsedBegin s' = p /\
        MiniQueue.mCurrent s' = MiniQueue.mCurrent s /\
        MiniQueue.mNextQueue s' = MiniQueue.mNextQueue s /\
        forall n, n <> h -> mini_queues q' !! n = mini_queues q !! n)).
Proof.
  split.
  - intros calls q q' H. pose proof (run_blocks calls q q' H) as Hsub.
    split; [exact Hsub|]. unfold allocated_blocks.
    rewrite <- !size_dom. apply subseteq_size. exact Hsub.
  - intros q q' x Hpop.
    pose proof (try_pop_blocks _ _ _ _ Hpop) as Hblk.
    unfold try_pop in Hpop.
    destruct (mQueue q) as [h|] eqn:Hq; [|discriminate].
    destruct (mini_queues q !! h) as [s|] eqn:Hs; [|discriminate].
    cbn [deref mbind outcome_bind] in Hpop.
    destruct (decide _) as [|_]; [discriminate|].
    unfold Internal_Pop in Hpop. rewrite Hq in Hpop.
    cbn [deref mbind outcome_bind] in Hpop. rewrite Hs in Hpop.
    cbn [deref mbind outcome_bind] in Hpop.
    destruct (load _ _) as [dest| | |] eqn:Hload; try discriminate.
    cbn [mbind outcome_bind] in Hpop.
    destruct (destroy _ _) as [mem| | |] eqn:Hdestroy; try discriminate.
    cbn [mbind outcome_bind] in Hpop.
    destruct (ptr_add _ _) as [p| | |] eqn:Hp; try discriminate.
    cbn [mbind outcome_bind] in Hpop. cbn zeta in Hpop.
    cbn [MiniQueue.mUsedBegin MiniQueue.mEnd MiniQueue.mBegin
         MiniQueue.set_mUsedBegin MiniQueue.set_mCurrent
         mQueue mQueueEnd set_mini_queue with_mAllocator] in Hpop.
    exists h, s, p.
    destruct (decide (p = MiniQueue.mEnd s)) as [Hpe|Hpe].
    2:{ injection Hpop as <- <-.
        exists (MiniQueue.set_mUsedBegin p s).
        split; [reflexivity|]. split; [exact Hs|].
        split; [exact Hload|]. split; [exact Hblk|]. split; [reflexivity|].
        split; [intros n Hn _; simpl; apply lookup_insert_ne; congruence|].
        split; [exact Hp|].
        split; [simpl; apply lookup_insert_eq|].
        split; [reflexivity|]. split; [reflexivity|].
        split; [intros E; contradiction|]. intros _.
        split; [exact Hq|]. repeat (split; [reflexivity|]).
        intros n Hn. simpl. apply lookup_insert_ne. congruence. }
    rewrite Hq in Hpop.
    cbn [mini_queues set_mini_queue with_mAllocator with_mQueueEnd] in Hpop.
    set (s2 := MiniQueue.set_mCurrent (MiniQueue.mBegin s)
                 (MiniQueue.set_mUsedBegin (MiniQueue.mBegin s)
                    (MiniQueue.set_mUsedBegin p s))) in *.
    destruct (decide (Some h <> mQueueEnd q)) as [Hne|Heq].
    + destruct (mQueueEnd q) as [e|] eqn:He; [|discriminate].
      assert (Heh : e <> h) by congruence.
      cbn [deref mbind outcome_bind] in Hpop.
      rewrite !lookup_insert_ne in Hpop by congruence.
      destruct (mini_queues q !! e) as [se|] eqn:Hse; [|discriminate].
      cbn [deref mbind outcome_bind] in Hpop.
      rewrite lookup_insert_ne, lookup_insert_eq in Hpop by congruence.
      cbn [deref mbind outcome_bind] in Hpop.
      injection Hpop as <- <-.
      exists (MiniQueue.set_mNextQueue None s2).
      split; [reflexivity|]. split; [exact Hs|].
      split; [exact Hload|]. split; [exact Hblk|]. split; [reflexivity|].
      split.
      { intros n Hn Hen. simpl.
        rewrite !lookup_insert_ne by congruence. reflexivity. }
      split; [exact Hp|].
      split; [simpl; apply lookup_insert_eq|].
      split; [reflexivity|]. split; [reflexivity|].
      split; [|intros E; contradiction]. intros _.
      split; [reflexivity|]. split; [reflexivity|].
      split; [intros E; congruence|]. intros _.
      split; [reflexivity|]. split; [reflexivity|]. split; [reflexivity|].
      exists e, se. split; [reflexivity|]. split; [exact Hse|].
      simpl. rewrite lookup_insert_ne, lookup_insert_eq by congruence.
      reflexivity.
    + apply dec_stable in Heq.
      injection Hpop as <- <-.
      exists s2.
      split; [reflexivity|]. split; [exact Hs|].
      split; [exact Hload|]. split; [exact Hblk|]. split; [reflexivity|].
      split.
      { intros n Hn _. simpl.
        rewrite !lookup_insert_ne by congruence. reflexivity. }
      split; [exact Hp|].
      split; [simpl; apply lookup_insert_eq|].
      split; [reflexivity|]. split; [reflexivity|].
      split; [|intros E; contradiction]. intros _.
      split; [reflexivity|]. split; [reflexivity|].
      split; [|intros E; congruence]. intros _.
      split; [exact Hq|]. split; [simpl; congruence|]. reflexivity.
Qed.

End facts.

(** *** The scenarios of the recycling rule

    Elements of 32 bytes: blocks of 8 cells. *)
Definition pushes (xs : list Z) : list (@call Z) := call_push <$> xs.

(** One block: the eighth [try_pop] consumes its last cell; the block is
    reset and is still the head. *)
Example single_block_scenario :
  exists (q q' : @concurrent_queue Z),
    run 32 0 (pushes [1; 2; 3; 4; 5; 6; 7; 8]
              ++ replicate 7 call_try_pop) create = Ok q /\
    mQueue q = Some 0%nat /\
    try_pop 0 q = Ok (true, 8, q') /\
    drained q' 0%nat /\
    mQueue q' = Some 0%nat /\ mQueueEnd q' = Some 0%nat /\
    allocated_blocks q' = 1%nat.
Proof.
  eexists _, _. split; [vm_compute; reflexivity|].
  split; [reflexivity|]. split; [vm_compute; reflexivity|].
  split; [eexists; split; [vm_compute; reflexivity|reflexivity]|].
  split; [reflexivity|]. split; [reflexivity|]. vm_compute. reflexivity.
Qed.

(** Two blocks: the eighth [try_pop] consumes the last cell of the first
    block, which goes behind the second one; the ninth takes the only
    element of the second block, which keeps its place at the head. *)
Example two_block_scenario :
  exists (q q' q'' : @concurrent_queue Z),
    run 32 0 (pushes [1; 2; 3; 4; 5; 6; 7; 8; 9]
              ++ replicate 7 call_try_pop) create = Ok q /\
    mQueue q = Some 0%nat /\ mQueueEnd q = Some 1%nat /\
    try_pop 0 q = Ok (true, 8, q') /\
    mQueue q' = Some 1%nat /\ mQueueEnd q' = Some 0%nat /\
    try_pop 0 q' = Ok (true, 9, q'') /\
    drained q'' 1%nat /\
    mQueue q'' = Some 1%nat /\ mQueueEnd q'' = Some 0%nat /\
    allocated_blocks q'' = 2%nat.
Proof.
  eexists _, _, _. split; [vm_compute; reflexivity|].
  split; [reflexivity|]. split; [reflexivity|].
  split; [vm_compute; reflexivity|].
  split; [reflexivity|]. split; [reflexivity|].
  split; [vm_compute; reflexivity|].
  split; [eexists; split; [vm_compute; reflexivity|reflexivity]|].
  split; [reflexivity|]. split; [reflexivity|]. vm_compute. reflexivity.
Qed.

(** The state before the eighth [try_pop] of the second scenario. *)
Definition before_rotation : @concurrent_queue Z :=
  {| mQueue := Some 0%nat;
     mQueueCurrent := Some 1%nat;
     mQueueEnd := Some 1%nat;
     mAllocator :=
       {| cells := {[ (0%nat, 7) := 8; (1%nat, 0) := 9 ]};
          blocks := {[ 0%nat := 8; 1%nat := 8 ]};
          next_block := 2 |};
     mini_queues :=
       {[ 0%nat := {| MiniQueue.mElements := Some (0%nat, 0);
                      MiniQueue.mBegin := Some (0%nat, 0);
                      MiniQueue.mUsedBegin := Some (0%nat, 7);
                      MiniQueue.mCurrent := Some (0%nat, 8);
                      MiniQueue.mEnd := Some (0%nat, 8);
                      MiniQueue.mNextQueue := Some 1%nat |};
          1%nat := {| MiniQueue.mElements := Some (1%nat, 0);
                      MiniQueue.mBegin := Some (1%nat, 0);
                      MiniQueue.mUsedBegin := Some (1%nat, 0);
                      MiniQueue.mCurrent := Some (1%nat, 1);
                      MiniQueue.mEnd := Some (1%nat, 8);
                      MiniQueue.mNextQueue := None |} ]};
     next_mini_queue := 2 |}.

Definition first_block : @qdesc Z :=
  {| q_node := 0; q_blk := 0; q_cap := 8; q_ub := 7; q_vals := [8] |}.

Definition second_block : @qdesc Z :=
  {| q_node := 1; q_blk := 1; q_cap := 8; q_ub := 0; q_vals := [9] |}.

Example before_rotation_reached :
  run 32 0 (pushes [1; 2; 3; 4; 5; 6; 7; 8; 9] ++ replicate 7 call_try_pop)
    create = Ok before_rotation.
Proof. vm_compute. reflexivity. Qed.

Lemma repr_before_rotation :
  repr before_rotation [first_block; second_block].
Proof.
  constructor.
  - reflexivity.
  - reflexivity.
  - intros [|[|j]] d; simpl; [| |discriminate]; intros [= <-];
      (eexists; split; [vm_compute; reflexivity|]); repeat split.
  - simpl. apply NoDup_cons. split; [|apply NoDup_singleton].
    intros H. apply list_elem_of_singleton in H. discriminate.
  - simpl. apply NoDup_cons. split; [|apply NoDup_singleton].
    intros H. apply list_elem_of_singleton in H. discriminate.
  - constructor; [|constructor; [|constructor]];
      (split; [vm_compute; reflexivity|]); unfold q_cur; simpl;
      (split; [lia|]); (split; [lia|]); (split; [lia|]);
      intros [|k] x; simpl; try discriminate;
      intros [= <-]; vm_compute; reflexivity.
  - intros n s. simpl.
    destruct (decide (n = 0%nat)) as [->|H0]; [lia|].
    destruct (decide (n = 1%nat)) as [->|H1]; [lia|].
    rewrite lookup_insert_ne, lookup_singleton_ne by congruence. discriminate.
  - intros b n. simpl.
    destruct (decide (b = 0%nat)) as [->|H0]; [lia|].
    destruct (decide (b = 1%nat)) as [->|H1]; [lia|].
    rewrite lookup_insert_ne, lookup_singleton_ne by congruence. discriminate.
Qed.

(** Nine pushes, eight [try_pop], seven pushes and seven [try_pop]: the
    write position has moved on to the recycled block 0, [mCurrent] of the
    full block 1 holds [mBegin] of block 0, and the last cell of block 1
    holds the only element left. *)
Definition wrapped_head : MiniQueue.t :=
  {| MiniQueue.mElements := Some (1%nat, 0);
     MiniQueue.mBegin := Some (1%nat, 0);
     MiniQueue.mUsedBegin := Some (1%nat, 7);
     MiniQueue.mCurrent := Some (0%nat, 0);
     MiniQueue.mEnd := Some (1%nat, 8);
     MiniQueue.mNextQueue := Some 0%nat |}.

Definition recycled_block : MiniQueue.t :=
  {| MiniQueue.mElements := Some (0%nat, 0);
     MiniQueue.mBegin := Some (0%nat, 0);
     MiniQueue.mUsedBegin := Some (0%nat, 0);
     MiniQueue.mCurrent := Some (0%nat, 0);
     MiniQueue.mEnd := Some (0%nat, 8);
     MiniQueue.mNextQueue := None |}.

Definition before_second_rotation : @concurrent_queue Z :=
  {| mQueue := Some 1%nat;
     mQueueCurrent := Some 0%nat;
     mQueueEnd := Some 0%nat;
     mAllocator :=
       {| cells := {[ (1%nat, 7) := 16 ]};
          blocks := {[ 0%nat := 8; 1%nat := 8 ]};
          next_block := 2 |};
     mini_queues := {[ 0%nat := recycled_block; 1%nat := wrapped_head ]};
     next_mini_queue := 2 |}.

(** The state after the next [try_pop]. *)
Definition after_second_rotation : @concurrent_queue Z :=
  {| mQueue := Some 0%nat;
     mQueueCurrent := Some 0%nat;
     mQueueEnd := Some 1%nat;
     mAllocator :=
       {| cells := ∅;
          blocks := {[ 0%nat := 8; 1%nat := 8 ]};
          next_block := 2 |};
     mini_queues :=
       {[ 0%nat := MiniQueue.set_mNextQueue (Some 1%nat) recycled_block;
          1%nat := {| MiniQueue.mElements := Some (1%nat, 0);
                      MiniQueue.mBegin := Some (1%nat, 0);
                      MiniQueue.mUsedBegin := Some (1%nat, 0);
                      MiniQueue.mCurrent := Some (1%nat, 0);
                      MiniQueue.mEnd := Some (1%nat, 8);
                      MiniQueue.mNextQueue := None |} ]};
     next_mini_queue := 2 |}.

Definition wrapping_calls : list (@call Z) :=
  pushes [1; 2; 3; 4; 5; 6; 7; 8; 9] ++ replicate 8 call_try_pop
  ++ pushes [10; 11; 12; 13; 14; 15; 16] ++ replicate 7 call_try_pop.

Example before_second_rotation_reached :
  run 32 0 wrapping_calls create = Ok before_second_rotation.
Proof. vm_compute. reflexivity. Qed.

(** [block_recycling] at this state: the calls that lead to it have
    released no block, and the [try_pop] consumes the last cell of block 1,
    which is reset and goes behind block 0. *)
Lemma block_recycling_witness :
  (run 32 0 wrapping_calls create = Ok before_second_rotation /\
   dom (blocks (mAllocator (@create Z)))
     ⊆ dom (blocks (mAllocator before_second_rotation)) /\
   (allocated_blocks (@create Z)
    <= allocated_blocks before_second_rotation)%nat) /\
  try_pop 0 before_second_rotation = Ok (true, 16, after_second_rotation) /\
  exists h s p s',
    mQueue before_second_rotation = Some h /\
    mini_queues before_second_rotation !! h = Some s /\
    load (MiniQueue.mUsedBegin s) (mAllocator before_second_rotation)
    = Ok 16 /\
    blocks (mAllocator after_second_rotation)
    = blocks (mAllocator before_second_rotation) /\
    mQueueCurrent after_second_rotation
    = mQueueCurrent before_second_rotation /\
    (forall n, n <> h -> mQueueEnd before_second_rotation <> Some n ->
               mini_queues after_second_rotation !! n
               = mini_queues before_second_rotation !! n) /\
    ptr_add (MiniQueue.mUsedBegin s) 1 = Ok p /\
    mini_queues after_second_rotation !! h = Some s' /\
    MiniQueue.mBegin s' = MiniQueue.mBegin s /\
    MiniQueue.mEnd s' = MiniQueue.mEnd s /\
    (p = MiniQueue.mEnd s ->
     MiniQueue.mUsedBegin s' = MiniQueue.mBegin s /\
     MiniQueue.mCurrent s' = MiniQueue.mBegin s /\
     (mQueueEnd before_second_rotation = Some h ->
      mQueue after_second_rotation = Some h /\
      mQueueEnd after_second_rotation = Some h /\
      MiniQueue.mNextQueue s' = MiniQueue.mNextQueue s) /\
     (mQueueEnd before_second_rotation <> Some h ->
      mQueue after_second_rotation = MiniQueue.mNextQueue s /\
      mQueueEnd after_second_rotation = Some h /\
      MiniQueue.mNextQueue s' = None /\
      exists e se,
        mQueueEnd before_second_rotation = Some e /\
        mini_queues before_second_rotation !! e = Some se /\
        mini_queues after_second_rotation !! e
        = Some (MiniQueue.set_mNextQueue (Some h) se))) /\
    (p <> MiniQueue.mEnd s ->
     mQueue after_second_rotation = Some h /\
     mQueueEnd after_second_rotation = mQueueEnd before_second_rotation /\
     MiniQueue.mUsedBegin s' = p /\
     MiniQueue.mCurrent s' = MiniQueue.mCurrent s /\
     MiniQueue.mNextQueue s' = MiniQueue.mNextQueue s /\
     forall n, n <> h ->
               mini_queues after_second_rotation !! n
               = mini_queues before_second_rotation !! n).
Proof.
  split.
  { split; [vm_compute; reflexivity|].
    apply (proj1 (block_recycling 32 0) wrapping_calls create
             before_second_rotation).
    vm_compute. reflexivity. }
  split; [vm_compute; reflexivity|].
  apply (proj2 (block_recycling 32 0) before_second_rotation
           after_second_rotation 16).
  vm_compute. reflexivity.
Defined.

(** The rule without its side conditions fails on a queue of one block. *)
Lemma single_block_stays_head : ~ @drained_head_goes_last Z 32 0.
Proof.
  intros H.
  destruct single_block_scenario as (q & q' & Hrun & Hq & Hpop & Hd & Hq' & _).
  destruct (H _ q q' 0%nat 8 Hrun Hq Hpop Hd) as [Hne _].
  apply Hne. exact Hq'.
Qed.

(** *** A push on a queue whose blocks were all recycled *)

(** C2 (the code departs from the claim): with blocks of 8 cells, sixteen
    values are pushed on a new queue and taken out again, in order, by
    sixteen [try_pop] calls.  The queue is empty then, its two blocks are
    reset, block 0 is the head and block 1, the last one, is the write
    position.  The next [push] constructs its value in block 1, behind
    the empty head: the [try_pop] that follows looks at block 0 only and
    returns [false] with a value-initialised [dest], and [empty()] still
    holds while [unsafe_size()] is 1. *)
Theorem push_on_recycled_queue_is_lost {Type_ : Type} (value_init : Type_)
    (vals : list Type_) (x : Type_) :
  length vals = 16%nat ->
  exists q1 q2 q3 : @concurrent_queue Type_,
    push_all 32 vals create = Ok q1 /\
    try_pop_n value_init 16 q1 = Ok ((fun v => (true, v)) <$> vals, q2) /\
    empty q2 = Ok true /\ unsafe_size q2 = Ok 0 /\
    mQueue q2 = Some 0%nat /\ mQueueCurrent q2 = Some 1%nat /\
    mQueueEnd q2 = Some 1%nat /\
    push 32 x q2 = Ok q3 /\
    mQueue q3 = Some 0%nat /\ mQueueCurrent q3 = Some 1%nat /\
    cells (mAllocator q3) = {[ (1%nat, 0) := x ]} /\
    try_pop value_init q3 = Ok (false, value_init, q3) /\
    empty q3 = Ok true /\ unsafe_size q3 = Ok 1.
Proof.
  intros Hlen.
  do 16 (destruct vals as [|? vals]; [discriminate|]).
  destruct vals; [|discriminate].
  eexists _, _, _. split; [vm_compute; reflexivity|].
  split; [vm_compute; reflexivity|].
  split; [vm_compute; reflexivity|]. split; [vm_compute; reflexivity|].
  split; [reflexivity|]. split; [reflexivity|]. split; [reflexivity|].
  split; [vm_compute; reflexivity|].
  repeat (split; [vm_compute; reflexivity|]). vm_compute. reflexivity.
Qed.

Lemma push_on_recycled_queue_is_lost_witness :
  length (Z.of_nat <$> seq 1 16) = 16%nat /\
  exists q1 q2 q3 : @concurrent_queue Z,
    push_all 32 (Z.of_nat <$> seq 1 16) create = Ok q1 /\
    try_pop_n 0 16 q1
    = Ok ((fun v => (true, v)) <$> (Z.of_nat <$> seq 1 16), q2) /\
    empty q2 = Ok true /\ unsafe_size q2 = Ok 0 /\
    mQueue q2 = Some 0%nat /\ mQueueCurrent q2 = Some 1%nat /\
    mQueueEnd q2 = Some 1%nat /\
    push 32 17 q2 = Ok q3 /\
    mQueue q3 = Some 0%nat /\ mQueueCurrent q3 = Some 1%nat /\
    cells (mAllocator q3) = {[ (1%nat, 0) := 17 ]} /\
    try_pop 0 q3 = Ok (false, 0, q3) /\
    empty q3 = Ok true /\ unsafe_size q3 = Ok 1.
Proof.
  split; [reflexivity|].
  apply (push_on_recycled_queue_is_lost 0 (Z.of_nat <$> seq 1 16) 17).
  reflexivity.
Defined.

(** The same with elements of 4 bytes, whose blocks have 32 cells:
    sixty-four values in and out, then one more. *)
Example push_on_recycled_queue_is_lost_small_elements :
  exists q1 q2 q3 : @concurrent_queue Z,
    push_all 4 (Z.of_nat <$> seq 1 64) create = Ok q1 /\
    try_pop_n 0 64 q1
    = Ok ((fun v => (true, v)) <$> (Z.of_nat <$> seq 1 64), q2) /\
    empty q2 = Ok true /\
    push 4 65 q2 = Ok q3 /\
    try_pop 0 q3 = Ok (false, 0, q3) /\
    empty q3 = Ok true /\ unsafe_size q3 = Ok 1.
Proof.
  eexists _, _, _. split; [vm_compute; reflexivity|].
  split; [vm_compute; reflexivity|]. split; [vm_compute; reflexivity|].
  split; [vm_compute; reflexivity|]. split; [vm_compute; reflexivity|].
  split; vm_compute; reflexivity.
Qed.

End QueueFacts.

(** ** More properties of the segmented queue *)

Module QueueMore.
Import Queue QueueFacts.

#[local] Arguments construct : simpl never.
#[local] Arguments destroy : simpl never.
#[local] Arguments load : simpl never.
#[local] Arguments budget : simpl never.
#[local] Arguments Allocate_mini_queue : simpl never.
#[local] Arguments Emplace_back_mini_queue : simpl never.
#[local] Arguments unsafe_size : simpl never.

Section more.
Context {Type_ : Type}.
Context (sizeof_Type : Z) (value_init : Type_).

Local Abbreviation queue := (@concurrent_queue Type_).
Local Abbreviation Min_queue_size := (Min_queue_size sizeof_Type).

(** *** Counting the elements *)

Lemma wrap_add_wrap a b : wrap (a + wrap b) = wrap (a + b).
Proof. unfold wrap. apply Z.add_mod_idemp_r. lia. Qed.

Lemma wrap_wrap a : wrap (wrap a) = wrap a.
Proof. unfold wrap. apply Z.mod_mod. lia. Qed.

Lemma contents_length_cons (d : @qdesc Type_) L :
  length (contents (d :: L)) = (length (q_vals d) + length (contents L))%nat.
Proof. unfold contents. simpl. apply length_app. Qed.

Lemma unsafe_size_loop_count (q : queue) L :
  repr q L ->
  forall fuel j acc,
    (length L - j <= fuel)%nat ->
    unsafe_size_loop fuel q (wrap acc) (q_node <$> L !! j)
    = Ok (wrap (acc + Z.of_nat (length (contents (drop j L))))).
Proof.
  intros H. induction fuel as [|fuel IH]; intros j acc Hfuel.
  - rewrite lookup_ge_None_2, drop_ge by lia. simpl.
    rewrite Z.add_0_r. reflexivity.
  - destruct (L !! j) as [d|] eqn:Hj; simpl.
    + destruct (repr_linked _ _ H j d Hj) as (s & Hs & _ & Hsu & Hsc & _ & Hsn).
      rewrite Hs. simpl. unfold Get_mini_queue_used_size.
      rewrite Hsc, Hsu. simpl. rewrite decide_True by reflexivity. simpl.
      rewrite Hsn, wrap_add_wrap.
      replace (wrap acc + (q_cur d - q_ub d))
        with (q_cur d - q_ub d + wrap acc) by lia.
      rewrite wrap_add_wrap.
      rewrite (IH (S j) (q_cur d - q_ub d + acc))
        by (apply lookup_lt_Some in Hj; lia).
      rewrite (drop_S _ _ _ Hj), contents_length_cons.
      unfold q_cur. f_equal. f_equal. lia.
    + rewrite drop_ge by (apply lookup_ge_None; exact Hj). simpl.
      rewrite Z.add_0_r. reflexivity.
Qed.

(** [unsafe_size()] is the number of elements, as a [size_type]. *)
Lemma unsafe_size_count (q : queue) L :
  repr q L -> unsafe_size q = Ok (wrap (Z.of_nat (length (contents L)))).
Proof.
  intros H. unfold unsafe_size. rewrite (repr_head _ _ H).
  change 0 with (wrap 0) at 1.
  rewrite (unsafe_size_loop_count q L H (budget q) 0%nat 0)
    by (pose proof (repr_length _ _ H); lia).
  rewrite drop_0. reflexivity.
Qed.

(** [empty()] looks at the head block only; while [try_pop] is the only
    call, that block is empty only when all blocks are. *)
Lemma empty_popping (q : queue) L :
  popping q L -> empty q = Ok (bool_decide (contents L = [])).
Proof.
  intros H. pose proof (popping_repr _ _ H) as Hr.
  unfold empty. rewrite (repr_head _ _ Hr).
  destruct L as [|h X]; [reflexivity|]. simpl.
  destruct (repr_linked _ _ Hr 0%nat h eq_refl) as (s & Hs & _ & Hsu & Hsc & _).
  rewrite Hs. simpl. f_equal. apply bool_decide_ext.
  rewrite Hsc, Hsu. unfold q_cur. split.
  - intros [= Heq]. assert (Hv : q_vals h = []).
    { destruct (q_vals h); [reflexivity|simpl in Heq; lia]. }
    change (contents (h :: X) = []). apply contents_nil. intros [|j] d Hj.
    + injection Hj as <-. exact Hv.
    + destruct (popping_blocks _ _ H 0%nat h eq_refl) as [Hnil _].
      apply (Hnil Hv (S j) d); [lia|exact Hj].
  - intros Hc. change (contents (h :: X) = []) in Hc.
    rewrite (contents_nil_inv _ 0%nat h Hc eq_refl). simpl.
    do 2 f_equal. lia.
Qed.

(** X1.  After [n] values have been pushed onto a new queue and [k <= n]
    of them popped, [unsafe_size()] is [n - k] (as a [size_type]) and
    [empty()] holds exactly when [k = n]. *)
Theorem size_and_empty_after_pops (xs : list Type_) (k : nat) :
  (k <= length xs)%nat ->
  exists (q1 q2 : queue),
    push_all sizeof_Type xs create = Ok q1 /\
    try_pop_n value_init k q1 = Ok ((fun v => (true, v)) <$> take k xs, q2) /\
    unsafe_size q2 = Ok (wrap (Z.of_nat (length xs - k))) /\
    empty q2 = Ok (bool_decide (k = length xs)).
Proof.
  intros Hk.
  destruct (push_all_spec sizeof_Type xs create [] pushing_create)
    as (q1 & L1 & Hpush & H1 & Hc1).
  simpl in Hc1.
  destruct (try_pop_n_spec value_init (take k xs) q1 L1 (drop k xs)
              (pushing_popping _ _ H1))
    as (q2 & L2 & Hpop & H2 & Hc2).
  { rewrite take_drop. exact Hc1. }
  rewrite length_take, Nat.min_l in Hpop by exact Hk.
  exists q1, q2. split; [exact Hpush|]. split; [exact Hpop|]. split.
  - rewrite (unsafe_size_count q2 L2 (popping_repr _ _ H2)), Hc2, length_drop.
    reflexivity.
  - rewrite (empty_popping q2 L2 H2), Hc2. f_equal. apply bool_decide_ext.
    split.
    + intros Hd. apply (f_equal length) in Hd. rewrite length_drop in Hd.
      simpl in Hd. lia.
    + intros ->. apply drop_all.
Qed.

(** *** Alternating [push] and [try_pop] *)

Lemma try_pop_mQueueCurrent (q q' : queue) r dest :
  try_pop value_init q = Ok (r, dest, q') ->
  mQueueCurrent q' = mQueueCurrent q.
Proof.
  unfold try_pop. intros H.
  destruct (mQueue q) eqn:Hq; [|injection H as _ _ <-; reflexivity].
  apply bind_Ok in H as (s & _ & H).
  destruct (decide _); [injection H as _ _ <-; reflexivity|].
  unfold Internal_Pop in H.
  apply bind_Ok in H as (? & _ & H). apply bind_Ok in H as (? & _ & H).
  apply bind_Ok in H as (? & _ & H). apply bind_Ok in H as (? & _ & H).
  apply bind_Ok in H as (? & _ & H). cbn zeta in H.
  destruct (decide _); [|injection H as _ _ <-; reflexivity].
  destruct (decide _); [|injection H as _ _ <-; reflexivity].
  apply bind_Ok in H as (? & _ & H). apply bind_Ok in H as (? & _ & H).
  cbn zeta in H. apply bind_Ok in H as (? & _ & H).
  injection H as _ _ <-. reflexivity.
Qed.

(** [push] while the last block, which is the write block, has a free
    cell: the element goes to that cell and nothing is allocated. *)
Lemma push_room (q : queue) P d x :
  repr q (P ++ [d]) -> mQueueCurrent q = mQueueEnd q -> q_cur d < q_cap d ->
  exists q',
    push sizeof_Type x q = Ok q' /\
    repr q' (P ++ [with_vals (q_ub d) (q_vals d ++ [x]) d]) /\
    mQueueCurrent q' = mQueueEnd q' /\
    blocks (mAllocator q') = blocks (mAllocator q).
Proof.
  intros Hr Hc Hroom.
  assert (Hj : (P ++ [d]) !! length P = Some d)
    by (rewrite lookup_app_r, Nat.sub_diag by lia; reflexivity).
  destruct (repr_linked _ _ Hr _ _ Hj) as (s & Hs & Hsb & Hsu & Hsc & Hse & Hsn).
  destruct (repr_desc_ok _ _ _ _ Hr Hj) as (Hblk & Hub & Hcur & Hpos & Hcells).
  assert (Hend : mQueueEnd q = Some (q_node d))
    by (rewrite (repr_end _ _ Hr), last_snoc; reflexivity).
  rewrite Hend in Hc.
  assert (Hhead : exists h, mQueue q = Some h).
  { rewrite (repr_head _ _ Hr). destruct P; simpl; eauto. }
  destruct Hhead as [h Hh].
  assert (Hcur0 : 0 <= q_cur d) by (unfold q_cur; lia).
  assert (Hin : in_block (mAllocator q) (q_blk d, q_cur d) = true).
  { unfold in_block. simpl. rewrite Hblk.
    rewrite (proj2 (Z.leb_le _ _)), (proj2 (Z.ltb_lt _ _)) by lia. reflexivity. }
  set (m' := {| cells := <[(q_blk d, q_cur d) := x]> (cells (mAllocator q));
                blocks := blocks (mAllocator q);
                next_block := next_block (mAllocator q) |}).
  set (s' := MiniQueue.set_mCurrent (Some (q_blk d, q_cur d + 1)) s).
  set (q' := set_mini_queue (q_node d) s' (with_mAllocator m' q)).
  assert (Hne : MiniQueue.mCurrent s <> MiniQueue.mEnd s).
  { rewrite Hsc, Hse. intros [= Heq]. lia. }
  exists q'. split.
  { unfold push. rewrite Internal_push_eq. unfold push_head.
    rewrite decide_True by congruence. rewrite Hh.
    unfold get_mini_queue. rewrite Hc. cbn [mbind outcome_bind deref].
    rewrite Hs. cbn [mbind outcome_bind deref].
    rewrite decide_False by exact Hne. cbn [mbind outcome_bind].
    unfold push_tail. rewrite Hc. simpl. rewrite Hs. simpl.
    rewrite Hsc. unfold construct. rewrite Hin. simpl.
    rewrite decide_False; [reflexivity|].
    intros [_ Hne']. apply Hne'. congruence. }
  set (d' := with_vals (q_ub d) (q_vals d ++ [x]) d).
  assert (Hcur' : q_cur d' = q_cur d + 1).
  { subst d'. rewrite q_cur_snoc. unfold q_cur. lia. }
  assert (Hr' : repr q' (<[length P := d']> (P ++ [d]))).
  { apply (repr_update q q' (P ++ [d]) (length P) d d' s' Hr Hj);
      try reflexivity; simpl; auto.
    - rewrite Hcur'. reflexivity.
    - intros a Ha. apply lookup_insert_ne. intros <-. apply Ha. reflexivity.
    - split; [exact Hblk|]. split; [exact Hub|].
      split; [rewrite Hcur'; change (q_cap d') with (q_cap d); lia|].
      split; [exact Hpos|].
      intros k y Hk. subst d'. simpl in Hk |- *.
      destruct (decide (k = length (q_vals d))) as [->|Hnk].
      + rewrite lookup_app_r, Nat.sub_diag in Hk by lia. injection Hk as <-.
        apply lookup_insert_eq.
      + assert (k < length (q_vals d))%nat.
        { apply lookup_lt_Some in Hk. rewrite length_app in Hk.
          simpl in Hk. lia. }
        rewrite lookup_app_l in Hk by lia.
        rewrite lookup_insert_ne; [auto|].
        unfold q_cur. intros [= Heq]. lia. }
  rewrite insert_app_r_alt, Nat.sub_diag in Hr' by lia. simpl in Hr'.
  split; [exact Hr'|]. split; [|reflexivity].
  simpl. rewrite Hc, Hend. reflexivity.
Qed.

(** Between the rounds: at most one block, no element in it, and a free
    cell at the write position. *)
Record idle (q : queue) (L : list qdesc) : Prop := {
  idle_repr : repr q L;
  idle_current : mQueueCurrent q = mQueueEnd q;
  idle_block : L = [] \/
               exists d, L = [d] /\ q_vals d = [] /\ q_cur d < q_cap d;
  idle_count : (allocated_blocks q <= length L)%nat
}.

Lemma idle_create : idle (@create Type_) [].
Proof.
  constructor; [apply repr_create|reflexivity|auto|].
  unfold allocated_blocks. simpl. rewrite map_size_empty. lia.
Qed.

(** The [try_pop] of a round. *)
Lemma idle_after_pop (q1 : queue) d1 x :
  repr q1 [d1] -> mQueueCurrent q1 = mQueueEnd q1 -> q_vals d1 = [x] ->
  (allocated_blocks q1 <= 1)%nat ->
  exists q2 L2,
    try_pop value_init q1 = Ok (true, x, q2) /\ idle q2 L2.
Proof.
  intros Hr Hc Hv Hn.
  destruct (try_pop_head value_init q1 d1 [] x [] Hr Hv)
    as (q2 & Hpop & Hblk & Hcase).
  pose proof (try_pop_mQueueCurrent _ _ _ _ Hpop) as Hcur.
  assert (Hend1 : mQueueEnd q1 = Some (q_node d1)) by apply (repr_end _ _ Hr).
  assert (Hcount : (allocated_blocks q2 <= 1)%nat)
    by (unfold allocated_blocks in *; rewrite Hblk; exact Hn).
  destruct Hcase as [(Hlt & Hr2) | (Heq & _ & Hr2)].
  - exists q2, [with_vals (q_ub d1 + 1) [] d1]. split; [exact Hpop|].
    constructor; [exact Hr2| | |exact Hcount].
    + rewrite Hcur, Hc, Hend1. symmetry. apply (repr_end _ _ Hr2).
    + right. eexists. split; [reflexivity|]. split; [reflexivity|].
      unfold q_cur. simpl. lia.
  - exists q2, [with_vals 0 [] d1]. split; [exact Hpop|].
    constructor; [exact Hr2| | |exact Hcount].
    + rewrite Hcur, Hc, Hend1. symmetry. apply (repr_end _ _ Hr2).
    + right. eexists. split; [reflexivity|]. split; [reflexivity|].
      unfold q_cur. simpl.
      destruct (repr_desc_ok _ _ 0%nat _ Hr eq_refl) as (_ & _ & _ & Hpos & _).
      lia.
Qed.

Lemma idle_round (q : queue) L x :
  idle q L ->
  exists q2 L2,
    (q1 ← push sizeof_Type x q; try_pop value_init q1) = Ok (true, x, q2) /\
    idle q2 L2.
Proof.
  intros H. pose proof (idle_repr _ _ H) as Hr.
  pose proof (idle_current _ _ H) as Hc.
  destruct (idle_block _ _ H) as [->|(d & -> & Hv & Hroom)].
  - assert (Hp : pushing q []).
    { constructor; [exact Hr|exact Hc|].
      intros j d. rewrite lookup_nil. discriminate. }
    pose proof (repr_head _ _ Hr) as Hh. simpl in Hh.
    set (n := new_block_size sizeof_Type 1 0).
    set (q0 := {| mQueue := Some (next_mini_queue q);
                  mQueueCurrent := Some (next_mini_queue q);
                  mQueueEnd := Some (next_mini_queue q);
                  mAllocator :=
                    {| cells := cells (mAllocator q);
                       blocks := <[next_block (mAllocator q) := n]>
                                   (blocks (mAllocator q));
                       next_block := S (next_block (mAllocator q)) |};
                  mini_queues :=
                    <[next_mini_queue q :=
                        new_node (next_block (mAllocator q)) n]>
                      (mini_queues q);
                  next_mini_queue := S (next_mini_queue q) |}).
    assert (Hhead : push_head sizeof_Type q = Ok q0).
    { unfold push_head. rewrite decide_True by congruence. rewrite Hh.
      rewrite Allocate_mini_queue_eq. cbn [mbind outcome_bind].
      unfold Emplace_back_mini_queue. cbn [mQueue]. rewrite Hh. reflexivity. }
    assert (Hready : ready q0 [] (new_desc q n)).
    { constructor.
      - apply (repr_append q q0 [] n Hr); simpl; try reflexivity.
        apply new_block_size_pos.
      - reflexivity.
      - unfold q_cur. simpl. apply new_block_size_pos.
      - reflexivity.
      - intros j d0. rewrite lookup_nil. discriminate. }
    destruct (push_tail_ready q0 [] (new_desc q n) x Hready)
      as (q1 & Ht & Hp1 & Hblk1 & _).
    assert (Hpush : push sizeof_Type x q = Ok q1).
    { unfold push. rewrite Internal_push_eq, Hhead. exact Ht. }
    rewrite Hpush. cbn [mbind outcome_bind].
    apply (idle_after_pop q1 _ x (pushing_repr _ _ Hp1)
             (pushing_current _ _ Hp1) eq_refl).
    unfold allocated_blocks. rewrite Hblk1. simpl.
    pose proof (idle_count _ _ H) as Hn. unfold allocated_blocks in Hn.
    simpl in Hn. assert (He : blocks (mAllocator q) = ∅).
    { apply map_size_empty_iff. lia. }
    rewrite He, insert_empty, map_size_singleton. lia.
  - destruct (push_room q [] d x Hr Hc Hroom) as (q1 & Hpush & Hr1 & Hc1 & Hblk1).
    rewrite Hpush. cbn [mbind outcome_bind]. rewrite Hv in Hr1.
    apply (idle_after_pop q1 _ x Hr1 Hc1 eq_refl).
    unfold allocated_blocks. rewrite Hblk1.
    apply (idle_count _ _ H).
Qed.

(** X2.  One [push] and one [try_pop] per value, on a new queue: every
    [try_pop] succeeds and delivers the value just pushed, the queue is
    empty after each round, and it never holds more than one block,
    however many values pass through it. *)
Theorem push_try_pop_alternating (xs : list Type_) :
  exists q' : queue,
    push_try_pop_each sizeof_Type value_init xs create
    = Ok ((fun v => (true, v)) <$> xs, q') /\
    empty q' = Ok true /\
    (allocated_blocks q' <= 1)%nat.
Proof.
  assert (Hgen : forall (q : queue) L, idle q L ->
            exists q' L',
              push_try_pop_each sizeof_Type value_init xs q
              = Ok ((fun v => (true, v)) <$> xs, q') /\ idle q' L').
  { induction xs as [|x xs IH]; intros q L H.
    - exists q, L. split; [reflexivity|exact H].
    - destruct (idle_round q L x H) as (q2 & L2 & Hround & H2).
      apply bind_Ok in Hround as (q1 & Hpush & Hpop).
      destruct (IH q2 L2 H2) as (q' & L' & Hrest & H').
      exists q', L'. split; [|exact H'].
      simpl. rewrite Hpush. cbn [mbind outcome_bind]. rewrite Hpop.
      cbn [mbind outcome_bind]. rewrite Hrest. reflexivity. }
  destruct (Hgen create [] idle_create) as (q' & L' & Hrun & H').
  exists q'. split; [exact Hrun|]. split.
  - apply (try_pop_empty value_init q' L' (idle_repr _ _ H')).
    destruct (idle_block _ _ H') as [->|(d & -> & Hv & _)]; [reflexivity|].
    unfold contents. simpl. rewrite Hv. reflexivity.
  - pose proof (idle_count _ _ H') as Hn.
    destruct (idle_block _ _ H') as [->|(d & -> & _)]; simpl in Hn; lia.
Qed.

(** *** The length of a new block *)

Lemma new_block_size_value n :
  0 <= n <= 2 ^ 62 ->
  new_block_size sizeof_Type (wrap (n + 1)) n = Z.max Min_queue_size (n / 2).
Proof.
  intros Hn. unfold new_block_size, Calculate_new_capacity, max_size.
  pose proof (Min_segment_size_eval_cases sizeof_Type) as Hmin.
  fold Min_queue_size in Hmin |- *.
  assert (Hlim : size_limit = 2 ^ 64 - 1) by reflexivity.
  rewrite (wrap_small (n + 1)) by lia.
  replace (n + 1 - 1) with n by lia.
  rewrite (wrap_small n) by lia.
  destruct (n >? size_limit - n / 2) eqn:E1.
  { rewrite Z.gtb_ltb in E1. apply Z.ltb_lt in E1. lia. }
  rewrite (wrap_small (n + n / 2)) by lia.
  destruct (n + n / 2 <? n + 1) eqn:E2.
  - apply Z.ltb_lt in E2. rewrite wrap_small by lia. lia.
  - apply Z.ltb_ge in E2. rewrite wrap_small by lia. lia.
Qed.

(** What the first [if] of [Internal_push] does to the blocks: nothing,
    or one block whose length is computed from the number of elements. *)
Lemma push_head_allocates (q q1 : queue) :
  push_head sizeof_Type q = Ok q1 ->
  blocks (mAllocator q1) = blocks (mAllocator q) \/
  exists c,
    (mQueue q = None /\ c = 0 \/ unsafe_size q = Ok c) /\
    blocks (mAllocator q1)
    = <[next_block (mAllocator q) := new_block_size sizeof_Type (wrap (c + 1)) c]>
        (blocks (mAllocator q)).
Proof.
  unfold push_head. intros H.
  assert (Hgrow : forall r c q', Allocate_mini_queue sizeof_Type r c q
                      ≫= (fun '(queue, q') => Emplace_back_mini_queue queue q')
                      = Ok q' ->
            blocks (mAllocator q')
            = <[next_block (mAllocator q) := new_block_size sizeof_Type r c]>
                (blocks (mAllocator q))).
  { intros r c q' Hq'. rewrite Allocate_mini_queue_eq in Hq'.
    cbn [mbind outcome_bind] in Hq'.
    apply Emplace_back_mini_queue_mem in Hq'. rewrite Hq'. reflexivity. }
  destruct (decide _); [|injection H as <-; auto].
  destruct (mQueue q) eqn:Hq.
  - apply bind_Ok in H as (sc & _ & H).
    destruct (decide _); [|injection H as <-; auto].
    apply bind_Ok in H as (c & Hc & H).
    right. exists c. split; [auto|]. apply (Hgrow _ _ _ H).
  - right. exists 0. split; [auto|]. apply (Hgrow _ _ _ H).
Qed.

Lemma push_allocates (q q' : queue) x :
  push sizeof_Type x q = Ok q' ->
  blocks (mAllocator q') = blocks (mAllocator q) \/
  exists c,
    (mQueue q = None /\ c = 0 \/ unsafe_size q = Ok c) /\
    blocks (mAllocator q')
    = <[next_block (mAllocator q) := new_block_size sizeof_Type (wrap (c + 1)) c]>
        (blocks (mAllocator q)).
Proof.
  unfold push. rewrite Internal_push_eq. intros H.
  apply bind_Ok in H as (q1 & Hhead & Htail).
  apply push_tail_blocks in Htail. rewrite Htail.
  apply push_head_allocates. exact Hhead.
Qed.

(** No block is shorter than [Min_queue_size]. *)
Definition blocks_at_least_min (q : queue) : Prop :=
  forall b n, blocks (mAllocator q) !! b = Some n -> Min_queue_size <= n.

Lemma push_blocks_at_least_min (q q' : queue) x :
  push sizeof_Type x q = Ok q' ->
  blocks_at_least_min q -> blocks_at_least_min q'.
Proof.
  intros H Hq b n.
  destruct (push_allocates q q' x H) as [->|(c & _ & ->)]; [apply Hq|].
  destruct (decide (next_block (mAllocator q) = b)) as [<-|Hne].
  - rewrite lookup_insert_eq. intros [= <-]. unfold new_block_size. lia.
  - rewrite lookup_insert_ne by exact Hne. apply Hq.
Qed.

Lemma push_all_blocks_at_least_min xs : forall (q q' : queue),
  push_all sizeof_Type xs q = Ok q' ->
  blocks_at_least_min q -> blocks_at_least_min q'.
Proof.
  induction xs as [|x xs IH]; intros q q' H Hq; simpl in H.
  - injection H as <-. exact Hq.
  - apply bind_Ok in H as (q1 & Hpush & Hrest).
    apply (IH q1 q' Hrest). apply (push_blocks_at_least_min q q1 x Hpush Hq).
Qed.

(** X3.  The growth of a queue that is only pushed to: with [n] elements
    in it, a [push] either allocates nothing or allocates one block of
    exactly [max(Min_queue_size, n / 2)] cells (the first block has
    [Min_queue_size] cells), and no block is ever shorter than
    [Min_queue_size]. *)
Theorem queue_growth_policy (xs : list Type_) (x : Type_) :
  Z.of_nat (length xs) <= 2 ^ 62 ->
  exists (q q' : queue),
    push_all sizeof_Type xs create = Ok q /\
    push sizeof_Type x q = Ok q' /\
    (blocks (mAllocator q') = blocks (mAllocator q) \/
     blocks (mAllocator q')
     = <[next_block (mAllocator q) :=
           Z.max Min_queue_size (Z.of_nat (length xs) / 2)]>
         (blocks (mAllocator q))) /\
    (forall b n, blocks (mAllocator q') !! b = Some n -> Min_queue_size <= n).
Proof.
  intros Hn.
  destruct (push_all_spec sizeof_Type xs create [] pushing_create)
    as (q & L & Hpush & H & Hc).
  simpl in Hc. pose proof (pushing_repr _ _ H) as Hr.
  destruct (push_step sizeof_Type q L x H) as (q' & L' & Hstep & _).
  exists q, q'. split; [exact Hpush|]. split; [exact Hstep|]. split.
  - destruct (push_allocates q q' x Hstep) as [Heq|(c & Hcase & Heq)];
      [left; exact Heq|].
    right. rewrite Heq. f_equal.
    assert (c = Z.of_nat (length xs)) as ->.
    { destruct Hcase as [[Hq ->]|Hsz].
      - rewrite (repr_head _ _ Hr) in Hq. destruct L; [|discriminate].
        rewrite <- Hc. reflexivity.
      - rewrite (unsafe_size_count q L Hr), Hc in Hsz.
        injection Hsz as <-. apply wrap_small. unfold size_limit. lia. }
    apply new_block_size_value. lia.
  - apply (push_blocks_at_least_min q q' x Hstep).
    apply (push_all_blocks_at_least_min xs create q Hpush).
    intros b n. simpl. rewrite lookup_empty. discriminate.
Qed.

(** *** The destructor *)

Lemma Destroy_loop_inside (b : nat) (cap : Z) : forall count o (m : memory Type_),
  blocks m !! b = Some cap -> 0 <= o -> o + Z.of_nat count <= cap ->
  exists m',
    Destroy_loop count (Some (b, o)) m = Ok m' /\
    blocks m' = blocks m /\ next_block m' = next_block m /\
    forall a, a.1 <> b -> cells m' !! a = cells m !! a.
Proof.
  induction count as [|count IH]; intros o m Hb Ho Hc.
  - exists m. simpl. auto.
  - assert (Hin : in_block m (b, o) = true).
    { unfold in_block. simpl. rewrite Hb.
      rewrite (proj2 (Z.leb_le _ _)), (proj2 (Z.ltb_lt _ _)) by lia.
      reflexivity. }
    pose proof (destroy_cell m (b, o) Hin) as Hd. unfold address in Hd.
    cbn [Destroy_loop]. rewrite Hd. cbn [mbind outcome_bind ptr_add].
    destruct (IH (o + 1) {| cells := delete (b, o) (cells m);
                            blocks := blocks m;
                            next_block := next_block m |})
      as (m' & Hloop & Hb' & Hn' & Hcells); [exact Hb|lia|lia|].
    exists m'. split; [exact Hloop|]. split; [exact Hb'|].
    split; [exact Hn'|].
    intros a Ha. rewrite (Hcells a Ha). simpl.
    apply lookup_delete_ne. intros <-. apply Ha. reflexivity.
Qed.

(** A chain of blocks that starts anywhere. *)
Definition chain_from (q : queue) (C : list qdesc) : Prop :=
  NoDup (q_node <$> C) /\ NoDup (q_blk <$> C) /\
  forall j d, C !! j = Some d ->
    node_matches q d (q_node <$> C !! S j) /\ qdesc_ok (mAllocator q) d.

Lemma repr_chain_from (q : queue) L : repr q L -> chain_from q L.
Proof.
  intros H. split; [apply H|]. split; [apply H|].
  intros j d Hj. split; [apply (repr_linked _ _ H _ _ Hj)|].
  apply (repr_desc_ok _ _ _ _ H Hj).
Qed.

Lemma Finalise_loop_chain (C : list qdesc) : forall fuel (q : queue),
  chain_from q C -> (length C <= fuel)%nat ->
  exists q',
    Finalise_loop fuel (q_node <$> C !! 0%nat) q = Ok q' /\
    (forall n, mini_queues q' !! n
               = if decide (n ∈ q_node <$> C) then None
                 else mini_queues q !! n) /\
    (forall b, blocks (mAllocator q') !! b
               = if decide (b ∈ q_blk <$> C) then None
                 else blocks (mAllocator q) !! b) /\
    (forall a, cells (mAllocator q') !! a
               = if decide (a.1 ∈ q_blk <$> C) then None
                 else cells (mAllocator q) !! a).
Proof.
  induction C as [|d C IH]; intros fuel q (Hn & Hb & Hlink) Hfuel.
  - exists q. split; [destruct fuel; reflexivity|].
    split; [|split]; intros ?; rewrite decide_False; auto; simpl;
      apply not_elem_of_nil.
  - destruct fuel as [|fuel]; [simpl in Hfuel; lia|].
    destruct (Hlink 0%nat d eq_refl)
      as ((s & Hs & Hsb & Hsu & Hsc & Hse & Hsn) & Hblk & Hub & Hcur & Hpos & _).
    simpl in Hn, Hb. apply NoDup_cons in Hn as [Hn1 Hn2].
    apply NoDup_cons in Hb as [Hb1 Hb2].
    destruct (Destroy_loop_inside (q_blk d) (q_cap d)
                (Z.to_nat (q_cur d - q_ub d)) (q_ub d) (mAllocator q) Hblk Hub)
      as (m1 & Hdestroy & Hb_m1 & Hn_m1 & Hc_m1).
    { unfold q_cur in *. lia. }
    set (m2 := {| cells := filter (fun kv : address * Type_ => kv.1.1 <> q_blk d)
                             (cells m1);
                  blocks := delete (q_blk d) (blocks m1);
                  next_block := next_block m1 |}).
    set (q2 := {| mQueue := mQueue q; mQueueCurrent := mQueueCurrent q;
                  mQueueEnd := mQueueEnd q; mAllocator := m2;
                  mini_queues := delete (q_node d) (mini_queues q);
                  next_mini_queue := next_mini_queue q |}).
    assert (Hm2 : forall a, cells m2 !! a
                  = if decide (a.1 = q_blk d) then None
                    else cells (mAllocator q) !! a).
    { intros a. simpl. destruct (decide (a.1 = q_blk d)) as [Ha|Ha].
      - apply map_lookup_filter_None_2. right. intros x _ Hx. simpl in Hx.
        contradiction.
      - rewrite <- (Hc_m1 a Ha).
        destruct (cells m1 !! a) as [x|] eqn:Hx.
        + apply map_lookup_filter_Some_2; [exact Hx|exact Ha].
        + apply map_lookup_filter_None_2. left. exact Hx. }
    assert (Hstep : Finalise_loop (S fuel) (Some (q_node d)) q
                    = Finalise_loop fuel (q_node <$> C !! 0%nat) q2).
    { cbn [Finalise_loop]. rewrite Hs. cbn [mbind outcome_bind deref].
      unfold Destroy_all_element_in_mini_queue. rewrite Hsc, Hsu.
      cbn [ptr_diff]. rewrite decide_True by reflexivity.
      cbn [mbind outcome_bind]. rewrite Hdestroy. cbn [mbind outcome_bind].
      unfold Deallocate_mini_queue. cbn [mini_queues with_mAllocator].
      rewrite Hs. cbn [mbind outcome_bind deref].
      unfold Get_mini_queue_capacity. rewrite Hse, Hsb. cbn [ptr_diff].
      rewrite decide_True by reflexivity. cbn [mbind outcome_bind].
      unfold deallocate, with_mAllocator.
      cbn [mAllocator mQueue mQueueCurrent mQueueEnd next_mini_queue
           mini_queues].
      rewrite decide_True by (rewrite Hb_m1, Hblk; eauto).
      cbn [mbind outcome_bind]. rewrite Hsn. reflexivity. }
    assert (Hchain : chain_from q2 C).
    { split; [exact Hn2|]. split; [exact Hb2|].
      intros j d' Hj.
      destruct (Hlink (S j) d' Hj) as ((s' & Hs' & Hrest) & Hok').
      assert (Hin_n : q_node d' ∈ q_node <$> C).
      { apply list_elem_of_fmap. exists d'. split; [reflexivity|].
        apply list_elem_of_lookup. eauto. }
      assert (Hin_b : q_blk d' ∈ q_blk <$> C).
      { apply list_elem_of_fmap. exists d'. split; [reflexivity|].
        apply list_elem_of_lookup. eauto. }
      split.
      - exists s'. split; [|exact Hrest]. simpl.
        rewrite lookup_delete_ne; [exact Hs'|].
        intros Heq. apply Hn1. rewrite Heq. exact Hin_n.
      - apply (qdesc_ok_frame (mAllocator q)); [exact Hok'| |].
        + simpl. rewrite Hb_m1. apply lookup_delete_ne.
          intros Heq. apply Hb1. rewrite Heq. exact Hin_b.
        + intros a Ha. change (cells (mAllocator q2)) with (cells m2).
          rewrite Hm2. rewrite decide_False; [reflexivity|].
          rewrite Ha. intros Heq. apply Hb1. rewrite <- Heq. exact Hin_b. }
    destruct (IH fuel q2 Hchain ltac:(simpl in Hfuel; lia))
      as (q' & Hloop & Hnodes & Hblocks & Hcells).
    exists q'. split.
    { change (q_node <$> (d :: C) !! 0%nat) with (Some (q_node d)).
      rewrite Hstep. exact Hloop. }
    split; [|split].
    + intros n. rewrite Hnodes.
      change (mini_queues q2) with (delete (q_node d) (mini_queues q)).
      destruct (decide (n ∈ q_node <$> C)) as [Hin|Hnin];
        destruct (decide (n ∈ q_node <$> (d :: C))) as [Hin'|Hnin'];
        try reflexivity.
      * exfalso. apply Hnin'. rewrite fmap_cons. right. exact Hin.
      * rewrite fmap_cons in Hin'. apply elem_of_cons in Hin' as [->|?];
          [apply lookup_delete_eq|contradiction].
      * apply lookup_delete_ne. intros <-. apply Hnin'. rewrite fmap_cons. left.
    + intros b. rewrite Hblocks.
      change (blocks (mAllocator q2)) with (delete (q_blk d) (blocks m1)).
      rewrite Hb_m1.
      destruct (decide (b ∈ q_blk <$> C)) as [Hin|Hnin];
        destruct (decide (b ∈ q_blk <$> (d :: C))) as [Hin'|Hnin'];
        try reflexivity.
      * exfalso. apply Hnin'. rewrite fmap_cons. right. exact Hin.
      * rewrite fmap_cons in Hin'. apply elem_of_cons in Hin' as [->|?];
          [apply lookup_delete_eq|contradiction].
      * apply lookup_delete_ne. intros <-. apply Hnin'. rewrite fmap_cons. left.
    + intros a. rewrite Hcells. change (cells (mAllocator q2)) with (cells m2).
      rewrite Hm2.
      destruct (decide (a.1 ∈ q_blk <$> C)) as [Hin|Hnin];
        destruct (decide (a.1 ∈ q_blk <$> (d :: C))) as [Hin'|Hnin'];
        try reflexivity.
      * exfalso. apply Hnin'. rewrite fmap_cons. right. exact Hin.
      * rewrite fmap_cons in Hin'. apply elem_of_cons in Hin' as [Heq|?];
          [|contradiction].
        rewrite decide_True by exact Heq. reflexivity.
      * rewrite decide_False; [reflexivity|].
        intros Heq. apply Hnin'. rewrite fmap_cons, Heq. left.
Qed.

(** The queue owns what the allocators have handed out: every block and
    every node is in the chain, every constructed element in a block. *)
Record owned (q : queue) (L : list (@qdesc Type_)) : Prop := {
  owned_blocks : dom (blocks (mAllocator q))
                 = (list_to_set (q_blk <$> L) : gset nat);
  owned_nodes : dom (mini_queues q) = (list_to_set (q_node <$> L) : gset nat);
  owned_cells : forall a v, cells (mAllocator q) !! a = Some v ->
                  is_Some (blocks (mAllocator q) !! a.1)
}.

Lemma owned_create : owned (@create Type_) [].
Proof.
  constructor; simpl.
  - apply dom_empty_L.
  - apply dom_empty_L.
  - intros a v. rewrite lookup_empty. discriminate.
Qed.

Lemma push_tail_cells x (q1 q2 : queue) :
  push_tail x q1 = Ok q2 ->
  exists a, in_block (mAllocator q1) a = true /\
    cells (mAllocator q2) = <[a := x]> (cells (mAllocator q1)).
Proof.
  unfold push_tail. intros H.
  apply bind_Ok in H as (c & _ & H). apply bind_Ok in H as (sc & _ & H).
  apply bind_Ok in H as (mem & Hcons & H). apply bind_Ok in H as (p & _ & H).
  cbn zeta in H.
  assert (Hmem : exists a, in_block (mAllocator q1) a = true /\
            cells mem = <[a := x]> (cells (mAllocator q1))).
  { unfold construct in Hcons.
    destruct (MiniQueue.mCurrent sc) as [a|]; [|discriminate].
    destruct (in_block (mAllocator q1) a) eqn:Hin; [|discriminate].
    injection Hcons as <-. exists a. auto. }
  destruct (decide _).
  - apply bind_Ok in H as (next & _ & H). injection H as <-. exact Hmem.
  - injection H as <-. exact Hmem.
Qed.

Lemma in_block_live (m : memory Type_) a :
  in_block m a = true -> is_Some (blocks m !! a.1).
Proof.
  unfold in_block. destruct (blocks m !! a.1); [eauto|discriminate].
Qed.

Lemma push_step_owned (q : queue) L x :
  pushing q L -> owned q L ->
  exists q' L',
    push sizeof_Type x q = Ok q' /\ pushing q' L' /\ owned q' L' /\
    contents L' = contents L ++ [x].
Proof.
  intros H Ho.
  destruct (push_head_cases sizeof_Type q L H)
    as (q1 & P & d & Hh & Hready & Hcase).
  destruct (push_tail_ready q1 P d x Hready) as (q' & Ht & Hp & Hblk & Hmq).
  destruct (push_tail_cells x q1 q' Ht) as (a & Hin & Hcells).
  exists q', (P ++ [with_vals (q_ub d) (q_vals d ++ [x]) d]).
  split; [unfold push; rewrite Internal_push_eq, Hh; exact Ht|].
  split; [exact Hp|].
  assert (Hj : (P ++ [d]) !! length P = Some d)
    by (rewrite lookup_app_r, Nat.sub_diag by lia; reflexivity).
  destruct (repr_linked _ _ (ready_repr _ _ _ Hready) _ _ Hj) as (s & Hs & _).
  assert (Hdom : dom (mini_queues q') = dom (mini_queues q1)).
  { rewrite Hmq. apply dom_insert_lookup_L. eauto. }
  assert (Hb : q_blk <$> P ++ [with_vals (q_ub d) (q_vals d ++ [x]) d]
               = q_blk <$> P ++ [d]) by (rewrite !fmap_app; reflexivity).
  assert (Hn : q_node <$> P ++ [with_vals (q_ub d) (q_vals d ++ [x]) d]
               = q_node <$> P ++ [d]) by (rewrite !fmap_app; reflexivity).
  split; [|rewrite contents_snoc;
           destruct Hcase as [[_ ->]|(n & -> & -> & _)]; [reflexivity|];
           rewrite contents_app; unfold contents at 2; simpl;
           rewrite app_nil_r; reflexivity].
  destruct Hcase as [[-> ->]|(n & -> & -> & Hmem & Hnodes)].
  - constructor.
    + rewrite Hb, Hblk. apply (owned_blocks _ _ Ho).
    + rewrite Hn, Hdom. apply (owned_nodes _ _ Ho).
    + intros a' v. rewrite Hcells, Hblk.
      destruct (decide (a = a')) as [<-|Hne].
      * intros _. apply in_block_live. exact Hin.
      * rewrite lookup_insert_ne by exact Hne. apply (owned_cells _ _ Ho).
  - constructor.
    + rewrite Hb, Hblk, Hmem. simpl.
      rewrite dom_insert_L, (owned_blocks _ _ Ho), fmap_app, list_to_set_app_L.
      simpl. rewrite union_empty_r_L. apply union_comm_L.
    + rewrite Hn, Hdom, Hnodes, (owned_nodes _ _ Ho), fmap_app,
        list_to_set_app_L.
      simpl. rewrite union_empty_r_L. apply union_comm_L.
    + intros a' v. rewrite Hcells, Hblk.
      destruct (decide (a = a')) as [<-|Hne].
      * intros _. apply in_block_live. exact Hin.
      * rewrite lookup_insert_ne by exact Hne. rewrite Hmem. simpl.
        intros Hc. apply lookup_insert_is_Some'. right.
        apply (owned_cells _ _ Ho _ _ Hc).
Qed.

Lemma set_mini_queue_dom n s (q : queue) :
  is_Some (mini_queues q !! n) ->
  dom (mini_queues (set_mini_queue n s q)) = dom (mini_queues q).
Proof. intros H. simpl. apply dom_insert_lookup_L. exact H. Qed.

Lemma deref_is_Some {A} (o : option A) (x : A) : deref o = Ok x -> is_Some o.
Proof. destruct o; [eauto|discriminate]. Qed.

Lemma try_pop_nodes (q q' : queue) r dest :
  try_pop value_init q = Ok (r, dest, q') ->
  dom (mini_queues q') = dom (mini_queues q).
Proof.
  unfold try_pop. intros H.
  destruct (mQueue q) eqn:Hq; [|injection H as _ _ <-; reflexivity].
  apply bind_Ok in H as (s0 & _ & H).
  destruct (decide _); [injection H as _ _ <-; reflexivity|].
  unfold Internal_Pop in H.
  apply bind_Ok in H as (h & _ & H). apply bind_Ok in H as (s & Hs & H).
  apply bind_Ok in H as (? & _ & H). apply bind_Ok in H as (mem & _ & H).
  apply bind_Ok in H as (p & _ & H). cbn zeta in H.
  apply deref_is_Some in Hs.
  set (q1 := set_mini_queue h (MiniQueue.set_mUsedBegin p s)
               (with_mAllocator mem q)) in *.
  assert (H1 : dom (mini_queues q1) = dom (mini_queues q))
    by (apply (set_mini_queue_dom h _ (with_mAllocator mem q)); exact Hs).
  destruct (decide _); [|injection H as _ _ <-; exact H1].
  match type of H with context [set_mini_queue h ?s2 q1] =>
    set (q2 := set_mini_queue h s2 q1) in * end.
  assert (H2 : dom (mini_queues q2) = dom (mini_queues q)).
  { rewrite <- H1. apply set_mini_queue_dom. simpl.
    rewrite lookup_insert_eq. eauto. }
  destruct (decide _); [|injection H as _ _ <-; exact H2].
  apply bind_Ok in H as (tl & _ & H). apply bind_Ok in H as (se & Hse & H).
  cbn zeta in H. apply bind_Ok in H as (sh & Hsh & H).
  injection H as _ _ <-.
  apply deref_is_Some in Hse. apply deref_is_Some in Hsh.
  cbn [mini_queues with_mQueue].
  rewrite set_mini_queue_dom by exact Hsh.
  cbn [mini_queues with_mQueueEnd].
  rewrite set_mini_queue_dom by exact Hse. exact H2.
Qed.

Lemma try_pop_cells (q q' : queue) r dest :
  try_pop value_init q = Ok (r, dest, q') ->
  forall a v, cells (mAllocator q') !! a = Some v ->
              cells (mAllocator q) !! a = Some v.
Proof.
  unfold try_pop. intros H.
  destruct (mQueue q) eqn:Hq; [|injection H as _ _ <-; auto].
  apply bind_Ok in H as (s0 & _ & H).
  destruct (decide _); [injection H as _ _ <-; auto|].
  unfold Internal_Pop in H.
  apply bind_Ok in H as (h & _ & H). apply bind_Ok in H as (s & Hs & H).
  apply bind_Ok in H as (? & _ & H). apply bind_Ok in H as (mem & Hmem & H).
  apply bind_Ok in H as (p & _ & H). cbn zeta in H.
  assert (Hsub : forall a v, cells mem !! a = Some v ->
                   cells (mAllocator q) !! a = Some v).
  { unfold destroy in Hmem.
    destruct (MiniQueue.mUsedBegin s) as [a0|]; [|discriminate].
    destruct (in_block (mAllocator q) a0); [|discriminate].
    injection Hmem as <-. simpl. intros a v Ha.
    apply lookup_delete_Some in Ha as [_ Ha]. exact Ha. }
  destruct (decide _); [|injection H as _ _ <-; exact Hsub].
  destruct (decide _); [|injection H as _ _ <-; exact Hsub].
  apply bind_Ok in H as (tl & _ & H). apply bind_Ok in H as (se & _ & H).
  cbn zeta in H. apply bind_Ok in H as (sh & _ & H).
  injection H as _ _ <-. exact Hsub.
Qed.

Lemma pop_step_owned (q : queue) L x rest :
  popping q L -> owned q L -> contents L = x :: rest ->
  exists q' L',
    try_pop value_init q = Ok (true, x, q') /\ popping q' L' /\
    owned q' L' /\ contents L' = rest.
Proof.
  intros H Ho Hc.
  destruct (pop_step_perm value_init q L x rest H Hc)
    as (q' & L' & Hpop & H' & Hc' & Hpn & Hpb).
  exists q', L'. split; [exact Hpop|]. split; [exact H'|].
  split; [|exact Hc'].
  pose proof (try_pop_blocks value_init _ _ _ _ Hpop) as Hblk.
  constructor.
  - rewrite Hblk, (owned_blocks _ _ Ho).
    apply leibniz_equiv. rewrite Hpb. reflexivity.
  - rewrite (try_pop_nodes _ _ _ _ Hpop), (owned_nodes _ _ Ho).
    apply leibniz_equiv. rewrite Hpn. reflexivity.
  - intros a v Ha. rewrite Hblk.
    apply (owned_cells _ _ Ho a v), (try_pop_cells _ _ _ _ Hpop), Ha.
Qed.

Lemma push_all_owned xs : forall (q : queue) L,
  pushing q L -> owned q L ->
  exists q' L',
    push_all sizeof_Type xs q = Ok q' /\ pushing q' L' /\ owned q' L' /\
    contents L' = contents L ++ xs.
Proof.
  induction xs as [|x xs IH]; intros q L H Ho.
  - exists q, L. rewrite app_nil_r. auto.
  - destruct (push_step_owned q L x H Ho) as (q1 & L1 & Hpush & H1 & Ho1 & Hc1).
    destruct (IH q1 L1 H1 Ho1) as (q' & L' & Hall & H' & Ho' & Hc').
    exists q', L'. simpl. rewrite Hpush. simpl.
    split; [exact Hall|]. split; [exact H'|]. split; [exact Ho'|].
    rewrite Hc', Hc1, <- app_assoc. reflexivity.
Qed.

Lemma try_pop_n_owned xs : forall (q : queue) L rest,
  popping q L -> owned q L -> contents L = xs ++ rest ->
  exists q' L',
    try_pop_n value_init (length xs) q
    = Ok ((fun v => (true, v)) <$> xs, q') /\
    popping q' L' /\ owned q' L' /\ contents L' = rest.
Proof.
  induction xs as [|x xs IH]; intros q L rest H Ho Hc.
  - exists q, L. auto.
  - destruct (pop_step_owned q L x (xs ++ rest) H Ho Hc)
      as (q1 & L1 & Hpop & H1 & Ho1 & Hc1).
    destruct (IH q1 L1 rest H1 Ho1 Hc1) as (q' & L' & Hn & H' & Ho' & Hc').
    exists q', L'. split; [|auto].
    simpl. rewrite Hpop. cbn [mbind outcome_bind]. rewrite Hn. reflexivity.
Qed.

(** X4.  The destructor after any number of pushes followed by any number
    of successful pops: [Finalise] runs to its end and gives back every
    block of elements and every node the queue has obtained, with no
    element left constructed. *)
Theorem destructor_releases_everything (xs : list Type_) (k : nat) :
  (k <= length xs)%nat ->
  exists (q1 q2 q3 : queue),
    push_all sizeof_Type xs create = Ok q1 /\
    try_pop_n value_init k q1 = Ok ((fun v => (true, v)) <$> take k xs, q2) /\
    Finalise q2 = Ok q3 /\
    blocks (mAllocator q3) = ∅ /\ mini_queues q3 = ∅ /\
    cells (mAllocator q3) = ∅.
Proof.
  intros Hk.
  destruct (push_all_owned xs create [] pushing_create owned_create)
    as (q1 & L1 & Hpush & H1 & Ho1 & Hc1).
  simpl in Hc1.
  destruct (try_pop_n_owned (take k xs) q1 L1 (drop k xs)
              (pushing_popping _ _ H1) Ho1)
    as (q2 & L2 & Hpop & H2 & Ho2 & _).
  { rewrite take_drop. exact Hc1. }
  rewrite length_take, Nat.min_l in Hpop by exact Hk.
  pose proof (popping_repr _ _ H2) as Hr2.
  destruct (Finalise_loop_chain L2 (budget q2) q2 (repr_chain_from _ _ Hr2))
    as (q3 & Hfin & Hnodes & Hblocks & Hcells).
  { pose proof (repr_length _ _ Hr2). lia. }
  exists q1, q2, q3. split; [exact Hpush|]. split; [exact Hpop|].
  split; [unfold Finalise; rewrite (repr_head _ _ Hr2); exact Hfin|].
  assert (Hb : forall b, b ∉ q_blk <$> L2 -> blocks (mAllocator q2) !! b = None).
  { intros b Hb. apply not_elem_of_dom.
    rewrite (owned_blocks _ _ Ho2), elem_of_list_to_set. exact Hb. }
  split; [|split].
  - apply map_empty. intros b. rewrite Hblocks.
    destruct (decide _); [reflexivity|auto].
  - apply map_empty. intros n. rewrite Hnodes.
    destruct (decide _) as [|Hn]; [reflexivity|].
    apply not_elem_of_dom.
    rewrite (owned_nodes _ _ Ho2), elem_of_list_to_set. exact Hn.
  - apply map_empty. intros a. rewrite Hcells.
    destruct (decide _) as [|Ha]; [reflexivity|].
    destruct (cells (mAllocator q2) !! a) as [v|] eqn:Hv; [|exact Hv].
    exfalso. destruct (owned_cells _ _ Ho2 _ _ Hv) as [n Hn].
    rewrite (Hb _ Ha) in Hn. discriminate.
Qed.

(** *** Iteration *)

(** No block is longer than a [size_type] can tell. *)
Definition blocks_at_most_limit (q : queue) : Prop :=
  forall b n, blocks (mAllocator q) !! b = Some n -> n <= size_limit.

Lemma push_blocks_at_most_limit (q q' : queue) x :
  push sizeof_Type x q = Ok q' ->
  blocks_at_most_limit q -> blocks_at_most_limit q'.
Proof.
  intros H Hq b n.
  destruct (push_allocates q q' x H) as [->|(c & _ & ->)]; [apply Hq|].
  destruct (decide (next_block (mAllocator q) = b)) as [<-|Hne].
  - rewrite lookup_insert_eq. intros [= <-]. unfold new_block_size.
    pose proof (wrap_range (Calculate_new_capacity sizeof_Type (wrap (c + 1)) - c)).
    pose proof (Min_segment_size_eval_cases sizeof_Type) as Hmin.
    fold Min_queue_size in Hmin. unfold size_limit in *. lia.
  - rewrite lookup_insert_ne by exact Hne. apply Hq.
Qed.

Lemma push_all_blocks_at_most_limit xs : forall (q q' : queue),
  push_all sizeof_Type xs q = Ok q' ->
  blocks_at_most_limit q -> blocks_at_most_limit q'.
Proof.
  induction xs as [|x xs IH]; intros q q' H Hq; simpl in H.
  - injection H as <-. exact Hq.
  - apply bind_Ok in H as (q1 & Hpush & Hrest).
    apply (IH q1 q' Hrest). apply (push_blocks_at_most_limit q q1 x Hpush Hq).
Qed.

Lemma iterator_eqb_valid n i :
  iterator_eqb {| mMiniQueue := n; mElementIdxInMiniQueue := i;
                  isValid := true |} unsafe_end = false.
Proof. reflexivity. Qed.

(** The iterator at the element of index [k] of block [j] of a queue that
    has only been pushed to: [operator*] designates the element. *)
Lemma iterator_deref_pushing (q : queue) L j d (k : nat) x :
  pushing q L -> L !! j = Some d -> q_vals d !! k = Some x ->
  iterator_deref {| mMiniQueue := Some (q_node d);
                    mElementIdxInMiniQueue := Z.of_nat k;
                    isValid := true |} q
  = Ok (q_blk d, Z.of_nat k) /\
  load (Some (q_blk d, Z.of_nat k)) (mAllocator q) = Ok x.
Proof.
  intros H Hj Hk. pose proof (pushing_repr _ _ H) as Hr.
  destruct (repr_linked _ _ Hr j d Hj) as (s & Hs & Hsb & _).
  destruct (pushing_blocks _ _ H j d Hj) as (Hub & _ & _).
  destruct (repr_desc_ok _ _ _ _ Hr Hj) as (Hb & _ & Hcur & Hcap & Hcells).
  pose proof (lookup_lt_Some _ _ _ Hk) as Hlt. unfold q_cur in Hcur.
  split.
  - unfold iterator_deref, get_mini_queue. simpl. rewrite Hs. simpl.
    rewrite Hsb. reflexivity.
  - apply load_cell.
    + unfold in_block. simpl. rewrite Hb.
      rewrite (proj2 (Z.leb_le _ _)), (proj2 (Z.ltb_lt _ _)) by lia.
      reflexivity.
    + specialize (Hcells k x Hk). rewrite Hub, Z.add_0_l in Hcells.
      exact Hcells.
Qed.

(** [Next()] at that place: the next index in the block, the first index
    of the next block after the last cell, and the end after the last
    element. *)
Lemma Next_pushing (q : queue) L j d (k : nat) :
  pushing q L -> blocks_at_most_limit q ->
  L !! j = Some d -> (k < length (q_vals d))%nat ->
  Next {| mMiniQueue := Some (q_node d);
          mElementIdxInMiniQueue := Z.of_nat k; isValid := true |} q
  = Ok (if decide (S k < length (q_vals d))%nat
        then {| mMiniQueue := Some (q_node d);
                mElementIdxInMiniQueue := Z.of_nat (S k); isValid := true |}
        else match L !! S j with
             | Some d' => {| mMiniQueue := Some (q_node d');
                             mElementIdxInMiniQueue := 0; isValid := true |}
             | None => unsafe_end
             end).
Proof.
  intros H Hlim Hj Hk. pose proof (pushing_repr _ _ H) as Hr.
  destruct (repr_linked _ _ Hr j d Hj) as (s & Hs & Hsb & _ & Hsc & Hse & Hsn).
  destruct (pushing_blocks _ _ H j d Hj) as (Hub & _ & Hfull).
  destruct (repr_desc_ok _ _ _ _ Hr Hj) as (Hb & _ & Hcur & Hcap & _).
  pose proof (Hlim _ _ Hb) as Hmax.
  unfold q_cur in *. rewrite Hub in *.
  set (len := Z.of_nat (length (q_vals d))) in *.
  assert (Hlen : 0 < len) by (unfold len; lia).
  unfold Next, Advance, get_mini_queue. simpl. rewrite Hs. simpl.
  unfold Get_mini_queue_size, Get_mini_queue_capacity.
  rewrite Hsc, Hsb, Hse. simpl. rewrite !decide_True by reflexivity. simpl.
  rewrite !Z.sub_0_r, Z.add_0_l.
  rewrite (wrap_small len), (wrap_small (q_cap d)) by lia.
  rewrite (proj2 (Z.eqb_neq len 0)) by lia. simpl.
  rewrite (wrap_small (len - 1)) by lia.
  destruct (decide (S k < length (q_vals d))%nat) as [Hin|Hlast].
  - rewrite (proj2 (Z.ltb_lt _ _)) by (unfold len; lia). simpl.
    rewrite wrap_small by lia. do 3 f_equal. lia.
  - rewrite (proj2 (Z.ltb_ge _ _)) by (unfold len; lia).
    rewrite (proj2 (Z.eqb_eq _ _)) by (unfold len; lia). simpl.
    destruct (len <? q_cap d) eqn:E.
    + apply Z.ltb_lt in E. simpl.
      destruct (L !! S j) as [d'|] eqn:Hj'; [|reflexivity].
      exfalso. apply lookup_lt_Some in Hj'.
      specialize (Hfull ltac:(lia)). fold len in Hfull. lia.
    + rewrite Hsn. destruct (L !! S j) as [d'|] eqn:Hj'; simpl.
      * reflexivity.
      * reflexivity.
Qed.

(** The loop from that place on reads the rest of the block and then the
    blocks behind it. *)
Lemma unsafe_for_loop_pushing (q : queue) L :
  pushing q L -> blocks_at_most_limit q ->
  forall fuel j d k,
    L !! j = Some d -> (k < length (q_vals d))%nat ->
    (length (drop k (q_vals d)) + length (contents (drop (S j) L)) <= fuel)%nat ->
    unsafe_for_loop fuel
      {| mMiniQueue := Some (q_node d); mElementIdxInMiniQueue := Z.of_nat k;
         isValid := true |} q
    = Ok (drop k (q_vals d) ++ contents (drop (S j) L)).
Proof.
  intros H Hlim. induction fuel as [|fuel IH]; intros j d k Hj Hk Hfuel.
  - rewrite length_drop in Hfuel. lia.
  - destruct (lookup_lt_is_Some_2 (q_vals d) k Hk) as [x Hx].
    destruct (iterator_deref_pushing q L j d k x H Hj Hx) as [Hderef Hload].
    cbn [unsafe_for_loop]. rewrite iterator_eqb_valid, Hderef.
    cbn [mbind outcome_bind]. unfold address in *. rewrite Hload.
    cbn [mbind outcome_bind].
    rewrite (Next_pushing q L j d k H Hlim Hj Hk). cbn [mbind outcome_bind].
    rewrite (drop_S _ _ _ Hx) in Hfuel |- *. simpl in Hfuel.
    destruct (decide (S k < length (q_vals d))%nat) as [Hin|Hlast].
    + rewrite (IH j d (S k) Hj Hin) by lia. reflexivity.
    + rewrite (drop_ge (q_vals d) (S k)) in Hfuel |- * by lia.
      simpl in Hfuel. simpl.
      destruct (L !! S j) as [d'|] eqn:Hj'.
      * destruct (pushing_blocks _ _ H (S j) d' Hj') as (_ & Hne & _).
        assert (H0 : (0 < length (q_vals d'))%nat)
          by (destruct (q_vals d'); [congruence|simpl; lia]).
        rewrite (drop_S _ _ _ Hj') in Hfuel |- *.
        rewrite contents_length_cons in Hfuel.
        pose proof (IH (S j) d' 0%nat Hj' H0) as IH0.
        change (Z.of_nat 0) with 0 in IH0.
        rewrite IH0 by (rewrite drop_0; lia).
        rewrite drop_0. reflexivity.
      * rewrite (drop_ge L (S j)) by (apply lookup_ge_None; exact Hj').
        destruct fuel; reflexivity.
Qed.

(** X24.  A traversal from [unsafe_begin()] to [unsafe_end()] of a queue
    that has only been pushed to reads the pushed values, oldest first;
    on an empty queue [unsafe_begin()] is [unsafe_end()]. *)
Theorem unsafe_iteration_after_pushes (xs : list Type_) (fuel : nat) :
  Z.of_nat (length xs) <= 2 ^ 62 -> (length xs <= fuel)%nat ->
  exists q : queue,
    push_all sizeof_Type xs create = Ok q /\
    unsafe_for fuel q = Ok xs /\
    (xs = [] -> unsafe_begin q = Ok unsafe_end).
Proof.
  intros Hlen Hfuel.
  destruct (push_all_spec sizeof_Type xs create [] pushing_create)
    as (q & L & Hpush & H & Hc).
  simpl in Hc. pose proof (pushing_repr _ _ H) as Hr.
  assert (Hlim : blocks_at_most_limit q).
  { apply (push_all_blocks_at_most_limit xs create q Hpush).
    intros b n. simpl. rewrite lookup_empty. discriminate. }
  exists q. split; [exact Hpush|].
  unfold unsafe_for, unsafe_begin.
  rewrite (unsafe_size_count q L Hr), Hc.
  rewrite wrap_small by (unfold size_limit; lia).
  cbn [mbind outcome_bind]. rewrite (repr_head _ _ Hr).
  destruct L as [|h X].
  - simpl in Hc. subst xs. simpl. split; [|reflexivity].
    destruct fuel; reflexivity.
  - destruct (pushing_blocks _ _ H 0%nat h eq_refl) as (_ & Hne & _).
    assert (H0 : (0 < length (q_vals h))%nat)
      by (destruct (q_vals h); [congruence|simpl; lia]).
    assert (Hpos : (0 < length xs)%nat)
      by (rewrite <- Hc, contents_length_cons; lia).
    rewrite (proj2 (Z.eqb_neq _ 0)) by lia. simpl.
    split; [|intros ->; simpl in Hpos; lia].
    pose proof (unsafe_for_loop_pushing q (h :: X) H Hlim fuel 0%nat h 0%nat
                  eq_refl H0) as Hloop.
    change (Z.of_nat 0) with 0 in Hloop. rewrite Hloop.
    + rewrite drop_0. simpl. rewrite drop_0. f_equal. exact Hc.
    + rewrite drop_0. simpl. rewrite drop_0.
      rewrite <- contents_length_cons, Hc. exact Hfuel.
Qed.

(** A successful [try_pop] destroys the element at [mUsedBegin] of the
    head block and nothing else. *)
Lemma try_pop_destroys (q q' : queue) dest h s :
  try_pop value_init q = Ok (true, dest, q') ->
  mQueue q = Some h -> mini_queues q !! h = Some s ->
  exists a, MiniQueue.mUsedBegin s = Some a /\
    cells (mAllocator q') = delete a (cells (mAllocator q)).
Proof.
  unfold try_pop. intros H Hq Hs. rewrite Hq, Hs in H.
  cbn [deref mbind outcome_bind] in H.
  destruct (decide _); [discriminate|].
  unfold Internal_Pop in H. rewrite Hq in H. cbn [deref mbind outcome_bind] in H.
  rewrite Hs in H. cbn [deref mbind outcome_bind] in H.
  apply bind_Ok in H as (? & _ & H). apply bind_Ok in H as (mem & Hmem & H).
  apply bind_Ok in H as (p & _ & H). cbn zeta in H.
  assert (Hdel : exists a, MiniQueue.mUsedBegin s = Some a /\
            cells mem = delete a (cells (mAllocator q))).
  { unfold destroy in Hmem.
    destruct (MiniQueue.mUsedBegin s) as [a0|]; [|discriminate].
    destruct (in_block (mAllocator q) a0); [|discriminate].
    injection Hmem as <-. exists a0. split; reflexivity. }
  destruct (decide _); [|injection H as _ <-; exact Hdel].
  destruct (decide _); [|injection H as _ <-; exact Hdel].
  apply bind_Ok in H as (tl & _ & H). apply bind_Ok in H as (se & _ & H).
  cbn zeta in H. apply bind_Ok in H as (sh & _ & H).
  injection H as _ <-. exact Hdel.
Qed.

(** X25.  After [push] of at least two values and one [try_pop], the
    iterator [unsafe_begin()] is valid and designates the cell the popped
    element was in, not the oldest element of the queue: reading through
    it reads a destroyed element, and so does every traversal. *)
Theorem unsafe_begin_after_pop (xs : list Type_) :
  2 <= Z.of_nat (length xs) <= 2 ^ 62 ->
  exists (q q' : queue) (x0 : Type_) (it : iterator) (a : address),
    push_all sizeof_Type xs create = Ok q /\
    xs !! 0%nat = Some x0 /\
    try_pop value_init q = Ok (true, x0, q') /\
    unsafe_begin q' = Ok it /\ isValid it = true /\
    iterator_deref it q' = Ok a /\
    cells (mAllocator q) !! a = Some x0 /\
    cells (mAllocator q') !! a = None /\
    load (Some a) (mAllocator q') = Undefined /\
    forall fuel, unsafe_for (S fuel) q' = Undefined.
Proof.
  intros Hlen.
  destruct (push_all_spec sizeof_Type xs create [] pushing_create)
    as (q & L & Hpush & H & Hc).
  simpl in Hc. pose proof (pushing_repr _ _ H) as Hr.
  assert (Hmin : blocks_at_least_min q).
  { apply (push_all_blocks_at_least_min xs create q Hpush).
    intros b n. simpl. rewrite lookup_empty. discriminate. }
  pose proof (Min_segment_size_eval_cases sizeof_Type) as Hcases.
  fold Min_queue_size in Hcases.
  destruct L as [|h X]; [simpl in Hc; subst xs; simpl in Hlen; lia|].
  destruct (pushing_blocks _ _ H 0%nat h eq_refl) as (Hub & Hne & Hfull).
  destruct (repr_desc_ok _ _ _ _ Hr (eq_refl : (h :: X) !! 0%nat = Some h))
    as (Hb & _ & Hcur & Hcap & Hcells).
  destruct (repr_linked _ _ Hr 0%nat h eq_refl) as (s & Hs & _ & Hsu & _).
  pose proof (repr_head _ _ Hr) as Hhead. simpl in Hhead.
  unfold q_cur in *. rewrite Hub in *.
  assert (Hlen2 : (2 <= length (q_vals h))%nat).
  { destruct X as [|d' X'].
    - rewrite <- Hc in Hlen. unfold contents in Hlen. simpl in Hlen.
      rewrite app_nil_r in Hlen. lia.
    - specialize (Hfull ltac:(simpl; lia)).
      pose proof (Hmin _ _ Hb). lia. }
  destruct (q_vals h) as [|x0 [|x1 vs]] eqn:Hv; simpl in Hlen2; try lia.
  destruct (try_pop_head value_init q h X x0 (x1 :: vs) Hr Hv)
    as (q' & Hpop & Hblocks & [[_ Hr']|(_ & Hnil & _)]); [|discriminate].
  rewrite Hub in Hr'. simpl in Hr'.
  destruct (try_pop_destroys q q' x0 (q_node h) s Hpop Hhead Hs)
    as (a0 & Ha0 & Hdel).
  rewrite Hsu in Ha0. injection Ha0 as <-.
  set (it := {| mMiniQueue := Some (q_node h); mElementIdxInMiniQueue := 0;
                isValid := true |}).
  assert (Hbegin : unsafe_begin q' = Ok it).
  { unfold unsafe_begin. rewrite (unsafe_size_count q' _ Hr').
    rewrite contents_length_cons. simpl.
    assert (Hn : Z.of_nat (length xs)
                 = Z.of_nat (S (S (length vs + length (contents X))))).
    { rewrite <- Hc, contents_length_cons, Hv. simpl. lia. }
    rewrite wrap_small by (unfold size_limit; lia).
    rewrite (proj2 (Z.eqb_neq _ 0)) by lia.
    rewrite (repr_head _ _ Hr'). reflexivity. }
  assert (Hderef : iterator_deref it q' = Ok (q_blk h, 0)).
  { destruct (repr_linked _ _ Hr' 0%nat _ eq_refl) as (s' & Hs' & Hsb' & _).
    simpl in Hs', Hsb'.
    unfold iterator_deref, get_mini_queue. simpl. rewrite Hs'. simpl.
    rewrite Hsb'. reflexivity. }
  assert (Hcell : cells (mAllocator q') !! (q_blk h, 0) = None)
    by (rewrite Hdel; apply lookup_delete_eq).
  assert (Hload : load (Some (q_blk h, 0)) (mAllocator q') = Undefined).
  { unfold load, in_block. simpl. rewrite Hblocks, Hb.
    rewrite (proj2 (Z.ltb_lt 0 (q_cap h))) by lia. simpl.
    unfold address in *. rewrite Hcell. reflexivity. }
  exists q, q', x0, it, (q_blk h, 0).
  split; [exact Hpush|].
  split; [rewrite <- Hc; unfold contents; simpl; rewrite Hv; reflexivity|].
  split; [exact Hpop|]. split; [exact Hbegin|]. split; [reflexivity|].
  split; [exact Hderef|].
  split; [specialize (Hcells 0%nat x0 eq_refl); exact Hcells|].
  split; [exact Hcell|]. split; [exact Hload|].
  intros fuel. unfold unsafe_for. rewrite Hbegin. cbn [mbind outcome_bind].
  cbn [unsafe_for_loop]. unfold it at 1. rewrite iterator_eqb_valid.
  fold it. rewrite Hderef. cbn [mbind outcome_bind].
  unfold address in *. rewrite Hload. reflexivity.
Qed.

End more.

Lemma size_and_empty_after_pops_witness :
  (2 <= length [10; 20; 30])%nat /\
  exists (q1 q2 : @concurrent_queue Z),
    push_all 8 [10; 20; 30] create = Ok q1 /\
    try_pop_n 0 2 q1 = Ok ((fun v => (true, v)) <$> take 2 [10; 20; 30], q2) /\
    unsafe_size q2 = Ok (wrap (Z.of_nat (length [10; 20; 30] - 2))) /\
    empty q2 = Ok (bool_decide (2%nat = length [10; 20; 30])).
Proof.
  split; [simpl; lia|].
  apply (size_and_empty_after_pops 8 0 [10; 20; 30] 2). simpl. lia.
Defined.

Lemma queue_growth_policy_witness :
  Z.of_nat (length [1; 2; 3; 4; 5; 6; 7; 8]) <= 2 ^ 62 /\
  exists (q q' : @concurrent_queue Z),
    push_all 32 [1; 2; 3; 4; 5; 6; 7; 8] create = Ok q /\
    push 32 9 q = Ok q' /\
    (blocks (mAllocator q') = blocks (mAllocator q) \/
     blocks (mAllocator q')
     = <[next_block (mAllocator q) :=
           Z.max (Min_queue_size 32)
             (Z.of_nat (length [1; 2; 3; 4; 5; 6; 7; 8]) / 2)]>
         (blocks (mAllocator q))) /\
    (forall b n, blocks (mAllocator q') !! b = Some n -> Min_queue_size 32 <= n).
Proof.
  split; [simpl; lia|].
  apply (queue_growth_policy 32 [1; 2; 3; 4; 5; 6; 7; 8] 9). simpl. lia.
Defined.

Lemma destructor_releases_everything_witness :
  (2 <= length [10; 20; 30])%nat /\
  exists (q1 q2 q3 : @concurrent_queue Z),
    push_all 8 [10; 20; 30] create = Ok q1 /\
    try_pop_n 0 2 q1 = Ok ((fun v => (true, v)) <$> take 2 [10; 20; 30], q2) /\
    Finalise q2 = Ok q3 /\
    blocks (mAllocator q3) = ∅ /\ mini_queues q3 = ∅ /\
    cells (mAllocator q3) = ∅.
Proof.
  split; [simpl; lia|].
  apply (destructor_releases_everything 8 0 [10; 20; 30] 2). simpl. lia.
Defined.

Lemma unsafe_iteration_after_pushes_witness :
  Z.of_nat (length [10; 20; 30]) <= 2 ^ 62 /\
  (length [10; 20; 30] <= 3)%nat /\
  exists q : @concurrent_queue Z,
    push_all 8 [10; 20; 30] create = Ok q /\
    unsafe_for 3 q = Ok [10; 20; 30] /\
    ([10; 20; 30] = [] -> unsafe_begin q = Ok unsafe_end).
Proof.
  split; [simpl; lia|]. split; [simpl; lia|].
  apply (unsafe_iteration_after_pushes 8 [10; 20; 30] 3); simpl; lia.
Defined.

(** Forty values go to two blocks; the traversal crosses from the first
    to the second. *)
Example unsafe_iteration_two_blocks :
  exists q : @concurrent_queue Z,
    push_all 8 (Z.of_nat <$> seq 0 40) create = Ok q /\
    size (blocks (mAllocator q)) = 2%nat /\
    unsafe_for 40 q = Ok (Z.of_nat <$> seq 0 40).
Proof.
  eexists. split; [vm_compute; reflexivity|].
  split; vm_compute; reflexivity.
Qed.

Lemma unsafe_begin_after_pop_witness :
  2 <= Z.of_nat (length [10; 20; 30]) <= 2 ^ 62 /\
  exists (q q' : @concurrent_queue Z) (x0 : Z) (it : iterator) (a : address),
    push_all 8 [10; 20; 30] create = Ok q /\
    [10; 20; 30] !! 0%nat = Some x0 /\
    try_pop 0 q = Ok (true, x0, q') /\
    unsafe_begin q' = Ok it /\ isValid it = true /\
    iterator_deref it q' = Ok a /\
    cells (mAllocator q) !! a = Some x0 /\
    cells (mAllocator q') !! a = None /\
    load (Some a) (mAllocator q') = Undefined /\
    forall fuel, unsafe_for (S fuel) q' = Undefined.
Proof.
  split; [simpl; lia|].
  apply (unsafe_begin_after_pop 8 0 [10; 20; 30]). simpl. lia.
Defined.

End QueueMore.
